(** * Porto container lifecycle engine

    A shallow embedding of the container registry of [src/container.cpp]
    and of the client identification of [src/client.cpp].

    Containers are heap objects that point at each other ([Parent],
    [Children]); the registry [Containers] maps names to them.  Calls into
    the kernel, the cgroup tree, the network and the key-value store are
    answered by an oracle ([TKernel]); what the daemon asks of them is
    written to the world's [Log]. *)

From Stdlib Require Import ZArith NArith String Ascii List Bool Lia DecimalString DecimalN.
From stdpp Require Import gmap strings list sorting.

Set Default Proof Using "Type".

(** ** Errors *)

Inductive EError :=
  | Success | Unknown | InvalidValue | InvalidState | InvalidProperty
  | ContainerAlreadyExists | ContainerDoesNotExist | Permission
  | NotSupported | ResourceNotAvailable | NoSpace | Busy | Queued.

#[global] Instance EError_eq_dec : EqDecision EError.
Proof. solve_decision. Defined.

(** [TError]: the kind and the errno; the free-text message is left out. *)
Record TError := mkError { Kind : EError; Errno : Z }.

#[global] Instance TError_eq_dec : EqDecision TError.
Proof. solve_decision. Defined.

Definition TSuccess : TError := mkError Success 0.
Definition Err (k : EError) : TError := mkError k 0.

(** [if (error)] *)
Definition failed (e : TError) : bool := negb (bool_decide (Kind e = Success)).

Definition ENOENT : Z := 2.
Definition ENOMEM : Z := 12.
Definition EBUSY : Z := 16.
Definition ENOSPC : Z := 28.

(** ** Constants of the headers

    [CONTAINER_PATH_MAX], [CONTAINER_NAME_MAX], [CONTAINER_LEVEL_MAX] and
    [NR_SERVICE_CONTAINERS] are macros of a header, [max_total] is read from
    the daemon's configuration and [SIGRTMIN] comes from the C library: the
    model takes them as parameters. *)
Class TConfig := {
  CONTAINER_PATH_MAX : nat;
  CONTAINER_NAME_MAX : nat;
  CONTAINER_LEVEL_MAX : nat;
  NR_SERVICE_CONTAINERS : nat;
  max_total : nat;
  SIGRTMIN : Z;
  legacy_porto : bool;
  all_controllers : bool;
  cpuacct_own_hierarchy : bool;
  default_aging_time_s : Z
}.

Definition ROOT_CONTAINER : string := "/".
Definition SELF_CONTAINER : string := "self".
Definition DOT_CONTAINER : string := ".".

(** ** Container names *)

Definition NUL : ascii := "000"%char.

(** [name[i]]: the i-th character, and ['\0'] at [i = name.length()]. *)
Definition char_at (name : string) (i : nat) : ascii :=
  default NUL (String.get i name).

Definition in_range (lo hi : nat) (c : ascii) : bool :=
  (lo <=? nat_of_ascii c)%nat && (nat_of_ascii c <=? hi)%nat.

(** The characters of the second group of [case] labels in [ValidName]. *)
Definition name_char (c : ascii) : bool :=
  in_range 97 122 c || in_range 65 90 c || in_range 48 57 c
  || Ascii.eqb c "_" || Ascii.eqb c "-" || Ascii.eqb c "@"
  || Ascii.eqb c ":" || Ascii.eqb c ".".

(** The first group of [case] labels: ['/'] and ['\0']. *)
Definition name_sep (c : ascii) : bool := Ascii.eqb c "/" || Ascii.eqb c NUL.

Section Names.
Context {cfg : TConfig}.

(** The [for] loop of [ValidName]: [steps] iterations are left, [i] is the
    loop counter and [first] the start of the current component. *)
Fixpoint ValidName_loop (steps : nat) (name : string) (first i : nat) : TError :=
  match steps with
  | O => TSuccess
  | S steps' =>
      let c := char_at name i in
      if name_sep c then
        if (i =? first)%nat then Err InvalidValue
        else if (CONTAINER_NAME_MAX <? i - first)%nat then Err InvalidValue
        else if String.eqb (substring first (i - first) name) SELF_CONTAINER
        then Err InvalidValue
        else if String.eqb (substring first (i - first) name) DOT_CONTAINER
        then Err InvalidValue
        else ValidName_loop steps' name (i + 1) (i + 1)
      else if name_char c then ValidName_loop steps' name first (i + 1)
      else Err InvalidValue
  end.

Definition ValidName (name : string) : TError :=
  if (String.length name =? 0)%nat then Err InvalidValue
  else if (CONTAINER_PATH_MAX <? String.length name)%nat then Err InvalidValue
  else if Ascii.eqb (char_at name 0) "/" then
    if String.eqb name ROOT_CONTAINER then TSuccess else Err InvalidValue
  else ValidName_loop (S (String.length name)) name 0 0.

End Names.

(** [name.rfind(c)]: the index of the last [c], scanning from index [i]. *)
Fixpoint rfind_from (c : ascii) (s : string) (i : nat) (last : option nat) : option nat :=
  match s with
  | EmptyString => last
  | String d s' => rfind_from c s' (S i) (if Ascii.eqb d c then Some i else last)
  end.

Definition rfind (c : ascii) (s : string) : option nat := rfind_from c s 0 None.

Definition ParentName (name : string) : string :=
  match rfind "/" name with
  | None => ROOT_CONTAINER
  | Some sep => substring 0 sep name
  end.

(** ** Container records *)

Inductive EContainerState := Stopped | Dead | Running | Paused | Meta | Destroyed.

#[global] Instance EContainerState_eq_dec : EqDecision EContainerState.
Proof. solve_decision. Defined.

(** [EAccessLevel], in the order of its declaration: [std::min] and the
    comparisons of the source go by [rank]. *)
Module EAccessLevel.
Inductive t := None | ReadOnly | ChildOnly | Normal | SuperUser | Internal.

Definition rank (a : t) : nat :=
  match a with
  | None => 0 | ReadOnly => 1 | ChildOnly => 2
  | Normal => 3 | SuperUser => 4 | Internal => 5
  end.

Definition ltb (a b : t) : bool := (rank a <? rank b)%nat.
Definition leb (a b : t) : bool := (rank a <=? rank b)%nat.

(** [std::min(a, b)]: [b] when [b < a], else [a]. *)
Definition min (a b : t) : t := if ltb b a then b else a.
End EAccessLevel.

#[global] Instance EAccessLevel_eq_dec : EqDecision EAccessLevel.t.
Proof. solve_decision. Defined.

Inductive EVirtMode := VIRT_MODE_APP | VIRT_MODE_OS.

#[global] Instance EVirtMode_eq_dec : EqDecision EVirtMode.
Proof. solve_decision. Defined.

(** The property keys the modelled functions mark ([SetProp], [ClearProp],
    [TestClearPropDirty]). *)
Inductive EProperty :=
  | P_STATE | P_ROOT_PID | P_EXIT_STATUS | P_OOM_KILLED | P_DEATH_TIME
  | P_START_TIME | P_RESPAWN_COUNT | P_LOOP_DEV | P_USER | P_GROUP
  | P_MEM_GUARANTEE | P_MEM_LIMIT | P_ANON_LIMIT | P_DIRTY_LIMIT
  | P_RECHARGE_ON_PGFAULT | P_IO_LIMIT | P_IO_OPS_LIMIT | P_IO_POLICY
  | P_CPU_POLICY | P_CPU_LIMIT | P_CPU_GUARANTEE
  | P_NET_PRIO | P_NET_LIMIT | P_NET_GUARANTEE | P_OTHER (n : nat).

#[global] Instance EProperty_eq_dec : EqDecision EProperty.
Proof. solve_decision. Defined.

Definition EProperty_index (p : EProperty) : nat :=
  match p with
  | P_STATE => 0 | P_ROOT_PID => 1 | P_EXIT_STATUS => 2 | P_OOM_KILLED => 3
  | P_DEATH_TIME => 4 | P_START_TIME => 5 | P_RESPAWN_COUNT => 6
  | P_LOOP_DEV => 7 | P_USER => 8 | P_GROUP => 9 | P_MEM_GUARANTEE => 10
  | P_MEM_LIMIT => 11 | P_ANON_LIMIT => 12 | P_DIRTY_LIMIT => 13
  | P_RECHARGE_ON_PGFAULT => 14 | P_IO_LIMIT => 15 | P_IO_OPS_LIMIT => 16
  | P_IO_POLICY => 17 | P_CPU_POLICY => 18 | P_CPU_LIMIT => 19
  | P_CPU_GUARANTEE => 20 | P_NET_PRIO => 21 | P_NET_LIMIT => 22
  | P_NET_GUARANTEE => 23 | P_OTHER n => 24 + n
  end.

Definition EProperty_of_index (i : nat) : EProperty :=
  match i with
  | 0 => P_STATE | 1 => P_ROOT_PID | 2 => P_EXIT_STATUS | 3 => P_OOM_KILLED
  | 4 => P_DEATH_TIME | 5 => P_START_TIME | 6 => P_RESPAWN_COUNT
  | 7 => P_LOOP_DEV | 8 => P_USER | 9 => P_GROUP | 10 => P_MEM_GUARANTEE
  | 11 => P_MEM_LIMIT | 12 => P_ANON_LIMIT | 13 => P_DIRTY_LIMIT
  | 14 => P_RECHARGE_ON_PGFAULT | 15 => P_IO_LIMIT | 16 => P_IO_OPS_LIMIT
  | 17 => P_IO_POLICY | 18 => P_CPU_POLICY | 19 => P_CPU_LIMIT
  | 20 => P_CPU_GUARANTEE | 21 => P_NET_PRIO | 22 => P_NET_LIMIT
  | 23 => P_NET_GUARANTEE | _ => P_OTHER (i - 24)
  end.

#[global] Instance EProperty_countable : Countable EProperty.
Proof.
  apply (inj_countable' EProperty_index EProperty_of_index).
  intros [ | | | | | | | | | | | | | | | | | | | | | | | | n]; try reflexivity.
  unfold EProperty_index, EProperty_of_index.
  replace (24 + n - 24) with n by lia. reflexivity.
Defined.

(** Addresses of heap objects. *)
Abbreviation addr := nat (only parsing).

(** Cgroup controller bits: distinct bits, as the masks of the source
    require; the header that numbers them is not part of the model. *)
Definition CGROUP_FREEZER : Z := 1.
Definition CGROUP_MEMORY : Z := 2.
Definition CGROUP_CPU : Z := 4.
Definition CGROUP_CPUACCT : Z := 8.
Definition CGROUP_NETCLS : Z := 16.
Definition CGROUP_BLKIO : Z := 32.
Definition CGROUP_DEVICES : Z := 64.
Definition CGROUP_LEGACY : Z := 32768.
Definition P_CONTROLLERS : EProperty := P_OTHER 0.
Definition P_COMMAND : EProperty := P_OTHER 1.

(** [Controllers & bit] as a condition. *)
Definition has_controller (controllers bit : Z) : bool :=
  negb (Z.land controllers bit =? 0)%Z.

(** Credentials: [IsMemberOf] holds of the group id and of the
    supplementary groups. *)
Record TCred := mkCred { Uid : Z; Gid : Z; Groups : list Z }.

#[global] Instance TCred_eq_dec : EqDecision TCred.
Proof. solve_decision. Defined.

Definition RootUser : Z := 0.
Definition RootGroup : Z := 0.
Definition NoUser : Z := 4294967295.
Definition NoGroup : Z := 4294967295.
Definition NoCred : TCred := mkCred NoUser NoGroup [].

Definition IsRootUser (cred : TCred) : bool := (Uid cred =? RootUser)%Z.

Definition IsMemberOf (cred : TCred) (group : Z) : bool :=
  (Gid cred =? group)%Z || existsb (Z.eqb group) (Groups cred).

(** The fields of [TContainer] that the modelled functions read or write.
    [PropSet] and [PropDirty] list the keys whose bit is set. [WorkDir],
    [Cgroups] say whether the host holds the working directory and the
    cgroups of this container; [OomMonitor] is the eventfd with its epoll
    source; [Net] the network handle. *)
Record TContainer := mkContainer {
  Name : string;
  Parent : option addr;
  Children : list addr;
  Level : nat;
  State : EContainerState;
  RunningChildren : Z;
  Locked : Z;
  AccessLevel : EAccessLevel.t;
  Isolate : bool;
  VirtMode : EVirtMode;
  Command : string;
  Controllers : Z;
  IsWeak : bool;
  OwnerCred : TCred;
  ToRespawn : bool;
  MaxRespawns : Z;
  RespawnCount : Z;
  AgingTime : Z;
  MemLimit : Z;
  TaskPid : Z;
  TaskVPid : Z;
  WaitTaskPid : Z;
  ExitStatus : Z;
  OomKilled : bool;
  DeathTime : Z;
  StartTime : Z;
  WorkDir : bool;
  Cgroups : bool;
  OomMonitor : bool;
  Net : option nat;
  RootVolume : bool;
  LoopDev : Z;
  PropSet : gset EProperty;
  PropDirty : gset EProperty
}.

(** Field updates: [set_F v c] is [c] with [F := v]. *)

Definition set_Children (v : list addr) (c : TContainer) : TContainer :=
  mkContainer (Name c) (Parent c) v (Level c) (State c) (RunningChildren c)
    (Locked c) (AccessLevel c) (Isolate c) (VirtMode c) (Command c)
    (Controllers c) (IsWeak c) (OwnerCred c) (ToRespawn c) (MaxRespawns c)
    (RespawnCount c) (AgingTime c) (MemLimit c) (TaskPid c) (TaskVPid c)
    (WaitTaskPid c) (ExitStatus c) (OomKilled c) (DeathTime c) (StartTime c)
    (WorkDir c) (Cgroups c) (OomMonitor c) (Net c) (RootVolume c) (LoopDev c)
    (PropSet c) (PropDirty c).

Definition set_VirtMode (v : EVirtMode) (c : TContainer) : TContainer :=
  mkContainer (Name c) (Parent c) (Children c) (Level c) (State c) (RunningChildren c)
    (Locked c) (AccessLevel c) (Isolate c) v (Command c)
    (Controllers c) (IsWeak c) (OwnerCred c) (ToRespawn c) (MaxRespawns c)
    (RespawnCount c) (AgingTime c) (MemLimit c) (TaskPid c) (TaskVPid c)
    (WaitTaskPid c) (ExitStatus c) (OomKilled c) (DeathTime c) (StartTime c)
    (WorkDir c) (Cgroups c) (OomMonitor c) (Net c) (RootVolume c) (LoopDev c)
    (PropSet c) (PropDirty c).

Definition set_Command (v : string) (c : TContainer) : TContainer :=
  mkContainer (Name c) (Parent c) (Children c) (Level c) (State c) (RunningChildren c)
    (Locked c) (AccessLevel c) (Isolate c) (VirtMode c) v
    (Controllers c) (IsWeak c) (OwnerCred c) (ToRespawn c) (MaxRespawns c)
    (RespawnCount c) (AgingTime c) (MemLimit c) (TaskPid c) (TaskVPid c)
    (WaitTaskPid c) (ExitStatus c) (OomKilled c) (DeathTime c) (StartTime c)
    (WorkDir c) (Cgroups c) (OomMonitor c) (Net c) (RootVolume c) (LoopDev c)
    (PropSet c) (PropDirty c).

Definition set_State (v : EContainerState) (c : TContainer) : TContainer :=
  mkContainer (Name c) (Parent c) (Children c) (Level c) v (RunningChildren c)
    (Locked c) (AccessLevel c) (Isolate c) (VirtMode c) (Command c)
    (Controllers c) (IsWeak c) (OwnerCred c) (ToRespawn c) (MaxRespawns c)
    (RespawnCount c) (AgingTime c) (MemLimit c) (TaskPid c) (TaskVPid c)
    (WaitTaskPid c) (ExitStatus c) (OomKilled c) (DeathTime c) (StartTime c)
    (WorkDir c) (Cgroups c) (OomMonitor c) (Net c) (RootVolume c) (LoopDev c)
    (PropSet c) (PropDirty c).

Definition set_RunningChildren (v : Z) (c : TContainer) : TContainer :=
  mkContainer (Name c) (Parent c) (Children c) (Level c) (State c) v
    (Locked c) (AccessLevel c) (Isolate c) (VirtMode c) (Command c)
    (Controllers c) (IsWeak c) (OwnerCred c) (ToRespawn c) (MaxRespawns c)
    (RespawnCount c) (AgingTime c) (MemLimit c) (TaskPid c) (TaskVPid c)
    (WaitTaskPid c) (ExitStatus c) (OomKilled c) (DeathTime c) (StartTime c)
    (WorkDir c) (Cgroups c) (OomMonitor c) (Net c) (RootVolume c) (LoopDev c)
    (PropSet c) (PropDirty c).

Definition set_Locked (v : Z) (c : TContainer) : TContainer :=
  mkContainer (Name c) (Parent c) (Children c) (Level c) (State c)
    (RunningChildren c) v (AccessLevel c) (Isolate c) (VirtMode c) (Command c)
    (Controllers c) (IsWeak c) (OwnerCred c) (ToRespawn c) (MaxRespawns c)
    (RespawnCount c) (AgingTime c) (MemLimit c) (TaskPid c) (TaskVPid c)
    (WaitTaskPid c) (ExitStatus c) (OomKilled c) (DeathTime c) (StartTime c)
    (WorkDir c) (Cgroups c) (OomMonitor c) (Net c) (RootVolume c) (LoopDev c)
    (PropSet c) (PropDirty c).

Definition set_AccessLevel (v : EAccessLevel.t) (c : TContainer) : TContainer :=
  mkContainer (Name c) (Parent c) (Children c) (Level c) (State c)
    (RunningChildren c) (Locked c) v (Isolate c) (VirtMode c) (Command c)
    (Controllers c) (IsWeak c) (OwnerCred c) (ToRespawn c) (MaxRespawns c)
    (RespawnCount c) (AgingTime c) (MemLimit c) (TaskPid c) (TaskVPid c)
    (WaitTaskPid c) (ExitStatus c) (OomKilled c) (DeathTime c) (StartTime c)
    (WorkDir c) (Cgroups c) (OomMonitor c) (Net c) (RootVolume c) (LoopDev c)
    (PropSet c) (PropDirty c).

Definition set_OwnerCred (v : TCred) (c : TContainer) : TContainer :=
  mkContainer (Name c) (Parent c) (Children c) (Level c) (State c)
    (RunningChildren c) (Locked c) (AccessLevel c) (Isolate c) (VirtMode c)
    (Command c) (Controllers c) (IsWeak c) v (ToRespawn c) (MaxRespawns c)
    (RespawnCount c) (AgingTime c) (MemLimit c) (TaskPid c) (TaskVPid c)
    (WaitTaskPid c) (ExitStatus c) (OomKilled c) (DeathTime c) (StartTime c)
    (WorkDir c) (Cgroups c) (OomMonitor c) (Net c) (RootVolume c) (LoopDev c)
    (PropSet c) (PropDirty c).

Definition set_RespawnCount (v : Z) (c : TContainer) : TContainer :=
  mkContainer (Name c) (Parent c) (Children c) (Level c) (State c)
    (RunningChildren c) (Locked c) (AccessLevel c) (Isolate c) (VirtMode c)
    (Command c) (Controllers c) (IsWeak c) (OwnerCred c) (ToRespawn c)
    (MaxRespawns c) v (AgingTime c) (MemLimit c) (TaskPid c) (TaskVPid c)
    (WaitTaskPid c) (ExitStatus c) (OomKilled c) (DeathTime c) (StartTime c)
    (WorkDir c) (Cgroups c) (OomMonitor c) (Net c) (RootVolume c) (LoopDev c)
    (PropSet c) (PropDirty c).

Definition set_MemLimit (v : Z) (c : TContainer) : TContainer :=
  mkContainer (Name c) (Parent c) (Children c) (Level c) (State c)
    (RunningChildren c) (Locked c) (AccessLevel c) (Isolate c) (VirtMode c)
    (Command c) (Controllers c) (IsWeak c) (OwnerCred c) (ToRespawn c)
    (MaxRespawns c) (RespawnCount c) (AgingTime c) v (TaskPid c) (TaskVPid c)
    (WaitTaskPid c) (ExitStatus c) (OomKilled c) (DeathTime c) (StartTime c)
    (WorkDir c) (Cgroups c) (OomMonitor c) (Net c) (RootVolume c) (LoopDev c)
    (PropSet c) (PropDirty c).

Definition set_TaskPid (v : Z) (c : TContainer) : TContainer :=
  mkContainer (Name c) (Parent c) (Children c) (Level c) (State c)
    (RunningChildren c) (Locked c) (AccessLevel c) (Isolate c) (VirtMode c)
    (Command c) (Controllers c) (IsWeak c) (OwnerCred c) (ToRespawn c)
    (MaxRespawns c) (RespawnCount c) (AgingTime c) (MemLimit c) v (TaskVPid c)
    (WaitTaskPid c) (ExitStatus c) (OomKilled c) (DeathTime c) (StartTime c)
    (WorkDir c) (Cgroups c) (OomMonitor c) (Net c) (RootVolume c) (LoopDev c)
    (PropSet c) (PropDirty c).

Definition set_TaskVPid (v : Z) (c : TContainer) : TContainer :=
  mkContainer (Name c) (Parent c) (Children c) (Level c) (State c)
    (RunningChildren c) (Locked c) (AccessLevel c) (Isolate c) (VirtMode c)
    (Command c) (Controllers c) (IsWeak c) (OwnerCred c) (ToRespawn c)
    (MaxRespawns c) (RespawnCount c) (AgingTime c) (MemLimit c) (TaskPid c) v
    (WaitTaskPid c) (ExitStatus c) (OomKilled c) (DeathTime c) (StartTime c)
    (WorkDir c) (Cgroups c) (OomMonitor c) (Net c) (RootVolume c) (LoopDev c)
    (PropSet c) (PropDirty c).

Definition set_WaitTaskPid (v : Z) (c : TContainer) : TContainer :=
  mkContainer (Name c) (Parent c) (Children c) (Level c) (State c)
    (RunningChildren c) (Locked c) (AccessLevel c) (Isolate c) (VirtMode c)
    (Command c) (Controllers c) (IsWeak c) (OwnerCred c) (ToRespawn c)
    (MaxRespawns c) (RespawnCount c) (AgingTime c) (MemLimit c) (TaskPid c)
    (TaskVPid c) v (ExitStatus c) (OomKilled c) (DeathTime c) (StartTime c)
    (WorkDir c) (Cgroups c) (OomMonitor c) (Net c) (RootVolume c) (LoopDev c)
    (PropSet c) (PropDirty c).

Definition set_ExitStatus (v : Z) (c : TContainer) : TContainer :=
  mkContainer (Name c) (Parent c) (Children c) (Level c) (State c)
    (RunningChildren c) (Locked c) (AccessLevel c) (Isolate c) (VirtMode c)
    (Command c) (Controllers c) (IsWeak c) (OwnerCred c) (ToRespawn c)
    (MaxRespawns c) (RespawnCount c) (AgingTime c) (MemLimit c) (TaskPid c)
    (TaskVPid c) (WaitTaskPid c) v (OomKilled c) (DeathTime c) (StartTime c)
    (WorkDir c) (Cgroups c) (OomMonitor c) (Net c) (RootVolume c) (LoopDev c)
    (PropSet c) (PropDirty c).

Definition set_OomKilled (v : bool) (c : TContainer) : TContainer :=
  mkContainer (Name c) (Parent c) (Children c) (Level c) (State c)
    (RunningChildren c) (Locked c) (AccessLevel c) (Isolate c) (VirtMode c)
    (Command c) (Controllers c) (IsWeak c) (OwnerCred c) (ToRespawn c)
    (MaxRespawns c) (RespawnCount c) (AgingTime c) (MemLimit c) (TaskPid c)
    (TaskVPid c) (WaitTaskPid c) (ExitStatus c) v (DeathTime c) (StartTime c)
    (WorkDir c) (Cgroups c) (OomMonitor c) (Net c) (RootVolume c) (LoopDev c)
    (PropSet c) (PropDirty c).

Definition set_DeathTime (v : Z) (c : TContainer) : TContainer :=
  mkContainer (Name c) (Parent c) (Children c) (Level c) (State c)
    (RunningChildren c) (Locked c) (AccessLevel c) (Isolate c) (VirtMode c)
    (Command c) (Controllers c) (IsWeak c) (OwnerCred c) (ToRespawn c)
    (MaxRespawns c) (RespawnCount c) (AgingTime c) (MemLimit c) (TaskPid c)
    (TaskVPid c) (WaitTaskPid c) (ExitStatus c) (OomKilled c) v (StartTime c)
    (WorkDir c) (Cgroups c) (OomMonitor c) (Net c) (RootVolume c) (LoopDev c)
    (PropSet c) (PropDirty c).

Definition set_StartTime (v : Z) (c : TContainer) : TContainer :=
  mkContainer (Name c) (Parent c) (Children c) (Level c) (State c)
    (RunningChildren c) (Locked c) (AccessLevel c) (Isolate c) (VirtMode c)
    (Command c) (Controllers c) (IsWeak c) (OwnerCred c) (ToRespawn c)
    (MaxRespawns c) (RespawnCount c) (AgingTime c) (MemLimit c) (TaskPid c)
    (TaskVPid c) (WaitTaskPid c) (ExitStatus c) (OomKilled c) (DeathTime c) v
    (WorkDir c) (Cgroups c) (OomMonitor c) (Net c) (RootVolume c) (LoopDev c)
    (PropSet c) (PropDirty c).

Definition set_WorkDir (v : bool) (c : TContainer) : TContainer :=
  mkContainer (Name c) (Parent c) (Children c) (Level c) (State c)
    (RunningChildren c) (Locked c) (AccessLevel c) (Isolate c) (VirtMode c)
    (Command c) (Controllers c) (IsWeak c) (OwnerCred c) (ToRespawn c)
    (MaxRespawns c) (RespawnCount c) (AgingTime c) (MemLimit c) (TaskPid c)
    (TaskVPid c) (WaitTaskPid c) (ExitStatus c) (OomKilled c) (DeathTime c)
    (StartTime c) v (Cgroups c) (OomMonitor c) (Net c) (RootVolume c)
    (LoopDev c) (PropSet c) (PropDirty c).

Definition set_Cgroups (v : bool) (c : TContainer) : TContainer :=
  mkContainer (Name c) (Parent c) (Children c) (Level c) (State c)
    (RunningChildren c) (Locked c) (AccessLevel c) (Isolate c) (VirtMode c)
    (Command c) (Controllers c) (IsWeak c) (OwnerCred c) (ToRespawn c)
    (MaxRespawns c) (RespawnCount c) (AgingTime c) (MemLimit c) (TaskPid c)
    (TaskVPid c) (WaitTaskPid c) (ExitStatus c) (OomKilled c) (DeathTime c)
    (StartTime c) (WorkDir c) v (OomMonitor c) (Net c) (RootVolume c)
    (LoopDev c) (PropSet c) (PropDirty c).

Definition set_OomMonitor (v : bool) (c : TContainer) : TContainer :=
  mkContainer (Name c) (Parent c) (Children c) (Level c) (State c)
    (RunningChildren c) (Locked c) (AccessLevel c) (Isolate c) (VirtMode c)
    (Command c) (Controllers c) (IsWeak c) (OwnerCred c) (ToRespawn c)
    (MaxRespawns c) (RespawnCount c) (AgingTime c) (MemLimit c) (TaskPid c)
    (TaskVPid c) (WaitTaskPid c) (ExitStatus c) (OomKilled c) (DeathTime c)
    (StartTime c) (WorkDir c) (Cgroups c) v (Net c) (RootVolume c) (LoopDev c)
    (PropSet c) (PropDirty c).

Definition set_Net (v : option nat) (c : TContainer) : TContainer :=
  mkContainer (Name c) (Parent c) (Children c) (Level c) (State c)
    (RunningChildren c) (Locked c) (AccessLevel c) (Isolate c) (VirtMode c)
    (Command c) (Controllers c) (IsWeak c) (OwnerCred c) (ToRespawn c)
    (MaxRespawns c) (RespawnCount c) (AgingTime c) (MemLimit c) (TaskPid c)
    (TaskVPid c) (WaitTaskPid c) (ExitStatus c) (OomKilled c) (DeathTime c)
    (StartTime c) (WorkDir c) (Cgroups c) (OomMonitor c) v (RootVolume c)
    (LoopDev c) (PropSet c) (PropDirty c).

Definition set_RootVolume (v : bool) (c : TContainer) : TContainer :=
  mkContainer (Name c) (Parent c) (Children c) (Level c) (State c)
    (RunningChildren c) (Locked c) (AccessLevel c) (Isolate c) (VirtMode c)
    (Command c) (Controllers c) (IsWeak c) (OwnerCred c) (ToRespawn c)
    (MaxRespawns c) (RespawnCount c) (AgingTime c) (MemLimit c) (TaskPid c)
    (TaskVPid c) (WaitTaskPid c) (ExitStatus c) (OomKilled c) (DeathTime c)
    (StartTime c) (WorkDir c) (Cgroups c) (OomMonitor c) (Net c) v (LoopDev c)
    (PropSet c) (PropDirty c).

Definition set_LoopDev (v : Z) (c : TContainer) : TContainer :=
  mkContainer (Name c) (Parent c) (Children c) (Level c) (State c)
    (RunningChildren c) (Locked c) (AccessLevel c) (Isolate c) (VirtMode c)
    (Command c) (Controllers c) (IsWeak c) (OwnerCred c) (ToRespawn c)
    (MaxRespawns c) (RespawnCount c) (AgingTime c) (MemLimit c) (TaskPid c)
    (TaskVPid c) (WaitTaskPid c) (ExitStatus c) (OomKilled c) (DeathTime c)
    (StartTime c) (WorkDir c) (Cgroups c) (OomMonitor c) (Net c)
    (RootVolume c) v (PropSet c) (PropDirty c).

Definition set_PropSet (v : gset EProperty) (c : TContainer) : TContainer :=
  mkContainer (Name c) (Parent c) (Children c) (Level c) (State c)
    (RunningChildren c) (Locked c) (AccessLevel c) (Isolate c) (VirtMode c)
    (Command c) (Controllers c) (IsWeak c) (OwnerCred c) (ToRespawn c)
    (MaxRespawns c) (RespawnCount c) (AgingTime c) (MemLimit c) (TaskPid c)
    (TaskVPid c) (WaitTaskPid c) (ExitStatus c) (OomKilled c) (DeathTime c)
    (StartTime c) (WorkDir c) (Cgroups c) (OomMonitor c) (Net c)
    (RootVolume c) (LoopDev c) v (PropDirty c).

Definition set_PropDirty (v : gset EProperty) (c : TContainer) : TContainer :=
  mkContainer (Name c) (Parent c) (Children c) (Level c) (State c)
    (RunningChildren c) (Locked c) (AccessLevel c) (Isolate c) (VirtMode c)
    (Command c) (Controllers c) (IsWeak c) (OwnerCred c) (ToRespawn c)
    (MaxRespawns c) (RespawnCount c) (AgingTime c) (MemLimit c) (TaskPid c)
    (TaskVPid c) (WaitTaskPid c) (ExitStatus c) (OomKilled c) (DeathTime c)
    (StartTime c) (WorkDir c) (Cgroups c) (OomMonitor c) (Net c)
    (RootVolume c) (LoopDev c) (PropSet c) v.

(** The bookkeeping helpers of the class declaration, by what their names
    and uses say: [SetProp] sets both bits, [ClearProp] clears [PropSet] and
    marks the key dirty, [TestClearPropDirty] reads and clears the dirty
    bit. *)
Definition HasProp (p : EProperty) (c : TContainer) : bool :=
  bool_decide (p ∈ PropSet c).

Definition SetProp (p : EProperty) (c : TContainer) : TContainer :=
  set_PropDirty ({[p]} ∪ PropDirty c) (set_PropSet ({[p]} ∪ PropSet c) c).

Definition ClearProp (p : EProperty) (c : TContainer) : TContainer :=
  set_PropDirty ({[p]} ∪ PropDirty c) (set_PropSet (PropSet c ∖ {[p]}) c).

Definition TestClearPropDirty (p : EProperty) (c : TContainer) : bool * TContainer :=
  (bool_decide (p ∈ PropDirty c), set_PropDirty (PropDirty c ∖ {[p]}) c).

Definition IsRoot (c : TContainer) : bool := String.eqb (Name c) ROOT_CONTAINER.

(** [IsMeta()]: the container has no command. *)
Definition IsMeta (c : TContainer) : bool := String.eqb (Command c) "".

(** ** The world *)

(** What the daemon asks of the outside, in the order it asks. *)
Inductive TAction :=
  | ANotifyWaiters (ct : addr)
  | ANotifyAll
  | ASave (ct : addr)
  | ATerminate (ct : addr)
  | ATaskKill (ct : addr) (sig : Z)
  | AKillAll (ct : addr)
  | AFreeze (ct : addr)
  | AThaw (ct : addr)
  | AFreeResources (ct : addr)
  | ARotateStdout (ct : addr)
  | ARotateStderr (ct : addr)
  | AScheduleRespawn (ct : addr)
  | AUpdateSoftLimit (ct : addr)
  | ARemoveDead
  | ARefreshNetworks
  | AAckExitStatus (pid : Z)
  | AWakeupWaiter (waiter : nat)
  | APutId (ct : addr)
  | AUnlinkKV (ct : addr)
  | ATaskStart (ct : addr)
  | AUnlinkVolume (volume : nat) (ct : addr)
  | ADestroyVolume (volume : nat).

#[global] Instance TAction_eq_dec : EqDecision TAction.
Proof. solve_decision. Defined.

Record TWorld := mkWorld {
  Heap : list TContainer;
  Containers : gmap string addr;
  Log : list TAction
}.

Definition with_Heap (h : list TContainer) (w : TWorld) : TWorld :=
  mkWorld h (Containers w) (Log w).

Definition with_Containers (m : gmap string addr) (w : TWorld) : TWorld :=
  mkWorld (Heap w) m (Log w).

Definition emit (a : TAction) (w : TWorld) : TWorld :=
  mkWorld (Heap w) (Containers w) (Log w ++ [a]).

(** [ct->F = v] and friends: the object at [x] is replaced by [f] of it. *)
Definition upd (x : addr) (f : TContainer → TContainer) (w : TWorld) : TWorld :=
  with_Heap (alter f x (Heap w)) w.

(** ** The parent chain

    [for (ct = Parent.get(); ct; ct = ct->Parent.get())] visits the objects
    [chain] lists. The walk needs a bound in Rocq: [Level] is one, as the
    constructor sets [Level] to the parent's plus one ([chain_reaches_root]
    below). *)
Fixpoint chain (fuel : nat) (h : list TContainer) (p : option addr) : list addr :=
  match fuel, p with
  | S n, Some a => a :: chain n h (h !! a ≫= Parent)
  | _, _ => []
  end.

Definition ancestors (h : list TContainer) (x : addr) : list addr :=
  match h !! x with
  | Some c => chain (Level c) h (Parent c)
  | None => []
  end.

(** ** Hierarchical locks *)

(** How one pass of the [while (1)] of [Lock] ends: it returns, or it
    waits on [ContainersCV] and runs again when woken. *)
Inductive TLockResult := LockDone (e : TError) | LockBlocked.

Definition write_locked (h : list TContainer) (a : addr) : bool :=
  match h !! a with
  | Some ct => (Locked ct <? 0)%Z
  | None => false
  end.

(** The value of [busy] when the loop tests it. *)
Definition lock_busy (h : list TContainer) (x : addr) (shared : bool) : bool :=
  match h !! x with
  | Some c =>
      fold_left (fun busy ct => busy || write_locked h ct) (ancestors h x)
        (negb (Locked c =? 0)%Z && ((Locked c <? 0)%Z || negb shared))
  | None => false
  end.

Definition Lock (x : addr) (shared try_lock : bool) (w : TWorld) : TLockResult * TWorld :=
  match Heap w !! x with
  | Some c =>
      if bool_decide (State c = Destroyed) then
        (LockDone (Err ContainerDoesNotExist), w)
      else if lock_busy (Heap w) x shared then
        if try_lock then (LockDone (Err Busy), w) else (LockBlocked, w)
      else
        let w1 := upd x (fun c => set_Locked (Locked c + (if shared then 1 else -1))%Z c) w in
        (LockDone TSuccess,
         fold_left (fun w ct => upd ct (fun c => set_Locked (Locked c + 1)%Z c) w)
           (ancestors (Heap w) x) w1)
  | None => (LockDone (Err ContainerDoesNotExist), w)
  end.

Definition LockRead (x : addr) (try_lock : bool) (w : TWorld) : TLockResult * TWorld :=
  Lock x true try_lock w.

(** [Unlock]: [None] when a [PORTO_ASSERT] fails. *)
Definition Unlock_parent (ow : option TWorld) (ct : addr) : option TWorld :=
  w ← ow;
  c ← Heap w !! ct;
  if (0 <? Locked c)%Z then Some (upd ct (fun c => set_Locked (Locked c - 1)%Z c) w)
  else None.

Definition Unlock (x : addr) (w : TWorld) : option TWorld :=
  c ← Heap w !! x;
  if (Locked c =? 0)%Z then None
  else
    let w1 := upd x (fun c => set_Locked (Locked c + (if (0 <? Locked c)%Z then -1 else 1))%Z c) w in
    emit ANotifyAll <$> fold_left Unlock_parent (ancestors (Heap w) x) (Some w1).

(** ** The running-descendants counter *)

(** [size_t] arithmetic. *)
Definition wrap64 (z : Z) : Z := (z mod 2 ^ 64)%Z.

Definition NotifyWaiters (x : addr) (w : TWorld) : TWorld := emit (ANotifyWaiters x) w.

(** One activation of [UpdateRunningChildren], the call on the parent left
    to the caller. *)
Definition UpdateRunningChildren_at (diff : Z) (w : TWorld) (x : addr) : TWorld :=
  match Heap w !! x with
  | Some c =>
      let rc := wrap64 (RunningChildren c + diff) in
      let w1 := upd x (set_RunningChildren rc) w in
      if (rc =? 0)%Z && bool_decide (State c = Meta) then NotifyWaiters x w1 else w1
  | None => w
  end.

(** [UpdateRunningChildren(diff)] on [x]: itself, then its parent, and so
    on to the root. *)
Definition UpdateRunningChildren (diff : Z) (x : addr) (w : TWorld) : TWorld :=
  fold_left (UpdateRunningChildren_at diff) (x :: ancestors (Heap w) x) w.

Definition SetState (newState : EContainerState) (x : addr) (w : TWorld) : TWorld :=
  match Heap w !! x with
  | Some c =>
      if bool_decide (State c = newState) then w
      else
        let w1 :=
          if bool_decide (newState = Running) then UpdateRunningChildren 1 x w
          else if bool_decide (State c = Running)
          then UpdateRunningChildren (2 ^ 64 - 1) x w
          else w in
        let w2 := upd x (set_State newState) w1 in
        if negb (bool_decide (newState = Running)) && negb (bool_decide (newState = Meta))
        then NotifyWaiters x w2
        else w2
  | None => w
  end.

(** ** Construction and registration *)

Section Construction.
Context {cfg : TConfig}.

(** The constructor [TContainer(parent, name)]; [parent] is the parent's
    address and record. Members the constructor does not mention start from
    their default initialisers: state [Stopped], counters and pids zero, no
    resources. *)
Definition new_TContainer (parent : option (addr * TContainer)) (name : string) : TContainer :=
  let is_top := match parent with Some (_, pc) => IsRoot pc | None => true end in
  let controllers :=
    Z.lor (Z.lor (Z.lor CGROUP_FREEZER (if legacy_porto then CGROUP_LEGACY else 0))
                 (if cpuacct_own_hierarchy then CGROUP_CPUACCT else 0))
          (if is_top || all_controllers
           then Z.lor CGROUP_MEMORY (Z.lor CGROUP_CPU (Z.lor CGROUP_CPUACCT
                  (Z.lor CGROUP_NETCLS (Z.lor CGROUP_BLKIO CGROUP_DEVICES))))
           else 0)%Z in
  SetProp P_CONTROLLERS {|
    Name := name;
    Parent := fst <$> parent;
    Children := [];
    Level := match parent with Some (_, pc) => Level pc + 1 | None => 0 end;
    State := Stopped;
    RunningChildren := 0;
    Locked := 0;
    AccessLevel :=
      match parent with
      | Some (_, pc) =>
          if EAccessLevel.ltb (AccessLevel pc) EAccessLevel.ChildOnly
          then AccessLevel pc else EAccessLevel.Normal
      | None => EAccessLevel.Normal
      end;
    Isolate := true;
    VirtMode := VIRT_MODE_APP;
    Command := "";
    Controllers := controllers;
    IsWeak := false;
    OwnerCred := NoCred;
    ToRespawn := false;
    MaxRespawns := -1;
    RespawnCount := 0;
    AgingTime := default_aging_time_s * 1000;
    MemLimit := 0;
    TaskPid := 0;
    TaskVPid := 0;
    WaitTaskPid := 0;
    ExitStatus := 0;
    OomKilled := false;
    DeathTime := 0;
    StartTime := 0;
    WorkDir := false;
    Cgroups := false;
    OomMonitor := false;
    Net := None;
    RootVolume := false;
    LoopDev := -1;
    PropSet := ∅;
    PropDirty := ∅
  |}.

(** [Register]: the new object goes to the heap at the next free address,
    into the registry under its name and to the end of its parent's
    [Children]. *)
Definition Register (ct : TContainer) (w : TWorld) : TWorld :=
  let x := length (Heap w) in
  let w1 := mkWorld (Heap w ++ [ct]) (<[Name ct := x]> (Containers w)) (Log w) in
  match Parent ct with
  | Some p => upd p (fun pc => set_Children (Children pc ++ [x]) pc) w1
  | None => w1
  end.

End Construction.

(** [TContainer::Find(name)] *)
Definition Find (name : string) (w : TWorld) : option addr := Containers w !! name.

(** ** Clients *)

(** The fields of [TClient] that identification and access control use.
    [UserCtGroup] caches the id of the group ["<user>-containers"], zero
    until it is looked up. *)
Module Client.
Record t := mk {
  Pid : Z;
  TaskCred : TCred;
  Cred : TCred;
  AccessLevel : EAccessLevel.t;
  ClientContainer : option addr;
  Comm : string;
  UserCtGroup : Z
}.
End Client.

Abbreviation TClient := Client.t.

(** [TClient(const std::string &special)]: the system client. *)
Definition SystemClient : TClient :=
  Client.mk 0 NoCred (mkCred RootUser RootGroup []) EAccessLevel.Internal None "<system>" 0.

Definition PORTO_CGROUP_PREFIX : string := "/porto".

(** [std::replace(name.begin(), name.end(), from, to)] *)
Fixpoint replace_char (from to : ascii) (s : string) : string :=
  match s with
  | EmptyString => EmptyString
  | String c s' => String (if Ascii.eqb c from then to else c) (replace_char from to s')
  end.

Definition IsSuperUser (cl : TClient) : bool :=
  EAccessLevel.leb EAccessLevel.SuperUser (Client.AccessLevel cl).

(** ** The outside world

    The answers of the kernel, the cgroup tree and the key-value store to
    the calls of the modelled functions. [cg_is_empty ct n] is what
    [cg.IsEmpty()] says of the freezer cgroup of [ct] once [Terminate] has
    sent [n] signals to it. The volumes are objects of volume.cpp, outside
    the modelled files: [linked_volumes ct] lists what [Volumes.back()]
    of [ct] is, pass after pass, in the loop of [Destroy] until [Volumes]
    is empty, and is nothing if a volume stays linked for ever;
    [volume_unlink] and [volume_dying] are what
    [volume->UnlinkContainer(ct)] returns and what [volume->IsDying]
    reads. *)
Record TKernel := mkKernel {
  now : Z;
  failcnt : addr → Z;
  oom_fd_has_event : addr → bool;
  cg_is_empty : addr → nat → bool;
  cg_frozen : addr → bool;
  cg_parent_freezing : addr → bool;
  task_kill : addr → TError;
  kill_all : addr → TError;
  freeze : addr → TError;
  thaw : addr → TError;
  save : addr → TError;
  soft_limit : addr → TError;
  id_get : TError;
  load_groups : TCred → TError;
  PortoGroup : Z;
  PortoCtGroup : Z;
  user_ct_group : Z → option Z;
  peer_cred : option (Z * Z * Z);
  task_cgroup : Z → TError * string;
  proc_groups : Z → TError * list Z;
  proc_comm : Z → option string;
  start_checks : addr → TError;
  mkdir_workdir : addr → TError;
  create_cgroups : addr → TError;
  setup_oom : addr → TError;
  root_volume : addr → option TError;
  parse_net_config : addr → TError;
  prepare_network : addr → TError * option nat;
  HostNetwork : nat;
  net_caps : addr → bool;
  cg_write : addr → EProperty → TError;
  prepare_task : addr → TError;
  task_start : addr → TError * (Z * Z * Z);
  oom_received : addr → bool;
  caps_checks : addr → TError;
  cg_remove : addr → TError;
  remove_workdir : addr → TError;
  linked_volumes : addr → option (list nat);
  volume_unlink : nat → addr → TError;
  volume_dying : nat → bool;
  chown_workdir : addr → TError
}.

(** The same outside world but for one answer. *)
Definition with_save (v : addr → TError) (K : TKernel) : TKernel :=
  mkKernel (now K) (failcnt K) (oom_fd_has_event K) (cg_is_empty K)
    (cg_frozen K) (cg_parent_freezing K) (task_kill K) (kill_all K) (freeze K)
    (thaw K) v (soft_limit K) (id_get K) (load_groups K) (PortoGroup K)
    (PortoCtGroup K) (user_ct_group K) (peer_cred K) (task_cgroup K)
    (proc_groups K) (proc_comm K) (start_checks K) (mkdir_workdir K)
    (create_cgroups K) (setup_oom K) (root_volume K) (parse_net_config K)
    (prepare_network K) (HostNetwork K) (net_caps K) (cg_write K)
    (prepare_task K) (task_start K) (oom_received K) (caps_checks K) (cg_remove K) (remove_workdir K)
    (linked_volumes K) (volume_unlink K) (volume_dying K) (chown_workdir K).

Definition with_parse_net_config (v : addr → TError) (K : TKernel) : TKernel :=
  mkKernel (now K) (failcnt K) (oom_fd_has_event K) (cg_is_empty K)
    (cg_frozen K) (cg_parent_freezing K) (task_kill K) (kill_all K) (freeze K)
    (thaw K) (save K) (soft_limit K) (id_get K) (load_groups K) (PortoGroup K)
    (PortoCtGroup K) (user_ct_group K) (peer_cred K) (task_cgroup K)
    (proc_groups K) (proc_comm K) (start_checks K) (mkdir_workdir K)
    (create_cgroups K) (setup_oom K) (root_volume K) v (prepare_network K)
    (HostNetwork K) (net_caps K) (cg_write K) (prepare_task K) (task_start K)
    (oom_received K) (caps_checks K) (cg_remove K) (remove_workdir K)
    (linked_volumes K) (volume_unlink K) (volume_dying K) (chown_workdir K).

Definition with_cg_write (v : addr → EProperty → TError) (K : TKernel) : TKernel :=
  mkKernel (now K) (failcnt K) (oom_fd_has_event K) (cg_is_empty K)
    (cg_frozen K) (cg_parent_freezing K) (task_kill K) (kill_all K) (freeze K)
    (thaw K) (save K) (soft_limit K) (id_get K) (load_groups K) (PortoGroup K)
    (PortoCtGroup K) (user_ct_group K) (peer_cred K) (task_cgroup K)
    (proc_groups K) (proc_comm K) (start_checks K) (mkdir_workdir K)
    (create_cgroups K) (setup_oom K) (root_volume K) (parse_net_config K)
    (prepare_network K) (HostNetwork K) (net_caps K) v (prepare_task K)
    (task_start K) (oom_received K) (caps_checks K) (cg_remove K) (remove_workdir K)
    (linked_volumes K) (volume_unlink K) (volume_dying K) (chown_workdir K).

Definition with_peer_cred (v : option (Z * Z * Z)) (K : TKernel) : TKernel :=
  mkKernel (now K) (failcnt K) (oom_fd_has_event K) (cg_is_empty K)
    (cg_frozen K) (cg_parent_freezing K) (task_kill K) (kill_all K) (freeze K)
    (thaw K) (save K) (soft_limit K) (id_get K) (load_groups K) (PortoGroup K)
    (PortoCtGroup K) (user_ct_group K) v (task_cgroup K) (proc_groups K)
    (proc_comm K) (start_checks K) (mkdir_workdir K) (create_cgroups K)
    (setup_oom K) (root_volume K) (parse_net_config K) (prepare_network K)
    (HostNetwork K) (net_caps K) (cg_write K) (prepare_task K) (task_start K)
    (oom_received K) (caps_checks K) (cg_remove K) (remove_workdir K)
    (linked_volumes K) (volume_unlink K) (volume_dying K) (chown_workdir K).

Definition with_task_cgroup (v : Z → TError * string) (K : TKernel) : TKernel :=
  mkKernel (now K) (failcnt K) (oom_fd_has_event K) (cg_is_empty K)
    (cg_frozen K) (cg_parent_freezing K) (task_kill K) (kill_all K) (freeze K)
    (thaw K) (save K) (soft_limit K) (id_get K) (load_groups K) (PortoGroup K)
    (PortoCtGroup K) (user_ct_group K) (peer_cred K) v (proc_groups K)
    (proc_comm K) (start_checks K) (mkdir_workdir K) (create_cgroups K)
    (setup_oom K) (root_volume K) (parse_net_config K) (prepare_network K)
    (HostNetwork K) (net_caps K) (cg_write K) (prepare_task K) (task_start K)
    (oom_received K) (caps_checks K) (cg_remove K) (remove_workdir K)
    (linked_volumes K) (volume_unlink K) (volume_dying K) (chown_workdir K).

Definition with_prepare_network (v : addr → TError * option nat) (K : TKernel) : TKernel :=
  mkKernel (now K) (failcnt K) (oom_fd_has_event K) (cg_is_empty K)
    (cg_frozen K) (cg_parent_freezing K) (task_kill K) (kill_all K) (freeze K)
    (thaw K) (save K) (soft_limit K) (id_get K) (load_groups K) (PortoGroup K)
    (PortoCtGroup K) (user_ct_group K) (peer_cred K) (task_cgroup K)
    (proc_groups K) (proc_comm K) (start_checks K) (mkdir_workdir K)
    (create_cgroups K) (setup_oom K) (root_volume K) (parse_net_config K) v
    (HostNetwork K) (net_caps K) (cg_write K) (prepare_task K) (task_start K)
    (oom_received K) (caps_checks K) (cg_remove K) (remove_workdir K)
    (linked_volumes K) (volume_unlink K) (volume_dying K) (chown_workdir K).

Definition SIGKILL : Z := 9.
Definition SIGTERM : Z := 15.

(** The wait-status macros of the C library. *)
Definition WTERMSIG (status : Z) : Z := Z.land status 127.
Definition WIFEXITED (status : Z) : bool := (WTERMSIG status =? 0)%Z.
Definition WEXITSTATUS (status : Z) : Z := Z.shiftr (Z.land status 65280) 8.

Section Lifecycle.
Context {cfg : TConfig}.
Variable K : TKernel.

(** [Save()]: the record goes to the key-value store. *)
Definition Save (x : addr) (w : TWorld) : TError * TWorld :=
  (save K x, emit (ASave x) w).

Definition ShutdownOom (x : addr) (w : TWorld) : TWorld :=
  upd x (set_OomMonitor false) w.

(** [FreeResources]: the OOM monitor, the cgroups, the network and, below
    the root, the loop device, the root volume, the working directory and
    the output files are given up. Failures are logged and do not stop
    it: the host keeps the cgroups when [cg.Remove()] fails, and the
    working directory, if there is one, when [work_path.RemoveAll()]
    fails. *)
Definition FreeResources (x : addr) (w : TWorld) : TWorld :=
  match Heap w !! x with
  | Some c =>
      let w := emit (AFreeResources x) (ShutdownOom x w) in
      let w :=
        if IsRoot c then w
        else upd x (fun c => set_Cgroups (Cgroups c && failed (cg_remove K x)) c) w in
      let w := upd x (set_Net None) w in
      if IsRoot c then w
      else
        let w :=
          if (0 <=? LoopDev c)%Z
          then upd x (fun c => SetProp P_LOOP_DEV (set_LoopDev (-1) c)) w
          else w in
        let w := upd x (set_RootVolume false) w in
        upd x (fun c => set_WorkDir (WorkDir c && failed (remove_workdir K x)) c) w
  | None => w
  end.

(** The passes of [KillAll] in [Terminate]: [passes] are left and [sent]
    signals went before. [None]: the loop ran out. *)
Fixpoint Terminate_passes (passes : nat) (sent : nat) (x : addr) (w : TWorld)
    : option TError * TWorld :=
  match passes with
  | O => (None, w)
  | S passes' =>
      if cg_is_empty K x sent then (Some TSuccess, w)
      else
        let w := emit (AKillAll x) w in
        if failed (kill_all K x) then (Some (kill_all K x), w)
        else Terminate_passes passes' (S sent) x w
  end.

Definition Terminate (deadline : Z) (x : addr) (w : TWorld) : TError * TWorld :=
  match Heap w !! x with
  | Some c =>
      if IsRoot c then (Err Permission, w)
      else if negb (has_controller (Controllers c) CGROUP_FREEZER) then
        if negb (TaskPid c =? 0)%Z then (Err NotSupported, w) else (TSuccess, w)
      else if cg_is_empty K x 0 then (TSuccess, w)
      else if cg_frozen K x then (Err Permission, w)
      else
        let term :=
          negb (TaskPid c =? 0)%Z && negb (deadline =? 0)%Z
          && negb (bool_decide (State c = Meta)) in
        let w := if term then emit (ATaskKill x SIGTERM) w else w in
        match Terminate_passes 3 (if term && negb (failed (task_kill K x)) then 1 else 0) x w with
        | (Some e, w) => (e, w)
        | (None, w) =>
            let w := emit (AFreeze x) w in
            if failed (freeze K x) then (freeze K x, w)
            else
              let w := emit (AThaw x) (emit (AKillAll x) w) in
              (kill_all K x, w)
        end
  | None => (TSuccess, w)
  end.

(** [Subtree()]: the loop walks the list from its back while it pushes
    children to the front, so the objects are met in breadth-first order
    and the list ends up as the reverse of that order, the container itself
    last. *)
Fixpoint breadth_first (fuel : nat) (h : list TContainer) (queue : list addr) : list addr :=
  match fuel, queue with
  | S n, a :: q =>
      a :: breadth_first n h (q ++ match h !! a with Some c => Children c | None => [] end)
  | _, _ => []
  end.

Definition Subtree (h : list TContainer) (x : addr) : list addr :=
  rev (breadth_first (length h) h [x]).

Definition MayRespawn (x : addr) (w : TWorld) : bool :=
  match Heap w !! x with
  | Some c =>
      if negb (bool_decide (State c = Dead)) then false
      else if negb (ToRespawn c) then false
      else
        match Parent c ≫= fun p => Heap w !! p with
        | Some pc =>
            if negb (bool_decide (State pc = Running)) && negb (bool_decide (State pc = Meta))
            then false
            else (MaxRespawns c <? 0)%Z || (RespawnCount c <? MaxRespawns c)%Z
        | None => false
        end
  | None => false
  end.

Definition ScheduleRespawn (x : addr) (w : TWorld) : TWorld := emit (AScheduleRespawn x) w.

Definition Reap (oomKilled : bool) (x : addr) (w : TWorld) : TWorld :=
  let w := (Terminate 0 x w).2 in
  let w := ShutdownOom x w in
  let w := upd x (fun c => SetProp P_DEATH_TIME (set_DeathTime (now K) c)) w in
  let w := if oomKilled
           then upd x (fun c => SetProp P_OOM_KILLED (set_OomKilled true c)) w
           else w in
  let w := upd x (fun c => ClearProp P_ROOT_PID
                    (set_WaitTaskPid 0 (set_TaskVPid 0 (set_TaskPid 0 c)))) w in
  let w := emit (ARotateStderr x) (emit (ARotateStdout x) w) in
  let w := match Heap w !! x with
           | Some c => if bool_decide (State c = Meta) then SetState Stopped x w
                       else SetState Dead x w
           | None => w
           end in
  let w := (Save x w).2 in
  if MayRespawn x w then ScheduleRespawn x w else w.

(** The body of the loop at the end of [Exit]. *)
Definition Exit_reap (oomKilled : bool) (w : TWorld) (ct : addr) : TWorld :=
  match Heap w !! ct with
  | Some c =>
      if negb (bool_decide (State c = Stopped)) && negb (bool_decide (State c = Dead))
      then Reap oomKilled ct w else w
  | None => w
  end.

(** The status [Exit] records: under portoinit (isolate, app mode) an exit
    code between 128 and 128 + SIGRTMIN stands for a fatal signal. *)
Definition Exit_status (c : TContainer) (status : Z) : Z :=
  if Isolate c && bool_decide (VirtMode c = VIRT_MODE_APP) && WIFEXITED status
     && (128 <? WEXITSTATUS status)%Z && (WEXITSTATUS status <? 128 + SIGRTMIN)%Z
  then (WEXITSTATUS status - 128)%Z
  else status.

Definition Exit (status : Z) (oomKilled : bool) (x : addr) (w : TWorld) : TWorld :=
  match Heap w !! x with
  | Some c =>
      if bool_decide (State c = Stopped) then w
      else
        let oomKilled :=
          if oom_fd_has_event K x || negb (failcnt K x =? 0)%Z then true else oomKilled in
        let w := upd x (fun c => SetProp P_EXIT_STATUS
                          (set_ExitStatus (Exit_status c status) c)) w in
        fold_left (Exit_reap oomKilled) (Subtree (Heap w) x) w
  | None => w
  end.

(** [UpdateSoftLimit]: cgroup writes only; its error is logged by the
    callers. *)
Definition UpdateSoftLimit (x : addr) (w : TWorld) : TError * TWorld :=
  (soft_limit K x, emit (AUpdateSoftLimit x) w).

Definition StopOne (deadline : Z) (x : addr) (w : TWorld) : TError * TWorld :=
  match Heap w !! x with
  | Some c =>
      if bool_decide (State c = Stopped) then (TSuccess, w)
      else
        let (error, w) := if IsRoot c then (TSuccess, w) else Terminate deadline x w in
        if failed error then (error, w)
        else
          let w := upd x (fun c => ClearProp P_ROOT_PID
                            (set_WaitTaskPid 0 (set_TaskVPid 0 (set_TaskPid 0 c)))) w in
          let w := upd x (fun c => ClearProp P_DEATH_TIME (set_DeathTime 0 c)) w in
          let w := upd x (fun c => ClearProp P_EXIT_STATUS (set_ExitStatus 0 c)) w in
          let w := upd x (fun c => ClearProp P_OOM_KILLED (set_OomKilled false c)) w in
          let w := SetState Stopped x w in
          let w := FreeResources x w in
          Save x w
  | None => (TSuccess, w)
  end.

(** A loop over containers that returns the first error. *)
Definition first_error (step : addr → TWorld → TError * TWorld)
    (l : list addr) (w : TWorld) : TError * TWorld :=
  fold_left (fun r ct => if failed r.1 then r else step ct r.2) l (TSuccess, w).

(** The body of the loop of [Stop] over a frozen subtree. *)
Definition Stop_thaw (ct : addr) (w : TWorld) : TError * TWorld :=
  let w := emit (AKillAll ct) w in
  if failed (kill_all K ct) then (kill_all K ct, w)
  else (thaw K ct, emit (AThaw ct) w).

Definition Stop (timeout : Z) (x : addr) (w : TWorld) : TError * TWorld :=
  match Heap w !! x with
  | Some c =>
      let deadline := if (timeout =? 0)%Z then 0%Z else (now K + timeout)%Z in
      let (error, w1) :=
        if negb (has_controller (Controllers c) CGROUP_FREEZER) then
          if negb (TaskPid c =? 0)%Z then (Err NotSupported, w) else (TSuccess, w)
        else if cg_frozen K x then
          if cg_parent_freezing K x then (Err InvalidState, w)
          else first_error Stop_thaw (Subtree (Heap w) x) w
        else (TSuccess, w) in
      if failed error then (error, w1)
      else
        let (error, w2) := first_error (StopOne deadline) (Subtree (Heap w1) x) w1 in
        if failed error then (error, w2)
        else (TSuccess, (UpdateSoftLimit x w2).2)
  | None => (TSuccess, w)
  end.

(** [ApplyDynamicProperties]: the groups of keys in the order of the
    source; the first key of a group names the write to the cgroup. A group
    is written when one of its dirty bits was set, and all of them are
    cleared by the test. *)
Definition dynamic_groups : list (list EProperty) :=
  [ [P_MEM_GUARANTEE]; [P_MEM_LIMIT]; [P_ANON_LIMIT]; [P_DIRTY_LIMIT];
    [P_RECHARGE_ON_PGFAULT]; [P_IO_LIMIT]; [P_IO_OPS_LIMIT]; [P_IO_POLICY];
    [P_CPU_POLICY; P_CPU_LIMIT; P_CPU_GUARANTEE];
    [P_NET_PRIO; P_NET_LIMIT; P_NET_GUARANTEE] ].

(** The error a failed write returns: a memory limit the kernel refuses
    with [EBUSY] is reported as [InvalidValue]. *)
Definition dynamic_error (key : EProperty) (e : TError) : TError :=
  if bool_decide (key = P_MEM_LIMIT) && (Errno e =? EBUSY)%Z then Err InvalidValue else e.

Definition ApplyDynamic_group (x : addr) (r : TError * TContainer) (group : list EProperty)
    : TError * TContainer :=
  if failed r.1 then r
  else
    let dirty := existsb (fun p => (TestClearPropDirty p r.2).1) group in
    let c := fold_left (fun c p => (TestClearPropDirty p c).2) group r.2 in
    match group with
    | key :: _ =>
        if dirty && failed (cg_write K x key) then (dynamic_error key (cg_write K x key), c)
        else (TSuccess, c)
    | [] => (TSuccess, c)
    end.

Definition ApplyDynamicProperties (x : addr) (w : TWorld) : TError * TWorld :=
  match Heap w !! x with
  | Some c =>
      let r := fold_left (ApplyDynamic_group x) dynamic_groups (TSuccess, c) in
      (r.1, upd x (fun _ => r.2) w)
  | None => (TSuccess, w)
  end.

(** [PrepareWorkDir]: a directory that exists is taken as it is; [Chown]
    can fail when [Mkdir] has made the directory. *)
Definition PrepareWorkDir (x : addr) (w : TWorld) : TError * TWorld :=
  match Heap w !! x with
  | Some c =>
      if IsRoot c then (TSuccess, w)
      else if WorkDir c then (TSuccess, w)
      else if failed (mkdir_workdir K x) then (mkdir_workdir K x, w)
      else (chown_workdir K x, upd x (set_WorkDir true) w)
  | None => (TSuccess, w)
  end.

Definition PrepareOomMonitor (x : addr) (w : TWorld) : TError * TWorld :=
  if failed (setup_oom K x) then (setup_oom K x, w)
  else (TSuccess, upd x (set_OomMonitor true) w).

(** [PrepareCgroups]: a failure may leave some of the cgroups created. *)
Definition PrepareCgroups (x : addr) (w : TWorld) : TError * TWorld :=
  match Heap w !! x with
  | Some c =>
      let w := upd x (set_Cgroups true) w in
      if failed (create_cgroups K x) then (create_cgroups K x, w)
      else if negb (IsRoot c) && has_controller (Controllers c) CGROUP_MEMORY
      then PrepareOomMonitor x w
      else (TSuccess, w)
  | None => (TSuccess, w)
  end.

Definition PrepareResources (x : addr) (w : TWorld) : TError * TWorld :=
  let (error, w) := PrepareWorkDir x w in
  if failed error then (error, FreeResources x w)
  else
    let (error, w) := PrepareCgroups x w in
    if failed error then (error, FreeResources x w)
    else
      match root_volume K x with
      | Some error =>
          if failed error then (error, FreeResources x w)
          else (TSuccess, upd x (set_RootVolume true) w)
      | None => (TSuccess, w)
      end.

(** [PrepareNetwork]: the oracle says how it ends and which handle it
    leaves in [Net]. *)
Definition PrepareNetwork (x : addr) (w : TWorld) : TError * TWorld :=
  ((prepare_network K x).1, upd x (set_Net (prepare_network K x).2) w).

(** [PrepareTask] and [TaskEnv.Start()] with the OOM report of [Start]. *)
Definition Start_task (x : addr) (w : TWorld) : TError * TWorld :=
  if failed (prepare_task K x) then (prepare_task K x, w)
  else
    let '(error, (wpid, pid, vpid)) := task_start K x in
    let w := emit (ATaskStart x) w in
    if failed error then
      let w := upd x (fun c => set_WaitTaskPid 0 (set_TaskVPid 0 (set_TaskPid 0 c))) w in
      if oom_received K x then (mkError InvalidValue ENOMEM, w) else (error, w)
    else
      (TSuccess,
       upd x (fun c => SetProp P_ROOT_PID
                (set_WaitTaskPid wpid (set_TaskVPid vpid (set_TaskPid pid c)))) w).

(** The label [error:] of [Start]. *)
Definition Start_error (error : TError) (x : addr) (w : TWorld) : TError * TWorld :=
  (error, FreeResources x w).

(** "virt_mode=os overrides some defaults": a container without a command
    of its own gets ["/sbin/init"]. The other assignments of that block,
    and those of the block that inherits policies from the parent, go to
    members that are not in the record (Cwd, Stdout, Stderr, BindDns,
    NetProp, CpuPolicy, IoPolicy, RechargeOnPgfault, NetPriority, Rlimit,
    Umask). *)
Definition os_defaults (c : TContainer) : TContainer :=
  if bool_decide (VirtMode c = VIRT_MODE_OS) && negb (HasProp P_COMMAND c)
  then set_Command "/sbin/init" c else c.

(** [Start] once the parent runs. The checks on the root path and on
    virt_mode=os, and after the defaults the checks on capabilities, read
    data outside the model: [start_checks], [caps_checks] and [net_caps]
    answer for them. What follows the defaults reads the container as
    they left it. *)
Definition Start_self (cl : TClient) (x : addr) (w : TWorld) : TError * TWorld :=
  match Heap w !! x with
  | Some c =>
      if failed (start_checks K x) then (start_checks K x, w)
      else
        let w := upd x os_defaults w in
        let c := os_defaults c in
        if failed (caps_checks K x) then (caps_checks K x, w)
        else
        let w :=
          match Parent c ≫= fun p => Heap w !! p with
          | Some pc =>
              if EAccessLevel.ltb (AccessLevel pc) EAccessLevel.ChildOnly
                 && EAccessLevel.ltb (AccessLevel pc) (AccessLevel c)
              then upd x (set_AccessLevel (AccessLevel pc)) w else w
          | None => w
          end in
        let w := upd x (fun c => SetProp P_START_TIME (set_StartTime (now K) c)) w in
        let (error, w) := PrepareResources x w in
        if failed error then (error, w)
        else if failed (parse_net_config K x) then (parse_net_config K x, w)
        else
          let (error, w) := PrepareNetwork x w in
          if failed error then Start_error error x w
          else
            let (error, w) :=
              if IsRoot c then (TSuccess, w) else ApplyDynamicProperties x w in
            if failed error then (error, w)
            else
              let on_host :=
                bool_decide ((Heap w !! x ≫= Net) = Some (HostNetwork K))
                && negb (IsSuperUser cl) in
              if on_host && net_caps K x then Start_error (Err Permission) x w
              else if on_host && bool_decide (VirtMode c = VIRT_MODE_OS)
              then Start_error (Err Permission) x w
              else
                let (error, w) :=
                  if negb (IsMeta c) || Isolate c then Start_task x w else (TSuccess, w) in
                if failed error then Start_error error x w
                else
                  let w := if IsMeta c then SetState Meta x w else SetState Running x w in
                  let w := (UpdateSoftLimit x w).2 in
                  Save x w
  | None => (Err Unknown, w)
  end.

(** [Start]: a stopped parent is started first. [fuel] bounds the climb;
    one more than the level of the container is enough. *)
Fixpoint Start_climb (fuel : nat) (cl : TClient) (x : addr) (w : TWorld) : TError * TWorld :=
  match fuel with
  | O => (Err Unknown, w)
  | S fuel' =>
      match Heap w !! x with
      | Some c =>
          if negb (bool_decide (State c = Stopped)) then (Err InvalidState, w)
          else
            let parent w := Parent c ≫= fun p => (fun pc => (p, pc)) <$> Heap w !! p in
            let (error, w) :=
              match parent w with
              | Some (p, pc) =>
                  if bool_decide (State pc = Stopped) then Start_climb fuel' cl p w
                  else (TSuccess, w)
              | None => (TSuccess, w)
              end in
            if failed error then (error, w)
            else
              match parent w with
              | Some (p, pc) =>
                  if bool_decide (State pc = Paused) then (Err InvalidState, w)
                  else if negb (bool_decide (State pc = Running))
                          && negb (bool_decide (State pc = Meta))
                  then (Err InvalidState, w)
                  else if cg_frozen K p then (Err InvalidState, w)
                  else Start_self cl x w
              | None => Start_self cl x w
              end
      | None => (Err Unknown, w)
      end
  end.

Definition Start (cl : TClient) (x : addr) (w : TWorld) : TError * TWorld :=
  match Heap w !! x with
  | Some c => Start_climb (S (Level c)) cl x w
  | None => (Err Unknown, w)
  end.

(** [Respawn]: stop, then start as the system client; the count goes up
    whether the start worked or not. *)
Definition Respawn (kill_timeout_ms : Z) (x : addr) (w : TWorld) : TError * TWorld :=
  let (error, w) := Stop kill_timeout_ms x w in
  if failed error then (error, w)
  else
    let (error, w) := Start SystemClient x w in
    let w := upd x (fun c => SetProp P_RESPAWN_COUNT
                      (set_RespawnCount (RespawnCount c + 1) c)) w in
    (error, (Save x w).2).

(** [Destroy]. [None]: the recursion over the children did not come to an
    end within [fuel] (a child that cannot be stopped stays first in
    [Children], and the [while] loop tries it again and again), or the
    loop over [Volumes] never finds it empty. *)
Fixpoint Destroy_fuel (fuel : nat) (x : addr) (w : TWorld) : option (TError * TWorld) :=
  match fuel with
  | O => None
  | S fuel' =>
      match Heap w !! x with
      | Some c =>
          let (error, w) :=
            if negb (bool_decide (State c = Stopped)) then Stop 0 x w else (TSuccess, w) in
          if failed error then Some (error, w)
          else
            let fix children_loop (rounds : nat) (w : TWorld) : option TWorld :=
              match rounds with
              | O => None
              | S rounds' =>
                  match Heap w !! x ≫= fun c => head (Children c) with
                  | Some child =>
                      r ← Destroy_fuel fuel' child w;
                      children_loop rounds' r.2
                  | None => Some w
                  end
              end in
            w ← children_loop fuel' w;
            volumes ← linked_volumes K x;
            let w :=
              fold_left (fun w volume =>
                           let w := emit (AUnlinkVolume volume x) w in
                           if negb (failed (volume_unlink K volume x))
                              && volume_dying K volume
                           then emit (ADestroyVolume volume) w else w)
                volumes w in
            let w := upd x (set_Net None) w in
            let w := emit (APutId x) w in
            let w := with_Containers (delete (Name c) (Containers w)) w in
            let w :=
              match Parent c with
              | Some p => upd p (fun pc => set_Children
                                   (List.filter (fun y => negb (y =? x)%nat) (Children pc)) pc) w
              | None => w
              end in
            let w := upd x (set_State Destroyed) w in
            Some (TSuccess, emit (AUnlinkKV x) w)
      | None => Some (TSuccess, w)
      end
  end.

Definition Destroy (x : addr) (w : TWorld) : option (TError * TWorld) :=
  Destroy_fuel (S (length (Heap w))) x w.

Definition Expired (c : TContainer) : bool :=
  bool_decide (State c = Dead) && (DeathTime c + AgingTime c <=? now K)%Z.

End Lifecycle.

Section Clients.
Context {cfg : TConfig}.
Variable K : TKernel.

(** [CanControl(const TCred &other)]. The group ["<user>-containers"] is
    looked up when the client has not cached it; the model asks the oracle
    each time and leaves the cache alone. *)
Definition CanControl_cred (cl : TClient) (other : TCred) : TError :=
  if EAccessLevel.leb (Client.AccessLevel cl) EAccessLevel.ReadOnly then Err Permission
  else if IsSuperUser cl || (Uid (Client.Cred cl) =? Uid other)%Z then TSuccess
  else if IsMemberOf other (PortoCtGroup K) then TSuccess
  else
    let group :=
      if (Client.UserCtGroup cl =? 0)%Z
      then default NoGroup (user_ct_group K (Uid (Client.Cred cl)))
      else Client.UserCtGroup cl in
    if IsMemberOf other group then TSuccess else Err Permission.

(** [IsChildOf(base)]: [base] is on the parent chain. *)
Definition IsChildOf (h : list TContainer) (x base : addr) : bool :=
  bool_decide (base ∈ ancestors h x).

(** [CanControl(const TContainer &ct, bool child)] *)
Definition CanControl (cl : TClient) (h : list TContainer) (x : addr) (child : bool) : TError :=
  match h !! x with
  | Some ct =>
      if EAccessLevel.ltb (Client.AccessLevel cl) EAccessLevel.ChildOnly then Err Permission
      else if negb child && IsRoot ct then Err Permission
      else
        let error :=
          if negb child || negb (IsRoot ct) then CanControl_cred cl (OwnerCred ct)
          else TSuccess in
        if failed error then error
        else if EAccessLevel.ltb EAccessLevel.ChildOnly (Client.AccessLevel cl) then TSuccess
        else
          let chain :=
            match Client.ClientContainer cl with
            | Some b => b :: ancestors h b
            | None => []
            end in
          let is_base b :=
            match h !! b with
            | Some bc => bool_decide (AccessLevel bc = EAccessLevel.ChildOnly)
            | None => false
            end in
          match List.find is_base chain with
          | Some base =>
              if child && (base =? x)%nat || IsChildOf h x base then TSuccess
              else Err Permission
          | None => Err Permission
          end
  | None => Err Permission
  end.

(** [TContainer::Create]. Capabilities are outside the model, so
    [SanitizeCapabilities] leaves no trace; [SetState(Stopped)] on the fresh
    object returns at once. On the error paths the object is dropped and its
    id handed back. *)
Definition Create (cl : TClient) (name : string) (w : TWorld) : TError * TWorld :=
  if failed (ValidName name) then (ValidName name, w)
  else if bool_decide (is_Some (Containers w !! name)) then (Err ContainerAlreadyExists, w)
  else if (max_total + NR_SERVICE_CONTAINERS <=? size (Containers w))%nat
  then (Err ResourceNotAvailable, w)
  else
    let parent := Find (ParentName name) w ≫= fun p => (fun pc => (p, pc)) <$> Heap w !! p in
    let precheck :=
      match parent with
      | Some (p, pc) =>
          if (Level pc =? CONTAINER_LEVEL_MAX)%nat then Err InvalidValue
          else CanControl cl (Heap w) p true
      | None =>
          if negb (String.eqb name ROOT_CONTAINER) then Err ContainerDoesNotExist
          else TSuccess
      end in
    if failed precheck then (precheck, w)
    else
      let ct := new_TContainer parent name in
      if failed (id_get K) then (id_get K, w)
      else
        let ct := set_OwnerCred (Client.Cred cl) ct in
        if failed (load_groups K (OwnerCred ct)) then (load_groups K (OwnerCred ct), w)
        else
          let ct := SetProp P_GROUP (SetProp P_USER ct) in
          let ct := SetProp P_STATE ct in
          let ct := SetProp P_RESPAWN_COUNT (set_RespawnCount 0 ct) in
          if failed (save K (length (Heap w))) then (save K (length (Heap w)), w)
          else (TSuccess, Register ct w).

(** [FindTaskContainer]: the freezer cgroup of the task names its
    container. *)
Definition FindTaskContainer (pid : Z) (w : TWorld) : TError * option addr :=
  let (error, cg) := task_cgroup K pid in
  if failed error then (error, None)
  else
    let prefix := (PORTO_CGROUP_PREFIX ++ "/")%string in
    let name := replace_char "%" "/" cg in
    let target :=
      if String.prefix prefix name
      then substring (String.length prefix) (String.length name - String.length prefix) name
      else ROOT_CONTAINER in
    match Find target w with
    | Some ct => (TSuccess, Some ct)
    | None => (Err ContainerDoesNotExist, None)
    end.

(** The level [IdentifyClient] computes first: the container's, lowered
    to that of every ancestor. *)
Definition inherited_level (h : list TContainer) (x : addr) : EAccessLevel.t :=
  match h !! x with
  | Some ct =>
      fold_left (fun level p =>
                   match h !! p with
                   | Some pc => EAccessLevel.min level (AccessLevel pc)
                   | None => level
                   end)
        (ancestors h x) (AccessLevel ct)
  | None => EAccessLevel.None
  end.

(** The last step of [IdentifyClient]: root is promoted from [Normal],
    others outside the porto group are held down to [ReadOnly]. *)
Definition adjust_level (cred : TCred) (level : EAccessLevel.t) : EAccessLevel.t :=
  if IsRootUser cred then
    if bool_decide (level = EAccessLevel.Normal) then EAccessLevel.SuperUser else level
  else if negb (IsMemberOf cred (PortoGroup K)) then
    if EAccessLevel.leb EAccessLevel.ReadOnly level then EAccessLevel.ReadOnly else level
  else level.

Definition with_level (level : EAccessLevel.t) (cl : TClient) : TClient :=
  Client.mk (Client.Pid cl) (Client.TaskCred cl) (Client.Cred cl) level
    (Client.ClientContainer cl) (Client.Comm cl) (Client.UserCtGroup cl).

Definition IdentifyClient (initial : bool) (cl : TClient) (w : TWorld) : TError * TClient :=
  match peer_cred K with
  | None => (Err Unknown, cl)
  | Some (pid, uid, gid) =>
      let same :=
        negb initial && (Client.Pid cl =? pid)%Z
        && (Uid (Client.TaskCred cl) =? uid)%Z && (Gid (Client.TaskCred cl) =? gid)%Z
        && match Client.ClientContainer cl ≫= fun a => Heap w !! a with
           | Some cc => bool_decide (State cc = Running) || bool_decide (State cc = Meta)
           | None => false
           end in
      if same then (TSuccess, cl)
      else
        let cl := Client.mk pid (mkCred uid gid (Groups (Client.TaskCred cl)))
                    (Client.Cred cl) (Client.AccessLevel cl)
                    (Client.ClientContainer cl) (Client.Comm cl) (Client.UserCtGroup cl) in
        match FindTaskContainer pid w with
        | (error, None) => (error, cl)
        | (_, Some x) =>
            match Heap w !! x with
            | Some ct =>
                let level := inherited_level (Heap w) x in
                let cl := with_level level cl in
                if bool_decide (level = EAccessLevel.None) then (Err Permission, cl)
                else if negb (bool_decide (State ct = Running))
                        && negb (bool_decide (State ct = Meta))
                then (Err Permission, cl)
                else
                  let comm := default "<unknown process>" (proc_comm K pid) in
                  let cred :=
                    if IsRoot ct then mkCred uid gid (proc_groups K pid).2
                    else OwnerCred ct in
                  (TSuccess,
                   Client.mk pid (Client.TaskCred cl) cred (adjust_level cred level)
                     (Some x) comm (Client.UserCtGroup cl))
            | None => (Err ContainerDoesNotExist, cl)
            end
        end
  end.

End Clients.

(** ** Events *)

Inductive EEventType :=
  | EvExit | EvRotateLogs | EvRespawn | EvOOM | EvWaitTimeout | EvDestroyWeak.

(** [TEvent]: [Container] is what [event.Container.lock()] yields, [Waiter]
    what [event.WaitTimeout.Waiter.lock()] yields. *)
Record TEvent := mkEvent {
  Type_ : EEventType;
  Container : option addr;
  ExitPid : Z;
  ExitStatus_ : Z;
  Waiter : option nat
}.

(** How the handler ends: it returns; it waits on [ContainersCV] for a
    container lock; it locks [ContainersMutex] a second time; it unlocks a
    scoped lock that does not own the mutex, which throws; or [Destroy]
    never returns. *)
Inductive TEventEnd :=
  | EventDone | EventBlocked | EventDeadlock | EventThrown | EventStuck.

Definition string_le (a b : string) : Prop := String.leb a b = true.

#[global] Instance string_le_dec a b : Decision (string_le a b).
Proof. unfold string_le. solve_decision. Defined.

(** The registry in the order a [for] loop over the [std::map] meets it. *)
Definition registry_in_order (w : TWorld) : list (string * addr) :=
  merge_sort (fun a b => string_le a.1 b.1) (map_to_list (Containers w)).

Section Events.
Context {cfg : TConfig}.
Variable K : TKernel.
Variable kill_timeout_ms : Z.

(** [lock.unlock()] on the scoped lock of the handler; [owns] says whether
    it holds [ContainersMutex]. *)
Definition scoped_unlock (owns : bool) : option bool :=
  if owns then Some false else None.

(** [ct->Lock(lock); lock.unlock(); if (!error) { body; ct->Unlock(); }],
    the shape of the cases that work on one container. [Unlock()] takes
    [ContainersMutex] itself, which the handler has released. *)
Definition with_container_lock (body : addr → TWorld → option TWorld) (ct : addr)
    (w : TWorld) : TEventEnd * TWorld :=
  match Lock ct false false w with
  | (LockBlocked, w) => (EventBlocked, w)
  | (LockDone error, w) =>
      if failed error then (EventDone, w)
      else
        match body ct w with
        | Some w =>
            match Unlock ct w with
            | Some w => (EventDone, w)
            | None => (EventThrown, w)
            end
        | None => (EventStuck, w)
        end
  end.

(** One round of the loop of the [RotateLogs] case. *)
Definition RotateLogs_step (owns : bool) (r : TEventEnd * TWorld) (entry : string * addr)
    : TEventEnd * TWorld :=
  match r.1, Heap r.2 !! entry.2 with
  | EventDone, Some c =>
      let w := if Expired K c then emit ARemoveDead r.2 else r.2 in
      if bool_decide (State c = Running) then
        match LockRead entry.2 false w with
        | (LockBlocked, w) => (EventBlocked, w)
        | (LockDone error, w) =>
            if failed error then (EventDone, w)
            else
              let w :=
                match Heap w !! entry.2 with
                | Some c =>
                    if bool_decide (State c = Running)
                    then emit (ARotateStderr entry.2) (emit (ARotateStdout entry.2) w)
                    else w
                | None => w
                end in
              if owns then (EventDeadlock, w)
              else
                match Unlock entry.2 w with
                | Some w => (EventDone, w)
                | None => (EventThrown, w)
                end
        end
      else (EventDone, w)
  | _, _ => r
  end.

(** The [RotateLogs] case. *)
Definition Event_RotateLogs (owns : bool) (w : TWorld) : TEventEnd * TWorld :=
  match fold_left (RotateLogs_step owns) (registry_in_order w) (EventDone, w) with
  | (EventDone, w) =>
      match scoped_unlock owns with
      | Some _ => (EventDone, emit ARefreshNetworks w)
      | None => (EventThrown, w)
      end
  | r => r
  end.

(** The [WaitTimeout] case. *)
Definition Event_WaitTimeout (event : TEvent) (w : TWorld) : TEventEnd * TWorld :=
  match Waiter event with
  | Some waiter => (EventDone, emit (AWakeupWaiter waiter) w)
  | None => (EventDone, w)
  end.

(** [TContainer::Event]. The cases [Exit] and [DestroyWeak] have no
    [break]: control runs on into the next case. *)
Definition Event (event : TEvent) (w : TWorld) : TEventEnd * TWorld :=
  match Type_ event with
  | EvOOM =>
      match Container event with
      | Some ct => with_container_lock (fun ct w => Some (Exit K SIGKILL true ct w)) ct w
      | None => (EventDone, w)
      end
  | EvRespawn =>
      match Container event with
      | Some ct =>
          if MayRespawn ct w then
            with_container_lock
              (fun ct w => Some (if MayRespawn ct w then (Respawn K kill_timeout_ms ct w).2 else w))
              ct w
          else (EventDone, w)
      | None => (EventDone, w)
      end
  | EvExit =>
      let target :=
        List.find (fun entry =>
                     match Heap w !! entry.2 with
                     | Some c => (WaitTaskPid c =? ExitPid event)%Z
                     | None => false
                     end) (registry_in_order w) in
      let r :=
        match target with
        | Some entry =>
            with_container_lock
              (fun ct w => Some (Exit K (ExitStatus_ event) false ct w)) entry.2 w
        | None => (EventDone, w)
        end in
      match r with
      | (EventDone, w) => Event_WaitTimeout event (emit (AAckExitStatus (ExitPid event)) w)
      | _ => r
      end
  | EvWaitTimeout => Event_WaitTimeout event w
  | EvDestroyWeak =>
      match Container event with
      | Some ct =>
          match with_container_lock (fun ct w => snd <$> Destroy K ct w) ct w with
          | (EventDone, w) => Event_RotateLogs false w
          | r => r
          end
      | None => Event_RotateLogs true w
      end
  | EvRotateLogs => Event_RotateLogs true w
  end.

End Events.

(** ** Properties *)

(** A property object of the registry [ContainerProperties]: its key, and
    its accessors as functions of the container they work on
    ([CurrentContainer]). *)
Record TProperty := mkProperty {
  Prop_ : EProperty;
  IsSupported : bool;
  Get : TContainer → TError * string;
  Set_ : string → TContainer → TError * TContainer;
  SetIndexed : string → string → TContainer → TError * TContainer
}.

Section Properties.
Variable K : TKernel.
(** The registry of property objects and the two string helpers of
    [SetProperty], which live outside the modelled files. *)
Variable ContainerProperties : gmap string TProperty.
Variable ParsePropertyName : string → string * string.
Variable StringTrim : string → string.

Definition is_alive (s : EContainerState) : bool :=
  bool_decide (s = Running) || bool_decide (s = Meta) || bool_decide (s = Paused).

Definition SetProperty (x : addr) (origProperty origValue : string) (w : TWorld)
    : TError * TWorld :=
  match Heap w !! x with
  | Some c =>
      if IsRoot c then (Err Permission, w)
      else
        let (property, idx) := ParsePropertyName origProperty in
        let value := StringTrim origValue in
        match ContainerProperties !! property with
        | None => (Err Unknown, w)
        | Some prop =>
            if negb (IsSupported prop) then (Err NotSupported, w)
            else
              let (error, oldValue) := Get prop c in
              let (error, c1) :=
                if failed error then (error, c)
                else if negb (String.eqb idx "") then SetIndexed prop idx value c
                else Set_ prop value c in
              let w := upd x (fun _ => c1) w in
              let (error, w) :=
                if negb (failed error) && is_alive (State c1) then
                  let (error, w) := ApplyDynamicProperties K x w in
                  if failed error then
                    (error,
                     upd x (fun c => (TestClearPropDirty (Prop_ prop)
                                        (Set_ prop oldValue c).2).2) w)
                  else (error, w)
                else (error, w) in
              if failed error then (error, w) else Save K x w
        end
  | None => (Err Unknown, w)
  end.

End Properties.

(** A property object as the registry has them: the memory limit, a
    decimal number of bytes. *)
Definition memory_limit : TProperty := {|
  Prop_ := P_MEM_LIMIT;
  IsSupported := true;
  Get := fun c => (TSuccess, NilZero.string_of_uint (N.to_uint (Z.to_N (MemLimit c))));
  Set_ := fun v c =>
    match NilZero.uint_of_string v with
    | Some d => (TSuccess, SetProp P_MEM_LIMIT (set_MemLimit (Z.of_N (N.of_uint d)) c))
    | None => (Err InvalidValue, c)
    end;
  SetIndexed := fun _ _ c => (Err InvalidValue, c)
|}.

(** ** A concrete daemon

    The constants of a stock build, and a small tree: the root container,
    ["a"] below it and ["a/b"] below ["a"]. *)
Definition stock_config : TConfig := {|
  CONTAINER_PATH_MAX := 200;
  CONTAINER_NAME_MAX := 128;
  CONTAINER_LEVEL_MAX := 7;
  NR_SERVICE_CONTAINERS := 1;
  max_total := 3000;
  SIGRTMIN := 34;
  legacy_porto := false;
  all_controllers := false;
  cpuacct_own_hierarchy := false;
  default_aging_time_s := 86400
|}.

Definition empty_world : TWorld := mkWorld [] ∅ [].

(** Construct and register [name] below the registered [parent]. *)
Definition add_container {cfg : TConfig} (parent : option string) (name : string)
    (w : TWorld) : TWorld :=
  let p := parent ≫= fun pn => Find pn w ≫= fun a => (fun c => (a, c)) <$> Heap w !! a in
  Register (new_TContainer p name) w.

Definition demo_world : TWorld :=
  let cfg := stock_config in
  add_container (Some "a") "a/b"
    (add_container (Some "/") "a"
       (add_container None "/" empty_world)).

Definition demo_root : addr := 0.
Definition demo_a : addr := 1.
Definition demo_ab : addr := 2.

(** The tree of [demo_world] after the root and ["a"] became [Meta] and
    ["a/b"] started to run. *)
Definition demo_running : TWorld :=
  SetState Running demo_ab (SetState Meta demo_a (SetState Meta demo_root demo_world)).

(** An outside world where every call succeeds at once: cgroups are empty
    and thawed, the peer is root's task 100 in the root cgroup. *)
Definition quiet_kernel : TKernel := {|
  now := 1000;
  failcnt := fun _ => 0%Z;
  oom_fd_has_event := fun _ => false;
  cg_is_empty := fun _ _ => true;
  cg_frozen := fun _ => false;
  cg_parent_freezing := fun _ => false;
  task_kill := fun _ => TSuccess;
  kill_all := fun _ => TSuccess;
  freeze := fun _ => TSuccess;
  thaw := fun _ => TSuccess;
  save := fun _ => TSuccess;
  soft_limit := fun _ => TSuccess;
  id_get := TSuccess;
  load_groups := fun _ => TSuccess;
  PortoGroup := 1333;
  PortoCtGroup := 1334;
  user_ct_group := fun _ => None;
  peer_cred := Some (100, 0, 0)%Z;
  task_cgroup := fun _ => (TSuccess, "/");
  proc_groups := fun _ => (TSuccess, []);
  proc_comm := fun _ => Some "portoctl";
  start_checks := fun _ => TSuccess;
  mkdir_workdir := fun _ => TSuccess;
  create_cgroups := fun _ => TSuccess;
  setup_oom := fun _ => TSuccess;
  root_volume := fun _ => None;
  parse_net_config := fun _ => TSuccess;
  prepare_network := fun _ => (TSuccess, Some 0);
  HostNetwork := 0;
  net_caps := fun _ => false;
  cg_write := fun _ _ => TSuccess;
  prepare_task := fun _ => TSuccess;
  task_start := fun _ => (TSuccess, (4000, 4001, 2)%Z);
  oom_received := fun _ => false;
  caps_checks := fun _ => TSuccess;
  cg_remove := fun _ => TSuccess;
  remove_workdir := fun _ => TSuccess;
  linked_volumes := fun _ => Some [];
  volume_unlink := fun _ _ => TSuccess;
  volume_dying := fun _ => false;
  chown_workdir := fun _ => TSuccess
|}.

(** Exit code 137 = 128 + SIGKILL, and exit code 200, as wait statuses. *)
Definition status_137 : Z := Z.shiftl 137 8.
Definition status_200 : Z := Z.shiftl 200 8.

(** A connection that has just been accepted. *)
Definition fresh_client : TClient :=
  Client.mk 0 NoCred NoCred EAccessLevel.None None "" 0.

(** A build with room for two containers besides the service container,
    and two levels. *)
Definition tiny_config : TConfig := {|
  CONTAINER_PATH_MAX := 200;
  CONTAINER_NAME_MAX := 128;
  CONTAINER_LEVEL_MAX := 2;
  NR_SERVICE_CONTAINERS := 1;
  max_total := 2;
  SIGRTMIN := 34;
  legacy_porto := false;
  all_controllers := false;
  cpuacct_own_hierarchy := false;
  default_aging_time_s := 86400
|}.

(** The tree of [demo_running] after the task of ["a"], a meta container
    with its own pid namespace, exited: ["a"] is reaped to [Stopped],
    ["a/b"] to [Dead]. *)
Definition demo_reaped : TWorld :=
  Exit (cfg := stock_config) quiet_kernel 0 false demo_a demo_running.

(** The key-value store has no room left. *)
Definition full_disk_kernel : TKernel :=
  with_save (fun _ => mkError NoSpace ENOSPC) quiet_kernel.

(** The root runs as a meta container, ["a"] and ["a/b"] are stopped. *)
Definition demo_booted : TWorld := SetState Meta demo_root demo_world.

(** The net property of the container does not parse. *)
Definition bad_net_kernel : TKernel :=
  with_parse_net_config (fun _ => Err InvalidValue) quiet_kernel.

(** The network of the container cannot be set up. *)
Definition no_route_kernel : TKernel :=
  with_prepare_network (fun _ => (Err Unknown, Some 0)) quiet_kernel.

(** The kernel refuses the memory limit with [EBUSY]. *)
Definition low_limit_kernel : TKernel :=
  with_cg_write (fun _ p => if bool_decide (p = P_MEM_LIMIT)
                            then mkError Unknown EBUSY else TSuccess) quiet_kernel.

(** [demo_booted] with a memory limit set on ["a"]. *)
Definition demo_limited : TWorld := upd demo_a (SetProp P_MEM_LIMIT) demo_booted.

(** What a container holds: working directory, cgroups, OOM monitor,
    network. *)
Definition held_resources (c : TContainer) : bool * bool * bool * option nat :=
  (WorkDir c, Cgroups c, OomMonitor c, Net c).

Definition freed (x : addr) (w : TWorld) : bool :=
  existsb (fun a => bool_decide (a = AFreeResources x)) (Log w).

(** ["a"] runs with a memory limit of one megabyte that has been applied;
    ["a/b"], a weak container, is stopped. *)
Definition demo_serving : TWorld :=
  upd demo_a (fun c => (TestClearPropDirty P_MEM_LIMIT
                          (SetProp P_MEM_LIMIT (set_MemLimit 1048576 c))).2)
    (SetState Running demo_a demo_booted).

Definition demo_properties : gmap string TProperty := {[ "memory_limit" := memory_limit ]}.

(** A client closed the connection that held ["a/b"]. *)
Definition weak_gone : TEvent := mkEvent EvDestroyWeak (Some demo_ab) 0 0 None.

(** The same event once the container it names is gone. *)
Definition weak_expired : TEvent := mkEvent EvDestroyWeak None 0 0 None.

(** The three bytes ['a'], ['\0'], ['b']. *)
Definition name_with_nul : string := String "a" (String NUL (String "b" EmptyString)).

(** * Paths

    [TPath] of [util/path.cpp] holds one [std::string], [Path]. *)

(** [s.substr(pos)], for [pos <= s.size()] as at every call below
    ([std::out_of_range] otherwise). *)
Definition substr (pos : nat) (s : string) : string :=
  substring pos (String.length s - pos) s.

Module TPath.

(** [IsEmpty], [IsAbsolute] and [IsRoot] of [path.hpp]: [Path.empty()],
    [Path[0] == '/'] and [Path == "/"]. *)
Definition IsEmpty (Path : string) : bool := String.eqb Path "".
Definition IsAbsolute (Path : string) : bool := Ascii.eqb (char_at Path 0) "/".
Definition IsRoot (Path : string) : bool := String.eqb Path "/".

(** [TPath::AddComponent], the operator [/]. *)
Definition AddComponent (Path component : string) : string :=
  if IsAbsolute component then
    if IsRoot Path then component
    else if IsRoot component then Path
    else Path ++ component
  else if IsRoot Path then "/" ++ component
  else Path ++ "/" ++ component.

(** [TPath::InnerPath]; [path.Path.compare(0, len, Path)] is zero when
    the first [len] characters of [path.Path], or all of them when there
    are fewer, are [Path]. *)
Definition InnerPath (Path path : string) (absolute : bool) : string :=
  let len := String.length Path in
  if (len =? 0)%nat || negb (String.eqb (substring 0 len path) Path) then ""
  else if (String.length path =? len)%nat then
    if absolute then "/" else "."
  else
    let len := if (len =? 1)%nat && Ascii.eqb (char_at Path 0) "/" then 0 else len in
    if negb (Ascii.eqb (char_at path len) "/") then ""
    else if absolute then substr len path
    else substr (len + 1) path.

(** The components [std::getline(ss, component, '/')] reads until it
    fails: [cur] holds the characters read since the last ['/'], and at
    the end of the stream a read that extracts nothing fails. *)
Fixpoint getlines (cur s : string) : list string :=
  match s with
  | EmptyString => if String.eqb cur "" then [] else [cur]
  | String c r =>
      if Ascii.eqb c "/" then cur :: getlines "" r
      else getlines (cur ++ String c "") r
  end.

(** One turn of the loop of [NormalPath] on the path built so far. *)
Definition NormalPath_step (path component : string) : string :=
  let append :=
    ((if negb (String.eqb path "") && negb (String.eqb path "/")
      then path ++ "/" else path) ++ component)%string in
  if String.eqb component "" || String.eqb component "." then path
  else if String.eqb component ".." then
    match rfind "/" path with
    | None =>
        if negb (String.eqb path "") && negb (String.eqb path "..") then ""%string
        else append
    | Some last =>
        if negb (String.eqb (substr (last + 1) path) "..") then
          if (last =? 0)%nat then substring 0 (last + 1) path
          else substring 0 last path
        else append
    end
  else append.

(** [TPath::NormalPath] *)
Definition NormalPath (Path : string) : string :=
  if IsEmpty Path then ""%string
  else
    let path :=
      fold_left NormalPath_step (getlines "" Path)
        (if IsAbsolute Path then "/" else "")%string in
    if String.eqb path "" then "."%string else path.

End TPath.

(** [TClient::ComposePath] and [TClient::ResolvePath], [RootPath] being
    the root path of the client's container. *)
Definition ComposePath (RootPath path : string) : string :=
  TPath.InnerPath RootPath path true.

Definition ResolvePath (RootPath path : string) : string :=
  TPath.AddComponent RootPath path.

(** * Container names in a namespace *)

(** [StringStartsWith(str, prefix)] of [util/string.cpp]. *)
Definition StringStartsWith (str prefix : string) : bool := String.prefix prefix str.

Section Namespaces.

(** The field [NsName] of each container, the property
    [porto_namespace]: the constructor makes it [Name + "/"] or [""]. *)
Variable NsName : addr → string.

(** The constant [ROOT_PORTO_NAMESPACE]. *)
Variable ROOT_PORTO_NAMESPACE : string.

(** [TContainer::GetPortoNamespace]: the recursion goes up the parent
    chain, [fuel] bounds it. *)
Fixpoint GetPortoNamespace_from (fuel : nat) (h : list TContainer) (x : addr) : string :=
  match fuel with
  | O => ""
  | S fuel' =>
      match h !! x with
      | Some c =>
          match Parent c with
          | Some p => GetPortoNamespace_from fuel' h p ++ NsName x
          | None => ""
          end
      | None => ""
      end
  end.

Definition GetPortoNamespace (h : list TContainer) (x : addr) : string :=
  match h !! x with
  | Some c => GetPortoNamespace_from (S (Level c)) h x
  | None => ""
  end.

(** [TClient::ComposeName], [ClientContainer] being the client's container:
    the error and [relative_name], which is written on success only. *)
Definition ComposeName (h : list TContainer) (ClientContainer : addr) (name : string)
    : TError * string :=
  let ns := GetPortoNamespace h ClientContainer in
  if String.eqb name ROOT_CONTAINER then (TSuccess, ROOT_CONTAINER)
  else if String.eqb ns "" then (TSuccess, name)
  else if negb (StringStartsWith name ns) then (Err Permission, ""%string)
  else (TSuccess, substr (String.length ns) name).

(** [TClient::ResolveName]: the error and [name]. *)
Definition ResolveName (h : list TContainer) (ClientContainer : addr)
    (relative_name : string) : TError * string :=
  match h !! ClientContainer with
  | Some cc =>
      let ns := GetPortoNamespace h ClientContainer in
      if String.eqb relative_name ROOT_CONTAINER then (TSuccess, ROOT_CONTAINER)
      else if String.eqb relative_name SELF_CONTAINER then (TSuccess, Name cc)
      else if String.eqb relative_name DOT_CONTAINER then (TSuccess, ParentName ns)
      else if StringStartsWith relative_name (SELF_CONTAINER ++ "/") then
        (TSuccess,
         ((if IsRoot cc then "" else Name cc)
          ++ substr (String.length SELF_CONTAINER) relative_name)%string)
      else if StringStartsWith relative_name ROOT_PORTO_NAMESPACE then
        let name := substr (String.length ROOT_PORTO_NAMESPACE) relative_name in
        if negb (StringStartsWith name ns) then (Err Permission, name)
        else (TSuccess, name)
      else (TSuccess, (ns ++ relative_name)%string)
  | None => (Err ContainerDoesNotExist, ""%string)
  end.

End Namespaces.

(** * Walks up the tree *)

(** [Isolate = v] *)
Definition set_Isolate (v : bool) (c : TContainer) : TContainer :=
  mkContainer (Name c) (Parent c) (Children c) (Level c) (State c)
    (RunningChildren c) (Locked c) (AccessLevel c) v (VirtMode c) (Command c)
    (Controllers c) (IsWeak c) (OwnerCred c) (ToRespawn c) (MaxRespawns c)
    (RespawnCount c) (AgingTime c) (MemLimit c) (TaskPid c) (TaskVPid c)
    (WaitTaskPid c) (ExitStatus c) (OomKilled c) (DeathTime c) (StartTime c)
    (WorkDir c) (Cgroups c) (OomMonitor c) (Net c) (RootVolume c) (LoopDev c)
    (PropSet c) (PropDirty c).

(** [TContainer::GetIsolationDomain]: the loop
    [while (!domain->Isolate && domain->Parent) domain = domain->Parent],
    [fuel] bounds it. *)
Fixpoint GetIsolationDomain_from (fuel : nat) (h : list TContainer) (domain : addr) : addr :=
  match fuel with
  | O => domain
  | S fuel' =>
      match h !! domain with
      | Some c =>
          if negb (Isolate c) then
            match Parent c with
            | Some p => GetIsolationDomain_from fuel' h p
            | None => domain
            end
          else domain
      | None => domain
      end
  end.

Definition GetIsolationDomain (h : list TContainer) (x : addr) : addr :=
  match h !! x with
  | Some c => GetIsolationDomain_from (S (Level c)) h x
  | None => x
  end.

(** [TContainer::FindRunningParent]: the nearest ancestor with a task. *)
Fixpoint FindRunningParent_from (fuel : nat) (h : list TContainer) (p : option addr)
    : option addr :=
  match fuel, p with
  | S fuel', Some a =>
      match h !! a with
      | Some c =>
          if negb (TaskPid c =? 0)%Z then Some a
          else FindRunningParent_from fuel' h (Parent c)
      | None => None
      end
  | _, _ => None
  end.

Definition FindRunningParent (h : list TContainer) (x : addr) : option addr :=
  match h !! x with
  | Some c => FindRunningParent_from (Level c) h (Parent c)
  | None => None
  end.

(** * Pause and resume *)

Section Freezer.
Variable K : TKernel.

(** [FreezerSubsystem.IsSelfFreezing] on the cgroup of a container. *)
Variable cg_self_freezing : addr → bool.

(** The body of the loop of [Pause]. *)
Definition Pause_one (w : TWorld) (ct : addr) : TWorld :=
  match Heap w !! ct with
  | Some c =>
      if bool_decide (State c = Running) || bool_decide (State c = Meta)
      then (Save K ct (SetState Paused ct w)).2
      else w
  | None => w
  end.

(** [TContainer::Pause] *)
Definition Pause (x : addr) (w : TWorld) : TError * TWorld :=
  match Heap w !! x with
  | Some c =>
      if negb (bool_decide (State c = Running)) && negb (bool_decide (State c = Meta))
      then (Err InvalidState, w)
      else if negb (has_controller (Controllers c) CGROUP_FREEZER) then (Err NotSupported, w)
      else
        let w := emit (AFreeze x) w in
        if failed (freeze K x) then (freeze K x, w)
        else (TSuccess, fold_left Pause_one (Subtree (Heap w) x) w)
  | None => (TSuccess, w)
  end.

(** The body of the loop of [Resume]; [meta] is [IsMeta()] of the
    container that is resumed. *)
Definition Resume_one (meta : bool) (w : TWorld) (ct : addr) : TWorld :=
  let w := if cg_self_freezing ct then emit (AThaw ct) w else w in
  let w :=
    match Heap w !! ct with
    | Some c =>
        if bool_decide (State c = Paused)
        then SetState (if meta then Meta else Running) ct w
        else w
    | None => w
    end in
  (Save K ct w).2.

(** [TContainer::Resume] *)
Definition Resume (x : addr) (w : TWorld) : TError * TWorld :=
  match Heap w !! x with
  | Some c =>
      if negb (has_controller (Controllers c) CGROUP_FREEZER) then (Err NotSupported, w)
      else if cg_parent_freezing K x then (Err InvalidState, w)
      else if negb (cg_self_freezing x) then (Err InvalidState, w)
      else
        let w := emit (AThaw x) w in
        if failed (thaw K x) then (thaw K x, w)
        else (TSuccess, fold_left (Resume_one (IsMeta c)) (Subtree (Heap w) x) w)
  | None => (TSuccess, w)
  end.

End Freezer.

(** * Cgroup names *)

(** The field [FirstName], which the constructor computes from the name
    and the parent: the name below the parent. *)
Definition FirstName (h : list TContainer) (c : TContainer) : string :=
  match Parent c ≫= fun p => h !! p with
  | Some pc =>
      if IsRoot pc then Name c
      else substr (String.length (Name pc) + 1) (Name c)
  | None => ""
  end.

(** The loop of [GetCgroup] from [ct] up to the root; [controllers] are
    the controllers of the subsystem, [fuel] bounds the walk. *)
Fixpoint GetCgroup_loop (fuel : nat) (h : list TContainer) (controllers : Z)
    (ct : addr) (name : string) : string :=
  match fuel with
  | O => name
  | S fuel' =>
      match h !! ct with
      | Some c =>
          if IsRoot c then name
          else
            let enabled := has_controller (Controllers c) controllers in
            let name :=
              if negb (String.length name =? 0)%nat
              then (FirstName h c ++ (if enabled then "/" else "%") ++ name)%string
              else if enabled then FirstName h c
              else name in
            match Parent c with
            | Some p => GetCgroup_loop fuel' h controllers p name
            | None => name
            end
      | None => name
      end
  end.

(** [TContainer::GetCgroup]: the name of the cgroup; [RootCgroup] is the
    name of the root cgroup of the subsystem. *)
Definition GetCgroup (h : list TContainer) (x : addr) (controllers : Z)
    (RootCgroup : string) : string :=
  match h !! x with
  | Some c =>
      if IsRoot c then
        if has_controller (Controllers c) CGROUP_LEGACY then PORTO_CGROUP_PREFIX
        else RootCgroup
      else
        (PORTO_CGROUP_PREFIX
         ++ (if has_controller (Controllers c) CGROUP_LEGACY then "/" else "%")
         ++ GetCgroup_loop (S (Level c)) h controllers x "")%string
  | None => ""
  end.

(** * Verification *)

(** ** Well-formed heaps

    The constructor makes [Level] the parent's level plus one and never
    changes [Parent] afterwards: every parent pointer leads to a live heap
    object one level up. *)
Definition wf_at (h : list TContainer) (c : TContainer) : bool :=
  match Parent c with
  | None => true
  | Some p =>
      match h !! p with
      | Some pc => (Level c =? S (Level pc))%nat
      | None => false
      end
  end.

Definition wf_heap (h : list TContainer) : Prop := forallb (wf_at h) h = true.

(** [a] is reached from [x] by following [Parent] once or more. *)
Inductive ancestor_of (h : list TContainer) : addr → addr → Prop :=
  | ancestor_parent x c p :
      h !! x = Some c → Parent c = Some p → ancestor_of h p x
  | ancestor_step x c p a :
      h !! x = Some c → Parent c = Some p → ancestor_of h a p → ancestor_of h a x.

Lemma wf_heap_parent h x c p :
  wf_heap h → h !! x = Some c → Parent c = Some p →
  ∃ pc, h !! p = Some pc ∧ Level c = S (Level pc).
Proof.
  intros Hwf Hx Hp. unfold wf_heap in Hwf.
  rewrite forallb_forall in Hwf.
  assert (Hin : In c h) by (apply list_elem_of_In, list_elem_of_lookup; eauto).
  specialize (Hwf c Hin). unfold wf_at in Hwf. rewrite Hp in Hwf.
  destruct (h !! p) as [pc|]; [|discriminate].
  exists pc. split; [reflexivity|]. by apply Nat.eqb_eq.
Qed.

Lemma chain_none n h : chain n h None = [].
Proof. by destruct n. Qed.

(** Enough fuel: from the level of the start on, more fuel changes
    nothing, so the walk ends at a container without parent. *)
Lemma chain_fuel h n m p :
  wf_heap h →
  (∀ a, p = Some a → ∃ pc, h !! a = Some pc ∧ Level pc < n) →
  n ≤ m → chain m h p = chain n h p.
Proof.
  intros Hwf. revert m p. induction n as [|n IH]; intros m p Hp Hnm.
  - destruct p as [a|]; [|by rewrite !chain_none].
    destruct (Hp a eq_refl) as (pc & _ & Hlt). lia.
  - destruct p as [a|]; [|by rewrite !chain_none].
    destruct m as [|m]; [lia|]. simpl. f_equal.
    apply IH; [|lia].
    intros q Hq. destruct (Hp a eq_refl) as (pc & Ha & Hlt).
    rewrite Ha in Hq. simpl in Hq.
    destruct (wf_heap_parent h a pc q Hwf Ha Hq) as (qc & Hqc & Hlev).
    exists qc. split; [done|lia].
Qed.

Lemma chain_reaches_root h x c k :
  wf_heap h → h !! x = Some c →
  chain (Level c + k) h (Parent c) = ancestors h x.
Proof.
  intros Hwf Hx. unfold ancestors. rewrite Hx.
  apply chain_fuel; [done| |lia].
  intros a Ha. destruct (wf_heap_parent h x c a Hwf Hx Ha) as (pc & Hpc & Hlev).
  exists pc. split; [done|lia].
Qed.

Lemma ancestors_root h x c :
  h !! x = Some c → Parent c = None → ancestors h x = [].
Proof. intros Hx Hp. unfold ancestors. rewrite Hx, Hp. apply chain_none. Qed.

Lemma ancestors_cons h x c p :
  wf_heap h → h !! x = Some c → Parent c = Some p →
  ancestors h x = p :: ancestors h p.
Proof.
  intros Hwf Hx Hp.
  destruct (wf_heap_parent h x c p Hwf Hx Hp) as (pc & Hpc & Hlev).
  unfold ancestors. rewrite Hx, Hpc, Hp, Hlev. simpl. by rewrite Hpc.
Qed.

(** Induction along the parent chain. *)
Lemma parent_chain_ind h (P : addr → TContainer → Prop) :
  wf_heap h →
  (∀ x c, h !! x = Some c → Parent c = None → P x c) →
  (∀ x c p pc, h !! x = Some c → Parent c = Some p → h !! p = Some pc →
     Level c = S (Level pc) → P p pc → P x c) →
  ∀ x c, h !! x = Some c → P x c.
Proof.
  intros Hwf Hroot Hstep x c Hx.
  remember (Level c) as n eqn:Hn. revert x c Hx Hn.
  induction n as [n IH] using lt_wf_ind. intros x c Hx Hn.
  destruct (Parent c) as [p|] eqn:Hp; [|by eapply Hroot].
  destruct (wf_heap_parent h x c p Hwf Hx Hp) as (pc & Hpc & Hlev).
  eapply Hstep; [done..|]. eapply (IH (Level pc)); [lia|done..].
Qed.

Lemma ancestor_of_ancestors h x a :
  wf_heap h → ancestor_of h a x → a ∈ ancestors h x.
Proof.
  intros Hwf. induction 1 as [y d p Hy Hp|y d p b Hy Hp Hanc IH].
  - rewrite (ancestors_cons h y d p Hwf Hy Hp). by left.
  - rewrite (ancestors_cons h y d p Hwf Hy Hp). by right.
Qed.

Lemma ancestors_ancestor_of h x c a :
  wf_heap h → h !! x = Some c → a ∈ ancestors h x → ancestor_of h a x.
Proof.
  intros Hwf Hx. revert a. revert x c Hx.
  apply (parent_chain_ind h (fun x _ => ∀ a, a ∈ ancestors h x → ancestor_of h a x)); [done|..].
  - intros y d Hy Hp a. rewrite (ancestors_root h y d Hy Hp). by intros ?%elem_of_nil.
  - intros y d p pc Hy Hp Hpc Hlev IH a. rewrite (ancestors_cons h y d p Hwf Hy Hp).
    intros [->|Hin]%elem_of_cons; [by eapply ancestor_parent|].
    eapply ancestor_step; [exact Hy|exact Hp|]. by apply IH.
Qed.

Lemma ancestors_spec h x c a :
  wf_heap h → h !! x = Some c → a ∈ ancestors h x ↔ ancestor_of h a x.
Proof.
  intros Hwf Hx. split; [by eapply ancestors_ancestor_of|by apply ancestor_of_ancestors].
Qed.

Lemma ancestors_level h x c a :
  wf_heap h → h !! x = Some c → a ∈ ancestors h x →
  ∃ ac, h !! a = Some ac ∧ Level ac < Level c.
Proof.
  intros Hwf Hx. revert a. revert x c Hx.
  apply (parent_chain_ind h (fun x c => ∀ a, a ∈ ancestors h x →
           ∃ ac, h !! a = Some ac ∧ Level ac < Level c)); [done|..].
  - intros z e Hz Hp a. rewrite (ancestors_root h z e Hz Hp).
    by intros ?%elem_of_nil.
  - intros z e p pc Hz Hp Hpc Hlev IH a.
    rewrite (ancestors_cons h z e p Hwf Hz Hp).
    intros [->|Hin]%elem_of_cons; [exists pc; split; [done|lia]|].
    destruct (IH a Hin) as (ac & Hac & Hlt). exists ac. split; [done|lia].
Qed.

Lemma ancestors_not_self h x c :
  wf_heap h → h !! x = Some c → x ∉ ancestors h x.
Proof.
  intros Hwf Hx Hin.
  destruct (ancestors_level h x c x Hwf Hx Hin) as (ac & Hac & Hlt).
  assert (ac = c) by congruence. subst. lia.
Qed.

Lemma ancestors_NoDup h x c :
  wf_heap h → h !! x = Some c → NoDup (x :: ancestors h x).
Proof.
  intros Hwf Hx. revert x c Hx.
  apply (parent_chain_ind h (fun x _ => NoDup (x :: ancestors h x))); [done|..].
  - intros z e Hz Hp. rewrite (ancestors_root h z e Hz Hp). apply NoDup_singleton.
  - intros z e p pc Hz Hp Hpc Hlev IH. apply NoDup_cons.
    split; [by eapply ancestors_not_self|].
    by rewrite (ancestors_cons h z e p Hwf Hz Hp).
Qed.

(** ** Hierarchical locks *)

Lemma fold_left_orb {A} (f : A → bool) (l : list A) (b : bool) :
  fold_left (fun busy a => busy || f a) l b = b || existsb f l.
Proof.
  revert b. induction l as [|a l IH]; intros b; simpl.
  - by rewrite orb_false_r.
  - rewrite IH. by rewrite orb_assoc.
Qed.

Lemma lock_busy_false h x c shared :
  h !! x = Some c →
  lock_busy h x shared = false ↔
    (if shared then (0 ≤ Locked c)%Z else Locked c = 0%Z) ∧
    ∀ a, a ∈ ancestors h x → write_locked h a = false.
Proof.
  intros Hx. unfold lock_busy. rewrite Hx, fold_left_orb, orb_false_iff.
  assert (H1 : negb (Locked c =? 0)%Z && ((Locked c <? 0)%Z || negb shared) = false ↔
               (if shared then (0 ≤ Locked c)%Z else Locked c = 0%Z)).
  { destruct shared; simpl.
    - destruct (Z.eqb_spec (Locked c) 0), (Z.ltb_spec (Locked c) 0); simpl;
        split; (lia || done).
    - rewrite orb_true_r, andb_true_r, negb_false_iff. apply Z.eqb_eq. }
  assert (H2 : existsb (write_locked h) (ancestors h x) = false ↔
               ∀ a, a ∈ ancestors h x → write_locked h a = false).
  { rewrite <- not_true_iff_false, existsb_exists. split.
    - intros Hno a Ha. apply not_true_iff_false. intros Hw. apply Hno.
      exists a. split; [by apply list_elem_of_In|done].
    - intros Hall (a & Ha & Hw). apply list_elem_of_In in Ha.
      rewrite (Hall a Ha) in Hw. done. }
  tauto.
Qed.

Lemma Lock_granted w x c shared try_lock w' :
  Heap w !! x = Some c →
  Lock x shared try_lock w = (LockDone TSuccess, w') →
  State c ≠ Destroyed ∧ lock_busy (Heap w) x shared = false.
Proof.
  intros Hx. unfold Lock. rewrite Hx.
  case_bool_decide; [intros [=]|].
  destruct (lock_busy (Heap w) x shared); [|done].
  destruct try_lock; intros [=].
Qed.

(** On a destroyed container [Lock] returns [ContainerDoesNotExist]
    before it looks at the counters, and changes nothing. *)
Lemma Lock_destroyed w x c shared try_lock :
  Heap w !! x = Some c → State c = Destroyed →
  Lock x shared try_lock w = (LockDone (Err ContainerDoesNotExist), w).
Proof. intros Hx Hs. unfold Lock. rewrite Hx. by rewrite bool_decide_eq_true_2. Qed.

(** C2: [Lock] on a container X that has not been destroyed.  A write lock
    is granted only when X holds neither a write lock nor read locks
    ([Locked] is zero) and no ancestor is write-locked; a read lock only
    when no ancestor is write-locked; a try-lock that is not granted
    returns [Busy] at once (it never waits) and leaves the world, so every
    lock counter, as it was. *)
Theorem Lock_hierarchical (w : TWorld) (x : addr) (c : TContainer) :
  wf_heap (Heap w) → Heap w !! x = Some c → State c ≠ Destroyed →
  (∀ try_lock w', Lock x false try_lock w = (LockDone TSuccess, w') →
     Locked c = 0%Z ∧
     ∀ a, ancestor_of (Heap w) a x → write_locked (Heap w) a = false) ∧
  (∀ try_lock w', Lock x true try_lock w = (LockDone TSuccess, w') →
     ∀ a, ancestor_of (Heap w) a x → write_locked (Heap w) a = false) ∧
  (∀ shared r w', Lock x shared true w = (r, w') → r ≠ LockDone TSuccess →
     r = LockDone (Err Busy) ∧ w' = w).
Proof.
  intros Hwf Hx Hlive. split; [|split].
  - intros try_lock w' HL.
    destruct (Lock_granted w x c false try_lock w' Hx HL) as [_ Hbusy].
    apply (lock_busy_false _ _ _ _ Hx) in Hbusy as [H0 Hanc].
    split; [done|]. intros a Ha. apply Hanc. by apply ancestor_of_ancestors.
  - intros try_lock w' HL.
    destruct (Lock_granted w x c true try_lock w' Hx HL) as [_ Hbusy].
    apply (lock_busy_false _ _ _ _ Hx) in Hbusy as [H0 Hanc].
    intros a Ha. apply Hanc. by apply ancestor_of_ancestors.
  - intros shared r w'. unfold Lock. rewrite Hx.
    rewrite bool_decide_eq_false_2 by done.
    destruct (lock_busy (Heap w) x shared); intros [= <- <-]; done.
Qed.

(** The tree of [demo_world] once a client holds the write lock on
    ["a"]. *)
Definition demo_locked : TWorld := (Lock demo_a false true demo_world).2.

Lemma Lock_hierarchical_witness :
  wf_heap (Heap demo_locked) ∧
  Lock demo_ab true true demo_locked = (LockDone (Err Busy), demo_locked) ∧
  Lock demo_a false true demo_locked = (LockDone (Err Busy), demo_locked).
Proof.
  assert (Hwf : wf_heap (Heap demo_locked)) by (vm_compute; reflexivity).
  destruct (Heap demo_locked !! demo_ab) as [c|] eqn:Hc; [|vm_compute in Hc; discriminate].
  assert (Hlive : State c ≠ Destroyed) by (vm_compute in Hc; injection Hc as <-; discriminate).
  destruct (Lock_hierarchical demo_locked demo_ab c Hwf Hc Hlive) as (_ & _ & Htry).
  split; [exact Hwf|]. split.
  - destruct (Lock demo_ab true true demo_locked) as [r w'] eqn:HL.
    destruct (Htry true r w' HL) as [-> ->]; [|reflexivity].
    vm_compute in HL. injection HL as <- _. discriminate.
  - vm_compute. reflexivity.
Defined.

(** ** Updates that keep the tree

    Nothing but the constructor writes [Parent] or [Level]: the parent
    chains of a heap survive every field update. *)
Definition shape (h : list TContainer) : list (option addr * nat) :=
  (fun c => (Parent c, Level c)) <$> h.

Definition keeps_shape (f : TContainer → TContainer) : Prop :=
  ∀ c, Parent (f c) = Parent c ∧ Level (f c) = Level c.

Lemma shape_lookup h h' y :
  shape h' = shape h →
  (Parent <$> h' !! y) = (Parent <$> h !! y) ∧ (Level <$> h' !! y) = (Level <$> h !! y).
Proof.
  intros Hs. assert (H : shape h' !! y = shape h !! y) by by rewrite Hs.
  unfold shape in H. rewrite !list_lookup_fmap in H.
  destruct (h' !! y), (h !! y); simpl in *; try done.
  injection H as H1 H2. by rewrite H1, H2.
Qed.

Lemma shape_alter f a h : keeps_shape f → shape (alter f a h) = shape h.
Proof.
  intros Hf. unfold shape. apply list_eq. intros y.
  rewrite !list_lookup_fmap. destruct (decide (a = y)) as [->|Hne].
  - rewrite list_lookup_alter_eq. destruct (h !! y) as [c|]; [|done]. simpl.
    destruct (Hf c) as [-> ->]. done.
  - by rewrite list_lookup_alter_ne.
Qed.

Lemma shape_chain h h' n p : shape h' = shape h → chain n h' p = chain n h p.
Proof.
  intros Hs. revert p. induction n as [|n IH]; intros p; [done|].
  destruct p as [a|]; [|done]. simpl. f_equal.
  destruct (shape_lookup h h' a Hs) as [Hp _].
  replace (h' !! a ≫= Parent) with (h !! a ≫= Parent); [apply IH|].
  destruct (h' !! a), (h !! a); cbn in *; congruence.
Qed.

Lemma shape_ancestors h h' x : shape h' = shape h → ancestors h' x = ancestors h x.
Proof.
  intros Hs. unfold ancestors.
  destruct (shape_lookup h h' x Hs) as [Hp Hl].
  destruct (h' !! x) as [c'|], (h !! x) as [c|]; cbn in *; try done.
  injection Hp as Hp. injection Hl as Hl. rewrite Hp, Hl. by apply shape_chain.
Qed.

Lemma shape_length h h' : shape h' = shape h → length h' = length h.
Proof.
  intros Hs. apply (f_equal length) in Hs. unfold shape in Hs.
  by rewrite !length_fmap in Hs.
Qed.

Lemma shape_wf h h' : shape h' = shape h → wf_heap h → wf_heap h'.
Proof.
  intros Hs. unfold wf_heap. rewrite !forallb_forall. intros Hwf c' Hin.
  apply list_elem_of_In, list_elem_of_lookup in Hin as [y Hy].
  destruct (shape_lookup h h' y Hs) as [Hp Hl]. rewrite Hy in Hp, Hl.
  destruct (h !! y) as [c|] eqn:Hc; [|done]. cbn in *.
  injection Hp as Hp. injection Hl as Hl.
  assert (Hin : In c h) by (apply list_elem_of_In, list_elem_of_lookup; eauto).
  specialize (Hwf c Hin). unfold wf_at in *. rewrite Hp. rewrite Hl.
  destruct (Parent c) as [p|]; [|done].
  destruct (shape_lookup h h' p Hs) as [_ Hlp].
  destruct (h !! p) as [pc|]; [|done].
  destruct (h' !! p) as [pc'|]; cbn in *; [|done].
  injection Hlp as Hlp. by rewrite Hlp.
Qed.

(** ** The running-descendants counter *)

(** The number of [i < n] that satisfy [f]. *)
Definition count_upto (f : nat → bool) (n : nat) : nat :=
  length (List.filter f (seq 0 n)).

Definition is_running (h : list TContainer) (d : addr) : bool :=
  match h !! d with
  | Some c => bool_decide (State c = Running)
  | None => false
  end.

(** [d] is [c] or a descendant of [c]. *)
Definition in_subtree (h : list TContainer) (c d : addr) : bool :=
  bool_decide (c ∈ d :: ancestors h d).

(** The containers of the subtree of [c], [c] included, that are
    [Running]. *)
Definition running_in_subtree (h : list TContainer) (c : addr) : nat :=
  count_upto (fun d => is_running h d && in_subtree h c d) (length h).

(** The counter invariant the code keeps. *)
Definition counters_ok (h : list TContainer) : Prop :=
  ∀ x c, h !! x = Some c →
    RunningChildren c = wrap64 (Z.of_nat (running_in_subtree h x)).

(** The count as the specification words it: the descendants of [c] that
    are [Running], or [Meta] with a running descendant. *)
Definition has_running_descendant (h : list TContainer) (d : addr) : bool :=
  existsb (fun e => is_running h e && bool_decide (d ∈ ancestors h e)) (seq 0 (length h)).

Definition spec_counts (h : list TContainer) (d : addr) : bool :=
  match h !! d with
  | Some dc =>
      bool_decide (State dc = Running)
      || bool_decide (State dc = Meta) && has_running_descendant h d
  | None => false
  end.

Definition spec_running_children (h : list TContainer) (c : addr) : nat :=
  count_upto (fun d => spec_counts h d && bool_decide (c ∈ ancestors h d)) (length h).

Lemma filter_length_ext (f g : nat → bool) (l : list nat) :
  (∀ y, y ∈ l → g y = f y) →
  length (List.filter g l) = length (List.filter f l).
Proof.
  induction l as [|a l IH]; intros Hext; [done|]. simpl.
  rewrite (Hext a) by by left.
  assert (IH' := IH (fun y Hy => Hext y (list_elem_of_further _ _ _ Hy))).
  destruct (f a); simpl; by rewrite IH'.
Qed.

Lemma filter_length_flip (f g : nat → bool) (l : list nat) (x : nat) :
  NoDup l → x ∈ l → f x = false → g x = true →
  (∀ y, y ∈ l → y ≠ x → g y = f y) →
  length (List.filter g l) = S (length (List.filter f l)).
Proof.
  induction l as [|a l IH]; intros Hnd Hin Hf Hg Hext.
  - by apply elem_of_nil in Hin.
  - apply NoDup_cons in Hnd as [Hna Hnd]. simpl.
    destruct (decide (a = x)) as [->|Hne].
    + rewrite Hf, Hg. simpl. f_equal. apply filter_length_ext.
      intros y Hy. apply Hext; [by right|]. intros ->. done.
    + apply elem_of_cons in Hin as [->|Hin]; [done|].
      rewrite (Hext a) by (by left || done).
      assert (IH' : length (List.filter g l) = S (length (List.filter f l))).
      { apply IH; [done..|]. intros y Hy. apply Hext. by right. }
      destruct (f a); simpl; by rewrite IH'.
Qed.

Lemma count_upto_ext f g n :
  (∀ y, y < n → g y = f y) → count_upto g n = count_upto f n.
Proof.
  intros Hext. apply filter_length_ext. intros y Hy. apply Hext.
  apply elem_of_seq in Hy. lia.
Qed.

Lemma count_upto_flip f g n x :
  x < n → f x = false → g x = true → (∀ y, y < n → y ≠ x → g y = f y) →
  count_upto g n = S (count_upto f n).
Proof.
  intros Hx Hf Hg Hext. apply (filter_length_flip f g _ x); [apply NoDup_seq| |done..|].
  - apply elem_of_seq. lia.
  - intros y Hy. apply Hext. apply elem_of_seq in Hy. lia.
Qed.

Definition bump (diff : Z) (c : TContainer) : TContainer :=
  set_RunningChildren (wrap64 (RunningChildren c + diff)) c.

Lemma alter_at_value (f g : TContainer → TContainer) a (h : list TContainer) :
  (∀ c, h !! a = Some c → f c = g c) → alter f a h = alter g a h.
Proof.
  intros Hfg. apply list_eq. intros y. destruct (decide (a = y)) as [->|Hne].
  - rewrite !list_lookup_alter_eq. destruct (h !! y) as [c|] eqn:Hc; [|done].
    simpl. f_equal. by apply Hfg.
  - by rewrite !list_lookup_alter_ne.
Qed.

Lemma alter_missing (f : TContainer → TContainer) a (h : list TContainer) :
  h !! a = None → alter f a h = h.
Proof.
  intros Ha. apply list_eq. intros y. destruct (decide (a = y)) as [->|Hne].
  - rewrite list_lookup_alter_eq. by rewrite Ha.
  - by rewrite list_lookup_alter_ne.
Qed.

Lemma UpdateRunningChildren_at_heap diff w a :
  Heap (UpdateRunningChildren_at diff w a) = alter (bump diff) a (Heap w).
Proof.
  unfold UpdateRunningChildren_at. destruct (Heap w !! a) as [c|] eqn:Hc.
  - assert (Hupd : Heap (upd a (set_RunningChildren (wrap64 (RunningChildren c + diff))) w)
                   = alter (bump diff) a (Heap w)).
    { simpl. apply alter_at_value. intros c' Hc'. by simplify_eq. }
    by destruct (_ && _).
  - by rewrite alter_missing.
Qed.

Lemma UpdateRunningChildren_heap diff l w :
  Heap (fold_left (UpdateRunningChildren_at diff) l w)
  = fold_left (fun h a => alter (bump diff) a h) l (Heap w).
Proof.
  revert w. induction l as [|a l IH]; intros w; [done|]. simpl.
  by rewrite IH, UpdateRunningChildren_at_heap.
Qed.

Lemma fold_alter_lookup (f : TContainer → TContainer) l (h : list TContainer) y :
  NoDup l →
  fold_left (fun h a => alter f a h) l h !! y
  = if decide (y ∈ l) then f <$> h !! y else h !! y.
Proof.
  revert h. induction l as [|a l IH]; intros h Hnd.
  - simpl. destruct (decide (y ∈ [])) as [Hin|_]; [by apply elem_of_nil in Hin|done].
  - apply NoDup_cons in Hnd as [Hna Hnd]. simpl. rewrite IH by done.
    destruct (decide (y = a)) as [->|Hne].
    + rewrite decide_False by done. rewrite decide_True by by left.
      by rewrite list_lookup_alter_eq.
    + rewrite list_lookup_alter_ne by done.
      destruct (decide (y ∈ l)) as [Hin|Hnin].
      * rewrite decide_True; [done|by right].
      * rewrite decide_False; [done|]. by intros [?|?]%elem_of_cons.
Qed.

Lemma fold_alter_shape (f : TContainer → TContainer) l (h : list TContainer) :
  keeps_shape f → shape (fold_left (fun h a => alter f a h) l h) = shape h.
Proof.
  intros Hf. revert h. induction l as [|a l IH]; intros h; [done|].
  simpl. by rewrite IH, shape_alter.
Qed.

Lemma wrap64_idemp a b : wrap64 (wrap64 a + b) = wrap64 (a + b).
Proof. unfold wrap64. by rewrite Zplus_mod_idemp_l. Qed.

Lemma in_subtree_shape h h' c d :
  shape h' = shape h → in_subtree h' c d = in_subtree h c d.
Proof. intros Hs. unfold in_subtree. by rewrite (shape_ancestors h h' d Hs). Qed.

(** What a state change of [x] does to the invariant: the state of [x]
    alone changes, and the counters of [x] and its ancestors move by
    [diff]. *)
Lemma counters_after (h h' : list TContainer) x c s diff :
  wf_heap h → h !! x = Some c → counters_ok h →
  shape h' = shape h →
  (∀ y, is_running h' y
        = if decide (y = x) then bool_decide (s = Running) else is_running h y) →
  (∀ y cy', h' !! y = Some cy' → ∃ cy, h !! y = Some cy ∧
     RunningChildren cy' = if decide (y ∈ x :: ancestors h x)
                           then wrap64 (RunningChildren cy + diff)
                           else RunningChildren cy) →
  (State c ≠ Running ∧ s = Running ∧ diff = 1%Z) ∨
  (State c = Running ∧ s ≠ Running ∧ diff = (2 ^ 64 - 1)%Z) ∨
  (State c ≠ Running ∧ s ≠ Running ∧ diff = 0%Z) →
  counters_ok h'.
Proof.
  intros Hwf Hx Hok Hs Hrun Hrc Hcase y cy' Hy'.
  destruct (Hrc y cy' Hy') as (cy & Hy & ->).
  rewrite (Hok y cy Hy). unfold running_in_subtree.
  rewrite (shape_length h h' Hs).
  assert (Hxlt : x < length h) by (by eapply lookup_lt_Some).
  assert (Hrx : is_running h x = bool_decide (State c = Running))
    by (unfold is_running; by rewrite Hx).
  assert (Hother : ∀ d, d < length h → d ≠ x →
            is_running h' d && in_subtree h' y d = is_running h d && in_subtree h y d).
  { intros d _ Hd. rewrite Hrun, decide_False by done.
    by rewrite (in_subtree_shape h h' y d Hs). }
  assert (Hsub : in_subtree h' y x = in_subtree h y x) by by apply in_subtree_shape.
  destruct (decide (y ∈ x :: ancestors h x)) as [Hin|Hnin].
  - assert (Hinx : in_subtree h y x = true) by (unfold in_subtree; by apply bool_decide_eq_true_2).
    destruct Hcase as [(Hc & -> & ->)|[(Hc & Hs' & ->)|(Hc & Hs' & ->)]].
    + rewrite (count_upto_flip (fun d => is_running h d && in_subtree h y d)
                 (fun d => is_running h' d && in_subtree h' y d) _ x); [|done| | |done].
      * rewrite wrap64_idemp. f_equal. lia.
      * rewrite Hrx, bool_decide_eq_false_2 by done. done.
      * rewrite Hrun, decide_True by done. simpl. by rewrite Hsub, Hinx.
    + rewrite (count_upto_flip (fun d => is_running h' d && in_subtree h' y d)
                 (fun d => is_running h d && in_subtree h y d) _ x); [|done| | |].
      * rewrite wrap64_idemp. unfold wrap64.
        replace (Z.of_nat (S (count_upto (fun d => is_running h' d && in_subtree h' y d) (length h)))
                 + (2 ^ 64 - 1))%Z
          with (Z.of_nat (count_upto (fun d => is_running h' d && in_subtree h' y d) (length h))
                + 1 * 2 ^ 64)%Z by lia.
        by rewrite Z_mod_plus_full.
      * rewrite Hrun, decide_True by done. by rewrite bool_decide_eq_false_2.
      * rewrite Hrx, bool_decide_eq_true_2 by done. simpl. done.
      * intros d Hd Hne. symmetry. by apply Hother.
    + rewrite wrap64_idemp, Z.add_0_r. f_equal. f_equal. symmetry.
      apply count_upto_ext. intros d Hd. destruct (decide (d = x)) as [->|Hne].
      * rewrite Hrun, decide_True, Hrx by done.
        by rewrite !bool_decide_eq_false_2.
      * by apply Hother.
  - assert (Hinx : in_subtree h y x = false) by (unfold in_subtree; by apply bool_decide_eq_false_2).
    f_equal. f_equal. symmetry.
    apply count_upto_ext. intros d Hd. destruct (decide (d = x)) as [->|Hne].
    + by rewrite Hsub, Hinx, !andb_false_r.
    + by apply Hother.
Qed.

Lemma bumped_lookup (h : list TContainer) l x s diff y cy' :
  NoDup l →
  alter (set_State s) x (fold_left (fun h a => alter (bump diff) a h) l h) !! y = Some cy' →
  ∃ cy, h !! y = Some cy ∧
    RunningChildren cy' = (if decide (y ∈ l) then wrap64 (RunningChildren cy + diff)
                           else RunningChildren cy) ∧
    State cy' = if decide (y = x) then s else State cy.
Proof.
  intros Hnd Hy.
  assert (Hy2 : (if decide (y = x) then set_State s else id)
            <$> ((if decide (y ∈ l) then bump diff else id) <$> h !! y) = Some cy').
  { rewrite <- Hy. destruct (decide (y = x)) as [->|Hne].
    - rewrite list_lookup_alter_eq, fold_alter_lookup by done.
      destruct (decide (x ∈ l)); [done|]. by rewrite option_fmap_id.
    - rewrite list_lookup_alter_ne, fold_alter_lookup by done.
      rewrite option_fmap_id. destruct (decide (y ∈ l)); [done|].
      by rewrite option_fmap_id. }
  destruct (h !! y) as [cy|]; [|done]. exists cy. split; [done|].
  cbn in Hy2. injection Hy2 as <-.
  destruct (decide (y = x)), (decide (y ∈ l)); done.
Qed.

Lemma is_running_state (h h' : list TContainer) y :
  (State <$> h' !! y) = (State <$> h !! y) → is_running h' y = is_running h y.
Proof.
  unfold is_running. destruct (h' !! y), (h !! y); cbn; try done.
  by intros [= ->].
Qed.

Lemma bumped_running (h : list TContainer) l x c s diff y :
  NoDup l → h !! x = Some c →
  is_running (alter (set_State s) x (fold_left (fun h a => alter (bump diff) a h) l h)) y
  = if decide (y = x) then bool_decide (s = Running) else is_running h y.
Proof.
  intros Hnd Hx. unfold is_running.
  destruct (decide (y = x)) as [->|Hne].
  - rewrite list_lookup_alter_eq, fold_alter_lookup, Hx by done.
    by destruct (decide (x ∈ l)).
  - rewrite list_lookup_alter_ne, fold_alter_lookup by done.
    destruct (h !! y) as [cy|]; by destruct (decide (y ∈ l)).
Qed.

Lemma bumped_shape (h : list TContainer) l x s diff :
  shape (alter (set_State s) x (fold_left (fun h a => alter (bump diff) a h) l h)) = shape h.
Proof. rewrite shape_alter by done. by apply fold_alter_shape. Qed.

Lemma SetState_heap s x w :
  Heap (SetState s x w) =
  match Heap w !! x with
  | Some c =>
      if bool_decide (State c = s) then Heap w
      else alter (set_State s) x
             (if bool_decide (s = Running)
              then fold_left (fun h a => alter (bump 1) a h)
                     (x :: ancestors (Heap w) x) (Heap w)
              else if bool_decide (State c = Running)
              then fold_left (fun h a => alter (bump (2 ^ 64 - 1)) a h)
                     (x :: ancestors (Heap w) x) (Heap w)
              else Heap w)
  | None => Heap w
  end.
Proof.
  unfold SetState. destruct (Heap w !! x) as [c|]; [|done].
  case_bool_decide; [done|].
  assert (Hn : ∀ w', Heap (if negb (bool_decide (s = Running)) && negb (bool_decide (s = Meta))
                           then NotifyWaiters x w' else w') = Heap w')
    by (intros w'; by destruct (_ && _)).
  rewrite Hn. simpl. unfold UpdateRunningChildren.
  repeat case_bool_decide; by rewrite ?UpdateRunningChildren_heap.
Qed.

(** C1 (as amended): [SetState] keeps the counter invariant of the code.
    On a well-formed heap where every [RunningChildren] equals, in [size_t]
    arithmetic, the number of [Running] containers of its subtree (the
    container itself included, [Meta] containers not counted), the same
    holds after [SetState], whatever the container and the new state; the
    heap stays well-formed. *)
Theorem SetState_counters (w : TWorld) (x : addr) (s : EContainerState) :
  wf_heap (Heap w) → counters_ok (Heap w) →
  wf_heap (Heap (SetState s x w)) ∧ counters_ok (Heap (SetState s x w)).
Proof.
  intros Hwf Hok. rewrite SetState_heap.
  destruct (Heap w !! x) as [c|] eqn:Hx; [|done].
  case_bool_decide as Hsame; [done|].
  assert (Hnd := ancestors_NoDup (Heap w) x c Hwf Hx).
  set (h := Heap w) in *. set (l := x :: ancestors h x) in *.
  assert (Hplain : ∀ y cy' diff, alter (set_State s) x h !! y = Some cy' →
            alter (set_State s) x (fold_left (fun h a => alter (bump diff) a h) [] h) !! y = Some cy')
    by done.
  case_bool_decide as Hs; [|case_bool_decide as Hc].
  - split; [eapply shape_wf; [apply bumped_shape|done]|].
    eapply (counters_after h _ x c s 1%Z); [done..|apply bumped_shape| | |].
    + intros y. by apply (bumped_running h l x c).
    + intros y cy' Hy. destruct (bumped_lookup h l x s 1%Z y cy' Hnd Hy) as (cy & ? & ? & ?).
      by exists cy.
    + left. split; [congruence|done].
  - split; [eapply shape_wf; [apply bumped_shape|done]|].
    eapply (counters_after h _ x c s (2 ^ 64 - 1)%Z); [done..|apply bumped_shape| | |].
    + intros y. by apply (bumped_running h l x c).
    + intros y cy' Hy.
      destruct (bumped_lookup h l x s (2 ^ 64 - 1)%Z y cy' Hnd Hy) as (cy & ? & ? & ?).
      by exists cy.
    + right. left. done.
  - split; [eapply shape_wf; [by apply shape_alter|done]|].
    eapply (counters_after h _ x c s 0%Z); [done..|by apply shape_alter| | |].
    + intros y. by apply (bumped_running h [] x c s 0%Z y (NoDup_nil_2)).
    + intros y cy' Hy.
      destruct (bumped_lookup h [] x s 0%Z y cy' (NoDup_nil_2) (Hplain _ _ _ Hy))
        as (cy & Hcy & Hrc & _).
      exists cy. split; [done|]. rewrite Hrc.
      rewrite decide_False by by intros ?%elem_of_nil.
      destruct (decide (y ∈ x :: ancestors h x)); [|done].
      by rewrite (Hok y cy Hcy), wrap64_idemp, Z.add_0_r.
    + right. right. done.
Qed.

(** The invariant as the specification words it. *)
Definition spec_counters_ok (h : list TContainer) : Prop :=
  ∀ x c, h !! x = Some c → RunningChildren c = Z.of_nat (spec_running_children h x).

Definition counters_okb (h : list TContainer) : bool :=
  forallb (fun x =>
    match h !! x with
    | Some c => (RunningChildren c =? wrap64 (Z.of_nat (running_in_subtree h x)))%Z
    | None => true
    end) (seq 0 (length h)).

Lemma counters_okb_spec h : counters_okb h = true → counters_ok h.
Proof.
  unfold counters_okb. rewrite forallb_forall. intros Hall x c Hx.
  assert (Hin : In x (seq 0 (length h))).
  { apply list_elem_of_In, elem_of_seq. apply lookup_lt_Some in Hx. lia. }
  specialize (Hall x Hin). rewrite Hx in Hall. by apply Z.eqb_eq.
Qed.

Lemma SetState_counters_witness :
  wf_heap (Heap demo_running) ∧ counters_ok (Heap demo_running) ∧
  counters_ok (Heap (SetState Dead demo_ab demo_running)).
Proof.
  assert (Hwf : wf_heap (Heap demo_running)) by (vm_compute; reflexivity).
  assert (Hok : counters_ok (Heap demo_running))
    by (apply counters_okb_spec; vm_compute; reflexivity).
  split; [exact Hwf|]. split; [exact Hok|].
  exact (proj2 (SetState_counters demo_running demo_ab Dead Hwf Hok)).
Defined.

(** C1 as stated fails: in [demo_running], reached by [SetState] from a
    tree of stopped containers where the stated equation holds, the root
    has one running descendant counted, while the stated set
    ({Running, Meta with running descendants}) has two members, ["a"] and
    ["a/b"]. *)
Lemma spec_counters_counterexample :
  spec_counters_ok (Heap demo_world) ∧
  (RunningChildren <$> Heap demo_running !! demo_root) = Some 1%Z ∧
  spec_running_children (Heap demo_running) demo_root = 2 ∧
  ¬ spec_counters_ok (Heap demo_running).
Proof.
  split; [|split; [|split]].
  - intros x c Hx.
    destruct x as [|[|[|x]]]; vm_compute in Hx; try discriminate;
      injection Hx as <-; vm_compute; reflexivity.
  - vm_compute. reflexivity.
  - vm_compute. reflexivity.
  - intros Hspec.
    destruct (Heap demo_running !! demo_root) as [c|] eqn:Hc; [|vm_compute in Hc; discriminate].
    specialize (Hspec demo_root c Hc).
    vm_compute in Hc. injection Hc as <-. vm_compute in Hspec. discriminate.
Qed.

(** ** Frames

    [heap_keeps π h h']: no object changed its [π]; [heap_keeps_off y π h h']:
    none but the one at [y] did. *)
Definition keeps {A} (π : TContainer → A) (f : TContainer → TContainer) : Prop :=
  ∀ c, π (f c) = π c.

Definition heap_keeps_off {A} (y : option addr) (π : TContainer → A)
    (h h' : list TContainer) : Prop :=
  ∀ z, y ≠ Some z → (π <$> h' !! z) = (π <$> h !! z).

Abbreviation heap_keeps π h h' := (heap_keeps_off None π h h').

Lemma heap_keeps_refl {A} y (π : TContainer → A) h : heap_keeps_off y π h h.
Proof. by intros z _. Qed.

Lemma heap_keeps_trans {A} y (π : TContainer → A) h1 h2 h3 :
  heap_keeps_off y π h1 h2 → heap_keeps_off y π h2 h3 → heap_keeps_off y π h1 h3.
Proof. intros H12 H23 z Hz. by rewrite H23, H12. Qed.

Lemma heap_keeps_weaken {A} y (π : TContainer → A) h h' :
  heap_keeps π h h' → heap_keeps_off y π h h'.
Proof. intros H z _. by apply H. Qed.

Lemma heap_keeps_alter {A} y (π : TContainer → A) f a h :
  keeps π f → heap_keeps_off y π h (alter f a h).
Proof.
  intros Hf z _. destruct (decide (a = z)) as [->|Hne].
  - rewrite list_lookup_alter_eq. destruct (h !! z) as [c|]; [|done].
    cbn. by rewrite Hf.
  - by rewrite list_lookup_alter_ne.
Qed.

Lemma heap_keeps_alter_at {A} (π : TContainer → A) f a h :
  heap_keeps_off (Some a) π h (alter f a h).
Proof.
  intros z Hz. rewrite list_lookup_alter_ne; [done|]. by intros ->.
Qed.

Lemma heap_keeps_fold_alter {A} y (π : TContainer → A) f l h :
  keeps π f → heap_keeps_off y π h (fold_left (fun h a => alter f a h) l h).
Proof.
  intros Hf. revert h. induction l as [|a l IH]; intros h; [apply heap_keeps_refl|].
  simpl. eapply heap_keeps_trans; [|apply IH]. by apply heap_keeps_alter.
Qed.

(** The counter is the one field a state change writes in other
    containers. *)
Definition counter_blind {A} (π : TContainer → A) : Prop :=
  ∀ v, keeps π (set_RunningChildren v).

Lemma SetState_keeps_off {A} (π : TContainer → A) s x w :
  counter_blind π → heap_keeps_off (Some x) π (Heap w) (Heap (SetState s x w)).
Proof.
  intros Hπ. rewrite SetState_heap.
  destruct (Heap w !! x) as [c|]; [|apply heap_keeps_refl].
  case_bool_decide; [apply heap_keeps_refl|].
  eapply heap_keeps_trans; [|apply heap_keeps_alter_at].
  repeat case_bool_decide; try apply heap_keeps_refl;
    apply heap_keeps_fold_alter; intros c'; apply Hπ.
Qed.

Lemma SetState_keeps {A} (π : TContainer → A) s x w :
  counter_blind π → keeps π (set_State s) → heap_keeps π (Heap w) (Heap (SetState s x w)).
Proof.
  intros Hπ Hs. rewrite SetState_heap.
  destruct (Heap w !! x) as [c|]; [|apply heap_keeps_refl].
  case_bool_decide; [apply heap_keeps_refl|].
  eapply heap_keeps_trans; [|by apply heap_keeps_alter].
  repeat case_bool_decide; try apply heap_keeps_refl;
    apply heap_keeps_fold_alter; intros c'; apply Hπ.
Qed.

Section LifecycleFrames.
Context {cfg : TConfig}.
Variable K : TKernel.

Lemma Terminate_passes_heap n sent x w :
  Heap (Terminate_passes K n sent x w).2 = Heap w
  ∧ Containers (Terminate_passes K n sent x w).2 = Containers w.
Proof.
  revert sent w. induction n as [|n IH]; intros sent w; [done|]. simpl.
  destruct (cg_is_empty K x sent); [done|].
  destruct (failed (kill_all K x)); [done|].
  destruct (IH (S sent) (emit (AKillAll x) w)) as [-> ->]. done.
Qed.

Lemma Terminate_heap deadline x w :
  Heap (Terminate K deadline x w).2 = Heap w
  ∧ Containers (Terminate K deadline x w).2 = Containers w.
Proof.
  unfold Terminate. destruct (Heap w !! x) as [c|]; [|done].
  destruct (IsRoot c); [done|].
  destruct (negb (has_controller _ _)); [by destruct (negb _)|].
  destruct (cg_is_empty K x 0); [done|].
  destruct (cg_frozen K x); [done|].
  match goal with |- context [Terminate_passes K 3 ?s x ?w'] =>
    pose proof (Terminate_passes_heap 3 s x w') as [Hh Hc];
    destruct (Terminate_passes K 3 s x w') as [[e|] w''] end;
    simpl in *; rewrite ?Hh, ?Hc.
  - by destruct (_ && _ && _).
  - destruct (failed (freeze K x)); simpl; rewrite ?Hh, ?Hc; by destruct (_ && _ && _).
Qed.

(** [Reap] writes the OOM monitor, the death time, the OOM flag, the pids,
    the property bits, the state and the counters: a [π] blind to these is
    kept, in every container. *)
Lemma Reap_keeps {A} (π : TContainer → A) oom x w :
  counter_blind π → (∀ s, keeps π (set_State s)) →
  keeps π (set_OomMonitor false) →
  keeps π (fun c => SetProp P_DEATH_TIME (set_DeathTime (now K) c)) →
  keeps π (fun c => SetProp P_OOM_KILLED (set_OomKilled true c)) →
  keeps π (fun c => ClearProp P_ROOT_PID
                      (set_WaitTaskPid 0 (set_TaskVPid 0 (set_TaskPid 0 c)))) →
  heap_keeps π (Heap w) (Heap (Reap K oom x w)).
Proof.
  intros Hrc Hst Hoom Hdt Hok Hpid. unfold Reap.
  destruct (Terminate_heap 0 x w) as [Hh _].
  set (w1 := (Terminate K 0 x w).2) in *. rewrite <- Hh. clearbody w1. clear Hh.
  set (w2 := ShutdownOom x w1).
  set (w3 := upd x (fun c => SetProp P_DEATH_TIME (set_DeathTime (now K) c)) w2).
  set (w4 := if oom then upd x (fun c => SetProp P_OOM_KILLED (set_OomKilled true c)) w3 else w3).
  set (w5 := upd x (fun c => ClearProp P_ROOT_PID
                      (set_WaitTaskPid 0 (set_TaskVPid 0 (set_TaskPid 0 c)))) w4).
  set (w6 := emit (ARotateStderr x) (emit (ARotateStdout x) w5)).
  set (w7 := match Heap w6 !! x with
             | Some c => if bool_decide (State c = Meta) then SetState Stopped x w6
                         else SetState Dead x w6
             | None => w6
             end).
  assert (H12 : heap_keeps π (Heap w1) (Heap w2)) by by apply heap_keeps_alter.
  assert (H23 : heap_keeps π (Heap w2) (Heap w3)) by by apply heap_keeps_alter.
  assert (H34 : heap_keeps π (Heap w3) (Heap w4)).
  { unfold w4. destruct oom; [by apply heap_keeps_alter|apply heap_keeps_refl]. }
  assert (H45 : heap_keeps π (Heap w4) (Heap w5)) by by apply heap_keeps_alter.
  assert (H67 : heap_keeps π (Heap w6) (Heap w7)).
  { unfold w7. destruct (Heap w6 !! x) as [c|]; [|apply heap_keeps_refl].
    case_bool_decide; by apply SetState_keeps. }
  assert (Hend : Heap (if MayRespawn x (Save K x w7).2 then ScheduleRespawn x (Save K x w7).2
                       else (Save K x w7).2) = Heap w7) by by destruct (MayRespawn _ _).
  rewrite Hend.
  eapply heap_keeps_trans; [exact H12|]. eapply heap_keeps_trans; [exact H23|].
  eapply heap_keeps_trans; [exact H34|]. eapply heap_keeps_trans; [exact H45|]. exact H67.
Qed.

Lemma Exit_reap_keeps {A} (π : TContainer → A) oom l w :
  counter_blind π → (∀ s, keeps π (set_State s)) →
  keeps π (set_OomMonitor false) →
  keeps π (fun c => SetProp P_DEATH_TIME (set_DeathTime (now K) c)) →
  keeps π (fun c => SetProp P_OOM_KILLED (set_OomKilled true c)) →
  keeps π (fun c => ClearProp P_ROOT_PID
                      (set_WaitTaskPid 0 (set_TaskVPid 0 (set_TaskPid 0 c)))) →
  heap_keeps π (Heap w) (Heap (fold_left (Exit_reap K oom) l w)).
Proof.
  intros Hrc Hst Hoom Hdt Hok Hpid. revert w.
  induction l as [|ct l IH]; intros w; [apply heap_keeps_refl|]. simpl.
  eapply heap_keeps_trans; [|apply IH]. unfold Exit_reap.
  destruct (Heap w !! ct) as [c|]; [|apply heap_keeps_refl].
  destruct (_ && _); [by apply Reap_keeps|apply heap_keeps_refl].
Qed.

(** What [Exit] leaves in [ExitStatus]. *)
Lemma Exit_ExitStatus status oom x w c :
  Heap w !! x = Some c → State c ≠ Stopped →
  (ExitStatus <$> Heap (Exit K status oom x w) !! x) = Some (Exit_status c status).
Proof.
  intros Hx Hlive. unfold Exit. rewrite Hx, bool_decide_eq_false_2 by done.
  match goal with |- context [fold_left (Exit_reap K ?o) ?l ?w'] =>
    rewrite (Exit_reap_keeps ExitStatus o l w') by done end.
  simpl. by rewrite list_lookup_alter_eq, Hx.
Qed.

(** [Exit] on a stopped container does nothing. *)
Lemma Exit_stopped status oom x w c :
  Heap w !! x = Some c → State c = Stopped → Exit K status oom x w = w.
Proof. intros Hx Hs. unfold Exit. by rewrite Hx, bool_decide_eq_true_2. Qed.

End LifecycleFrames.

(** ** Exit status *)

(** The translation as the specification words it: a status above
    128 + SIGRTMIN is read as 128 + signum, any other is kept. *)
Definition spec_Exit_status {cfg : TConfig} (status : Z) : Z :=
  if (128 + SIGRTMIN <? WEXITSTATUS status)%Z then (WEXITSTATUS status - 128)%Z
  else status.

(** C3 (as amended): [Exit] on a container that is not stopped, in app
    mode with isolate set, whose task exited normally.  When the exit code
    is greater than 128 and less than 128 + SIGRTMIN, the recorded
    [ExitStatus] is the exit code minus 128, the number of the signal; any
    other status is recorded as it came. *)
Theorem Exit_translates_signal {cfg : TConfig} (K : TKernel) (status : Z)
    (oomKilled : bool) (x : addr) (w : TWorld) (c : TContainer) :
  Heap w !! x = Some c → State c ≠ Stopped →
  Isolate c = true → VirtMode c = VIRT_MODE_APP → WIFEXITED status = true →
  (ExitStatus <$> Heap (Exit K status oomKilled x w) !! x) =
  Some (if (128 <? WEXITSTATUS status)%Z && (WEXITSTATUS status <? 128 + SIGRTMIN)%Z
        then (WEXITSTATUS status - 128)%Z else status).
Proof.
  intros Hx Hlive Hiso Hvirt Hexited.
  rewrite (Exit_ExitStatus K status oomKilled x w c Hx Hlive).
  unfold Exit_status. rewrite Hiso, Hvirt, Hexited.
  rewrite bool_decide_eq_true_2 by done. simpl.
  by destruct (128 <? WEXITSTATUS status)%Z.
Qed.

Lemma Exit_translates_signal_witness :
  (ExitStatus <$> Heap (Exit (cfg := stock_config) quiet_kernel status_137 false
                          demo_ab demo_running) !! demo_ab) = Some SIGKILL.
Proof.
  destruct (Heap demo_running !! demo_ab) as [c|] eqn:Hc; [|vm_compute in Hc; discriminate].
  rewrite (Exit_translates_signal (cfg := stock_config) quiet_kernel status_137 false
             demo_ab demo_running c Hc);
    try (vm_compute in Hc; injection Hc as <-; vm_compute; (reflexivity || discriminate)).
Defined.

(** C3 as stated fails, with SIGRTMIN = 34 as the C library has it: a
    task under portoinit that exits with code 137 is not above 128 + 34,
    so the claim records the status unchanged, yet [Exit] records 9; one
    that exits with code 200 is above it, so the claim records 72, yet
    [Exit] records the status unchanged. *)
Lemma Exit_status_counterexample :
  (ExitStatus <$> Heap (Exit (cfg := stock_config) quiet_kernel status_137 false
                          demo_ab demo_running) !! demo_ab) = Some 9%Z
  ∧ spec_Exit_status (cfg := stock_config) status_137 = status_137
  ∧ (ExitStatus <$> Heap (Exit (cfg := stock_config) quiet_kernel status_200 false
                          demo_ab demo_running) !! demo_ab) = Some status_200
  ∧ spec_Exit_status (cfg := stock_config) status_200 = 72%Z
  ∧ status_137 ≠ 9%Z ∧ status_200 ≠ 72%Z.
Proof. repeat split; vm_compute; (reflexivity || discriminate). Qed.

(** ** Create *)

Section CreateProofs.
Context {cfg : TConfig}.
Variable K : TKernel.

Lemma Create_failure_frame cl name w :
  failed (Create K cl name w).1 = true → (Create K cl name w).2 = w.
Proof.
  unfold Create.
  repeat match goal with
         | |- context [if ?b then _ else _] => destruct b; [done..|]
         end.
  simpl. done.
Qed.

(** C6: the failures of [Create], in the order the checks run. For a valid
    name: a registered name gives [ContainerAlreadyExists]; else a registry
    that holds [max_total + NR_SERVICE_CONTAINERS] containers or more gives
    [ResourceNotAvailable]; else a name other than the root's whose parent
    is not registered gives [ContainerDoesNotExist]; else a parent at
    [CONTAINER_LEVEL_MAX] gives an error ([InvalidValue]). Whenever [Create]
    fails the world, and with it the registry, is as before. *)
Theorem Create_failures (cl : TClient) (name : string) (w : TWorld) :
  let r := Create K cl name w in
  (failed (ValidName name) = false →
     (is_Some (Containers w !! name) → r.1 = Err ContainerAlreadyExists) ∧
     (Containers w !! name = None →
        (max_total + NR_SERVICE_CONTAINERS ≤ size (Containers w) →
           r.1 = Err ResourceNotAvailable) ∧
        (size (Containers w) < max_total + NR_SERVICE_CONTAINERS →
           (name ≠ ROOT_CONTAINER → Containers w !! ParentName name = None →
              r.1 = Err ContainerDoesNotExist) ∧
           (∀ p pc, Containers w !! ParentName name = Some p → Heap w !! p = Some pc →
              Level pc = CONTAINER_LEVEL_MAX →
              r.1 = Err InvalidValue ∧ failed r.1 = true)))) ∧
  (failed r.1 = true → Containers r.2 = Containers w ∧ r.2 = w).
Proof.
  cbv zeta. split.
  - intros Hvalid. unfold Create. rewrite Hvalid. split.
    + intros Hreg. by rewrite bool_decide_eq_true_2.
    + intros Hfree. rewrite bool_decide_eq_false_2
        by (rewrite Hfree; by intros [? ?]).
      split.
      * intros Hfull. by rewrite (proj2 (Nat.leb_le _ _) Hfull).
      * intros Hroom. rewrite (proj2 (Nat.leb_gt _ _) Hroom). split.
        -- intros Hname Hparent. unfold Find. rewrite Hparent. simpl.
           assert (String.eqb name ROOT_CONTAINER = false) as ->
             by by apply String.eqb_neq.
           done.
        -- intros p pc Hparent Hp Hlevel. unfold Find. rewrite Hparent. simpl.
           rewrite Hp. simpl. rewrite Hlevel, Nat.eqb_refl. done.
  - intros Hfail. by rewrite (Create_failure_frame cl name w Hfail).
Qed.

(** [Create] fails and changes nothing, or it registers a container of
    the given name at the next address. *)
Lemma Create_cases cl name w :
  (failed (Create K cl name w).1 = true ∧ (Create K cl name w).2 = w) ∨
  (∃ ct, Name ct = name ∧ Create K cl name w = (TSuccess, Register ct w)).
Proof.
  unfold Create.
  destruct (failed (ValidName name)) eqn:E1; [by left|].
  destruct (bool_decide _); [by left|].
  destruct (_ <=? _)%nat; [by left|].
  match goal with |- context [failed ?pre] =>
    destruct (failed pre) eqn:E2; [by left|] end.
  destruct (failed (id_get K)) eqn:E3; [by left|].
  match goal with |- context [failed (load_groups K ?c)] =>
    destruct (failed (load_groups K c)) eqn:E4; [by left|] end.
  destruct (failed (save K _)) eqn:E5; [by left|].
  right. eexists. split; [|reflexivity]. reflexivity.
Qed.

(** X3: when [Create] returns no error the new container is registered
    under its name. *)
Lemma Create_success cl name w :
  failed (Create K cl name w).1 = false →
  Containers (Create K cl name w).2 !! name = Some (length (Heap w)).
Proof.
  destruct (Create_cases cl name w) as [[Hf _]|(ct & Hname & ->)]; [congruence|].
  intros _. simpl. unfold Register. rewrite Hname.
  destruct (Parent ct); simpl; by rewrite lookup_insert_eq.
Qed.

End CreateProofs.

Example Create_existing :
  Create (cfg := stock_config) quiet_kernel SystemClient "a" demo_world
  = (Err ContainerAlreadyExists, demo_world).
Proof. vm_compute. reflexivity. Qed.

Example Create_full :
  Create (cfg := tiny_config) quiet_kernel SystemClient "c" demo_world
  = (Err ResourceNotAvailable, demo_world).
Proof. vm_compute. reflexivity. Qed.

Example Create_orphan :
  Create (cfg := stock_config) quiet_kernel SystemClient "x/y" demo_world
  = (Err ContainerDoesNotExist, demo_world).
Proof. vm_compute. reflexivity. Qed.

Example Create_too_deep :
  Create (cfg := (Build_TConfig 200 128 2 1 3000 34 false false false 86400))
    quiet_kernel SystemClient "a/b/c" demo_world
  = (Err InvalidValue, demo_world).
Proof. vm_compute. reflexivity. Qed.

Example Create_registers :
  (Create (cfg := stock_config) quiet_kernel SystemClient "a/c" demo_world).1 = TSuccess
  ∧ Find "a/c" (Create (cfg := stock_config) quiet_kernel SystemClient "a/c" demo_world).2
    = Some 3.
Proof. vm_compute. split; reflexivity. Qed.

(** ** Client identification *)

Lemma min_rank a b :
  EAccessLevel.rank (EAccessLevel.min a b)
  = Nat.min (EAccessLevel.rank a) (EAccessLevel.rank b).
Proof.
  unfold EAccessLevel.min, EAccessLevel.ltb.
  destruct (Nat.ltb_spec (EAccessLevel.rank b) (EAccessLevel.rank a)); lia.
Qed.

Lemma min_cases a b : EAccessLevel.min a b = a ∨ EAccessLevel.min a b = b.
Proof. unfold EAccessLevel.min. destruct (EAccessLevel.ltb b a); auto. Qed.

Lemma rank_inj a b : EAccessLevel.rank a = EAccessLevel.rank b → a = b.
Proof. destruct a, b; simpl; congruence. Qed.

(** The fold of [IdentifyClient] computes a lower bound that is
    attained. *)
Lemma fold_min_spec (h : list TContainer) (l : list addr) (a0 : EAccessLevel.t) :
  let level := fold_left (fun level p =>
                 match h !! p with
                 | Some pc => EAccessLevel.min level (AccessLevel pc)
                 | None => level
                 end) l a0 in
  EAccessLevel.rank level ≤ EAccessLevel.rank a0
  ∧ (∀ p pc, p ∈ l → h !! p = Some pc →
       EAccessLevel.rank level ≤ EAccessLevel.rank (AccessLevel pc))
  ∧ (level = a0 ∨ ∃ p pc, p ∈ l ∧ h !! p = Some pc ∧ level = AccessLevel pc).
Proof.
  cbv zeta. revert a0. induction l as [|q l IH]; intros a0; simpl.
  - split; [lia|]. split; [|by left]. intros p pc Hin. by apply elem_of_nil in Hin.
  - destruct (h !! q) as [qc|] eqn:Hq.
    + destruct (IH (EAccessLevel.min a0 (AccessLevel qc))) as (Hle & Hall & Hatt).
      rewrite min_rank in Hle. split; [lia|]. split.
      * intros p pc [->|Hin]%elem_of_cons Hp.
        -- assert (pc = qc) as -> by congruence. lia.
        -- by eapply Hall.
      * destruct Hatt as [Heq|(p & pc & Hin & Hp & Heq)].
        -- rewrite Heq. destruct (min_cases a0 (AccessLevel qc)) as [->| ->]; [by left|].
           right. exists q, qc. split; [by left|done].
        -- right. exists p, pc. split; [by right|done].
    + destruct (IH a0) as (Hle & Hall & Hatt). split; [done|]. split.
      * intros p pc [->|Hin]%elem_of_cons Hp; [congruence|by eapply Hall].
      * destruct Hatt as [Heq|(p & pc & Hin & Hp & Heq)]; [by left|].
        right. exists p, pc. split; [by right|done].
Qed.

(** [inherited_level] is the minimum of the levels of the container and
    of its ancestors: below each of them, and the level of one of them. *)
Lemma inherited_level_is_min (h : list TContainer) (x : addr) (ct : TContainer) :
  wf_heap h → h !! x = Some ct →
  EAccessLevel.rank (inherited_level h x) ≤ EAccessLevel.rank (AccessLevel ct)
  ∧ (∀ a ac, ancestor_of h a x → h !! a = Some ac →
       EAccessLevel.rank (inherited_level h x) ≤ EAccessLevel.rank (AccessLevel ac))
  ∧ (inherited_level h x = AccessLevel ct
     ∨ ∃ a ac, ancestor_of h a x ∧ h !! a = Some ac ∧ inherited_level h x = AccessLevel ac).
Proof.
  intros Hwf Hx. unfold inherited_level. rewrite Hx.
  destruct (fold_min_spec h (ancestors h x) (AccessLevel ct)) as (Hle & Hall & Hatt).
  split; [done|]. split.
  - intros a ac Ha Hac. eapply Hall; [|done]. by apply ancestor_of_ancestors.
  - destruct Hatt as [?|(p & pc & Hin & Hp & Heq)]; [by left|].
    right. exists p, pc. split; [by eapply ancestors_ancestor_of|done].
Qed.

(** C9 (as amended): a full identification (the first one, or the peer
    or its container changed) of a client whose task lives in container
    [x].  The level computed first is the minimum of the levels of [x]
    and of every ancestor.  When this minimum is [None] the identification
    fails with [Permission] and the client is left at level [None].
    Otherwise, when [x] is [Running] or [Meta], it succeeds, the
    credentials are the peer's in the root container and the owner's of
    [x] elsewhere, and the client's level is the minimum adjusted by
    them: [SuperUser] when they are root's and the minimum is [Normal];
    [ReadOnly] when they are not root's, not in the porto group, and the
    minimum is [ReadOnly] or above; the minimum itself in the remaining
    cases. *)
Theorem IdentifyClient_level (K : TKernel) (initial : bool) (cl : TClient) (w : TWorld)
    (pid uid gid : Z) (x : addr) (ct : TContainer) :
  wf_heap (Heap w) →
  peer_cred K = Some (pid, uid, gid) →
  (initial = true ∨ Client.Pid cl ≠ pid
   ∨ Uid (Client.TaskCred cl) ≠ uid ∨ Gid (Client.TaskCred cl) ≠ gid
   ∨ ∀ a cc, Client.ClientContainer cl = Some a → Heap w !! a = Some cc →
       State cc ≠ Running ∧ State cc ≠ Meta) →
  FindTaskContainer K pid w = (TSuccess, Some x) →
  Heap w !! x = Some ct →
  let level := inherited_level (Heap w) x in
  let r := IdentifyClient K initial cl w in
  (EAccessLevel.rank level ≤ EAccessLevel.rank (AccessLevel ct)
   ∧ (∀ a ac, ancestor_of (Heap w) a x → Heap w !! a = Some ac →
        EAccessLevel.rank level ≤ EAccessLevel.rank (AccessLevel ac))
   ∧ (level = AccessLevel ct
      ∨ ∃ a ac, ancestor_of (Heap w) a x ∧ Heap w !! a = Some ac ∧ level = AccessLevel ac))
  ∧ (level = EAccessLevel.None →
       r.1 = Err Permission ∧ Client.AccessLevel r.2 = EAccessLevel.None)
  ∧ (level ≠ EAccessLevel.None → State ct = Running ∨ State ct = Meta →
       r.1 = TSuccess
       ∧ Client.Cred r.2
         = (if IsRoot ct then mkCred uid gid (proc_groups K pid).2 else OwnerCred ct)
       ∧ (IsRootUser (Client.Cred r.2) = true → level = EAccessLevel.Normal →
            Client.AccessLevel r.2 = EAccessLevel.SuperUser)
       ∧ (IsRootUser (Client.Cred r.2) = false →
          IsMemberOf (Client.Cred r.2) (PortoGroup K) = false →
          EAccessLevel.rank EAccessLevel.ReadOnly ≤ EAccessLevel.rank level →
            Client.AccessLevel r.2 = EAccessLevel.ReadOnly)
       ∧ ((IsRootUser (Client.Cred r.2) = true ∧ level ≠ EAccessLevel.Normal)
          ∨ (IsRootUser (Client.Cred r.2) = false
             ∧ IsMemberOf (Client.Cred r.2) (PortoGroup K) = true) →
            Client.AccessLevel r.2 = level)).
Proof.
  intros Hwf Hpeer Hfull Hfind Hx. cbv zeta. split; [by apply inherited_level_is_min|].
  unfold IdentifyClient. rewrite Hpeer.
  match goal with |- context [if ?b then (TSuccess, cl) else _] =>
    assert (Hsame : b = false) end.
  { apply not_true_is_false. rewrite !andb_true_iff.
    intros ((((Hi & Hp) & Hu) & Hg) & Hc).
    apply negb_true_iff in Hi. apply Z.eqb_eq in Hp, Hu, Hg.
    destruct Hfull as [?|[?|[?|[?|Hstate]]]]; [congruence|done..|].
    destruct (Client.ClientContainer cl) as [a|]; [|done]. cbn in Hc.
    destruct (Heap w !! a) as [cc|] eqn:Ha; [|done].
    destruct (Hstate a cc eq_refl Ha) as [Hr Hm].
    by rewrite !bool_decide_eq_false_2 in Hc. }
  rewrite Hsame. cbn [Client.Pid]. rewrite Hfind, Hx. split.
  - intros ->. simpl. done.
  - intros Hlevel Hstate. rewrite bool_decide_eq_false_2 by done.
    assert (negb (bool_decide (State ct = Running)) && negb (bool_decide (State ct = Meta))
            = false) as ->.
    { destruct Hstate as [-> | ->]; done. }
    cbn [fst snd Client.Cred Client.AccessLevel].
    split; [done|]. split; [done|]. unfold adjust_level.
    set (cred := if IsRoot ct then mkCred uid gid (proc_groups K pid).2 else OwnerCred ct).
    split; [|split].
    + intros -> ->. done.
    + intros -> -> Hle. cbn [negb]. unfold EAccessLevel.leb.
      by rewrite (proj2 (Nat.leb_le _ _) Hle).
    + intros [[-> Hn]|[-> ->]]; [by rewrite bool_decide_eq_false_2|done].
Qed.

(** The tree of [demo_running] and three peers in the root cgroup.
    Root's task: the minimum is [Normal], the client ends at [SuperUser].
    The task of user 1000, outside the porto group, on a connection that
    is not new: the client ends at [ReadOnly].  The task of user 1000
    with the porto group as its group: the client keeps [Normal]. *)
Lemma IdentifyClient_level_witness :
  inherited_level (Heap demo_running) demo_root = EAccessLevel.Normal
  ∧ ((IdentifyClient quiet_kernel true fresh_client demo_running).1 = TSuccess
     ∧ Client.AccessLevel (IdentifyClient quiet_kernel true fresh_client demo_running).2
       = EAccessLevel.SuperUser)
  ∧ ((IdentifyClient (with_peer_cred (Some (100, 1000, 1000)%Z) quiet_kernel) false
        fresh_client demo_running).1 = TSuccess
     ∧ Client.AccessLevel
         (IdentifyClient (with_peer_cred (Some (100, 1000, 1000)%Z) quiet_kernel) false
            fresh_client demo_running).2
       = EAccessLevel.ReadOnly)
  ∧ ((IdentifyClient (with_peer_cred (Some (100, 1000, 1333)%Z) quiet_kernel) true
        fresh_client demo_running).1 = TSuccess
     ∧ Client.AccessLevel
         (IdentifyClient (with_peer_cred (Some (100, 1000, 1333)%Z) quiet_kernel) true
            fresh_client demo_running).2
       = EAccessLevel.Normal).
Proof.
  assert (Hwf : wf_heap (Heap demo_running)) by (vm_compute; reflexivity).
  assert (Hlevel : inherited_level (Heap demo_running) demo_root = EAccessLevel.Normal)
    by (vm_compute; reflexivity).
  destruct (Heap demo_running !! demo_root) as [ct|] eqn:Hct; [|vm_compute in Hct; discriminate].
  assert (Hstate : State ct = Running ∨ State ct = Meta)
    by (vm_compute in Hct; injection Hct as <-; right; reflexivity).
  assert (Hroot : IsRoot ct = true) by (vm_compute in Hct; by injection Hct as <-).
  assert (Hsome : inherited_level (Heap demo_running) demo_root ≠ EAccessLevel.None)
    by (by rewrite Hlevel).
  split; [exact Hlevel|]. split; [|split].
  - destruct (IdentifyClient_level quiet_kernel true fresh_client demo_running 100 0 0
                demo_root ct Hwf eq_refl ltac:(by left) eq_refl Hct) as (_ & _ & Hok).
    destruct (Hok Hsome Hstate) as (Hr & Hcred & Hsuper & _).
    split; [exact Hr|]. apply Hsuper; [|exact Hlevel]. rewrite Hcred, Hroot. reflexivity.
  - destruct (IdentifyClient_level (with_peer_cred (Some (100, 1000, 1000)%Z) quiet_kernel)
                false fresh_client demo_running 100 1000 1000
                demo_root ct Hwf eq_refl ltac:(right; left; done) eq_refl Hct)
      as (_ & _ & Hok).
    destruct (Hok Hsome Hstate) as (Hr & Hcred & _ & Hread & _).
    split; [exact Hr|]. apply Hread.
    + rewrite Hcred, Hroot. reflexivity.
    + rewrite Hcred, Hroot. reflexivity.
    + rewrite Hlevel. cbn. lia.
  - destruct (IdentifyClient_level (with_peer_cred (Some (100, 1000, 1333)%Z) quiet_kernel)
                true fresh_client demo_running 100 1000 1333
                demo_root ct Hwf eq_refl ltac:(by left) eq_refl Hct) as (_ & _ & Hok).
    destruct (Hok Hsome Hstate) as (Hr & Hcred & _ & _ & Hkeep).
    split; [exact Hr|]. rewrite <- Hlevel. apply Hkeep. right.
    rewrite Hcred, Hroot. split; reflexivity.
Defined.

(** C9 as stated fails: root's task in the root container is identified
    with level [SuperUser], while the minimum over the container and its
    ancestors is [Normal]. *)
Lemma IdentifyClient_counterexample :
  (IdentifyClient quiet_kernel true fresh_client demo_running).1 = TSuccess
  ∧ Client.AccessLevel (IdentifyClient quiet_kernel true fresh_client demo_running).2
    = EAccessLevel.SuperUser
  ∧ inherited_level (Heap demo_running) demo_root = EAccessLevel.Normal
  ∧ Client.ClientContainer (IdentifyClient quiet_kernel true fresh_client demo_running).2
    = Some demo_root.
Proof. vm_compute. repeat split; reflexivity. Qed.

(** ** Stop *)

Lemma UpdateRunningChildren_registry diff l w :
  Containers (fold_left (UpdateRunningChildren_at diff) l w) = Containers w.
Proof.
  revert w. induction l as [|a l IH]; intros w; [done|]. simpl. rewrite IH.
  unfold UpdateRunningChildren_at. destruct (Heap w !! a); [|done].
  by destruct (_ && _).
Qed.

Lemma SetState_registry s x w : Containers (SetState s x w) = Containers w.
Proof.
  unfold SetState. destruct (Heap w !! x) as [c|]; [|done].
  case_bool_decide; [done|].
  assert (Hn : ∀ w', Containers (if negb (bool_decide (s = Running)) && negb (bool_decide (s = Meta))
                                 then NotifyWaiters x w' else w') = Containers w')
    by (intros w'; by destruct (_ && _)).
  rewrite Hn. simpl. unfold UpdateRunningChildren.
  repeat case_bool_decide; by rewrite ?UpdateRunningChildren_registry.
Qed.

Section StopProofs.
Context {cfg : TConfig}.
Variable K : TKernel.

Lemma FreeResources_registry x w : Containers (FreeResources K x w) = Containers w.
Proof.
  unfold FreeResources. destruct (Heap w !! x) as [c|]; [|done].
  destruct (IsRoot c); [done|]. by destruct (0 <=? LoopDev c)%Z.
Qed.

Lemma FreeResources_keeps_off {A} (π : TContainer → A) x w :
  heap_keeps_off (Some x) π (Heap w) (Heap (FreeResources K x w)).
Proof.
  unfold FreeResources. destruct (Heap w !! x) as [c|]; [|apply heap_keeps_refl].
  intros z Hz. assert (x ≠ z) by congruence.
  destruct (IsRoot c); simpl; [by rewrite !list_lookup_alter_ne|].
  destruct (0 <=? LoopDev c)%Z; simpl; by rewrite !list_lookup_alter_ne.
Qed.

Lemma StopOne_registry deadline y w :
  Containers (StopOne K deadline y w).2 = Containers w.
Proof.
  unfold StopOne. destruct (Heap w !! y) as [c|]; [|done].
  case_bool_decide; [done|].
  assert (Ht : ∀ r : TError * TWorld,
            r = (if IsRoot c then (TSuccess, w) else Terminate K deadline y w) →
            Containers r.2 = Containers w).
  { intros r ->. destruct (IsRoot c); [done|]. apply Terminate_heap. }
  destruct (if IsRoot c then (TSuccess, w) else Terminate K deadline y w) as [e w1] eqn:E.
  specialize (Ht (e, w1) eq_refl). simpl in Ht.
  destruct (failed e); [done|]. simpl.
  by rewrite FreeResources_registry, SetState_registry.
Qed.

Lemma StopOne_keeps_off {A} (π : TContainer → A) deadline y w :
  counter_blind π →
  heap_keeps_off (Some y) π (Heap w) (Heap (StopOne K deadline y w).2).
Proof.
  intros Hπ. unfold StopOne. destruct (Heap w !! y) as [c|]; [|apply heap_keeps_refl].
  case_bool_decide; [apply heap_keeps_refl|].
  assert (Ht : ∀ r : TError * TWorld,
            r = (if IsRoot c then (TSuccess, w) else Terminate K deadline y w) →
            Heap r.2 = Heap w).
  { intros r ->. destruct (IsRoot c); [done|]. apply Terminate_heap. }
  destruct (if IsRoot c then (TSuccess, w) else Terminate K deadline y w) as [e w1] eqn:E.
  specialize (Ht (e, w1) eq_refl). simpl in Ht.
  destruct (failed e); simpl; [rewrite Ht; apply heap_keeps_refl|].
  eapply heap_keeps_trans; [|apply FreeResources_keeps_off].
  eapply heap_keeps_trans; [|by apply SetState_keeps_off].
  simpl. rewrite Ht. intros z Hz. assert (y ≠ z) by congruence.
  by rewrite !list_lookup_alter_ne.
Qed.

Lemma StopOne_stopped deadline y w c :
  Heap w !! y = Some c → State c = Stopped → StopOne K deadline y w = (TSuccess, w).
Proof. intros Hy Hs. unfold StopOne. by rewrite Hy, bool_decide_eq_true_2. Qed.

Lemma first_error_inv (P : TWorld → Prop) step l w :
  P w → (∀ y w', P w' → P (step y w').2) → P (first_error step l w).2.
Proof.
  intros HP Hstep. unfold first_error.
  assert (Hgen : ∀ r : TError * TWorld, P r.2 →
            P (fold_left (fun r ct => if failed r.1 then r else step ct r.2) l r).2).
  { induction l as [|a l IH]; intros r Hr; [done|]. simpl. apply IH.
    destruct (failed r.1); [done|]. by apply Hstep. }
  by apply Hgen.
Qed.

Lemma first_error_noop step l w :
  (∀ y, y ∈ l → step y w = (TSuccess, w)) → first_error step l w = (TSuccess, w).
Proof.
  unfold first_error. induction l as [|a l IH]; intros Hall; [done|]. simpl.
  rewrite (Hall a) by by left. apply IH. intros y Hy. apply Hall. by right.
Qed.

Lemma Stop_thaw_heap y w :
  Heap (Stop_thaw K y w).2 = Heap w ∧ Containers (Stop_thaw K y w).2 = Containers w.
Proof. unfold Stop_thaw. by destruct (failed (kill_all K y)). Qed.

(** The runtime fields C7 names. *)
Definition runtime_fields (c : TContainer) : EContainerState * Z * Z * bool * Z :=
  (State c, TaskPid c, ExitStatus c, OomKilled c, DeathTime c).

(** While [x] is stopped, [StopOne] on any container leaves [x] alone but
    for its counter. *)
Lemma StopOne_keeps_stopped {A} (π : TContainer → A) deadline x c y w :
  counter_blind π → (∀ c1 c2, π c1 = π c2 → State c1 = State c2) →
  State c = Stopped →
  (π <$> Heap w !! x) = Some (π c) →
  (π <$> Heap (StopOne K deadline y w).2 !! x) = Some (π c).
Proof.
  intros Hπ Hst Hstopped Hx. destruct (decide (y = x)) as [->|Hne].
  - destruct (Heap w !! x) as [c'|] eqn:Hc'; [|done]. cbn in Hx.
    injection Hx as Hx. rewrite (StopOne_stopped deadline x w c' Hc').
    + simpl. by rewrite Hc', <- Hx.
    + rewrite (Hst c' c Hx). done.
  - rewrite <- Hx. apply StopOne_keeps_off; [done|congruence].
Qed.

(** C7 (as amended): [Stop] on a container [x] in state [Stopped].  It
    never changes the state and the runtime fields (Task.Pid, ExitStatus,
    OomKilled, DeathTime) of [x], nor the registry.  When moreover [x] has
    the freezer controller or no task pid, its freezer cgroup is not frozen
    and every container of its subtree is [Stopped], [Stop] returns
    [Success], changes no container and only refreshes the soft limit. *)
Theorem Stop_stopped (timeout : Z) (x : addr) (w : TWorld) (c : TContainer) :
  Heap w !! x = Some c → State c = Stopped →
  let r := Stop K timeout x w in
  Containers r.2 = Containers w
  ∧ (runtime_fields <$> Heap r.2 !! x) = Some (runtime_fields c)
  ∧ (has_controller (Controllers c) CGROUP_FREEZER = true ∨ TaskPid c = 0%Z →
     cg_frozen K x = false →
     (∀ y, y ∈ Subtree (Heap w) x → ∃ yc, Heap w !! y = Some yc ∧ State yc = Stopped) →
     r.1 = TSuccess ∧ Heap r.2 = Heap w ∧ Log r.2 = Log w ++ [AUpdateSoftLimit x]).
Proof.
  intros Hx Hstopped. cbv zeta.
  set (P := fun w' : TWorld =>
              Containers w' = Containers w
              ∧ (runtime_fields <$> Heap w' !! x) = Some (runtime_fields c)).
  assert (HP0 : P w) by (split; [done|by rewrite Hx]).
  assert (Hthaw : ∀ y w', P w' → P (Stop_thaw K y w').2).
  { intros y w' [Hc Hf]. destruct (Stop_thaw_heap y w') as [Hh Hr].
    split; [by rewrite Hr|by rewrite Hh]. }
  assert (Hone : ∀ d y w', P w' → P (StopOne K d y w').2).
  { intros d y w' [Hc Hf]. split; [by rewrite StopOne_registry|].
    apply (StopOne_keeps_stopped runtime_fields d x c y w'); try done.
    intros c1 c2. unfold runtime_fields. congruence. }
  assert (HP : P (Stop K timeout x w).2).
  { unfold Stop. rewrite Hx.
    set (deadline := if (timeout =? 0)%Z then 0%Z else (now K + timeout)%Z).
    assert (H1 : ∀ r : TError * TWorld,
              r = (if negb (has_controller (Controllers c) CGROUP_FREEZER)
                   then if negb (TaskPid c =? 0)%Z then (Err NotSupported, w) else (TSuccess, w)
                   else if cg_frozen K x
                        then if cg_parent_freezing K x then (Err InvalidState, w)
                             else first_error (Stop_thaw K) (Subtree (Heap w) x) w
                        else (TSuccess, w)) → P r.2).
    { intros r ->. destruct (negb (has_controller _ _)); [by destruct (negb _)|].
      destruct (cg_frozen K x); [|done].
      destruct (cg_parent_freezing K x); [done|]. by apply first_error_inv. }
    match goal with |- context [let (_, _) := ?e in _] =>
      destruct e as [e1 w1] eqn:E1 end.
    specialize (H1 (e1, w1) eq_refl). simpl in H1.
    destruct (failed e1); [done|].
    pose proof (first_error_inv P (StopOne K deadline) (Subtree (Heap w1) x) w1 H1
                  (Hone deadline)) as H2.
    destruct (first_error (StopOne K deadline) (Subtree (Heap w1) x) w1) as [e2 w2].
    simpl in H2. by destruct (failed e2). }
  destruct HP as [HPc HPf]. split; [done|]. split; [done|].
  intros Hfreezer Hthawed Hall. unfold Stop. rewrite Hx, Hthawed.
  assert ((if negb (has_controller (Controllers c) CGROUP_FREEZER)
           then if negb (TaskPid c =? 0)%Z then (Err NotSupported, w) else (TSuccess, w)
           else (TSuccess, w)) = (TSuccess, w)) as ->.
  { destruct Hfreezer as [-> | ->]; [done|]. by destruct (negb _). }
  simpl. rewrite first_error_noop; [done|].
  intros y Hy. destruct (Hall y Hy) as (yc & Hyc & Hys).
  by apply (StopOne_stopped _ y w yc).
Qed.

End StopProofs.

Lemma Stop_stopped_witness :
  (Stop quiet_kernel 0 demo_a demo_world).1 = TSuccess
  ∧ Heap (Stop quiet_kernel 0 demo_a demo_world).2 = Heap demo_world
  ∧ Containers (Stop quiet_kernel 0 demo_a demo_world).2 = Containers demo_world.
Proof.
  destruct (Heap demo_world !! demo_a) as [c|] eqn:Hc; [|vm_compute in Hc; discriminate].
  assert (Hs : State c = Stopped) by (vm_compute in Hc; by injection Hc as <-).
  destruct (Stop_stopped quiet_kernel 0 demo_a demo_world c Hc Hs) as (Hreg & _ & Hok).
  destruct Hok as (Hr & Hh & _).
  - left. vm_compute in Hc. injection Hc as <-. vm_compute. reflexivity.
  - reflexivity.
  - intros y Hy. vm_compute in Hy.
    apply elem_of_cons in Hy as [->|Hy]; [|apply elem_of_cons in Hy as [->|Hy]];
      [eexists; split; [vm_compute; reflexivity|reflexivity]..|].
    by apply elem_of_nil in Hy.
  - done.
Defined.

(** C7 as stated fails: in [demo_reaped] the container ["a"] is
    [Stopped] while ["a/b"] below it is [Dead]; [Stop] on ["a"] stops
    ["a/b"], and when the record of ["a/b"] cannot be saved it returns that
    error, not [Success]. *)
Lemma Stop_stopped_counterexample :
  (State <$> Heap demo_reaped !! demo_a) = Some Stopped
  ∧ (State <$> Heap demo_reaped !! demo_ab) = Some Dead
  ∧ (Stop full_disk_kernel 0 demo_a demo_reaped).1 = mkError NoSpace ENOSPC
  ∧ (Stop full_disk_kernel 0 demo_a demo_reaped).1 ≠ TSuccess.
Proof. vm_compute. repeat split; (reflexivity || discriminate). Qed.

(** ** Start *)


(** C4, the failing inputs.  [Start] of the stopped container ["a"] below
    the running root: when the net configuration does not parse, and when
    the kernel refuses the memory limit, [Start] returns the error through
    a plain [return], not through the label [error:]; [FreeResources] is
    not called and the container keeps its working directory, its cgroups
    and its OOM monitor (in the second case its network too).  When the
    very next step, [PrepareNetwork], fails instead, everything is
    released. *)
Theorem Start_leaks_resources :
  let r1 := Start bad_net_kernel SystemClient demo_a demo_booted in
  let r2 := Start low_limit_kernel SystemClient demo_a demo_limited in
  let r3 := Start no_route_kernel SystemClient demo_a demo_booted in
  (r1.1 = Err InvalidValue
   ∧ (held_resources <$> Heap r1.2 !! demo_a) = Some (true, true, true, None)
   ∧ freed demo_a r1.2 = false)
  ∧ (r2.1 = Err InvalidValue
     ∧ (held_resources <$> Heap r2.2 !! demo_a) = Some (true, true, true, Some 0)
     ∧ freed demo_a r2.2 = false)
  ∧ (r3.1 = Err Unknown
     ∧ (held_resources <$> Heap r3.2 !! demo_a) = Some (false, false, false, None)
     ∧ freed demo_a r3.2 = true).
Proof. vm_compute. repeat split; reflexivity. Qed.

(** ** Events *)

(** A [DestroyWeak] event whose container is gone is handled exactly as a
    [RotateLogs] event. *)
Lemma DestroyWeak_is_RotateLogs {cfg : TConfig} K kill_timeout_ms pid status waiter w :
  Event K kill_timeout_ms (mkEvent EvDestroyWeak None pid status waiter) w
  = Event K kill_timeout_ms (mkEvent EvRotateLogs None pid status waiter) w.
Proof. reflexivity. Qed.

(** C8, the failing inputs.  With ["a"] running and the weak container
    ["a/b"] stopped, the event [DestroyWeak] for ["a/b"] destroys it and
    then runs on into the [RotateLogs] case: the logs of ["a"] are rotated
    and the handler ends in the second [lock.unlock()].  When the
    container of the event is gone and nothing runs, the handler refreshes
    the network statistics. *)
Theorem DestroyWeak_falls_through :
  let e1 := Event (cfg := stock_config) quiet_kernel 1000 weak_gone demo_serving in
  let e2 := Event (cfg := stock_config) quiet_kernel 1000 weak_expired demo_booted in
  ((State <$> Heap e1.2 !! demo_ab) = Some Destroyed
   ∧ Find "a/b" e1.2 = None
   ∧ Log e1.2 = [APutId demo_ab; AUnlinkKV demo_ab; ANotifyAll;
                 ARotateStdout demo_a; ARotateStderr demo_a; ANotifyAll]
   ∧ e1.1 = EventThrown)
  ∧ e2 = (EventDone, emit ARefreshNetworks demo_booted).
Proof. vm_compute. repeat split; reflexivity. Qed.

(** ** SetProperty *)

Lemma set_PropDirty_same c : set_PropDirty (PropDirty c) c = c.
Proof. by destruct c. Qed.

Lemma ApplyDynamic_groups_dirty K x groups r :
  ∃ d, (fold_left (ApplyDynamic_group K x) groups r).2 = set_PropDirty d r.2.
Proof.
  revert r. induction groups as [|g groups IH]; intros r.
  - exists (PropDirty r.2). by rewrite set_PropDirty_same.
  - simpl. destruct (IH (ApplyDynamic_group K x r g)) as [d ->].
    assert (Hg : ∃ d', (ApplyDynamic_group K x r g).2 = set_PropDirty d' r.2).
    { unfold ApplyDynamic_group. destruct (failed r.1).
      - exists (PropDirty r.2). by rewrite set_PropDirty_same.
      - assert (Hf : ∀ l c, ∃ d', fold_left (fun c p => (TestClearPropDirty p c).2) l c
                                   = set_PropDirty d' c).
        { induction l as [|p l IHl]; intros c.
          - exists (PropDirty c). by rewrite set_PropDirty_same.
          - cbn [fold_left]. destruct (IHl (TestClearPropDirty p c).2) as [d' ->].
            by exists d'. }
        destruct (Hf g r.2) as [d' Hd']. exists d'.
        destruct g as [|key g']; [done|].
        by destruct (_ && _). }
    destruct Hg as [d' ->]. by exists d.
Qed.

Lemma ApplyDynamicProperties_effect K x w c :
  Heap w !! x = Some c →
  ∃ d, Heap (ApplyDynamicProperties K x w).2 !! x = Some (set_PropDirty d c)
       ∧ Log (ApplyDynamicProperties K x w).2 = Log w.
Proof.
  intros Hx. unfold ApplyDynamicProperties. rewrite Hx.
  destruct (ApplyDynamic_groups_dirty K x dynamic_groups (TSuccess, c)) as [d Hd].
  remember (fold_left (ApplyDynamic_group K x) dynamic_groups (TSuccess, c)) as r eqn:Hr.
  clear Hr. exists d. cbn [fst snd] in *. unfold upd, with_Heap. cbn [Heap Log].
  rewrite list_lookup_alter_eq, Hx. cbn. by rewrite Hd.
Qed.

Section SetPropertyProofs.
Variable K : TKernel.
Variable ContainerProperties : gmap string TProperty.
Variable ParsePropertyName : string → string * string.
Variable StringTrim : string → string.

(** C10 (as amended): [SetProperty] on a container that is [Running],
    [Meta] or [Paused] once the new value is stored.  The property object
    is one whose [Set] takes back what its [Get] printed and whose [Get]
    does not read the dirty bits.  When [ApplyDynamicProperties] then
    fails, [SetProperty] returns that error, the property reads as before,
    its dirty bit is clear and nothing is saved. *)
Theorem SetProperty_rollback (x : addr) (origProperty origValue : string)
    (w : TWorld) (c : TContainer) (prop : TProperty) :
  Heap w !! x = Some c → IsRoot c = false →
  ContainerProperties !! (ParsePropertyName origProperty).1 = Some prop →
  IsSupported prop = true →
  failed (Get prop c).1 = false →
  (∀ c', (Get prop (Set_ prop (Get prop c).2 c').2).2 = (Get prop c).2) →
  (∀ d c', Get prop (set_PropDirty d c') = Get prop c') →
  let idx := (ParsePropertyName origProperty).2 in
  let stored :=
    if negb (String.eqb idx "") then SetIndexed prop idx (StringTrim origValue) c
    else Set_ prop (StringTrim origValue) c in
  failed stored.1 = false → is_alive (State stored.2) = true →
  let applied := ApplyDynamicProperties K x (upd x (fun _ => stored.2) w) in
  failed applied.1 = true →
  let r := SetProperty K ContainerProperties ParsePropertyName StringTrim x
             origProperty origValue w in
  r.1 = applied.1
  ∧ (∃ c', Heap r.2 !! x = Some c'
           ∧ (Get prop c').2 = (Get prop c).2
           ∧ Prop_ prop ∉ PropDirty c')
  ∧ Log r.2 = Log w.
Proof.
  intros Hx Hroot Hprop Hsup Hget Hrestore Hblind. cbv zeta.
  unfold SetProperty. rewrite Hx, Hroot.
  destruct (ParsePropertyName origProperty) as [property idx] eqn:Hparse.
  cbn [fst snd] in *. rewrite Hprop, Hsup. cbn [negb].
  destruct (Get prop c) as [e0 oldValue] eqn:Hg. cbn [fst snd] in *. rewrite Hget.
  destruct (if negb (idx =? "")%string
            then SetIndexed prop idx (StringTrim origValue) c
            else Set_ prop (StringTrim origValue) c) as [e1 c1] eqn:Hs.
  cbn [fst snd]. intros Hstored Halive. rewrite Hstored, Halive. cbn [negb andb].
  assert (Hx1 : Heap (upd x (fun _ => c1) w) !! x = Some c1).
  { unfold upd, with_Heap. cbn [Heap]. by rewrite list_lookup_alter_eq, Hx. }
  destruct (ApplyDynamicProperties_effect K x _ c1 Hx1) as (d & Hd & Hlog).
  destruct (ApplyDynamicProperties K x (upd x (fun _ => c1) w)) as [e2 w2] eqn:Ha.
  cbn [fst snd] in *. intros Happlied. rewrite Happlied. cbn [fst snd].
  rewrite ?Happlied. cbn [fst snd].
  split; [done|]. split.
  - eexists. split.
    + unfold upd, with_Heap. cbn [Heap]. rewrite list_lookup_alter_eq, Hd. reflexivity.
    + unfold TestClearPropDirty. cbn [snd]. split.
      * rewrite Hblind. apply Hrestore.
      * assert (Hpd : ∀ dd cc, PropDirty (set_PropDirty dd cc) = dd) by done.
        rewrite Hpd. set_solver.
  - done.
Qed.

End SetPropertyProofs.

Lemma memory_limit_restores c c' :
  (Get memory_limit (Set_ memory_limit (Get memory_limit c).2 c').2).2
  = (Get memory_limit c).2.
Proof.
  simpl. set (n := Z.to_N (MemLimit c)).
  destruct (NilZero.uint_of_string (NilZero.string_of_uint (N.to_uint n))) as [d|] eqn:Hd.
  - simpl. apply NilZero.sus in Hd as Hs. rewrite N2Z.id.
    destruct (NilZero.usu_gen (N.to_uint n)) as [H|H]; rewrite Hd in H; injection H as ->.
    + by rewrite Unsigned.of_to.
    + simpl. rewrite <- Hs. reflexivity.
  - destruct (NilZero.usu_gen (N.to_uint n)) as [H|H]; rewrite Hd in H; discriminate.
Qed.

Lemma SetProperty_rollback_witness :
  let r := SetProperty low_limit_kernel demo_properties (fun s => (s, "")) id
             demo_a "memory_limit" "4096" demo_serving in
  r.1 = Err InvalidValue
  ∧ (∃ c', Heap r.2 !! demo_a = Some c'
           ∧ (Get memory_limit c').2 = "1048576" ∧ P_MEM_LIMIT ∉ PropDirty c')
  ∧ Log r.2 = Log demo_serving.
Proof.
  destruct (Heap demo_serving !! demo_a) as [c|] eqn:Hc; [|vm_compute in Hc; discriminate].
  assert (Hold : (Get memory_limit c).2 = "1048576")
    by (vm_compute in Hc; injection Hc as <-; vm_compute; reflexivity).
  assert (Hroot : IsRoot c = false)
    by (vm_compute in Hc; injection Hc as <-; vm_compute; reflexivity).
  pose proof (SetProperty_rollback low_limit_kernel demo_properties (fun s => (s, "")) id
                demo_a "memory_limit" "4096" demo_serving c memory_limit
                Hc Hroot eq_refl eq_refl eq_refl
                (memory_limit_restores c) (fun _ _ => eq_refl)) as H.
  cbv zeta in H. cbv zeta. rewrite <- Hold.
  assert (Hrun : failed (ApplyDynamicProperties low_limit_kernel demo_a
                   (upd demo_a (fun _ => (Set_ memory_limit (id "4096") c).2) demo_serving)).1
                 = true)
    by (vm_compute in Hc; injection Hc as <-; vm_compute; reflexivity).
  assert (Herr : (ApplyDynamicProperties low_limit_kernel demo_a
                   (upd demo_a (fun _ => (Set_ memory_limit (id "4096") c).2) demo_serving)).1
                 = Err InvalidValue)
    by (vm_compute in Hc; injection Hc as <-; vm_compute; reflexivity).
  destruct H as (Hr & Hc' & Hlog).
  - reflexivity.
  - vm_compute in Hc. injection Hc as <-. vm_compute. reflexivity.
  - exact Hrun.
  - split; [by rewrite Hr|]. split; [exact Hc'|exact Hlog].
Defined.

(** ["a"] of [demo_serving] with a memory guarantee that was set and has
    not been applied yet. *)
Definition demo_pending : TWorld := upd demo_a (SetProp P_MEM_GUARANTEE) demo_serving.

(** C10 as stated fails: a failed [SetProperty] does not leave the
    container as it was.  In [demo_pending] the memory guarantee of ["a"]
    waits to be applied; [SetProperty] of a memory limit the kernel
    refuses returns the error, and the guarantee has been applied on the
    way: its dirty bit is gone.  In [demo_running] no memory limit was
    ever set on ["a"]; after the failed [SetProperty] the limit reads as
    before but is marked as set. *)
Lemma SetProperty_rollback_counterexample :
  let r1 := SetProperty low_limit_kernel demo_properties (fun s => (s, "")) id
              demo_a "memory_limit" "4096" demo_pending in
  let r2 := SetProperty low_limit_kernel demo_properties (fun s => (s, "")) id
              demo_a "memory_limit" "4096" demo_running in
  let dirty p c := (TestClearPropDirty p c).1 in
  (r1.1 = Err InvalidValue
   ∧ (dirty P_MEM_GUARANTEE <$> Heap demo_pending !! demo_a) = Some true
   ∧ (dirty P_MEM_GUARANTEE <$> Heap r1.2 !! demo_a) = Some false
   ∧ Heap r1.2 !! demo_a ≠ Heap demo_pending !! demo_a)
  ∧ (r2.1 = Err InvalidValue
     ∧ (HasProp P_MEM_LIMIT <$> Heap demo_running !! demo_a) = Some false
     ∧ (HasProp P_MEM_LIMIT <$> Heap r2.2 !! demo_a) = Some true
     ∧ ((fun c => (Get memory_limit c).2) <$> Heap r2.2 !! demo_a)
       = ((fun c => (Get memory_limit c).2) <$> Heap demo_running !! demo_a)
     ∧ Heap r2.2 !! demo_a ≠ Heap demo_running !! demo_a).
Proof.
  cbv zeta.
  assert (H1 : ((fun c => (TestClearPropDirty P_MEM_GUARANTEE c).1) <$>
                  Heap (SetProperty low_limit_kernel demo_properties (fun s => (s, "")) id
                          demo_a "memory_limit" "4096" demo_pending).2 !! demo_a)
               = Some false) by (vm_compute; reflexivity).
  assert (H0 : ((fun c => (TestClearPropDirty P_MEM_GUARANTEE c).1) <$>
                  Heap demo_pending !! demo_a) = Some true) by (vm_compute; reflexivity).
  assert (H3 : (HasProp P_MEM_LIMIT <$>
                  Heap (SetProperty low_limit_kernel demo_properties (fun s => (s, "")) id
                          demo_a "memory_limit" "4096" demo_running).2 !! demo_a)
               = Some true) by (vm_compute; reflexivity).
  assert (H2 : (HasProp P_MEM_LIMIT <$> Heap demo_running !! demo_a) = Some false)
    by (vm_compute; reflexivity).
  split.
  - split; [vm_compute; reflexivity|]. split; [exact H0|]. split; [exact H1|].
    intros Heq. assert (Hc : Some false = Some true); [|discriminate Hc].
    etrans; [symmetry; exact H1|]. etrans; [|exact H0]. exact (f_equal (fmap _) Heq).
  - split; [vm_compute; reflexivity|]. split; [exact H2|]. split; [exact H3|].
    split; [vm_compute; reflexivity|].
    intros Heq. assert (Hc : Some true = Some false); [|discriminate Hc].
    etrans; [symmetry; exact H3|]. etrans; [|exact H2]. exact (f_equal (fmap _) Heq).
Qed.


(** ** Names *)

(** C5, the failing input.  The name of three bytes ['a'], ['\0'], ['b']
    has a character outside [A-Za-z0-9_@:.-] that is no ['/'], and
    [ValidName] accepts it: the [case '\0'] meant for the end of the string
    takes an embedded NUL for a separator. *)
Theorem ValidName_embedded_nul :
  ValidName (cfg := stock_config) name_with_nul = TSuccess
  ∧ String.length name_with_nul = 3
  ∧ name_char NUL = false
  ∧ NUL ≠ "/"%char.
Proof. vm_compute. repeat split; (reflexivity || discriminate). Qed.

(** *** Names without an embedded NUL

    The rest of C5 holds: on names whose bytes are all different from
    ['\0'], [ValidName] accepts exactly the names the specification
    describes. *)

Lemma string_app_cons (x : ascii) (a b : string) :
  (String x a ++ b = String x (a ++ b))%string.
Proof. reflexivity. Qed.

Lemma string_app_nil_l (a : string) : ("" ++ a = a)%string.
Proof. reflexivity. Qed.

Lemma string_length_app (a b : string) :
  String.length (a ++ b) = String.length a + String.length b.
Proof.
  induction a as [|c a IH]; [done|].
  rewrite string_app_cons. cbn [String.length]. by rewrite IH.
Qed.

Lemma string_app_assoc (a b c : string) : ((a ++ b) ++ c = a ++ b ++ c)%string.
Proof.
  induction a as [|x a IH]; [done|]. rewrite !string_app_cons. by rewrite IH.
Qed.

Lemma string_app_nil_r (a : string) : (a ++ "" = a)%string.
Proof. induction a as [|x a IH]; [done|]. rewrite string_app_cons. by rewrite IH. Qed.

Lemma string_get_app (a b : string) :
  String.get (String.length a) (a ++ b) = String.get 0 b.
Proof. induction a as [|x a IH]; [done|]. rewrite string_app_cons. exact IH. Qed.

Lemma substring_whole (b c : string) : substring 0 (String.length b) (b ++ c) = b.
Proof.
  induction b as [|x b IH]; [by destruct c|].
  rewrite string_app_cons. cbn [String.length substring]. by rewrite IH.
Qed.

Lemma substring_app (a b c : string) :
  substring (String.length a) (String.length b) (a ++ b ++ c) = b.
Proof.
  induction a as [|x a IH];
    [rewrite string_app_nil_l; cbn [String.length]; apply substring_whole|].
  rewrite string_app_cons. exact IH.
Qed.

Lemma char_at_app (a b : string) :
  char_at (a ++ b) (String.length a)
  = match b with EmptyString => NUL | String c _ => c end.
Proof. unfold char_at. rewrite string_get_app. by destruct b. Qed.

Section NameProofs.
Context {cfg : TConfig}.

(** The checks of [ValidName] on the component that ends at a
    separator. *)
Definition component_ok (cur : string) : bool :=
  negb (String.length cur =? 0)%nat
  && negb (CONTAINER_NAME_MAX <? String.length cur)%nat
  && negb (String.eqb cur SELF_CONTAINER)
  && negb (String.eqb cur DOT_CONTAINER).

(** The loop of [ValidName] as a scan of the characters still to come,
    [cur] being the component read so far. *)
Fixpoint scan (cur rest : string) : bool :=
  match rest with
  | EmptyString => component_ok cur
  | String c r =>
      if name_sep c then component_ok cur && scan "" r
      else if name_char c then scan (cur ++ String c "") r
      else false
  end.

Lemma char_at_mid (pre cur rest : string) :
  char_at (pre ++ cur ++ rest) (String.length pre + String.length cur)
  = match rest with EmptyString => NUL | String c _ => c end.
Proof. by rewrite <- string_length_app, <- string_app_assoc, char_at_app. Qed.

(** The checks at a separator, [cur] being the component before it. *)
Lemma separator_checks (pre cur rest : string) (k : TError) :
  (if (String.length pre + String.length cur =? String.length pre)%nat
   then Err InvalidValue
   else if (CONTAINER_NAME_MAX <? String.length pre + String.length cur - String.length pre)%nat
   then Err InvalidValue
   else if String.eqb (substring (String.length pre)
                         (String.length pre + String.length cur - String.length pre)
                         (pre ++ cur ++ rest)) SELF_CONTAINER
   then Err InvalidValue
   else if String.eqb (substring (String.length pre)
                         (String.length pre + String.length cur - String.length pre)
                         (pre ++ cur ++ rest)) DOT_CONTAINER
   then Err InvalidValue
   else k) = TSuccess
  ↔ component_ok cur = true ∧ k = TSuccess.
Proof.
  replace (String.length pre + String.length cur - String.length pre)
    with (String.length cur) by lia.
  rewrite substring_app. unfold component_ok.
  destruct (Nat.eqb_spec (String.length pre + String.length cur) (String.length pre)) as [E|E];
    destruct (Nat.eqb_spec (String.length cur) 0) as [E'|E']; try lia; simpl;
    [split; [done|by intros [? _]]|].
  destruct (CONTAINER_NAME_MAX <? String.length cur)%nat; simpl;
    [split; [done|by intros [? _]]|].
  destruct (String.eqb cur SELF_CONTAINER); simpl; [split; [done|by intros [? _]]|].
  destruct (String.eqb cur DOT_CONTAINER); simpl; [split; [done|by intros [? _]]|].
  tauto.
Qed.

Lemma ValidName_loop_scan (rest pre cur : string) :
  ValidName_loop (S (String.length rest)) (pre ++ cur ++ rest)
    (String.length pre) (String.length pre + String.length cur) = TSuccess
  ↔ scan cur rest = true.
Proof.
  revert pre cur. induction rest as [|c r IH]; intros pre cur.
  - cbn [ValidName_loop String.length scan]. cbv zeta. rewrite char_at_mid.
    assert (name_sep NUL = true) as -> by done.
    rewrite separator_checks. tauto.
  - cbn [ValidName_loop String.length scan]. cbv zeta. rewrite char_at_mid.
    destruct (name_sep c) eqn:Hsep.
    + rewrite separator_checks, andb_true_iff.
      specialize (IH (pre ++ cur ++ String c "")%string ""%string).
      rewrite !string_app_assoc, string_app_cons, !string_app_nil_l in IH.
      rewrite !string_length_app in IH. cbn [String.length] in IH.
      rewrite Nat.add_0_r in IH.
      replace (String.length pre + (String.length cur + 1))
        with (String.length pre + String.length cur + 1) in IH by lia.
      by rewrite IH.
    + destruct (name_char c); [|done].
      specialize (IH pre (cur ++ String c "")%string).
      rewrite !string_app_assoc, string_app_cons, !string_app_nil_l in IH.
      rewrite !string_length_app in IH. cbn [String.length] in IH.
      replace (String.length pre + (String.length cur + 1))
        with (String.length pre + String.length cur + 1) in IH by lia.
      exact IH.
Qed.

(** The ['/']-separated components of [rest], [cur] being the part of
    the first one already read. *)
Fixpoint components (cur rest : string) : list string :=
  match rest with
  | EmptyString => [cur]
  | String c r =>
      if Ascii.eqb c "/" then cur :: components "" r
      else components (cur ++ String c "") r
  end.

Fixpoint all_chars (P : ascii → bool) (s : string) : bool :=
  match s with
  | EmptyString => true
  | String c r => P c && all_chars P r
  end.

Fixpoint ends_with_slash (s : string) : bool :=
  match s with
  | EmptyString => false
  | String c EmptyString => Ascii.eqb c "/"
  | String _ r => ends_with_slash r
  end.

(** No byte of the name is ['\0']. *)
Definition nul_free (name : string) : Prop :=
  all_chars (fun c => negb (Ascii.eqb c NUL)) name = true.

(** The names C5 describes. *)
Definition spec_valid_name (name : string) : Prop :=
  name = ROOT_CONTAINER
  ∨ (name ≠ ""%string
     ∧ String.length name ≤ CONTAINER_PATH_MAX
     ∧ char_at name 0 ≠ "/"%char
     ∧ ends_with_slash name = false
     ∧ Forall (fun comp => comp ≠ ""%string) (components "" name)
     ∧ Forall (fun comp => String.length comp ≤ CONTAINER_NAME_MAX) (components "" name)
     ∧ all_chars (fun c => name_char c || Ascii.eqb c "/") name = true
     ∧ Forall (fun comp => comp ≠ SELF_CONTAINER ∧ comp ≠ DOT_CONTAINER)
         (components "" name)).

Lemma component_ok_spec (cur : string) :
  component_ok cur = true
  ↔ cur ≠ ""%string ∧ String.length cur ≤ CONTAINER_NAME_MAX
    ∧ cur ≠ SELF_CONTAINER ∧ cur ≠ DOT_CONTAINER.
Proof.
  unfold component_ok. rewrite !andb_true_iff, !negb_true_iff.
  rewrite Nat.eqb_neq, Nat.ltb_ge, !String.eqb_neq.
  assert (String.length cur ≠ 0 ↔ cur ≠ ""%string).
  { destruct cur; simpl; split; (done || lia || congruence). }
  tauto.
Qed.

Lemma scan_components (rest cur : string) :
  nul_free rest →
  scan cur rest = true
  ↔ Forall (fun comp => component_ok comp = true) (components cur rest)
    ∧ all_chars (fun c => name_char c || Ascii.eqb c "/") rest = true.
Proof.
  unfold nul_free. revert cur. induction rest as [|c r IH]; intros cur Hnul.
  - cbn [scan components all_chars]. rewrite Forall_singleton. tauto.
  - cbn [all_chars] in Hnul. apply andb_true_iff in Hnul as [Hc Hr].
    apply negb_true_iff in Hc.
    cbn [scan components all_chars]. unfold name_sep. rewrite Hc, orb_false_r.
    destruct (Ascii.eqb c "/") eqn:Hslash.
    + rewrite orb_true_r. cbn [andb]. rewrite andb_true_iff, Forall_cons.
      rewrite (IH ""%string Hr). tauto.
    + rewrite orb_false_r. destruct (name_char c); cbn [andb].
      * by apply IH.
      * split; [done|]. by intros [_ ?].
Qed.

Lemma components_no_trailing_slash (rest cur : string) :
  Forall (fun comp => comp ≠ ""%string) (components cur rest) →
  ends_with_slash rest = false.
Proof.
  revert cur. induction rest as [|c r IH]; intros cur; [done|].
  cbn [components ends_with_slash]. destruct (Ascii.eqb c "/") eqn:Hslash.
  - intros [_ Hr]%Forall_cons. destruct r as [|c' r'].
    + cbn [components] in Hr. inversion Hr as [|? ? Hne _]. by destruct Hne.
    + by apply (IH ""%string).
  - intros Hr. destruct r as [|c' r']; [done|]. by apply (IH _ Hr).
Qed.

(** X1, C5 without the failing input: on names free of NUL bytes [ValidName]
    accepts a name exactly when it is the root name ["/"], or it is not
    empty, at most [CONTAINER_PATH_MAX] long, neither begins nor ends with
    ['/'], has no empty component, has components of at most
    [CONTAINER_NAME_MAX] characters, consists of [A-Za-z0-9_@:.-] and ['/']
    only, and has no component ["self"] or ["."]. *)
Theorem ValidName_spec (name : string) :
  1 ≤ CONTAINER_PATH_MAX → nul_free name →
  ValidName name = TSuccess ↔ spec_valid_name name.
Proof.
  intros Hmax Hnul. unfold ValidName, spec_valid_name.
  destruct (Nat.eqb_spec (String.length name) 0) as [Hlen|Hlen].
  { split; [done|]. intros [->|(Hne & _)]; [done|]. destruct name; done. }
  destruct (Nat.ltb_spec CONTAINER_PATH_MAX (String.length name)) as [Hlong|Hshort].
  { split; [done|]. intros [->|(_ & Hle & _)]; [simpl in Hlong|]; lia. }
  destruct (Ascii.eqb (char_at name 0) "/") eqn:Hfirst.
  { destruct (String.eqb_spec name ROOT_CONTAINER) as [->|Hroot]; [by split; [left|]|].
    split; [done|]. intros [->|(_ & _ & Hc & _)]; [done|].
    by apply Ascii.eqb_eq in Hfirst. }
  pose proof (ValidName_loop_scan name ""%string ""%string) as Hloop.
  rewrite !string_app_nil_l in Hloop. cbn [String.length Nat.add] in Hloop.
  rewrite Hloop, (scan_components name ""%string Hnul).
  assert (Hcomp : Forall (fun comp => component_ok comp = true) (components "" name)
                  ↔ Forall (fun comp => comp ≠ ""%string) (components "" name)
                    ∧ Forall (fun comp => String.length comp ≤ CONTAINER_NAME_MAX)
                        (components "" name)
                    ∧ Forall (fun comp => comp ≠ SELF_CONTAINER ∧ comp ≠ DOT_CONTAINER)
                        (components "" name)).
  { rewrite !Forall_forall. setoid_rewrite component_ok_spec. split.
    - intros H. split; [|split]; intros comp Hin;
        by destruct (H comp Hin) as (? & ? & ? & ?).
    - intros (H1 & H2 & H3) comp Hin. specialize (H1 comp Hin). specialize (H2 comp Hin).
      specialize (H3 comp Hin). tauto. }
  rewrite Hcomp. split.
  - intros ((Hne & Hcl & Hres) & Hchars). right.
    split; [by destruct name|]. split; [done|].
    split; [intros Heq; by rewrite Heq in Hfirst|].
    split; [by eapply components_no_trailing_slash|]. done.
  - intros [->|(_ & _ & _ & _ & Hne & Hcl & Hchars & Hres)]; [done|]. done.
Qed.

End NameProofs.

Lemma ValidName_spec_witness :
  ValidName (cfg := stock_config) "a/b" = TSuccess
  ↔ spec_valid_name (cfg := stock_config) "a/b".
Proof.
  apply (ValidName_spec (cfg := stock_config) "a/b"); [vm_compute; lia|reflexivity].
Defined.

(** ** Unlocking what was locked *)

Definition lock_incr (c : TContainer) : TContainer := set_Locked (Locked c + 1)%Z c.
Definition lock_decr (c : TContainer) : TContainer := set_Locked (Locked c - 1)%Z c.

Lemma fold_upd (f : TContainer → TContainer) (l : list addr) (w : TWorld) :
  fold_left (fun w ct => upd ct f w) l w
  = with_Heap (fold_left (fun h a => alter f a h) l (Heap w)) w.
Proof.
  revert w. induction l as [|a l IH]; intros w; [by destruct w|].
  simpl. by rewrite IH.
Qed.

Lemma keeps_shape_set_Locked (g : TContainer → Z) :
  keeps_shape (fun c => set_Locked (g c) c).
Proof. by intros []. Qed.

Lemma set_Locked_id (z : Z) (c : TContainer) : z = Locked c → set_Locked z c = c.
Proof. destruct c. simpl. by intros ->. Qed.

Lemma set_Locked_set (z z' : Z) (c : TContainer) :
  set_Locked z (set_Locked z' c) = set_Locked z c.
Proof. by destruct c. Qed.

Lemma Locked_set (z : Z) (c : TContainer) : Locked (set_Locked z c) = z.
Proof. by destruct c. Qed.

Lemma lock_decr_incr (c : TContainer) : lock_decr (lock_incr c) = c.
Proof.
  unfold lock_decr, lock_incr. rewrite Locked_set, set_Locked_set.
  apply set_Locked_id. lia.
Qed.

(** The asserts of [Unlock] hold on a path whose counters are all
    positive. *)
Lemma Unlock_parents (l : list addr) (w : TWorld) :
  NoDup l →
  (∀ a, a ∈ l → ∃ c, Heap w !! a = Some c ∧ (0 < Locked c)%Z) →
  fold_left Unlock_parent l (Some w)
  = Some (with_Heap (fold_left (fun h a => alter lock_decr a h) l (Heap w)) w).
Proof.
  revert w. induction l as [|a l IH]; intros w Hnd Hpos; [by destruct w|].
  apply NoDup_cons in Hnd as [Hna Hnd].
  destruct (Hpos a) as (c & Hc & Hlt); [by left|].
  cbn [fold_left]. unfold Unlock_parent at 2. cbn [mbind option_bind].
  rewrite Hc. cbn [mbind option_bind].
  destruct (Z.ltb_spec 0 (Locked c)) as [_|?]; [|lia].
  rewrite IH; [done|done|].
  intros b Hb. destruct (Hpos b) as (cb & Hcb & Hltb); [by right|].
  exists cb. split; [|done]. unfold upd, with_Heap. cbn [Heap].
  rewrite list_lookup_alter_ne; [done|]. by intros ->.
Qed.

(** X2: a granted [Lock] is undone by [Unlock].  After [Lock] has
    succeeded on X, [Unlock] on X passes all its asserts, gives every lock
    counter, on X and on each of its ancestors, the value it had before
    the [Lock], changes nothing else, and wakes up all the waiters. *)
Theorem Unlock_after_Lock (w w' : TWorld) (x : addr) (c : TContainer)
    (shared try_lock : bool) :
  wf_heap (Heap w) → Heap w !! x = Some c →
  Lock x shared try_lock w = (LockDone TSuccess, w') →
  Unlock x w' = Some (emit ANotifyAll w).
Proof.
  intros Hwf Hx HL.
  destruct (Lock_granted w x c shared try_lock w' Hx HL) as [Hlive Hbusy].
  apply (lock_busy_false _ _ _ _ Hx) in Hbusy as [Hown Hanc].
  unfold Lock in HL. rewrite Hx, bool_decide_eq_false_2 in HL by done.
  destruct (lock_busy (Heap w) x shared) eqn:Hb; [by destruct try_lock|].
  injection HL as <-. fold lock_incr.
  set (lockf := fun c : TContainer =>
                  set_Locked (Locked c + (if shared then 1 else -1))%Z c).
  set (l := ancestors (Heap w) x).
  pose proof (ancestors_NoDup _ _ _ Hwf Hx) as Hnd. fold l in Hnd.
  apply NoDup_cons in Hnd as [Hxl Hnd].
  rewrite fold_upd. unfold upd at 1, with_Heap. cbn [Heap Containers Log].
  set (h1 := fold_left (fun h a => alter lock_incr a h) l (alter lockf x (Heap w))).
  assert (Hshape : shape h1 = shape (Heap w)).
  { unfold h1. rewrite fold_alter_shape by apply (keeps_shape_set_Locked (fun c => (Locked c + 1)%Z)).
    apply shape_alter, (keeps_shape_set_Locked (fun c => (Locked c + _)%Z)). }
  assert (Hl1 : ∀ y, h1 !! y = if decide (y ∈ l) then lock_incr <$> Heap w !! y
                               else if decide (y = x) then lockf <$> Heap w !! y
                               else Heap w !! y).
  { intros y. unfold h1. rewrite fold_alter_lookup by done.
    destruct (decide (y ∈ l)) as [Hin|Hnin].
    - rewrite list_lookup_alter_ne; [done|]. by intros ->.
    - destruct (decide (y = x)) as [->|Hne].
      + by rewrite list_lookup_alter_eq.
      + by rewrite list_lookup_alter_ne. }
  unfold Unlock. cbn [Heap]. rewrite Hl1, decide_False, decide_True, Hx by done.
  cbn [fmap option_fmap option_map mbind option_bind].
  rewrite (shape_ancestors _ _ x Hshape). fold l.
  assert (Hne0 : (Locked (lockf c) =? 0)%Z = false).
  { apply Z.eqb_neq. unfold lockf. rewrite Locked_set. destruct shared; lia. }
  rewrite Hne0.
  set (unlockf := fun c : TContainer =>
                    set_Locked (Locked c + (if (0 <? Locked c)%Z then -1 else 1))%Z c).
  rewrite Unlock_parents; [|done|].
  - unfold upd, with_Heap, emit. cbn [Heap Containers Log option_fmap option_map fmap].
    f_equal. destruct w as [h m lg]. cbn [Heap Containers Log] in *. f_equal.
    apply list_eq. intros y. rewrite fold_alter_lookup by done.
    destruct (decide (y ∈ l)) as [Hin|Hnin].
    + rewrite list_lookup_alter_ne by (by intros ->).
      rewrite Hl1, decide_True by done.
      destruct (h !! y) as [cy|]; [|done]. cbn. by rewrite lock_decr_incr.
    + destruct (decide (y = x)) as [->|Hne].
      * rewrite list_lookup_alter_eq, Hl1, decide_False, decide_True, Hx by done.
        cbn. f_equal. unfold unlockf, lockf. rewrite Locked_set, set_Locked_set.
        apply set_Locked_id. destruct shared.
        -- destruct (Z.ltb_spec 0 (Locked c + 1)); lia.
        -- rewrite Hown. reflexivity.
      * rewrite list_lookup_alter_ne, Hl1, !decide_False by done. done.
  - intros a Ha. unfold upd, with_Heap. cbn [Heap].
    rewrite list_lookup_alter_ne by (by intros ->).
    rewrite Hl1, decide_True by done.
    destruct (ancestors_level _ _ _ _ Hwf Hx Ha) as (ac & Hac & _).
    specialize (Hanc a Ha). unfold write_locked in Hanc. rewrite Hac in Hanc.
    apply Z.ltb_ge in Hanc. rewrite Hac. exists (lock_incr ac). split; [done|].
    unfold lock_incr. rewrite Locked_set. lia.
Qed.

Lemma Unlock_after_Lock_witness :
  Unlock demo_ab (Lock demo_ab true false demo_world).2 = Some (emit ANotifyAll demo_world).
Proof.
  assert (Hwf : wf_heap (Heap demo_world)) by (vm_compute; reflexivity).
  destruct (Heap demo_world !! demo_ab) as [c|] eqn:Hc; [|vm_compute in Hc; discriminate].
  apply (Unlock_after_Lock demo_world _ demo_ab c true false Hwf Hc).
  vm_compute. reflexivity.
Defined.

(** ** The lemmas above on the demonstration tree *)

Lemma Create_success_witness :
  Containers (Create (cfg := stock_config) quiet_kernel SystemClient "a/c" demo_world).2
    !! "a/c" = Some (length (Heap demo_world)).
Proof.
  apply (Create_success (cfg := stock_config) quiet_kernel SystemClient "a/c" demo_world).
  vm_compute. reflexivity.
Defined.


(** * More of the code *)

(** ** Strings *)

Lemma substring_prefix (P q : string) :
  substring 0 (String.length P) q = P → ∃ t, q = (P ++ t)%string.
Proof.
  revert q. induction P as [|x P IH]; intros q; [by exists q|].
  destruct q as [|y q]; [done|]. cbn [String.length substring].
  intros [= -> H]. destruct (IH q H) as [t ->]. by exists t.
Qed.

Lemma substr_app (a b : string) : substr (String.length a) (a ++ b) = b.
Proof.
  unfold substr. rewrite string_length_app.
  replace (String.length a + String.length b - String.length a)
    with (String.length b) by lia.
  rewrite <- (string_app_nil_r b) at 2. apply substring_app.
Qed.

Lemma substr_0 (a : string) : substr 0 a = a.
Proof.
  unfold substr. rewrite Nat.sub_0_r.
  rewrite <- (string_app_nil_r a) at 2. apply substring_whole.
Qed.

Lemma string_length_0 (a : string) : String.length a = 0 → a = ""%string.
Proof. by destruct a. Qed.

Lemma string_app_inv_head (a b c : string) : (a ++ b = a ++ c)%string → b = c.
Proof.
  induction a as [|x a IH]; [done|]. rewrite !string_app_cons. intros [= H]. by apply IH.
Qed.

Lemma absolute_cons (p : string) :
  TPath.IsAbsolute p = true ↔ ∃ t, p = String "/" t.
Proof.
  unfold TPath.IsAbsolute, char_at. destruct p as [|c t]; cbn.
  - split; [done|]. by intros [t ?].
  - rewrite Ascii.eqb_eq. split; [intros ->; by exists t|]. by intros [t' [= -> _]].
Qed.

(** ** Paths inside a root *)

Section Paths.
Import TPath.

(** X5: a path resolved in a root is composed back to itself.  For a
    non-empty root [Path] and an absolute path [p],
    [Path.InnerPath(Path / p, true)] is [p]. *)
Theorem InnerPath_AddComponent (Path p : string) :
  Path ≠ ""%string → IsAbsolute p = true →
  InnerPath Path (AddComponent Path p) true = p.
Proof.
  intros Hne [t ->]%absolute_cons.
  assert (Hlen : (String.length Path =? 0)%nat = false).
  { apply Nat.eqb_neq. intros H0. by apply string_length_0 in H0. }
  unfold AddComponent, InnerPath.
  replace (IsAbsolute (String "/" t)) with true by done.
  rewrite Hlen. cbn [orb].
  destruct (String.eqb_spec Path "/") as [->|Hroot].
  - unfold IsRoot. cbn [String.eqb Ascii.eqb Bool.eqb String.length substring negb].
    destruct t as [|c t]; [done|]. cbn -[substr]. by rewrite substr_0.
  - unfold IsRoot. rewrite (proj2 (String.eqb_neq Path "/") Hroot).
    destruct (String.eqb_spec (String "/" t) "/") as [Ht|Ht].
    + rewrite <- (string_app_nil_r Path) at 2. rewrite substring_whole, String.eqb_refl.
      cbn [negb]. by rewrite Nat.eqb_refl.
    + rewrite substring_whole, String.eqb_refl. cbn [negb].
      rewrite string_length_app. cbn [String.length].
      destruct (Nat.eqb_spec (String.length Path + S (String.length t)) (String.length Path));
        [lia|].
      assert (Hone : (String.length Path =? 1)%nat && Ascii.eqb (char_at Path 0) "/" = false).
      { apply not_true_iff_false. intros [H1 H2]%andb_true_iff. apply Hroot.
        apply Nat.eqb_eq in H1. apply Ascii.eqb_eq in H2.
        destruct Path as [|c [|d P]]; try done. unfold char_at in H2. cbn in H2. by subst. }
      rewrite Hone, char_at_app.
      replace (negb (Ascii.eqb "/" "/")) with false by reflexivity.
      apply substr_app.
Qed.

Lemma InnerPath_AddComponent_witness :
  InnerPath "/place/root" (AddComponent "/place/root" "/bin/sh") true = "/bin/sh"%string.
Proof. apply (InnerPath_AddComponent "/place/root" "/bin/sh"); [discriminate|reflexivity]. Defined.

Lemma IsRoot_one (Path : string) :
  (String.length Path =? 1)%nat && Ascii.eqb (char_at Path 0) "/" = IsRoot Path.
Proof.
  unfold IsRoot, char_at. destruct Path as [|c [|d P]]; [done|..].
  - destruct (Ascii.eqb_spec c "/") as [->|Hc]; [done|].
    cbn. by rewrite (proj2 (Ascii.eqb_neq c "/") Hc).
  - cbn. by destruct (Ascii.eqb c "/").
Qed.

Lemma InnerPath_result (Path q r : string) :
  r ≠ ""%string →
  InnerPath Path q true = r
  ↔ Path ≠ ""%string
    ∧ ((q = Path ∧ r = "/"%string)
       ∨ (q ≠ Path ∧ q = ((if IsRoot Path then "" else Path) ++ r)%string
          ∧ IsAbsolute r = true)).
Proof.
  intros Hr. unfold InnerPath. rewrite IsRoot_one.
  destruct (Nat.eqb_spec (String.length Path) 0) as [H0|H0].
  { apply string_length_0 in H0 as ->. cbn [orb]. split; [congruence|]. by intros [? _]. }
  assert (Hne : Path ≠ ""%string) by (by intros ->).
  cbn [orb].
  destruct (String.eqb_spec (substring 0 (String.length Path) q) Path) as [Hpre|Hpre];
    cbn [negb].
  2:{ split; [congruence|]. intros [_ [[-> _]|(_ & Hq & Habs)]].
      - exfalso. apply Hpre. rewrite <- (string_app_nil_r Path) at 2. apply substring_whole.
      - exfalso. apply absolute_cons in Habs as [t ->]. apply Hpre. rewrite Hq.
        destruct (String.eqb_spec Path "/") as [->|Hroot]; unfold IsRoot.
        + replace (String.eqb "/" "/") with true by reflexivity.
          rewrite string_app_nil_l. cbn [String.length substring]. by destruct t.
        + rewrite (proj2 (String.eqb_neq Path "/") Hroot). apply substring_whole. }
  apply substring_prefix in Hpre as [t ->].
  rewrite string_length_app.
  destruct (Nat.eqb_spec (String.length Path + String.length t) (String.length Path))
    as [Ht|Ht].
  { assert (t = ""%string) as -> by (apply string_length_0; lia).
    rewrite string_app_nil_r. split.
    - intros <-. split; [done|]. by left.
    - intros [_ [[_ ->]|(Hq & _)]]; done. }
  assert (Hq : (Path ++ t)%string ≠ Path).
  { intros Heq. apply Ht. by rewrite <- Heq at 2; rewrite string_length_app. }
  destruct (String.eqb_spec Path "/") as [->|Hroot]; unfold IsRoot.
  - cbn [String.eqb Ascii.eqb Bool.eqb]. change ("/" ++ t)%string with (String "/" t).
    replace (char_at (String "/" t) 0) with "/"%char by done.
    replace (negb (Ascii.eqb "/" "/")) with false by reflexivity.
    rewrite substr_0, string_app_nil_l. split.
    + intros <-. split; [done|]. right. done.
    + intros [_ [[Heq _]|(_ & Heq & _)]]; [done|]. done.
  - rewrite (proj2 (String.eqb_neq Path "/") Hroot), char_at_app, substr_app.
    split.
    + destruct t as [|c t]; [done|].
      destruct (Ascii.eqb_spec c "/") as [->|Hc]; cbn [negb]; [|congruence].
      intros <-. split; [done|]. right. done.
    + intros [_ [[Heq _]|(_ & Heq & Habs)]]; [done|].
      apply string_app_inv_head in Heq as ->. apply absolute_cons in Habs as [t' ->].
      by rewrite Ascii.eqb_refl.
Qed.

(** X6: what [InnerPath] returns.  [Path.InnerPath(q, true)] is the
    non-empty path [r] exactly when [Path] is not empty and either [q] is
    [Path] and [r] is ["/"], or [q] is [Path] (nothing, when [Path] is
    ["/"]) followed by [r], which begins with ['/'].  So a path that only
    shares a prefix with the root, as ["/rootfoo"] with ["/root"], is
    never inside. *)
Theorem InnerPath_inside (Path q r : string) :
  r ≠ ""%string →
  InnerPath Path q true = r
  ↔ Path ≠ ""%string
    ∧ ((q = Path ∧ r = "/"%string)
       ∨ (q ≠ Path ∧ q = ((if IsRoot Path then "" else Path) ++ r)%string
          ∧ IsAbsolute r = true)).
Proof. intros Hr. split; intros H; by apply InnerPath_result. Qed.

Lemma InnerPath_inside_witness :
  InnerPath "/root" "/rootfoo" true ≠ "/foo"%string.
Proof.
  intros H.
  apply (InnerPath_inside "/root" "/rootfoo" "/foo") in H as [_ [[H _]|(_ & H & _)]];
    [discriminate..|discriminate].
Defined.

(** X7: a path composed in a root is resolved back to itself.  When
    [Path.InnerPath(q, true)] is the non-empty path [r], [Path / r] is [q],
    unless [q] is [Path] followed by one ['/'] (then [r] is ["/"] and
    [Path / r] is [Path]). *)
Theorem AddComponent_InnerPath (Path q r : string) :
  r ≠ ""%string → (Path ≠ "/"%string → q ≠ (Path ++ "/")%string) →
  InnerPath Path q true = r → AddComponent Path r = q.
Proof.
  intros Hr Hslash H.
  apply (InnerPath_result Path q r Hr) in H as [Hne [[-> ->]|(Hq & -> & Habs)]].
  - unfold AddComponent. replace (IsAbsolute "/") with true by done.
    destruct (String.eqb_spec Path "/") as [->|Hroot]; unfold IsRoot; [done|].
    by rewrite (proj2 (String.eqb_neq Path "/") Hroot).
  - unfold AddComponent. rewrite Habs.
    destruct (String.eqb_spec Path "/") as [->|Hroot]; unfold IsRoot; [done|].
    rewrite (proj2 (String.eqb_neq Path "/") Hroot).
    destruct (String.eqb_spec r "/") as [->|Hrr]; [|done].
    exfalso. apply (Hslash Hroot). unfold IsRoot.
    by rewrite (proj2 (String.eqb_neq Path "/") Hroot).
Qed.

Lemma AddComponent_InnerPath_witness :
  AddComponent "/place/root" (InnerPath "/place/root" "/place/root/bin/sh" true)
  = "/place/root/bin/sh"%string.
Proof.
  apply (AddComponent_InnerPath "/place/root" "/place/root/bin/sh" _);
    [vm_compute; discriminate|intros _; discriminate|reflexivity].
Defined.

End Paths.

(** ** Normal paths *)

Definition slash_free (s : string) : Prop :=
  all_chars (fun c => negb (Ascii.eqb c "/")) s = true.

Lemma slash_free_cons (c : ascii) (s : string) :
  slash_free (String c s) ↔ c ≠ "/"%char ∧ slash_free s.
Proof.
  unfold slash_free. cbn [all_chars]. rewrite andb_true_iff, negb_true_iff.
  by rewrite Ascii.eqb_neq.
Qed.

Lemma slash_free_app (a b : string) :
  slash_free (a ++ b) ↔ slash_free a ∧ slash_free b.
Proof.
  induction a as [|c a IH]; [rewrite string_app_nil_l; unfold slash_free at 2; cbn; tauto|].
  rewrite string_app_cons, !slash_free_cons, IH. tauto.
Qed.

Lemma rfind_from_app (c : ascii) (a b : string) (i : nat) (last : option nat) :
  rfind_from c (a ++ b) i last
  = rfind_from c b (i + String.length a) (rfind_from c a i last).
Proof.
  revert i last. induction a as [|d a IH]; intros i last.
  - rewrite string_app_nil_l. cbn [String.length rfind_from]. by rewrite Nat.add_0_r.
  - rewrite string_app_cons. cbn [rfind_from String.length]. rewrite IH.
    f_equal. lia.
Qed.

Lemma rfind_from_free (t : string) (i : nat) (last : option nat) :
  slash_free t → rfind_from "/" t i last = last.
Proof.
  revert i last. induction t as [|d t IH]; intros i last; [done|].
  intros [Hd Ht]%slash_free_cons. cbn [rfind_from].
  rewrite (proj2 (Ascii.eqb_neq d "/") Hd). by apply IH.
Qed.

Lemma rfind_free (t : string) : slash_free t → rfind "/" t = None.
Proof. apply rfind_from_free. Qed.

Lemma rfind_last (a t : string) :
  slash_free t → rfind "/" (a ++ String "/" t) = Some (String.length a).
Proof.
  intros Ht. unfold rfind. rewrite rfind_from_app. cbn [rfind_from Nat.add].
  replace (Ascii.eqb "/" "/") with true by reflexivity. by apply rfind_from_free.
Qed.

Section NormalPaths.
Import TPath.

(** What the loop of [NormalPath] appends. *)
Definition push (path component : string) : string :=
  ((if negb (String.eqb path "") && negb (String.eqb path "/")
    then path ++ "/" else path) ++ component)%string.

(** The path built from the components of [stack], the last one first. *)
Definition render (absolute : bool) (stack : list string) : string :=
  fold_right (fun c p => push p c) (if absolute then "/" else "")%string stack.

(** The loop of [NormalPath] on the components. *)
Definition step_stack (absolute : bool) (stack : list string) (component : string)
    : list string :=
  if String.eqb component "" || String.eqb component "." then stack
  else if String.eqb component ".." then
    match stack with
    | [] => if absolute then [] else [".."%string]
    | t :: stack' => if String.eqb t ".." then component :: stack else stack'
    end
  else component :: stack.

Definition component (c : string) : Prop := c ≠ ""%string ∧ slash_free c.

Lemma push_cases (p t : string) :
  component t →
  (p = ""%string ∧ push p t = t)
  ∨ (p = "/"%string ∧ push p t = String "/" t)
  ∨ (p ≠ ""%string ∧ p ≠ "/"%string ∧ push p t = (p ++ String "/" t)%string).
Proof.
  intros _. unfold push.
  destruct (String.eqb_spec p "") as [->|H1]; [by left|].
  destruct (String.eqb_spec p "/") as [->|H2]; [right; by left|].
  right. right. cbn [negb andb]. by rewrite string_app_assoc.
Qed.

Lemma NormalPath_step_stack (absolute : bool) (stack : list string) (c : string) :
  Forall component stack → slash_free c →
  NormalPath_step (render absolute stack) c = render absolute (step_stack absolute stack c).
Proof.
  intros Hstack Hc. unfold NormalPath_step, step_stack. fold (push (render absolute stack) c).
  destruct (String.eqb c "" || String.eqb c "."); [done|].
  destruct (String.eqb_spec c "..") as [->|Hdd]; [|done].
  destruct stack as [|t stack'].
  - destruct absolute; reflexivity.
  - apply Forall_cons in Hstack as [Ht Hstack].
    cbn [render fold_right]. fold (render absolute stack').
    set (p := render absolute stack').
    assert (Hsub : ∀ a, substr (String.length a + 1) (a ++ String "/" t) = t).
    { intros a. replace (String.length a + 1) with (String.length (a ++ "/")).
      - rewrite <- (substr_app (a ++ "/") t) at 2. by rewrite string_app_assoc.
      - rewrite string_length_app. done. }
    destruct Ht as [Hne Hfree].
    destruct (push_cases p t (conj Hne Hfree)) as [[Hp Hpt]|[[Hp Hpt]|(Hp1 & Hp2 & Hpt)]];
      rewrite Hpt.
    + rewrite (rfind_free t) by done.
      rewrite (proj2 (String.eqb_neq t "") Hne). cbn [negb andb].
      destruct (String.eqb_spec t "..") as [->|Htd]; cbn [negb].
      * change (render absolute (".." :: ".." :: stack')) with (push (push p "..") "..").
        by rewrite Hpt.
      * exact (eq_sym Hp).
    + assert (Hrf : rfind "/" (String "/" t) = Some 0) by (by apply (rfind_last "" t)).
      assert (Hs0 : substr (0 + 1) (String "/" t) = t) by apply (Hsub ""%string).
      rewrite Hrf, Hs0, Nat.eqb_refl.
      destruct (String.eqb_spec t "..") as [->|Htd]; cbn [negb].
      * change (render absolute (".." :: ".." :: stack')) with (push (push p "..") "..").
        by rewrite Hpt.
      * cbn [substring]. change (render absolute stack') with p. rewrite Hp. by destruct t.
    + rewrite (rfind_last p t) by done. rewrite Hsub.
      destruct (String.eqb_spec t "..") as [->|Htd]; cbn [negb].
      * change (render absolute (".." :: ".." :: stack')) with (push (push p "..") "..").
        by rewrite Hpt.
      * destruct (Nat.eqb_spec (String.length p) 0) as [H0|H0];
          [by apply string_length_0 in H0|].
        apply substring_whole.
Qed.

Lemma getlines_free (a cur : string) :
  slash_free a →
  getlines cur a = if String.eqb (cur ++ a) "" then [] else [(cur ++ a)%string].
Proof.
  revert cur. induction a as [|c a IH]; intros cur Ha.
  - cbn [getlines]. by rewrite string_app_nil_r.
  - apply slash_free_cons in Ha as [Hc Ha]. cbn [getlines].
    rewrite (proj2 (Ascii.eqb_neq c "/") Hc), IH by done.
    by rewrite string_app_assoc.
Qed.

Lemma getlines_slash (a b cur : string) :
  slash_free a →
  getlines cur (a ++ String "/" b) = (cur ++ a)%string :: getlines "" b.
Proof.
  revert cur. induction a as [|c a IH]; intros cur Ha.
  - rewrite string_app_nil_l, string_app_nil_r. reflexivity.
  - apply slash_free_cons in Ha as [Hc Ha]. rewrite string_app_cons. cbn [getlines].
    rewrite (proj2 (Ascii.eqb_neq c "/") Hc), IH by done.
    by rewrite string_app_assoc.
Qed.

Lemma getlines_components (s cur : string) :
  slash_free cur → Forall slash_free (getlines cur s).
Proof.
  revert cur. induction s as [|c s IH]; intros cur Hcur; cbn [getlines].
  - destruct (String.eqb cur ""); [constructor|by apply Forall_singleton].
  - destruct (Ascii.eqb_spec c "/") as [->|Hc].
    + apply Forall_cons. split; [done|]. by apply IH.
    + apply IH. apply slash_free_app. split; [done|]. by apply slash_free_cons.
Qed.

Lemma step_stack_components (absolute : bool) (stack : list string) (c : string) :
  Forall component stack → slash_free c →
  Forall component (step_stack absolute stack c).
Proof.
  intros Hs Hc. unfold step_stack.
  destruct (String.eqb_spec c "") as [->|Hne]; [done|]. cbn [orb].
  destruct (String.eqb c "."); [done|].
  destruct (String.eqb_spec c "..") as [->|Hdd].
  - destruct stack as [|t stack'].
    + destruct absolute; [done|]. by apply Forall_singleton.
    + destruct (String.eqb t "..").
      * by apply Forall_cons.
      * by apply Forall_cons in Hs as [_ ?].
  - by apply Forall_cons.
Qed.

Lemma NormalPath_fold (absolute : bool) (l stack : list string) :
  Forall component stack → Forall slash_free l →
  fold_left NormalPath_step l (render absolute stack)
  = render absolute (fold_left (step_stack absolute) l stack)
  ∧ Forall component (fold_left (step_stack absolute) l stack).
Proof.
  revert stack. induction l as [|c l IH]; intros stack Hs Hl; [done|].
  apply Forall_cons in Hl as [Hc Hl]. cbn [fold_left].
  rewrite NormalPath_step_stack by done.
  apply IH; [by apply step_stack_components|done].
Qed.

(** The components of a normal path, the last one first: none is empty,
    ["."] or has a ['/'], and [".."] stands only at the beginning of a
    relative path. *)
Definition plain (c : string) : Prop :=
  component c ∧ c ≠ "."%string ∧ c ≠ ".."%string.

Definition normal_stack (absolute : bool) (stack : list string) : Prop :=
  ∃ k rest, stack = rest ++ repeat ".."%string k ∧ Forall plain rest
            ∧ (absolute = true → k = 0).

Lemma repeat_snoc {A} (x : A) (k : nat) : x :: repeat x k = repeat x k ++ [x].
Proof. induction k as [|k IH]; [done|]. cbn [repeat app]. by rewrite <- IH. Qed.

Lemma step_stack_normal (absolute : bool) (stack : list string) (c : string) :
  slash_free c → normal_stack absolute stack →
  normal_stack absolute (step_stack absolute stack c).
Proof.
  intros Hc (k & rest & -> & Hrest & Habs). unfold step_stack.
  destruct (String.eqb_spec c "") as [->|Hne]; [by exists k, rest|]. cbn [orb].
  destruct (String.eqb_spec c ".") as [->|Hd]; [by exists k, rest|].
  destruct (String.eqb_spec c "..") as [->|Hdd].
  - destruct rest as [|t rest'].
    + rewrite app_nil_l. destruct k as [|k].
      * cbn [repeat]. destruct absolute.
        -- by exists 0, [].
        -- exists 1, []. done.
      * cbn [repeat]. replace (String.eqb ".." "..") with true by reflexivity.
        exists (S (S k)), []. repeat split; [done|]. intros Ha. by specialize (Habs Ha).
    + apply Forall_cons in Hrest as [Ht Hrest]. cbn [app].
      destruct (String.eqb_spec t "..") as [->|Htd]; [by destruct Ht as (_ & _ & ?)|].
      by exists k, rest'.
  - exists k, (c :: rest). repeat split; [|done]. apply Forall_cons. by repeat split.
Qed.

Lemma fold_step_normal (absolute : bool) (l stack : list string) :
  Forall slash_free l → normal_stack absolute stack →
  normal_stack absolute (fold_left (step_stack absolute) l stack).
Proof.
  revert stack. induction l as [|c l IH]; intros stack Hl Hs; [done|].
  apply Forall_cons in Hl as [Hc Hl]. cbn [fold_left].
  apply IH; [done|]. by apply step_stack_normal.
Qed.

Lemma fold_step_plain (absolute : bool) (l stack : list string) :
  Forall plain l → fold_left (step_stack absolute) l stack = rev l ++ stack.
Proof.
  revert stack. induction l as [|c l IH]; intros stack Hl; [done|].
  apply Forall_cons in Hl as [((Hne & _) & Hd & Hdd) Hl]. cbn [fold_left rev].
  rewrite IH by done. unfold step_stack.
  rewrite (proj2 (String.eqb_neq c "") Hne), (proj2 (String.eqb_neq c ".") Hd),
    (proj2 (String.eqb_neq c "..") Hdd). cbn [orb]. by rewrite <- app_assoc.
Qed.

Lemma fold_step_up (k : nat) :
  fold_left (step_stack false) (repeat ".."%string k) [] = repeat ".."%string k.
Proof.
  assert (H : ∀ j, fold_left (step_stack false) (repeat ".."%string k) (repeat ".."%string j)
                   = repeat ".."%string (k + j)).
  { induction k as [|k IH]; intros j; [done|]. cbn [repeat fold_left].
    replace (step_stack false (repeat ".."%string j) "..") with (repeat ".."%string (S j)).
    - rewrite IH. f_equal. lia.
    - by destruct j. }
  change (@nil string) with (repeat ".."%string 0). rewrite (H 0). f_equal. lia.
Qed.

(** Reading a normal path again gives its components back. *)
Lemma fold_step_replay (absolute : bool) (stack : list string) :
  normal_stack absolute stack →
  fold_left (step_stack absolute) (rev stack) [] = stack.
Proof.
  intros (k & rest & -> & Hrest & Habs).
  rewrite rev_app_distr, fold_left_app.
  assert (Hrev : rev (repeat ".."%string k) = repeat ".."%string k).
  { clear. induction k as [|k IH]; [done|]. cbn [repeat rev]. rewrite IH. symmetry.
    apply repeat_snoc. }
  rewrite Hrev.
  assert (Hup : fold_left (step_stack absolute) (repeat ".."%string k) []
                = repeat ".."%string k).
  { destruct absolute; [by rewrite Habs|apply fold_step_up]. }
  rewrite Hup, fold_step_plain, rev_involutive; [done|].
  apply Forall_rev. done.
Qed.

(** The components joined by ['/'], the first one first. *)
Fixpoint joinl (l : list string) : string :=
  match l with
  | [] => ""
  | [c] => c
  | c :: l' => c ++ String "/" (joinl l')
  end.

Lemma joinl_snoc (l : list string) (t : string) :
  l ≠ [] → joinl (l ++ [t]) = (joinl l ++ String "/" t)%string.
Proof.
  induction l as [|c l IH]; [done|]. intros _. destruct l as [|d l]; [done|].
  change (joinl ((c :: d :: l) ++ [t])) with (c ++ String "/" (joinl ((d :: l) ++ [t])))%string.
  rewrite IH by done. change (joinl (c :: d :: l)) with (c ++ String "/" (joinl (d :: l)))%string.
  by rewrite string_app_assoc.
Qed.

Lemma joinl_head (l : list string) :
  Forall component l → l ≠ [] → ∃ c r, joinl l = String c r ∧ c ≠ "/"%char.
Proof.
  destruct l as [|[|c r] l]; [done|..]; intros [[Hne Hfree] _]%Forall_cons _; [done|].
  apply slash_free_cons in Hfree as [Hc _].
  destruct l as [|d l]; [by exists c, r|]. by exists c, (r ++ String "/" (joinl (d :: l)))%string.
Qed.

Lemma render_joinl (absolute : bool) (stack : list string) :
  Forall component stack → stack ≠ [] →
  render absolute stack = ((if absolute then "/" else "") ++ joinl (rev stack))%string.
Proof.
  induction stack as [|t stack IH]; [done|]. intros [Ht Hs]%Forall_cons _.
  change (render absolute (t :: stack)) with (push (render absolute stack) t).
  destruct stack as [|u stack].
  - cbn [rev app joinl render fold_right]. by destruct absolute.
  - rewrite IH by done. change (rev (t :: u :: stack)) with (rev (u :: stack) ++ [t]).
    assert (Hl : rev (u :: stack) ≠ []) by (cbn [rev]; by destruct (rev stack)).
    assert (Hcl : Forall component (rev (u :: stack))) by (by apply Forall_rev).
    set (l := rev (u :: stack)) in *. rewrite (joinl_snoc l t Hl).
    destruct (joinl_head l Hcl Hl) as (c & r & Hj & Hc).
    rewrite Hj. unfold push.
    destruct absolute.
    + replace (String.eqb ("/" ++ String c r) "") with false by done.
      replace (String.eqb ("/" ++ String c r) "/") with false by done.
      cbn [negb andb]. by rewrite !string_app_assoc.
    + rewrite string_app_nil_l.
      replace (String.eqb (String c r) "") with false by done.
      replace (String.eqb (String c r) "/") with false.
      * cbn [negb andb]. by rewrite !string_app_assoc.
      * symmetry. apply String.eqb_neq. by intros [= -> _].
Qed.

Lemma getlines_joinl (l : list string) :
  Forall component l → l ≠ [] → getlines "" (joinl l) = l.
Proof.
  induction l as [|c l IH]; [done|]. intros [[Hne Hfree] Hl]%Forall_cons _.
  destruct l as [|d l].
  - cbn [joinl]. rewrite getlines_free, string_app_nil_l by done.
    by rewrite (proj2 (String.eqb_neq c "") Hne).
  - change (joinl (c :: d :: l)) with (c ++ String "/" (joinl (d :: l)))%string.
    rewrite getlines_slash, string_app_nil_l by done. by rewrite IH.
Qed.

(** The path [NormalPath] returns, for a path that is not empty. *)
Lemma NormalPath_stack (Path : string) :
  Path ≠ ""%string →
  ∃ stack, normal_stack (IsAbsolute Path) stack ∧ Forall component stack
    ∧ NormalPath Path = (if String.eqb (render (IsAbsolute Path) stack) "" then "."%string
                         else render (IsAbsolute Path) stack).
Proof.
  intros Hne. unfold NormalPath, IsEmpty. rewrite (proj2 (String.eqb_neq Path "") Hne).
  pose proof (getlines_components Path ""%string eq_refl) as Hl.
  destruct (NormalPath_fold (IsAbsolute Path) (getlines "" Path) [] (Forall_nil_2 _) Hl)
    as [Hfold Hcomp].
  exists (fold_left (step_stack (IsAbsolute Path)) (getlines "" Path) []).
  split; [|split; [done|]].
  - apply fold_step_normal; [done|]. by exists 0, [].
  - change (if IsAbsolute Path then "/" else "")%string with (render (IsAbsolute Path) []).
    by rewrite Hfold.
Qed.

(** X8: [NormalPath] is idempotent: a path it returns is returned
    unchanged. *)
Theorem NormalPath_idempotent (Path : string) :
  NormalPath (NormalPath Path) = NormalPath Path.
Proof.
  destruct (String.eqb_spec Path "") as [->|Hne]; [done|].
  destruct (NormalPath_stack Path Hne) as (stack & Hnormal & Hcomp & ->).
  set (absolute := IsAbsolute Path) in *.
  destruct stack as [|t stack']; [by destruct absolute|].
  set (stack := t :: stack') in *.
  assert (Hrender : render absolute stack
                    = ((if absolute then "/" else "") ++ joinl (rev stack))%string)
    by (by apply render_joinl).
  destruct (joinl_head (rev stack)) as (c & r & Hj & Hc);
    [by apply Forall_rev|unfold stack; cbn [rev]; by destruct (rev stack')|].
  assert (Hq : render absolute stack ≠ ""%string).
  { rewrite Hrender, Hj. by destruct absolute. }
  rewrite (proj2 (String.eqb_neq _ "") Hq).
  unfold NormalPath, IsEmpty. rewrite (proj2 (String.eqb_neq _ "") Hq).
  assert (Habs : IsAbsolute (render absolute stack) = absolute).
  { rewrite Hrender, Hj. unfold IsAbsolute, char_at. destruct absolute; [done|].
    rewrite string_app_nil_l. cbn. by apply Ascii.eqb_neq. }
  rewrite Habs.
  assert (Hlines : getlines "" (render absolute stack)
                   = (if absolute then [""%string] else []) ++ rev stack).
  { rewrite Hrender. destruct absolute.
    - change ("/" ++ joinl (rev stack))%string with ("" ++ String "/" (joinl (rev stack)))%string.
      rewrite getlines_slash by done. rewrite getlines_joinl; [done|by apply Forall_rev|].
      unfold stack; cbn [rev]; by destruct (rev stack').
    - rewrite string_app_nil_l, getlines_joinl; [done|by apply Forall_rev|].
      unfold stack; cbn [rev]; by destruct (rev stack'). }
  rewrite Hlines.
  assert (Hl : Forall slash_free ((if absolute then [""%string] else []) ++ rev stack)).
  { rewrite <- Hlines. by apply getlines_components. }
  change (if absolute then "/" else "")%string with (render absolute []).
  destruct (NormalPath_fold absolute _ [] (Forall_nil_2 _) Hl) as [-> _].
  assert (Hreplay : fold_left (step_stack absolute)
                      ((if absolute then [""%string] else []) ++ rev stack) [] = stack).
  { rewrite fold_left_app.
    replace (fold_left (step_stack absolute) (if absolute then [""%string] else []) [])
      with (@nil string) by (by destruct absolute).
    by apply fold_step_replay. }
  rewrite Hreplay. by rewrite (proj2 (String.eqb_neq _ "") Hq).
Qed.

End NormalPaths.

Section NormalPathShape.
Import TPath.

(** X9: the shape of a normal path.  For a path that is not empty,
    [NormalPath] returns, for an absolute path, ["/"] followed by
    components joined by single ['/'], none of them empty, ["."] or
    [".."]; for a relative path, ["."] or such components after any
    number of leading [".."]. *)
Theorem NormalPath_shape (Path : string) :
  Path ≠ ""%string →
  ∃ (k : nat) (comps : list string),
    Forall plain comps ∧ (IsAbsolute Path = true → k = 0)
    ∧ NormalPath Path
      = if IsAbsolute Path then ("/" ++ joinl comps)%string
        else match repeat ".."%string k ++ comps with
             | [] => "."%string
             | l => joinl l
             end.
Proof.
  intros Hne.
  destruct (NormalPath_stack Path Hne) as (stack & (k & rest & -> & Hrest & Habs) & Hcomp & ->).
  exists k, (rev rest). split; [by apply Forall_rev|]. split; [done|].
  assert (Hrev : rev (rest ++ repeat ".."%string k) = repeat ".."%string k ++ rev rest).
  { rewrite rev_app_distr. f_equal. clear.
    induction k as [|k IH]; [done|]. cbn [repeat rev]. rewrite IH. symmetry.
    apply repeat_snoc. }
  assert (Hshape : ∀ absolute stack, Forall component stack → stack ≠ [] →
            (if String.eqb (render absolute stack) "" then "."%string
             else render absolute stack)
            = ((if absolute then "/" else "") ++ joinl (rev stack))%string
            ∧ ∃ c r, rev stack = c :: r).
  { intros absolute stack Hc Hnil.
    assert (Hl : rev stack ≠ []).
    { intros Hr. apply Hnil. by rewrite <- (rev_involutive stack), Hr. }
    rewrite (render_joinl _ stack Hc Hnil).
    destruct (joinl_head (rev stack)) as (c & r & Hj & _); [by apply Forall_rev|done|].
    rewrite Hj. split; [by destruct absolute|]. destruct (rev stack); [done|by eexists _, _]. }
  destruct (IsAbsolute Path).
  - rewrite (Habs eq_refl) in *. cbn [repeat] in *. rewrite app_nil_r in *.
    destruct rest as [|t rest']; [done|].
    destruct (Hshape true (t :: rest') Hcomp) as [-> _]; done.
  - destruct (rest ++ repeat ".."%string k) as [|t stack'] eqn:Hstack.
    + by rewrite <- Hrev.
    + destruct (Hshape false (t :: stack') Hcomp) as [-> (c & r & Hcr)]; [done|].
      rewrite <- Hrev, Hcr. by rewrite string_app_nil_l.
Qed.

Lemma NormalPath_shape_witness :
  ∃ (k : nat) (comps : list string),
    Forall plain comps ∧ (IsAbsolute "/a/../b/./c//" = true → k = 0)
    ∧ NormalPath "/a/../b/./c//"
      = if IsAbsolute "/a/../b/./c//" then ("/" ++ joinl comps)%string
        else match repeat ".."%string k ++ comps with
             | [] => "."%string
             | l => joinl l
             end.
Proof. apply (NormalPath_shape "/a/../b/./c//"). discriminate. Defined.

End NormalPathShape.

(** ** Names in a namespace *)

Section NamespaceProofs.
Context {cfg : TConfig}.
Variable NsName : addr → string.
Variable ROOT_PORTO_NAMESPACE : string.

Lemma prefix_app (p s : string) :
  String.prefix p s = true ↔ ∃ t, s = (p ++ t)%string.
Proof.
  split.
  - intros H. apply substring_prefix. by apply String.prefix_correct.
  - intros [t ->]. apply String.prefix_correct, substring_whole.
Qed.

(** A name [ValidName] accepts is ["/"] or passes the scan of its
    components. *)
Lemma ValidName_scan (name : string) :
  ValidName name = TSuccess → name = ROOT_CONTAINER ∨ scan "" name = true.
Proof.
  unfold ValidName.
  destruct (String.length name =? 0)%nat; [done|].
  destruct (CONTAINER_PATH_MAX <? String.length name)%nat; [done|].
  destruct (Ascii.eqb (char_at name 0) "/").
  - destruct (String.eqb_spec name ROOT_CONTAINER); [by left|done].
  - pose proof (ValidName_loop_scan name ""%string ""%string) as Hloop.
    rewrite !string_app_nil_l in Hloop. cbn [String.length Nat.add] in Hloop.
    rewrite Hloop. by right.
Qed.

Lemma scan_after_slash (a b cur : string) :
  scan cur (a ++ String "/" b) = true → scan "" b = true.
Proof.
  revert cur. induction a as [|c a IH]; intros cur.
  - rewrite string_app_nil_l. cbn [scan]. replace (name_sep "/") with true by reflexivity.
    by intros [_ ?]%andb_true_iff.
  - rewrite string_app_cons. cbn [scan]. destruct (name_sep c).
    + intros [_ H]%andb_true_iff. by apply (IH ""%string).
    + destruct (name_char c); [apply IH|done].
Qed.

(** The first component of a scanned name passes the checks. *)
Lemma scan_head (a rest cur : string) :
  all_chars (fun c => negb (name_sep c)) a = true →
  rest = ""%string ∨ (∃ r, rest = String "/" r) →
  scan cur (a ++ rest) = true → component_ok (cur ++ a) = true.
Proof.
  revert cur. induction a as [|c a IH]; intros cur Ha Hrest.
  - rewrite string_app_nil_l, string_app_nil_r. destruct Hrest as [->|[r ->]]; cbn [scan].
    + done.
    + replace (name_sep "/") with true by reflexivity. by intros [? _]%andb_true_iff.
  - cbn [all_chars] in Ha. apply andb_true_iff in Ha as [Hc Ha].
    apply negb_true_iff in Hc. rewrite string_app_cons. cbn [scan]. rewrite Hc.
    destruct (name_char c); [|done]. intros H. apply IH in H; [|done..].
    by rewrite string_app_assoc in H.
Qed.

Lemma component_ok_reserved (c : string) :
  component_ok c = true →
  c ≠ ""%string ∧ c ≠ SELF_CONTAINER ∧ c ≠ DOT_CONTAINER.
Proof.
  unfold component_ok. rewrite !andb_true_iff, !negb_true_iff.
  intros [[[H0 _] Hs] Hd]. apply String.eqb_neq in Hs, Hd. repeat split; [|done..].
  intros ->. done.
Qed.

(** What [ResolveName] tests on a relative name, for the remainder of a
    valid name after a ['/']. *)
Lemma scan_plain (rel : string) :
  scan "" rel = true →
  rel ≠ SELF_CONTAINER ∧ rel ≠ DOT_CONTAINER
  ∧ StringStartsWith rel (SELF_CONTAINER ++ "/") = false
  ∧ char_at rel 0 ≠ "/"%char.
Proof.
  intros Hscan. repeat split.
  - intros ->. by apply (scan_head "self" "" "") in Hscan as (_ & ? & _)%component_ok_reserved;
      [|done|by left].
  - intros ->. by apply (scan_head "." "" "") in Hscan as (_ & _ & ?)%component_ok_reserved;
      [|done|by left].
  - apply not_true_iff_false. intros [t ->]%prefix_app.
    change ((SELF_CONTAINER ++ "/") ++ t)%string with ("self" ++ String "/" t)%string in Hscan.
    by apply (scan_head "self" (String "/" t) "") in Hscan
      as (_ & ? & _)%component_ok_reserved; [|done|right; by exists t].
  - destruct rel as [|c r]; [done|]. unfold char_at. simpl. intros ->.
    by apply (scan_head "" (String "/" r) "") in Hscan
      as (? & _ & _)%component_ok_reserved; [|done|right; by exists r].
Qed.

Definition namespace_prefix (s : string) : Prop :=
  s = ""%string ∨ ∃ t, s = (t ++ "/")%string.

Lemma GetPortoNamespace_prefix (h : list TContainer) (x : addr) :
  (∀ a, namespace_prefix (NsName a)) →
  namespace_prefix (GetPortoNamespace NsName h x).
Proof.
  intros HNs. unfold GetPortoNamespace. destruct (h !! x) as [c|]; [|by left].
  generalize (S (Level c)). intros fuel. clear c. revert x.
  induction fuel as [|fuel IH]; intros x; [by left|].
  cbn [GetPortoNamespace_from]. destruct (h !! x) as [c|]; [|by left].
  destruct (Parent c) as [p|]; [|by left].
  destruct (HNs x) as [->|[t ->]].
  - rewrite string_app_nil_r. apply IH.
  - right. exists (GetPortoNamespace_from NsName fuel h p ++ t)%string.
    by rewrite string_app_assoc.
Qed.

(** X10: a name a client is given resolves back to its container.  With
    every [NsName] empty or ending in ['/'], and [ROOT_PORTO_NAMESPACE]
    beginning with ['/'], when [ComposeName] turns the valid name [name]
    into [relative_name] for a client, [ResolveName] turns
    [relative_name] back into [name] for that client. *)
Theorem ResolveName_ComposeName (h : list TContainer) (ClientContainer : addr)
    (cc : TContainer) (name relative_name : string) :
  char_at ROOT_PORTO_NAMESPACE 0 = "/"%char →
  (∀ a, namespace_prefix (NsName a)) →
  h !! ClientContainer = Some cc →
  ValidName name = TSuccess →
  ComposeName NsName h ClientContainer name = (TSuccess, relative_name) →
  ResolveName NsName ROOT_PORTO_NAMESPACE h ClientContainer relative_name
  = (TSuccess, name).
Proof.
  intros Hroot HNs Hcc Hvalid. unfold ComposeName, ResolveName. rewrite Hcc.
  pose proof (GetPortoNamespace_prefix h ClientContainer HNs) as Hns.
  set (ns := GetPortoNamespace NsName h ClientContainer) in *.
  destruct (String.eqb_spec name ROOT_CONTAINER) as [->|Hnr]; [by intros [= <-]|].
  destruct (ValidName_scan name Hvalid) as [?|Hscan]; [done|].
  assert (Hrel : scan "" relative_name = true → (ns ++ relative_name)%string = name →
            (let ns := ns in
             if String.eqb relative_name ROOT_CONTAINER then (TSuccess, ROOT_CONTAINER)
             else if String.eqb relative_name SELF_CONTAINER then (TSuccess, Name cc)
             else if String.eqb relative_name DOT_CONTAINER then (TSuccess, ParentName ns)
             else if StringStartsWith relative_name (SELF_CONTAINER ++ "/") then
               (TSuccess,
                ((if IsRoot cc then "" else Name cc)
                 ++ substr (String.length SELF_CONTAINER) relative_name)%string)
             else if StringStartsWith relative_name ROOT_PORTO_NAMESPACE then
               let name := substr (String.length ROOT_PORTO_NAMESPACE) relative_name in
               if negb (StringStartsWith name ns) then (Err Permission, name)
               else (TSuccess, name)
             else (TSuccess, (ns ++ relative_name)%string)) = (TSuccess, name)).
  { intros Hs Heq. destruct (scan_plain relative_name Hs) as (Hself & Hdot & Hpre & Hslash).
    cbn zeta.
    destruct (String.eqb_spec relative_name ROOT_CONTAINER) as [->|_]; [done|].
    rewrite (proj2 (String.eqb_neq _ _) Hself), (proj2 (String.eqb_neq _ _) Hdot), Hpre.
    destruct (StringStartsWith relative_name ROOT_PORTO_NAMESPACE) eqn:Habs.
    - apply prefix_app in Habs as [t ->]. exfalso. apply Hslash.
      destruct ROOT_PORTO_NAMESPACE as [|c r]; [done|]. exact Hroot.
    - by rewrite Heq. }
  destruct (String.eqb_spec ns "") as [Hempty|Hne].
  - intros [= <-]. apply Hrel; [done|]. by rewrite Hempty.
  - destruct (StringStartsWith name ns) eqn:Hstart; [|done]. cbn [negb].
    apply prefix_app in Hstart as [t ->]. rewrite substr_app. intros [= <-].
    apply Hrel; [|done]. destruct Hns as [?|[s Hs]]; [done|].
    rewrite Hs, string_app_assoc in Hscan. by apply scan_after_slash in Hscan.
Qed.

End NamespaceProofs.

(** The namespaces of [demo_world] with ["a"] isolated in ["a/"]. *)
Definition demo_NsName (a : addr) : string :=
  if (a =? demo_a)%nat then "a/"%string else ""%string.

Lemma ResolveName_ComposeName_witness :
  ResolveName demo_NsName "/porto/" (Heap demo_world) demo_a "b" = (TSuccess, "a/b"%string).
Proof.
  destruct (Heap demo_world !! demo_a) as [cc|] eqn:Hcc; [|vm_compute in Hcc; discriminate].
  apply (ResolveName_ComposeName (cfg := stock_config) demo_NsName "/porto/"
           (Heap demo_world) demo_a cc "a/b" "b").
  - reflexivity.
  - intros a. unfold demo_NsName. destruct (a =? demo_a)%nat; [right; by exists "a"%string|by left].
  - exact Hcc.
  - vm_compute. reflexivity.
  - vm_compute. reflexivity.
Defined.

(** ** The parent of a name *)

Lemma rfind_from_split (s : string) (i j : nat) (last : option nat) :
  rfind_from "/" s i last = Some j →
  (∃ a b, s = (a ++ String "/" b)%string ∧ i + String.length a = j ∧ slash_free b)
  ∨ (last = Some j ∧ slash_free s).
Proof.
  revert i last. induction s as [|d s IH]; intros i last; cbn [rfind_from].
  - intros ->. by right.
  - intros H. apply IH in H as [(a & b & -> & Hlen & Hb)|[Hlast Hs]].
    + left. exists (String d a), b. rewrite string_app_cons. cbn [String.length].
      split; [done|]. split; [lia|done].
    + destruct (Ascii.eqb_spec d "/") as [->|Hd].
      * injection Hlast as <-. left. exists ""%string, s. cbn [String.length].
        split; [done|]. split; [lia|done].
      * right. split; [done|]. by apply slash_free_cons.
Qed.

Lemma rfind_from_none (s : string) (i : nat) :
  rfind_from "/" s i None = None → slash_free s.
Proof.
  assert (H : ∀ s i last, rfind_from "/" s i last = None → last = None ∧ slash_free s).
  { clear. induction s as [|d s IH]; intros i last; cbn [rfind_from]; [done|].
    intros [Hlast Hs]%IH. destruct (Ascii.eqb_spec d "/") as [->|Hd]; [done|].
    split; [done|]. by apply slash_free_cons. }
  intros Hs. by apply H in Hs as [_ ?].
Qed.

(** [ParentName] cuts a name at its last ['/']. *)
Lemma ParentName_split (name : string) :
  (slash_free name ∧ ParentName name = ROOT_CONTAINER)
  ∨ (∃ c, slash_free c ∧ name = (ParentName name ++ String "/" c)%string).
Proof.
  unfold ParentName, rfind. destruct (rfind_from "/" name 0 None) as [sep|] eqn:Hr.
  - right. apply rfind_from_split in Hr as [(a & b & -> & Hlen & Hb)|[? _]]; [|done].
    exists b. split; [done|]. cbn [Nat.add] in Hlen. rewrite <- Hlen.
    by rewrite substring_whole.
  - left. split; [|done]. by apply rfind_from_none in Hr.
Qed.

Section ParentNames.
Context {cfg : TConfig}.

Lemma scan_before_slash (a b cur : string) :
  scan cur (a ++ String "/" b) = true → scan cur a = true.
Proof.
  revert cur. induction a as [|c a IH]; intros cur.
  - rewrite string_app_nil_l. cbn [scan]. replace (name_sep "/") with true by reflexivity.
    by intros [? _]%andb_true_iff.
  - rewrite string_app_cons. cbn [scan]. destruct (name_sep c).
    + intros [Hc H]%andb_true_iff. rewrite Hc. by apply (IH ""%string).
    + destruct (name_char c); [apply IH|done].
Qed.

Lemma scan_ValidName (name : string) :
  String.length name ≤ CONTAINER_PATH_MAX → scan "" name = true →
  ValidName name = TSuccess.
Proof.
  intros Hlen Hscan. unfold ValidName.
  destruct (Nat.eqb_spec (String.length name) 0) as [H0|_].
  { apply string_length_0 in H0 as ->.
    by apply (scan_head "" "" "") in Hscan as (? & _)%component_ok_reserved; [|done|by left]. }
  destruct (Nat.ltb_spec CONTAINER_PATH_MAX (String.length name)) as [?|_]; [lia|].
  destruct (scan_plain name Hscan) as (_ & _ & _ & Hslash).
  rewrite (proj2 (Ascii.eqb_neq _ _) Hslash).
  pose proof (ValidName_loop_scan name ""%string ""%string) as Hloop.
  rewrite !string_app_nil_l in Hloop. cbn [String.length Nat.add] in Hloop.
  by apply Hloop.
Qed.

(** X11: the parent of a valid name.  For a name [ValidName] accepts,
    other than ["/"], either the name has no ['/'] and [ParentName] is the
    root ["/"], or the name is [ParentName], a ['/'] and a last component
    without ['/'], and [ValidName] accepts [ParentName] too. *)
Theorem ParentName_valid (name : string) :
  ValidName name = TSuccess → name ≠ ROOT_CONTAINER →
  (slash_free name ∧ ParentName name = ROOT_CONTAINER)
  ∨ (∃ c, slash_free c ∧ name = (ParentName name ++ String "/" c)%string
          ∧ ValidName (ParentName name) = TSuccess).
Proof.
  intros Hvalid Hroot.
  destruct (ParentName_split name) as [?|(c & Hc & Hname)]; [by left|]. right.
  exists c. split; [done|]. split; [done|].
  destruct (ValidName_scan name Hvalid) as [?|Hscan]; [done|].
  apply scan_ValidName.
  - assert (Hlen : String.length name ≤ CONTAINER_PATH_MAX).
    { unfold ValidName in Hvalid.
      destruct (String.length name =? 0)%nat; [done|].
      by destruct (Nat.ltb_spec CONTAINER_PATH_MAX (String.length name)). }
    rewrite Hname, string_length_app in Hlen. lia.
  - rewrite Hname in Hscan. by apply scan_before_slash in Hscan.
Qed.

End ParentNames.

Lemma ParentName_valid_witness :
  ∃ c, slash_free c ∧ "a/b/c"%string = (ParentName "a/b/c" ++ String "/" c)%string
       ∧ ValidName (cfg := stock_config) (ParentName "a/b/c") = TSuccess.
Proof.
  destruct (ParentName_valid (cfg := stock_config) "a/b/c") as [[Hfree _]|H];
    [vm_compute; reflexivity|discriminate|discriminate|exact H].
Defined.

(** ** What a held lock excludes *)

(** The counters after a granted [Lock]. *)
Lemma Lock_heap (w w' : TWorld) (x : addr) (c : TContainer) (shared try_lock : bool) :
  wf_heap (Heap w) → Heap w !! x = Some c →
  Lock x shared try_lock w = (LockDone TSuccess, w') →
  shape (Heap w') = shape (Heap w)
  ∧ ∀ y, Heap w' !! y
         = if decide (y ∈ ancestors (Heap w) x) then lock_incr <$> Heap w !! y
           else if decide (y = x)
                then (fun c => set_Locked (Locked c + (if shared then 1 else -1))%Z c)
                       <$> Heap w !! y
                else Heap w !! y.
Proof.
  intros Hwf Hx HL.
  destruct (Lock_granted w x c shared try_lock w' Hx HL) as [Hlive Hbusy].
  unfold Lock in HL. rewrite Hx, bool_decide_eq_false_2, Hbusy in HL by done.
  injection HL as <-. fold lock_incr.
  pose proof (ancestors_NoDup _ _ _ Hwf Hx) as Hnd.
  apply NoDup_cons in Hnd as [Hxl Hnd].
  rewrite fold_upd. unfold upd, with_Heap. cbn [Heap]. split.
  - rewrite fold_alter_shape by apply (keeps_shape_set_Locked (fun c => (Locked c + 1)%Z)).
    apply shape_alter, (keeps_shape_set_Locked (fun c => (Locked c + _)%Z)).
  - intros y. rewrite fold_alter_lookup by done.
    destruct (decide (y ∈ ancestors (Heap w) x)) as [Hin|Hnin].
    + rewrite list_lookup_alter_ne; [done|]. by intros ->.
    + destruct (decide (y = x)) as [->|Hne].
      * by rewrite list_lookup_alter_eq.
      * by rewrite list_lookup_alter_ne.
Qed.

(** X12: what a held lock excludes.  After [Lock] has been granted on X,
    and until it is released, a write try-lock on X or on an ancestor of X
    returns [Busy]; after a write lock, so does every try-lock, read or
    write, on X and on each descendant of X. *)
Theorem Lock_excludes (w w' : TWorld) (x : addr) (c : TContainer)
    (shared try_lock : bool) :
  wf_heap (Heap w) → Heap w !! x = Some c →
  Lock x shared try_lock w = (LockDone TSuccess, w') →
  ∀ (y : addr) (cy : TContainer) (shared' : bool),
    Heap w' !! y = Some cy → State cy ≠ Destroyed →
    (shared' = false ∧ (y = x ∨ ancestor_of (Heap w) y x))
    ∨ (shared = false ∧ (y = x ∨ ancestor_of (Heap w) x y)) →
    Lock y shared' true w' = (LockDone (Err Busy), w').
Proof.
  intros Hwf Hx HL y cy shared' Hy Hlive Hcase.
  destruct (Lock_heap w w' x c shared try_lock Hwf Hx HL) as [Hshape Hlook].
  destruct (Lock_granted w x c shared try_lock w' Hx HL) as [_ Hbusy].
  apply (lock_busy_false _ _ _ _ Hx) in Hbusy as [Hown Hanc].
  assert (Hxl : x ∉ ancestors (Heap w) x) by (by eapply ancestors_not_self).
  assert (Hx' : Heap w' !! x
                = Some (set_Locked (Locked c + (if shared then 1 else -1))%Z c)).
  { by rewrite Hlook, decide_False, decide_True, Hx. }
  unfold Lock. rewrite Hy, bool_decide_eq_false_2 by done.
  assert (Hb : lock_busy (Heap w') y shared' = true); [|by rewrite Hb].
  unfold lock_busy. rewrite Hy, fold_left_orb, orb_true_iff.
  destruct Hcase as [[-> [->|Hup]]|[-> [->|Hdown]]].
  - left. rewrite Hx' in Hy. injection Hy as <-. rewrite Locked_set.
    cbn [negb]. rewrite orb_true_r, andb_true_r, negb_true_iff. apply Z.eqb_neq.
    destruct shared; lia.
  - left. apply ancestor_of_ancestors in Hup; [|done].
    rewrite Hlook, decide_True in Hy by done.
    destruct (ancestors_level _ _ _ _ Hwf Hx Hup) as (ac & Hac & _).
    specialize (Hanc y Hup). unfold write_locked in Hanc. rewrite Hac in Hanc.
    apply Z.ltb_ge in Hanc. rewrite Hac in Hy. injection Hy as <-.
    unfold lock_incr. rewrite Locked_set. cbn [negb].
    rewrite orb_true_r, andb_true_r, negb_true_iff. apply Z.eqb_neq. lia.
  - left. rewrite Hx' in Hy. injection Hy as <-. rewrite Locked_set, Hown.
    reflexivity.
  - right. apply existsb_exists. exists x. split.
    + apply list_elem_of_In. rewrite (shape_ancestors _ _ y Hshape).
      by apply ancestor_of_ancestors.
    + unfold write_locked. rewrite Hx', Locked_set, Hown. reflexivity.
Qed.

Lemma Lock_excludes_witness :
  Lock demo_ab true true demo_locked = (LockDone (Err Busy), demo_locked).
Proof.
  assert (Hwf : wf_heap (Heap demo_world)) by (vm_compute; reflexivity).
  destruct (Heap demo_world !! demo_a) as [c|] eqn:Hc; [|vm_compute in Hc; discriminate].
  destruct (Heap demo_locked !! demo_ab) as [cy|] eqn:Hy; [|vm_compute in Hy; discriminate].
  apply (Lock_excludes demo_world demo_locked demo_a c false true Hwf Hc) with (cy := cy).
  - vm_compute. reflexivity.
  - exact Hy.
  - vm_compute in Hy. injection Hy as <-. discriminate.
  - right. split; [reflexivity|]. right.
    eapply ancestor_parent; [vm_compute; reflexivity|reflexivity].
Defined.

(** ** Child-only clients *)

(** X13: a client whose access level is [ChildOnly] controls nothing
    outside the subtree of its base.  When [CanControl(ct, child)] returns
    no error for such a client, some container [base], the client's
    container or one of its ancestors, has the access level [ChildOnly],
    and [ct] is a descendant of [base], or [base] itself when [child] is
    set. *)
Theorem CanControl_child_only {cfg : TConfig} (K : TKernel) (cl : TClient)
    (h : list TContainer) (x : addr) (child : bool) :
  wf_heap h →
  Client.AccessLevel cl = EAccessLevel.ChildOnly →
  is_Some (h !! x) →
  CanControl K cl h x child = TSuccess →
  ∃ (cc base : addr) (bc : TContainer),
    Client.ClientContainer cl = Some cc
    ∧ (base = cc ∨ ancestor_of h base cc)
    ∧ h !! base = Some bc ∧ AccessLevel bc = EAccessLevel.ChildOnly
    ∧ ((child = true ∧ x = base) ∨ ancestor_of h base x).
Proof.
  intros Hwf Hlevel [ct Hx]. unfold CanControl. rewrite Hx, Hlevel.
  replace (EAccessLevel.ltb EAccessLevel.ChildOnly EAccessLevel.ChildOnly)
    with false by reflexivity.
  destruct (negb child && IsRoot ct); [done|].
  match goal with |- context [failed ?e] => destruct (failed e) eqn:He end.
  { intros Heq. rewrite Heq in He. done. }
  destruct (Client.ClientContainer cl) as [cc|]; [|done].
  match goal with |- context [List.find ?f ?l] => destruct (List.find f l) as [base|] eqn:Hfind end;
    [|done].
  apply find_some in Hfind as [Hin Hbase].
  destruct (h !! base) as [bc|] eqn:Hb; [|done].
  apply bool_decide_eq_true in Hbase.
  destruct (child && (base =? x)%nat || IsChildOf h x base) eqn:Hok; [|done].
  intros _. exists cc, base, bc. split; [done|]. split.
  - apply list_elem_of_In, elem_of_cons in Hin as [->|Hin]; [by left|]. right.
    destruct (h !! cc) as [ccc|] eqn:Hcc.
    + by apply (ancestors_ancestor_of h cc ccc).
    + unfold ancestors in Hin. rewrite Hcc in Hin. by apply elem_of_nil in Hin.
  - split; [done|]. split; [done|].
    apply orb_true_iff in Hok as [[Hc Heq]%andb_true_iff|Hchild].
    + left. split; [done|]. symmetry. by apply Nat.eqb_eq.
    + right. apply bool_decide_eq_true in Hchild. by apply (ancestors_ancestor_of h x ct).
Qed.

(** The tree of [demo_world] with ["a"] made child-only, and a client in
    ["a"] with that level. *)
Definition demo_child_only : list TContainer :=
  Heap (upd demo_a (set_AccessLevel EAccessLevel.ChildOnly) demo_world).

Definition child_only_client : TClient :=
  Client.mk 100 NoCred NoCred EAccessLevel.ChildOnly (Some demo_a) "" 0.

Lemma CanControl_child_only_witness :
  ∃ (cc base : addr) (bc : TContainer),
    Client.ClientContainer child_only_client = Some cc
    ∧ (base = cc ∨ ancestor_of demo_child_only base cc)
    ∧ demo_child_only !! base = Some bc ∧ AccessLevel bc = EAccessLevel.ChildOnly
    ∧ ((false = true ∧ demo_ab = base) ∨ ancestor_of demo_child_only base demo_ab).
Proof.
  apply (CanControl_child_only (cfg := stock_config) quiet_kernel child_only_client
           demo_child_only demo_ab false).
  - vm_compute. reflexivity.
  - reflexivity.
  - vm_compute. eexists. reflexivity.
  - vm_compute. reflexivity.
Defined.

(** ** Walks up the tree *)

Lemma ancestor_of_inv (h : list TContainer) (a x p : addr) (c : TContainer) :
  h !! x = Some c → Parent c = Some p → ancestor_of h a x →
  a = p ∨ ancestor_of h a p.
Proof.
  intros Hx Hp Ha. inversion Ha as [y d q Hy Hq|y d q b Hy Hq Hanc]; subst;
    rewrite Hx in Hy; injection Hy as <-; rewrite Hp in Hq; injection Hq as <-; auto.
Qed.

Lemma ancestor_of_level (h : list TContainer) (a x : addr) (c : TContainer) :
  wf_heap h → h !! x = Some c → ancestor_of h a x →
  ∃ ac, h !! a = Some ac ∧ Level ac < Level c.
Proof.
  intros Hwf Hx Ha. apply (ancestors_level h x c a Hwf Hx).
  by apply ancestor_of_ancestors.
Qed.

(** X14: the isolation domain.  In a well-formed tree
    [GetIsolationDomain] returns the container itself or one of its
    ancestors; the result is isolated or is the root, and no container on
    the way up to it, the start included, is isolated: it is the nearest
    isolated one. *)
Theorem GetIsolationDomain_nearest (h : list TContainer) (x : addr) :
  wf_heap h → is_Some (h !! x) →
  ∃ dc, h !! GetIsolationDomain h x = Some dc
    ∧ (Isolate dc = true ∨ Parent dc = None)
    ∧ (GetIsolationDomain h x = x ∨ ancestor_of h (GetIsolationDomain h x) x)
    ∧ ∀ a ac, (a = x ∨ ancestor_of h a x) → ancestor_of h (GetIsolationDomain h x) a →
        h !! a = Some ac → Isolate ac = false.
Proof.
  intros Hwf [c Hx]. revert x c Hx.
  apply (parent_chain_ind h (fun x c =>
    ∃ dc, h !! GetIsolationDomain h x = Some dc
      ∧ (Isolate dc = true ∨ Parent dc = None)
      ∧ (GetIsolationDomain h x = x ∨ ancestor_of h (GetIsolationDomain h x) x)
      ∧ ∀ a ac, (a = x ∨ ancestor_of h a x) → ancestor_of h (GetIsolationDomain h x) a →
          h !! a = Some ac → Isolate ac = false)); [done|..].
  - intros x c Hx Hp.
    assert (Hd : GetIsolationDomain h x = x).
    { unfold GetIsolationDomain. rewrite Hx. cbn [GetIsolationDomain_from].
      rewrite Hx, Hp. by destruct (negb (Isolate c)). }
    rewrite Hd. exists c. split; [done|]. split; [by right|]. split; [by left|].
    intros a ac [->|Ha] Hda Hac.
    + destruct (ancestor_of_level h x x ac Hwf Hac Hda) as (ac' & Hac' & Hlt).
      rewrite Hac in Hac'. injection Hac' as <-. lia.
    + inversion Ha as [y d q Hy Hq|y d q b Hy Hq Hanc]; subst;
        rewrite Hx in Hy; injection Hy as <-; congruence.
  - intros x c p pc Hx Hp Hpc Hlev (dc & Hdc & Hiso & Hup & Hbelow).
    destruct (Isolate c) eqn:Hc.
    + assert (Hd : GetIsolationDomain h x = x).
      { unfold GetIsolationDomain. rewrite Hx. cbn [GetIsolationDomain_from].
        by rewrite Hx, Hc. }
      rewrite Hd. exists c. split; [done|]. split; [by left|]. split; [by left|].
      intros a ac Ha Hda Hac.
      destruct (ancestor_of_level h x a ac Hwf Hac Hda) as (xc & Hxc & Hlt).
      rewrite Hx in Hxc. injection Hxc as <-.
      destruct Ha as [->|Ha].
      * rewrite Hx in Hac. injection Hac as <-. lia.
      * destruct (ancestor_of_level h a x c Hwf Hx Ha) as (ac' & Hac' & Hlt').
        rewrite Hac in Hac'. injection Hac' as <-. lia.
    + assert (Hd : GetIsolationDomain h x = GetIsolationDomain h p).
      { unfold GetIsolationDomain. rewrite Hx, Hpc. cbn [GetIsolationDomain_from].
        rewrite Hx, Hc, Hp, Hlev. reflexivity. }
      rewrite Hd. exists dc. split; [done|]. split; [done|]. split.
      * right. destruct Hup as [->|Hup]; [by eapply ancestor_parent|].
        by eapply ancestor_step.
      * intros a ac [->|Ha] Hda Hac.
        -- rewrite Hx in Hac. by injection Hac as <-.
        -- destruct (ancestor_of_inv h a x p c Hx Hp Ha) as [->|Hap].
           ++ apply (Hbelow p ac); [by left|done|done].
           ++ apply (Hbelow a ac); [by right|done|done].
Qed.

(** The tree of [demo_world] with ["a"] and ["a/b"] not isolated. *)
Definition demo_shared : list TContainer :=
  Heap (upd demo_ab (set_Isolate false) (upd demo_a (set_Isolate false) demo_world)).

Lemma GetIsolationDomain_nearest_witness :
  ∃ dc, demo_shared !! GetIsolationDomain demo_shared demo_ab = Some dc
    ∧ (Isolate dc = true ∨ Parent dc = None)
    ∧ (GetIsolationDomain demo_shared demo_ab = demo_ab
       ∨ ancestor_of demo_shared (GetIsolationDomain demo_shared demo_ab) demo_ab)
    ∧ ∀ a ac, (a = demo_ab ∨ ancestor_of demo_shared a demo_ab) →
        ancestor_of demo_shared (GetIsolationDomain demo_shared demo_ab) a →
        demo_shared !! a = Some ac → Isolate ac = false.
Proof.
  apply (GetIsolationDomain_nearest demo_shared demo_ab).
  - vm_compute. reflexivity.
  - vm_compute. eexists. reflexivity.
Defined.

Lemma FindRunningParent_from_none (fuel : nat) (h : list TContainer) :
  FindRunningParent_from fuel h None = None.
Proof. by destruct fuel. Qed.

(** X15: the running parent.  In a well-formed tree [FindRunningParent]
    returns the nearest ancestor that has a task: an ancestor whose
    [Task.Pid] is not zero, with no such ancestor below it; and it returns
    nothing only when no ancestor has a task. *)
Theorem FindRunningParent_nearest (h : list TContainer) (x : addr) :
  wf_heap h → is_Some (h !! x) →
  match FindRunningParent h x with
  | Some p =>
      ancestor_of h p x
      ∧ (∃ pc, h !! p = Some pc ∧ TaskPid pc ≠ 0%Z)
      ∧ ∀ a ac, ancestor_of h a x → ancestor_of h p a → h !! a = Some ac →
          TaskPid ac = 0%Z
  | None => ∀ a ac, ancestor_of h a x → h !! a = Some ac → TaskPid ac = 0%Z
  end.
Proof.
  intros Hwf [c Hx]. revert x c Hx.
  apply (parent_chain_ind h (fun x c =>
    match FindRunningParent h x with
    | Some p =>
        ancestor_of h p x
        ∧ (∃ pc, h !! p = Some pc ∧ TaskPid pc ≠ 0%Z)
        ∧ ∀ a ac, ancestor_of h a x → ancestor_of h p a → h !! a = Some ac →
            TaskPid ac = 0%Z
    | None => ∀ a ac, ancestor_of h a x → h !! a = Some ac → TaskPid ac = 0%Z
    end)); [done|..].
  - intros x c Hx Hp. unfold FindRunningParent.
    rewrite Hx, Hp, FindRunningParent_from_none. intros a ac Ha _.
    inversion Ha as [y d q Hy Hq|y d q b Hy Hq Hanc]; subst;
      rewrite Hx in Hy; injection Hy as <-; congruence.
  - intros x c p pc Hx Hp Hpc Hlev IH.
    assert (Hstep : FindRunningParent h x
                    = if negb (TaskPid pc =? 0)%Z then Some p else FindRunningParent h p).
    { unfold FindRunningParent. rewrite Hx, Hpc, Hp, Hlev.
      cbn [FindRunningParent_from]. by rewrite Hpc. }
    rewrite Hstep. destruct (Z.eqb_spec (TaskPid pc) 0) as [H0|H0]; cbn [negb].
    + destruct (FindRunningParent h p) as [q|].
      * destruct IH as (Hq & Hqc & Hnear). split; [by eapply ancestor_step|].
        split; [done|]. intros a ac Ha Hqa Hac.
        destruct (ancestor_of_inv h a x p c Hx Hp Ha) as [->|Hap].
        -- rewrite Hpc in Hac. by injection Hac as <-.
        -- by apply (Hnear a ac).
      * intros a ac Ha Hac.
        destruct (ancestor_of_inv h a x p c Hx Hp Ha) as [->|Hap].
        -- rewrite Hpc in Hac. by injection Hac as <-.
        -- by apply (IH a ac).
    + split; [by eapply ancestor_parent|]. split; [by exists pc|].
      intros a ac Ha Hpa Hac.
      destruct (ancestor_of_level h p a ac Hwf Hac Hpa) as (pc' & Hpc' & Hlt).
      rewrite Hpc in Hpc'. injection Hpc' as <-.
      destruct (ancestor_of_inv h a x p c Hx Hp Ha) as [->|Hap].
      * rewrite Hpc in Hac. injection Hac as <-. lia.
      * destruct (ancestor_of_level h a p pc Hwf Hpc Hap) as (ac' & Hac' & Hlt').
        rewrite Hac in Hac'. injection Hac' as <-. lia.
Qed.

(** The tree of [demo_world] with a task in ["a"]. *)
Definition demo_tasked : list TContainer :=
  Heap (upd demo_a (set_TaskPid 4242) demo_world).

Lemma FindRunningParent_nearest_witness :
  match FindRunningParent demo_tasked demo_ab with
  | Some p =>
      ancestor_of demo_tasked p demo_ab
      ∧ (∃ pc, demo_tasked !! p = Some pc ∧ TaskPid pc ≠ 0%Z)
      ∧ ∀ a ac, ancestor_of demo_tasked a demo_ab →
          ancestor_of demo_tasked p a → demo_tasked !! a = Some ac →
          TaskPid ac = 0%Z
  | None => ∀ a ac, ancestor_of demo_tasked a demo_ab →
              demo_tasked !! a = Some ac → TaskPid ac = 0%Z
  end.
Proof.
  apply (FindRunningParent_nearest demo_tasked demo_ab).
  - vm_compute. reflexivity.
  - vm_compute. eexists. reflexivity.
Defined.

(** ** The subtree of a container *)

(** [Children] and [Parent] agree: [Register] appends the new container
    to the children of its parent. *)
Definition children_ok (h : list TContainer) : Prop :=
  ∀ p pc, h !! p = Some pc →
    NoDup (Children pc)
    ∧ ∀ d, d ∈ Children pc ↔ ∃ dc, h !! d = Some dc ∧ Parent dc = Some p.

(** The containers at and below [x]. *)
Definition subtree_of (h : list TContainer) (x : addr) : list addr :=
  filter (fun y => x ∈ y :: ancestors h y) (seq 0 (length h)).

Definition kids (h : list TContainer) (a : addr) : list addr :=
  match h !! a with Some c => Children c | None => [] end.

Definition lev (h : list TContainer) (a : addr) : nat :=
  match h !! a with Some c => Level c | None => 0 end.

Section Subtrees.
Variable h : list TContainer.
Hypothesis Hwf : wf_heap h.
Hypothesis Hkids : children_ok h.

Lemma elem_of_subtree_of (x y : addr) :
  y ∈ subtree_of h x ↔ is_Some (h !! y) ∧ (y = x ∨ ancestor_of h x y).
Proof using Hwf.
  unfold subtree_of. rewrite list_elem_of_filter, elem_of_seq, elem_of_cons.
  rewrite lookup_lt_is_Some. split.
  - intros [[->|Hin] Hlt]; (split; [lia|]); [by left|].
    right. assert (Hy : is_Some (h !! y)) by (apply lookup_lt_is_Some; lia).
    destruct Hy as [c Hy]. by apply (ancestors_ancestor_of h y c).
  - intros [Hlt [->|Hanc]]; (split; [|lia]); [by left|].
    right. by apply ancestor_of_ancestors.
Qed.

Lemma NoDup_subtree_of (x : addr) : NoDup (subtree_of h x).
Proof. apply NoDup_filter, NoDup_seq. Qed.

Lemma length_subtree_of (x : addr) : length (subtree_of h x) ≤ length h.
Proof.
  unfold subtree_of. etrans; [apply length_filter|]. by rewrite length_seq.
Qed.

Lemma kids_parent (a d : addr) :
  d ∈ kids h a ↔ ∃ dc, h !! d = Some dc ∧ Parent dc = Some a ∧ is_Some (h !! a).
Proof using Hwf Hkids.
  unfold kids. destruct (h !! a) as [c|] eqn:Ha.
  - destruct (Hkids a c Ha) as [_ Hiff]. rewrite Hiff. split.
    + intros (dc & ? & ?). by exists dc.
    + intros (dc & ? & ? & _). by exists dc.
  - split; [by intros ?%elem_of_nil|]. by intros (_ & _ & _ & [? ?]).
Qed.

Lemma ancestor_of_trans (a b c : addr) :
  ancestor_of h a b → ancestor_of h b c → ancestor_of h a c.
Proof.
  intros Hab Hbc. induction Hbc as [y d p Hy Hp|y d p b Hy Hp Hanc IH].
  - by eapply ancestor_step.
  - eapply ancestor_step; [done..|]. by apply IH.
Qed.

Lemma ancestor_of_lev (a x : addr) : ancestor_of h a x → lev h a < lev h x.
Proof using Hwf.
  intros Ha. assert (Hx : is_Some (h !! x)) by (inversion Ha; eauto).
  destruct Hx as [c Hx].
  destruct (ancestor_of_level h a x c Hwf Hx Ha) as (ac & Hac & Hlt).
  unfold lev. by rewrite Hx, Hac.
Qed.

(** Below [a]: through exactly one child of [a]. *)
Lemma ancestor_of_child (a y : addr) :
  ancestor_of h a y → ∃ c, c ∈ kids h a ∧ (y = c ∨ ancestor_of h c y).
Proof using Hwf Hkids.
  induction 1 as [y d p Hy Hp|y d p b Hy Hp Hanc IH].
  - exists y. split; [|by left]. apply kids_parent. exists d. split; [done|]. split; [done|].
    destruct (wf_heap_parent h y d p Hwf Hy Hp) as (pc & Hpc & _). by exists pc.
  - destruct IH as (c & Hc & [->|Hcp]); exists c; (split; [done|]); right.
    + by eapply ancestor_parent.
    + by eapply ancestor_step.
Qed.

Lemma subtree_of_unfold (a : addr) :
  is_Some (h !! a) →
  subtree_of h a ≡ₚ a :: (kids h a ≫= subtree_of h).
Proof using Hwf Hkids.
  intros Ha. apply NoDup_Permutation.
  - apply NoDup_subtree_of.
  - apply NoDup_cons. split.
    + intros (c & Hin & Hc)%list_elem_of_bind.
      apply elem_of_subtree_of in Hin as [_ Hca].
      apply kids_parent in Hc as (cc & Hcc & Hp & _).
      assert (Hac : ancestor_of h a c) by (by eapply ancestor_parent).
      apply ancestor_of_lev in Hac.
      destruct Hca as [->|Hca]; [lia|]. apply ancestor_of_lev in Hca. lia.
    + apply NoDup_bind.
      * intros c1 c2 y Hc1 Hc2 [_ Hy1]%elem_of_subtree_of [_ Hy2]%elem_of_subtree_of.
        apply kids_parent in Hc1 as (cc1 & Hcc1 & Hp1 & _).
        apply kids_parent in Hc2 as (cc2 & Hcc2 & Hp2 & _).
        assert (Hlev : lev h c1 = lev h c2).
        { destruct (wf_heap_parent h c1 cc1 a Hwf Hcc1 Hp1) as (pc & Hpc & Hl1).
          destruct (wf_heap_parent h c2 cc2 a Hwf Hcc2 Hp2) as (pc' & Hpc' & Hl2).
          unfold lev. rewrite Hcc1, Hcc2. congruence. }
        destruct Hy1 as [->|Hy1], Hy2 as [->|Hy2]; [done|..].
        -- apply ancestor_of_lev in Hy2. lia.
        -- apply ancestor_of_lev in Hy1. lia.
        -- apply ancestor_of_ancestors in Hy1, Hy2; [|done..].
           assert (Hy : is_Some (h !! y)).
           { unfold ancestors in Hy1. destruct (h !! y); [done|by apply elem_of_nil in Hy1]. }
           destruct Hy as [yc Hy].
           clear -Hwf Hy Hy1 Hy2 Hlev. revert y yc Hy Hy1 Hy2.
           apply (parent_chain_ind h (fun y _ =>
             c1 ∈ ancestors h y → c2 ∈ ancestors h y → c1 = c2)); [done|..].
           ++ intros y yc Hy Hp. rewrite (ancestors_root h y yc Hy Hp).
              by intros ?%elem_of_nil.
           ++ intros y yc p pc Hy Hp Hpc Hl IH.
              rewrite (ancestors_cons h y yc p Hwf Hy Hp).
              intros [->|H1]%elem_of_cons [->|H2]%elem_of_cons; [done|..|by apply IH].
              ** apply (ancestors_ancestor_of h p pc) in H2; [|done..].
                 apply ancestor_of_lev in H2. lia.
              ** apply (ancestors_ancestor_of h p pc) in H1; [|done..].
                 apply ancestor_of_lev in H1. lia.
      * intros c _. apply NoDup_subtree_of.
      * unfold kids. destruct Ha as [c Ha]. rewrite Ha. by destruct (Hkids a c Ha).
  - intros y. rewrite elem_of_subtree_of, elem_of_cons, list_elem_of_bind. split.
    + intros [Hy [->|Hanc]]; [by left|]. right.
      destruct (ancestor_of_child a y Hanc) as (c & Hc & Hcy). exists c. split; [|done].
      apply elem_of_subtree_of. done.
    + intros [->|(c & Hyc & Hc)]; [split; [done|by left]|].
      apply elem_of_subtree_of in Hyc as [Hy Hcy]. split; [done|]. right.
      apply kids_parent in Hc as (cc & Hcc & Hp & _).
      assert (Hac : ancestor_of h a c) by (by eapply ancestor_parent).
      destruct Hcy as [->|Hcy]; [done|]. by eapply ancestor_of_trans.
Qed.

(** Enough fuel: the walk lists the subtrees of the queued containers. *)
Lemma breadth_first_subtrees (n fuel : nat) (queue : list addr) :
  length (queue ≫= subtree_of h) ≤ n → n ≤ fuel →
  Forall (fun a => is_Some (h !! a)) queue →
  breadth_first fuel h queue ≡ₚ queue ≫= subtree_of h.
Proof using Hwf Hkids.
  revert fuel queue. induction n as [|n IH]; intros fuel queue Hlen Hfuel Hq.
  - destruct queue as [|a q]; [by destruct fuel|].
    apply Forall_cons in Hq as [Ha _].
    rewrite bind_cons, length_app, (subtree_of_unfold a Ha) in Hlen. cbn in Hlen. lia.
  - destruct queue as [|a q]; [by destruct fuel|].
    apply Forall_cons in Hq as [Ha Hq]. destruct fuel as [|fuel]; [lia|].
    cbn [breadth_first]. fold (kids h a).
    rewrite bind_cons, (subtree_of_unfold a Ha). cbn [app].
    apply Permutation_skip. rewrite IH.
    + rewrite bind_app. apply Permutation_app_comm.
    + rewrite bind_cons, length_app, (subtree_of_unfold a Ha) in Hlen.
      cbn [length] in Hlen. rewrite bind_app, length_app. lia.
    + lia.
    + apply Forall_app. split; [done|]. apply Forall_forall. intros d Hd.
      apply kids_parent in Hd as (dc & Hdc & _). by exists dc.
Qed.

Lemma Subtree_subtree_of (x : addr) :
  is_Some (h !! x) → Subtree h x ≡ₚ subtree_of h x.
Proof using Hwf Hkids.
  intros Hx. unfold Subtree. rewrite <- Permutation_rev.
  rewrite (breadth_first_subtrees (length h)); [by rewrite bind_singleton|..|done|].
  - rewrite bind_singleton. apply length_subtree_of.
  - by apply Forall_singleton.
Qed.

(** The walk meets the containers level by level. *)
Lemma breadth_first_above (fuel : nat) (queue : list addr) (y : addr) :
  y ∈ breadth_first fuel h queue → ∃ a, a ∈ queue ∧ lev h a ≤ lev h y.
Proof using Hwf Hkids.
  revert queue. induction fuel as [|fuel IH]; intros queue; [by intros ?%elem_of_nil|].
  destruct queue as [|a q]; [by intros ?%elem_of_nil|]. cbn [breadth_first]. fold (kids h a).
  intros [->|Hin]%elem_of_cons; [exists a; split; [by left|done]|].
  apply IH in Hin as (b & [Hb|Hb]%elem_of_app & Hle).
  - exists b. split; [by right|done].
  - exists a. split; [by left|].
    apply kids_parent in Hb as (bc & Hbc & Hp & _).
    assert (Hab : ancestor_of h a b) by (by eapply ancestor_parent).
    apply ancestor_of_lev in Hab. lia.
Qed.

Lemma breadth_first_sorted (fuel : nat) (queue : list addr) :
  StronglySorted (fun a b => lev h a ≤ lev h b) queue →
  (∀ a b, a ∈ queue → b ∈ queue → lev h b ≤ S (lev h a)) →
  StronglySorted (fun a b => lev h a ≤ lev h b) (breadth_first fuel h queue).
Proof using Hwf Hkids.
  revert queue. induction fuel as [|fuel IH]; intros queue Hs Hspread; [constructor|].
  destruct queue as [|a q]; [constructor|]. cbn [breadth_first]. fold (kids h a).
  apply StronglySorted_inv in Hs as [Hq Ha].
  assert (Hkid : ∀ d, d ∈ kids h a → lev h d = S (lev h a)).
  { intros d (dc & Hdc & Hp & _)%kids_parent.
    destruct (wf_heap_parent h d dc a Hwf Hdc Hp) as (pc & Hpc & Hl).
    unfold lev. by rewrite Hdc, Hpc. }
  assert (Hin : ∀ b, b ∈ q ++ kids h a → lev h a ≤ lev h b).
  { intros b [Hb|Hb]%elem_of_app.
    - rewrite Forall_forall in Ha. by apply Ha.
    - rewrite (Hkid b Hb). lia. }
  constructor.
  - apply IH.
    + apply StronglySorted_app_2; [|done|].
      * intros b d Hb Hd. rewrite (Hkid d Hd).
        specialize (Hspread a b (list_elem_of_here _ _) (list_elem_of_further _ _ _ Hb)). done.
      * clear -Hkid. induction (kids h a) as [|d l IHl]; [constructor|].
        constructor.
        -- apply IHl. intros e He. apply Hkid. by right.
        -- apply Forall_forall. intros e He.
           rewrite (Hkid d), (Hkid e); [done|by right|by left].
    + intros b d [Hb|Hb]%elem_of_app [Hd|Hd]%elem_of_app.
      * apply Hspread; by right.
      * rewrite (Hkid d Hd). rewrite Forall_forall in Ha. specialize (Ha b Hb). lia.
      * rewrite (Hkid b Hb).
        specialize (Hspread a d (list_elem_of_here _ _) (list_elem_of_further _ _ _ Hd)). lia.
      * rewrite (Hkid b Hb), (Hkid d Hd). lia.
  - apply Forall_forall. intros y Hy.
    apply breadth_first_above in Hy as (b & Hb & Hle). specialize (Hin b Hb). lia.
Qed.

(** X16: [Subtree].  In a well-formed tree whose [Children] lists agree
    with the [Parent] pointers, [Subtree] of a container lists the
    container and each of its descendants, each of them once and nothing
    else, and no descendant of a listed container comes after it: a loop
    over the list meets the children before their parents, the container
    itself last. *)
Theorem Subtree_descendants (x : addr) :
  is_Some (h !! x) →
  (∀ y, y ∈ Subtree h x ↔ is_Some (h !! y) ∧ (y = x ∨ ancestor_of h x y))
  ∧ NoDup (Subtree h x)
  ∧ ∀ l1 a l2, Subtree h x = l1 ++ a :: l2 → ∀ b, b ∈ l2 → ¬ ancestor_of h a b.
Proof using Hwf Hkids.
  intros Hx. pose proof (Subtree_subtree_of x Hx) as Hperm. split; [|split].
  - intros y. rewrite Hperm. apply elem_of_subtree_of.
  - rewrite Hperm. apply NoDup_subtree_of.
  - intros l1 a l2 Heq b Hb Hab. apply ancestor_of_lev in Hab.
    assert (Hsorted : StronglySorted (fun a b => lev h a ≤ lev h b)
                        (breadth_first (length h) h [x])).
    { apply breadth_first_sorted; [repeat constructor|].
      intros u v ->%list_elem_of_singleton ->%list_elem_of_singleton. lia. }
    unfold Subtree in Heq.
    assert (Hbf : breadth_first (length h) h [x] = rev l2 ++ a :: rev l1).
    { rewrite <- (rev_involutive (breadth_first _ _ _)), Heq, rev_app_distr.
      cbn [rev]. by rewrite <- app_assoc. }
    rewrite Hbf in Hsorted.
    assert (Hle : lev h b ≤ lev h a); [|lia].
    apply (StronglySorted_app_1_elem_of (fun a b => lev h a ≤ lev h b)
             (rev l2) (a :: rev l1) b a Hsorted); [|by left].
    apply list_elem_of_In, in_rev. rewrite rev_involutive. by apply list_elem_of_In.
Qed.

End Subtrees.

(** A test for [children_ok]. *)
Definition children_okb (h : list TContainer) : bool :=
  forallb (fun p =>
    match h !! p with
    | Some pc =>
        bool_decide (NoDup (Children pc))
        && forallb (fun d =>
             match h !! d with
             | Some dc => bool_decide (Parent dc = Some p)
             | None => false
             end) (Children pc)
        && forallb (fun d =>
             match h !! d with
             | Some dc =>
                 implb (bool_decide (Parent dc = Some p)) (bool_decide (d ∈ Children pc))
             | None => true
             end) (seq 0 (length h))
    | None => true
    end) (seq 0 (length h)).

Lemma children_okb_spec (h : list TContainer) : children_okb h = true → children_ok h.
Proof.
  unfold children_okb. rewrite forallb_forall. intros H p pc Hp.
  assert (Hlt : p < length h) by (apply lookup_lt_is_Some; eauto).
  assert (Hs : In p (seq 0 (length h))) by (apply in_seq; lia).
  specialize (H p Hs). rewrite Hp in H.
  apply andb_true_iff in H as [H Hall]. apply andb_true_iff in H as [Hnd Hin].
  apply bool_decide_eq_true in Hnd. rewrite forallb_forall in Hin, Hall.
  split; [done|]. intros d. split.
  - intros Hd. apply list_elem_of_In in Hd. specialize (Hin d Hd).
    destruct (h !! d) as [dc|]; [|done]. exists dc. split; [done|].
    by apply bool_decide_eq_true in Hin.
  - intros (dc & Hdc & Hpar).
    assert (Hd : d < length h) by (apply lookup_lt_is_Some; eauto).
    specialize (Hall d). rewrite Hdc in Hall.
    rewrite (bool_decide_eq_true_2 _ Hpar) in Hall. cbn [implb] in Hall.
    eapply bool_decide_eq_true_1, Hall, in_seq. lia.
Qed.

Lemma Subtree_descendants_witness :
  (∀ y, y ∈ Subtree (Heap demo_world) demo_a
        ↔ is_Some (Heap demo_world !! y)
          ∧ (y = demo_a ∨ ancestor_of (Heap demo_world) demo_a y))
  ∧ NoDup (Subtree (Heap demo_world) demo_a)
  ∧ ∀ l1 a l2, Subtree (Heap demo_world) demo_a = l1 ++ a :: l2 →
      ∀ b, b ∈ l2 → ¬ ancestor_of (Heap demo_world) a b.
Proof.
  apply (Subtree_descendants (Heap demo_world)).
  - vm_compute. reflexivity.
  - apply children_okb_spec. vm_compute. reflexivity.
  - vm_compute. eexists. reflexivity.
Defined.

(** ** Pause and resume *)

Lemma State_counter_blind : counter_blind State.
Proof. by intros v []. Qed.

(** [SetState] writes the state of its container and of no other. *)
Lemma SetState_State (s : EContainerState) (y z : addr) (w : TWorld) :
  (State <$> Heap (SetState s y w) !! z)
  = ((fun st => if decide (z = y) then s else st) <$> (State <$> Heap w !! z)).
Proof.
  destruct (decide (z = y)) as [->|Hne].
  - rewrite SetState_heap. destruct (Heap w !! y) as [c|] eqn:Hy; [|by rewrite Hy].
    case_bool_decide as Hs; [by rewrite Hy, <- Hs|].
    rewrite list_lookup_alter_eq.
    match goal with |- context [?H !! y] =>
      assert (Hk : (State <$> H !! y) = (State <$> Heap w !! y)) end.
    { repeat case_bool_decide; try done;
        apply (heap_keeps_fold_alter None State); [intros c'; apply State_counter_blind|done
          |intros c'; apply State_counter_blind|done]. }
    rewrite Hy in Hk.
    match goal with |- context [?H !! y] => destruct (H !! y) as [c'|]; [|done] end.
    by destruct c'.
  - rewrite (SetState_keeps_off State s y w State_counter_blind z) by congruence.
    by destruct (State <$> Heap w !! z).
Qed.

Section FreezerProofs.
Variable K : TKernel.

(** The state a container is left in by the loop of [Pause]. *)
Definition paused (l : list addr) (z : addr) (st : EContainerState) : EContainerState :=
  if bool_decide (z ∈ l) && (bool_decide (st = Running) || bool_decide (st = Meta))
  then Paused else st.

Lemma Pause_one_State (w : TWorld) (ct z : addr) :
  (State <$> Heap (Pause_one K w ct) !! z) = (paused [ct] z <$> (State <$> Heap w !! z)).
Proof.
  unfold Pause_one, paused.
  assert (Hid : ∀ o : option EContainerState, o = (fun st => st) <$> o) by (by intros []).
  destruct (Heap w !! ct) as [c|] eqn:Hct.
  - destruct (bool_decide (State c = Running) || bool_decide (State c = Meta)) eqn:Hrun.
    + cbn [Save snd emit Heap]. rewrite SetState_State.
      destruct (decide (z = ct)) as [->|Hne].
      * rewrite Hct. cbn. rewrite Hrun, bool_decide_eq_true_2; [done|by left].
      * destruct (Heap w !! z) as [cz|]; [|done]. cbn.
        rewrite bool_decide_eq_false_2; [done|]. by intros ->%list_elem_of_singleton.
    + destruct (Heap w !! z) as [cz|] eqn:Hz; [|done]. cbn. f_equal.
      destruct (decide (z = ct)) as [->|Hne].
      * rewrite Hct in Hz. injection Hz as <-. rewrite Hrun. by rewrite andb_false_r.
      * rewrite bool_decide_eq_false_2; [done|]. by intros ->%list_elem_of_singleton.
  - destruct (Heap w !! z) as [cz|] eqn:Hz; [|done]. cbn. f_equal.
    rewrite bool_decide_eq_false_2; [done|]. intros ->%list_elem_of_singleton. congruence.
Qed.

Lemma Pause_loop_State (l : list addr) (w : TWorld) (z : addr) :
  (State <$> Heap (fold_left (Pause_one K) l w) !! z)
  = (paused l z <$> (State <$> Heap w !! z)).
Proof.
  revert w. induction l as [|a l IH]; intros w.
  - cbn [fold_left]. by destruct (Heap w !! z) as [cz|].
  - cbn [fold_left]. rewrite IH, Pause_one_State.
    destruct (Heap w !! z) as [cz|]; [|done]. cbn. f_equal. unfold paused.
    destruct (decide (z = a)) as [->|Hne].
    + rewrite (bool_decide_eq_true_2 (a ∈ [a])) by (by left).
      rewrite (bool_decide_eq_true_2 (a ∈ a :: l)) by (by left). cbn [andb].
      destruct (bool_decide (State cz = Running) || bool_decide (State cz = Meta)) eqn:Hrun.
      * by rewrite andb_false_r.
      * by rewrite Hrun, andb_false_r.
    + rewrite (bool_decide_eq_false_2 (z ∈ [a])) by (by intros ->%list_elem_of_singleton).
      cbn [andb].
      replace (bool_decide (z ∈ a :: l)) with (bool_decide (z ∈ l)); [done|].
      apply bool_decide_ext. rewrite elem_of_cons. split; [by right|by intros [?|?]].
Qed.

(** X17: what [Pause] does to the states.  When [Pause] returns no error,
    each container listed by [Subtree] that was [Running] or [Meta] is
    [Paused], and every other container has the state it had; when
    [Pause] returns an error, no state has changed. *)
Theorem Pause_states (x : addr) (w w' : TWorld) (e : TError) :
  is_Some (Heap w !! x) →
  Pause K x w = (e, w') →
  ∀ z cz, Heap w !! z = Some cz →
    ∃ cz', Heap w' !! z = Some cz'
      ∧ State cz' = if failed e then State cz
                    else if bool_decide (z ∈ Subtree (Heap w) x)
                            && (bool_decide (State cz = Running)
                                || bool_decide (State cz = Meta))
                    then Paused else State cz.
Proof.
  unfold Pause. intros [c Hx] HP z cz Hz. rewrite Hx in HP.
  assert (Hsame : ∀ e0, (e0, w) = (e, w') → failed e0 = true →
            ∃ cz', Heap w' !! z = Some cz' ∧ State cz' = if failed e then State cz else
              if bool_decide (z ∈ Subtree (Heap w) x)
                 && (bool_decide (State cz = Running) || bool_decide (State cz = Meta))
              then Paused else State cz).
  { intros e0 [= <- <-] Hf. exists cz. by rewrite Hf. }
  destruct (negb (bool_decide (State c = Running)) && negb (bool_decide (State c = Meta))).
  { by apply (Hsame (Err InvalidState)). }
  destruct (negb (has_controller (Controllers c) CGROUP_FREEZER)).
  { by apply (Hsame (Err NotSupported)). }
  destruct (failed (freeze K x)) eqn:Hfr.
  - injection HP as <- <-. exists cz. cbn [emit Heap]. by rewrite Hfr.
  - injection HP as <- <-.
    pose proof (Pause_loop_State (Subtree (Heap (emit (AFreeze x) w)) x)
                  (emit (AFreeze x) w) z) as Hloop.
    cbn [emit Heap] in Hloop. cbn [emit Heap]. rewrite Hz in Hloop.
    match goal with |- context [Heap ?W !! z] => destruct (Heap W !! z) as [cz'|]; [|done] end.
    exists cz'. split; [done|]. cbn in Hloop. injection Hloop as ->.
    replace (failed TSuccess) with false by reflexivity. reflexivity.
Qed.

Variable cg_self_freezing : addr → bool.

(** The state a container is left in by the loop of [Resume]. *)
Definition resumed (meta : bool) (l : list addr) (z : addr) (st : EContainerState)
    : EContainerState :=
  if bool_decide (z ∈ l) && bool_decide (st = Paused)
  then (if meta then Meta else Running) else st.

Lemma Resume_one_State (meta : bool) (w : TWorld) (ct z : addr) :
  (State <$> Heap (Resume_one K cg_self_freezing meta w ct) !! z)
  = (resumed meta [ct] z <$> (State <$> Heap w !! z)).
Proof.
  unfold Resume_one, resumed. cbn [Save snd emit Heap].
  set (w1 := if cg_self_freezing ct then emit (AThaw ct) w else w).
  assert (Hw1 : Heap w1 = Heap w) by (unfold w1; by destruct (cg_self_freezing ct)).
  rewrite Hw1.
  destruct (Heap w !! ct) as [c|] eqn:Hct.
  - case_bool_decide as Hp.
    + rewrite SetState_State, Hw1.
      destruct (decide (z = ct)) as [->|Hne].
      * rewrite Hct. cbn. rewrite (bool_decide_eq_true_2 _ Hp), bool_decide_eq_true_2; [done|by left].
      * destruct (Heap w !! z) as [cz|]; [|done]. cbn.
        rewrite bool_decide_eq_false_2; [done|]. by intros ->%list_elem_of_singleton.
    + rewrite Hw1. destruct (Heap w !! z) as [cz|] eqn:Hz; [|done]. cbn. f_equal.
      destruct (decide (z = ct)) as [->|Hne].
      * rewrite Hct in Hz. injection Hz as <-.
        rewrite (bool_decide_eq_false_2 _ Hp). by rewrite andb_false_r.
      * rewrite bool_decide_eq_false_2; [done|]. by intros ->%list_elem_of_singleton.
  - rewrite Hw1. destruct (Heap w !! z) as [cz|] eqn:Hz; [|done]. cbn. f_equal.
    rewrite bool_decide_eq_false_2; [done|]. intros ->%list_elem_of_singleton. congruence.
Qed.

Lemma Resume_loop_State (meta : bool) (l : list addr) (w : TWorld) (z : addr) :
  (State <$> Heap (fold_left (Resume_one K cg_self_freezing meta) l w) !! z)
  = (resumed meta l z <$> (State <$> Heap w !! z)).
Proof.
  revert w. induction l as [|a l IH]; intros w.
  - cbn [fold_left]. by destruct (Heap w !! z) as [cz|].
  - cbn [fold_left]. rewrite IH, Resume_one_State.
    destruct (Heap w !! z) as [cz|]; [|done]. cbn. f_equal. unfold resumed.
    destruct (decide (z = a)) as [->|Hne].
    + rewrite (bool_decide_eq_true_2 (a ∈ [a])) by (by left).
      rewrite (bool_decide_eq_true_2 (a ∈ a :: l)) by (by left). cbn [andb].
      destruct (decide (State cz = Paused)) as [Hp|Hp].
      * rewrite (bool_decide_eq_true_2 _ Hp).
        destruct meta.
        -- rewrite (bool_decide_eq_false_2 (Meta = Paused)) by done. by rewrite andb_false_r.
        -- rewrite (bool_decide_eq_false_2 (Running = Paused)) by done.
           by rewrite andb_false_r.
      * rewrite !(bool_decide_eq_false_2 _ Hp). by rewrite andb_false_r.
    + rewrite (bool_decide_eq_false_2 (z ∈ [a])) by (by intros ->%list_elem_of_singleton).
      cbn [andb].
      replace (bool_decide (z ∈ a :: l)) with (bool_decide (z ∈ l)); [done|].
      apply bool_decide_ext. rewrite elem_of_cons. split; [by right|by intros [?|?]].
Qed.

(** X18: what [Resume] does to the states.  When [Resume] returns no
    error, each container listed by [Subtree] that was [Paused] is [Meta]
    when the resumed container has no command and [Running] when it has
    one, whatever the paused container itself is; every other container
    has the state it had.  When [Resume] returns an error, no state has
    changed. *)
Theorem Resume_states (x : addr) (c : TContainer) (w w' : TWorld) (e : TError) :
  Heap w !! x = Some c →
  Resume K cg_self_freezing x w = (e, w') →
  ∀ z cz, Heap w !! z = Some cz →
    ∃ cz', Heap w' !! z = Some cz'
      ∧ State cz' = if failed e then State cz
                    else if bool_decide (z ∈ Subtree (Heap w) x)
                            && bool_decide (State cz = Paused)
                    then (if IsMeta c then Meta else Running) else State cz.
Proof.
  unfold Resume. intros Hx HR z cz Hz. rewrite Hx in HR.
  assert (Hsame : ∀ e0, (e0, w) = (e, w') → failed e0 = true →
            ∃ cz', Heap w' !! z = Some cz' ∧ State cz' = if failed e then State cz else
              if bool_decide (z ∈ Subtree (Heap w) x) && bool_decide (State cz = Paused)
              then (if IsMeta c then Meta else Running) else State cz).
  { intros e0 [= <- <-] Hf. exists cz. by rewrite Hf. }
  destruct (negb (has_controller (Controllers c) CGROUP_FREEZER)).
  { by apply (Hsame (Err NotSupported)). }
  destruct (cg_parent_freezing K x).
  { by apply (Hsame (Err InvalidState)). }
  destruct (negb (cg_self_freezing x)).
  { by apply (Hsame (Err InvalidState)). }
  destruct (failed (thaw K x)) eqn:Hth.
  - injection HR as <- <-. exists cz. cbn [emit Heap]. by rewrite Hth.
  - injection HR as <- <-.
    pose proof (Resume_loop_State (IsMeta c) (Subtree (Heap (emit (AThaw x) w)) x)
                  (emit (AThaw x) w) z) as Hloop.
    cbn [emit Heap] in Hloop. cbn [emit Heap]. rewrite Hz in Hloop.
    match goal with |- context [Heap ?W !! z] => destruct (Heap W !! z) as [cz'|]; [|done] end.
    exists cz'. split; [done|]. cbn in Hloop. injection Hloop as ->.
    replace (failed TSuccess) with false by reflexivity. reflexivity.
Qed.

End FreezerProofs.

Lemma Pause_states_witness :
  ∃ cz', Heap (Pause quiet_kernel demo_a demo_running).2 !! demo_ab = Some cz'
         ∧ State cz' = Paused.
Proof.
  destruct (Heap demo_running !! demo_ab) as [cz|] eqn:Hz; [|vm_compute in Hz; discriminate].
  destruct (Pause_states quiet_kernel demo_a demo_running
              (Pause quiet_kernel demo_a demo_running).2
              (Pause quiet_kernel demo_a demo_running).1) with (z := demo_ab) (cz := cz)
    as (cz' & Hz' & Hs).
  - vm_compute. eexists. reflexivity.
  - by destruct (Pause quiet_kernel demo_a demo_running).
  - exact Hz.
  - exists cz'. split; [exact Hz'|]. rewrite Hs.
    vm_compute in Hz. injection Hz as <-. vm_compute. reflexivity.
Defined.

(** [demo_running] after ["a"] was paused, in a kernel that reports its
    cgroup as freezing. *)
Definition demo_paused : TWorld := (Pause quiet_kernel demo_a demo_running).2.

Lemma Resume_states_witness :
  ∃ cz', Heap (Resume quiet_kernel (fun a => (a =? demo_a)%nat) demo_a demo_paused).2
           !! demo_ab = Some cz'
         ∧ State cz' = Meta.
Proof.
  destruct (Heap demo_paused !! demo_a) as [c|] eqn:Hc; [|vm_compute in Hc; discriminate].
  destruct (Heap demo_paused !! demo_ab) as [cz|] eqn:Hz; [|vm_compute in Hz; discriminate].
  destruct (Resume_states quiet_kernel (fun a => (a =? demo_a)%nat) demo_a c demo_paused
              (Resume quiet_kernel (fun a => (a =? demo_a)%nat) demo_a demo_paused).2
              (Resume quiet_kernel (fun a => (a =? demo_a)%nat) demo_a demo_paused).1 Hc)
    with (z := demo_ab) (cz := cz) as (cz' & Hz' & Hs).
  - by destruct (Resume quiet_kernel _ demo_a demo_paused).
  - exact Hz.
  - exists cz'. split; [exact Hz'|]. rewrite Hs.
    vm_compute in Hz. injection Hz as <-. vm_compute in Hc. injection Hc as <-.
    vm_compute. reflexivity.
Defined.

(** ** The cgroup of a container and the container of a task *)

Definition percent_free (s : string) : Prop :=
  all_chars (fun c => negb (Ascii.eqb c "%")) s = true.

Lemma percent_free_app (a b : string) :
  percent_free (a ++ b) ↔ percent_free a ∧ percent_free b.
Proof.
  unfold percent_free. induction a as [|c a IH].
  - rewrite string_app_nil_l. cbn [all_chars]. tauto.
  - rewrite string_app_cons. cbn [all_chars]. rewrite !andb_true_iff, IH. tauto.
Qed.

Lemma replace_char_app (from to : ascii) (a b : string) :
  replace_char from to (a ++ b) = (replace_char from to a ++ replace_char from to b)%string.
Proof.
  induction a as [|c a IH]; [done|]. rewrite string_app_cons. cbn [replace_char].
  by rewrite IH.
Qed.

Lemma replace_char_free (s : string) :
  percent_free s → replace_char "%" "/" s = s.
Proof.
  unfold percent_free. induction s as [|c s IH]; [done|]. cbn [all_chars replace_char].
  intros [Hc Hs]%andb_true_iff. apply negb_true_iff in Hc. rewrite Hc. by rewrite IH.
Qed.

(** The names of a tree as [Create] makes them: no ['%'], the root is
    ["/"], a container below the root has a plain name, and any other the
    name of its parent, a ['/'] and a name of its own. *)
Definition names_ok (h : list TContainer) : Prop :=
  ∀ x c, h !! x = Some c →
    percent_free (Name c)
    ∧ match Parent c with
      | None => Name c = ROOT_CONTAINER
      | Some p =>
          ∃ pc f, h !! p = Some pc ∧ Name c ≠ ROOT_CONTAINER ∧ f ≠ ""%string
                  ∧ Name c = if IsRoot pc then f else (Name pc ++ String "/" f)%string
      end.

Section CgroupNames.
Variable h : list TContainer.
Hypothesis Hwf : wf_heap h.
Hypothesis Hnames : names_ok h.

Lemma FirstName_spec (x p : addr) (c pc : TContainer) :
  h !! x = Some c → Parent c = Some p → h !! p = Some pc →
  FirstName h c ≠ ""%string ∧ percent_free (FirstName h c)
  ∧ Name c = if IsRoot pc then FirstName h c
             else (Name pc ++ String "/" (FirstName h c))%string.
Proof using Hnames.
  intros Hx Hp Hpc. destruct (Hnames x c Hx) as [Hfree Hname]. rewrite Hp in Hname.
  destruct Hname as (pc' & f & Hpc' & _ & Hf & Hname).
  rewrite Hpc in Hpc'. injection Hpc' as <-.
  unfold FirstName. rewrite Hp. cbn [mbind option_bind]. rewrite Hpc.
  destruct (IsRoot pc).
  - by rewrite Hname in *.
  - assert (Hsub : substr (String.length (Name pc) + 1) (Name c) = f).
    { rewrite Hname. replace (String.length (Name pc) + 1) with (String.length (Name pc ++ "/")).
      - rewrite <- (substr_app (Name pc ++ "/") f) at 2. by rewrite string_app_assoc.
      - rewrite string_length_app. done. }
    rewrite Hsub. split; [done|]. split; [|done].
    rewrite Hname in Hfree. apply percent_free_app in Hfree as [_ Hfree].
    change (String "/" f) with ("/" ++ f)%string in Hfree.
    by apply percent_free_app in Hfree as [_ ?].
Qed.

(** The loop of [GetCgroup] spells the name of the container, with
    ['%'] where a controller is off. *)
Lemma GetCgroup_loop_name (controllers : Z) (x : addr) (c : TContainer) :
  h !! x = Some c → IsRoot c = false →
  ∀ acc, (acc ≠ ""%string ∨ has_controller (Controllers c) controllers = true) →
    replace_char "%" "/" (GetCgroup_loop (S (Level c)) h controllers x acc)
    = (Name c ++ (if String.eqb acc "" then ""
                  else String "/" (replace_char "%" "/" acc)))%string.
Proof using Hwf Hnames.
  revert x c.
  apply (parent_chain_ind h (fun x c =>
    IsRoot c = false →
    ∀ acc, (acc ≠ ""%string ∨ has_controller (Controllers c) controllers = true) →
      replace_char "%" "/" (GetCgroup_loop (S (Level c)) h controllers x acc)
      = (Name c ++ (if String.eqb acc "" then ""
                    else String "/" (replace_char "%" "/" acc)))%string)); [done|..].
  - intros x c Hx Hp Hroot. destruct (Hnames x c Hx) as [_ Hname]. rewrite Hp in Hname.
    unfold IsRoot in Hroot. rewrite Hname in Hroot. done.
  - intros x c p pc Hx Hp Hpc Hlev IH Hroot acc Hen.
    destruct (FirstName_spec x p c pc Hx Hp Hpc) as (Hfne & Hffree & Hname).
    cbn [GetCgroup_loop]. rewrite Hx, Hroot, Hp, Hlev.
    set (name := if negb (String.length acc =? 0)%nat
                 then (FirstName h c ++ (if has_controller (Controllers c) controllers
                                         then "/" else "%") ++ acc)%string
                 else if has_controller (Controllers c) controllers then FirstName h c
                      else acc).
    assert (Hname' : name ≠ ""%string
              ∧ replace_char "%" "/" name
                = (FirstName h c ++ (if String.eqb acc "" then ""
                                     else String "/" (replace_char "%" "/" acc)))%string).
    { unfold name. destruct acc as [|a acc'].
      - cbn [String.length Nat.eqb negb]. destruct Hen as [?|Hen]; [done|]. rewrite Hen.
        rewrite string_app_nil_r. split; [done|]. by apply replace_char_free.
      - cbn [String.length Nat.eqb negb String.eqb]. split.
        { destruct (FirstName h c); [done|]. by rewrite string_app_cons. }
        rewrite !replace_char_app, (replace_char_free _ Hffree).
        by destruct (has_controller (Controllers c) controllers). }
    destruct Hname' as (Hne & Hrep).
    destruct (IsRoot pc) eqn:Hproot.
    + cbn [GetCgroup_loop]. rewrite Hpc, Hproot. by rewrite Hrep, Hname.
    + rewrite (IH eq_refl name (or_introl Hne)).
      rewrite (proj2 (String.eqb_neq name "") Hne), Hrep, Hname.
      by rewrite string_app_assoc.
Qed.

(** X19: the cgroup of a container leads back to the container.  In a
    well-formed tree with names as [Create] makes them, a task whose
    freezer cgroup is the one [GetCgroup] names for a container below the
    root, which has the freezer controller and is registered under its
    name, is found in that container by [FindTaskContainer]. *)
Theorem FindTaskContainer_GetCgroup (K : TKernel) (w : TWorld) (pid : Z)
    (x : addr) (c : TContainer) (RootCgroup : string) :
  Heap w = h → h !! x = Some c → IsRoot c = false →
  has_controller (Controllers c) CGROUP_FREEZER = true →
  Find (Name c) w = Some x →
  task_cgroup K pid = (TSuccess, GetCgroup h x CGROUP_FREEZER RootCgroup) →
  FindTaskContainer K pid w = (TSuccess, Some x).
Proof using Hwf Hnames.
  intros Hh Hx Hroot Hen Hfind Htask. unfold FindTaskContainer. rewrite Htask.
  replace (failed TSuccess) with false by reflexivity.
  unfold GetCgroup. rewrite Hx, Hroot.
  assert (Hrep : replace_char "%" "/"
            (PORTO_CGROUP_PREFIX
             ++ (if has_controller (Controllers c) CGROUP_LEGACY then "/" else "%")
             ++ GetCgroup_loop (S (Level c)) h CGROUP_FREEZER x "")
          = ((PORTO_CGROUP_PREFIX ++ "/") ++ Name c)%string).
  { rewrite !replace_char_app, (GetCgroup_loop_name CGROUP_FREEZER x c Hx Hroot ""%string)
      by (by right).
    cbn [String.eqb]. rewrite string_app_nil_r, string_app_assoc.
    by destruct (has_controller (Controllers c) CGROUP_LEGACY). }
  rewrite Hrep.
  assert (Hpre : String.prefix (PORTO_CGROUP_PREFIX ++ "/")
                   ((PORTO_CGROUP_PREFIX ++ "/") ++ Name c) = true).
  { apply String.prefix_correct, substring_whole. }
  rewrite Hpre. fold (substr (String.length (PORTO_CGROUP_PREFIX ++ "/"))
                        ((PORTO_CGROUP_PREFIX ++ "/") ++ Name c)).
  by rewrite substr_app, Hfind.
Qed.

End CgroupNames.

Lemma demo_names_ok : names_ok (Heap demo_world).
Proof.
  intros x c Hx. destruct x as [|[|[|x]]]; vm_compute in Hx; [..|discriminate];
    injection Hx as <-; (split; [reflexivity|]); cbn [Parent Name].
  - reflexivity.
  - eexists _, "a"%string. split; [vm_compute; reflexivity|]. by repeat split.
  - eexists _, "b"%string. split; [vm_compute; reflexivity|]. by repeat split.
Qed.

(** A kernel where every task is in the freezer cgroup of ["a/b"]. *)
Definition cgroup_kernel : TKernel :=
  with_task_cgroup
    (fun _ => (TSuccess, GetCgroup (Heap demo_world) demo_ab CGROUP_FREEZER "/"))
    quiet_kernel.

Lemma FindTaskContainer_GetCgroup_witness :
  FindTaskContainer cgroup_kernel 100 demo_world = (TSuccess, Some demo_ab).
Proof.
  destruct (Heap demo_world !! demo_ab) as [c|] eqn:Hc; [|vm_compute in Hc; discriminate].
  apply (FindTaskContainer_GetCgroup (Heap demo_world)) with (c := c) (RootCgroup := "/"%string).
  - vm_compute. reflexivity.
  - exact demo_names_ok.
  - reflexivity.
  - exact Hc.
  - vm_compute in Hc. injection Hc as <-. reflexivity.
  - vm_compute in Hc. injection Hc as <-. reflexivity.
  - vm_compute in Hc. injection Hc as <-. reflexivity.
  - reflexivity.
Defined.

(** ** What a start and a stop leave alone *)

(** The fields no state change writes but for the command, which [Start]
    sets for virt_mode=os. *)
Definition static_fields (c : TContainer) :=
  (Name c, Parent c, Level c, Children c, Command c, RespawnCount c, Controllers c,
   Isolate c, VirtMode c).

(** The same without the command. *)
Definition start_fields (c : TContainer) :=
  (Name c, Parent c, Level c, Children c, RespawnCount c, Controllers c,
   Isolate c, VirtMode c).

(** A view [π] of the containers that updates of [x] keep: either [x] is
    not looked at, or [π] reads the static fields only. *)
Definition frame_ok {A} (y : option addr) (π : TContainer → A) (x : addr) : Prop :=
  counter_blind π
  ∧ (y = Some x ∨ ∀ c c', static_fields c = static_fields c' → π c = π c').

Lemma frame_upd {A} y (π : TContainer → A) x f (h : list TContainer) :
  frame_ok y π x → keeps static_fields f → heap_keeps_off y π h (alter f x h).
Proof.
  intros [_ [->|Hπ]] Hf; [apply heap_keeps_alter_at|].
  apply heap_keeps_alter. intros c. apply Hπ, Hf.
Qed.

Lemma frame_SetState {A} y (π : TContainer → A) s x w :
  frame_ok y π x → heap_keeps_off y π (Heap w) (Heap (SetState s x w)).
Proof.
  intros [Hb [->|Hπ]]; [by apply SetState_keeps_off|].
  apply heap_keeps_weaken, SetState_keeps; [done|]. intros c. apply Hπ. by destruct c.
Qed.

Ltac frame_step :=
  lazymatch goal with
  | |- heap_keeps_off _ _ ?h ?h => apply heap_keeps_refl
  | |- heap_keeps_off _ _ _ (Heap (emit _ _)) => cbn [emit Heap]
  | |- heap_keeps_off _ _ _ (Heap (upd _ _ _)) =>
      unfold upd at 1, with_Heap at 1; cbn [Heap];
      eapply heap_keeps_trans; [|apply frame_upd; [eassumption|by intros []]]
  | |- heap_keeps_off _ _ _ (Heap (SetState _ _ _)) =>
      eapply heap_keeps_trans; [|apply frame_SetState; eassumption]
  | |- heap_keeps_off _ _ _ (Heap (if ?b then _ else _)) => destruct b
  | |- heap_keeps_off _ _ _ (Heap (snd (if ?b then _ else _))) => destruct b
  | |- heap_keeps_off _ _ _ (Heap (snd (_, _))) => cbn [snd]
  end.

Section Frames.
Context {cfg : TConfig}.
Variable K : TKernel.
Context {A : Type} (y : option addr) (π : TContainer → A) (x : addr).
Hypothesis Hframe : frame_ok y π x.

Lemma frame_FreeResources w :
  heap_keeps_off y π (Heap w) (Heap (FreeResources K x w)).
Proof using Hframe.
  unfold FreeResources, ShutdownOom. destruct (Heap w !! x) as [c|]; [|apply heap_keeps_refl].
  destruct (IsRoot c); [by repeat frame_step|].
  destruct (0 <=? LoopDev c)%Z; by repeat frame_step.
Qed.

Lemma frame_Terminate deadline w :
  heap_keeps_off y π (Heap w) (Heap (Terminate K deadline x w).2).
Proof. rewrite (proj1 (Terminate_heap K deadline x w)). apply heap_keeps_refl. Qed.

Lemma frame_ApplyDynamicProperties w :
  heap_keeps_off y π (Heap w) (Heap (ApplyDynamicProperties K x w).2).
Proof using Hframe.
  unfold ApplyDynamicProperties. destruct (Heap w !! x) as [c|] eqn:Hx; [|apply heap_keeps_refl].
  destruct (ApplyDynamic_groups_dirty K x dynamic_groups (TSuccess, c)) as [d Hd].
  cbn [snd] in *. unfold upd, with_Heap. cbn [Heap].
  rewrite (alter_at_value _ (set_PropDirty d) x (Heap w)).
  - apply frame_upd; [done|by intros []].
  - intros c' Hc'. rewrite Hx in Hc'. injection Hc' as <-. exact Hd.
Qed.

Lemma frame_PrepareWorkDir w :
  heap_keeps_off y π (Heap w) (Heap (PrepareWorkDir K x w).2).
Proof using Hframe.
  unfold PrepareWorkDir. destruct (Heap w !! x) as [c|]; [|apply heap_keeps_refl].
  destruct (IsRoot c); [apply heap_keeps_refl|].
  destruct (WorkDir c); [apply heap_keeps_refl|].
  destruct (failed (mkdir_workdir K x)); cbn [snd]; by repeat frame_step.
Qed.

Lemma frame_PrepareCgroups w :
  heap_keeps_off y π (Heap w) (Heap (PrepareCgroups K x w).2).
Proof using Hframe.
  unfold PrepareCgroups, PrepareOomMonitor.
  destruct (Heap w !! x) as [c|]; [|apply heap_keeps_refl].
  destruct (failed (create_cgroups K x)); cbn [snd]; [by repeat frame_step|].
  destruct (negb (IsRoot c) && has_controller (Controllers c) CGROUP_MEMORY);
    [|cbn [snd]; by repeat frame_step].
  destruct (failed (setup_oom K x)); cbn [snd]; by repeat frame_step.
Qed.

Lemma frame_PrepareResources w :
  heap_keeps_off y π (Heap w) (Heap (PrepareResources K x w).2).
Proof using Hframe.
  unfold PrepareResources.
  pose proof (frame_PrepareWorkDir w) as H1.
  destruct (PrepareWorkDir K x w) as [e1 w1]. cbn [snd] in H1.
  destruct (failed e1); cbn [snd].
  { eapply heap_keeps_trans; [exact H1|apply frame_FreeResources]. }
  pose proof (frame_PrepareCgroups w1) as H2.
  destruct (PrepareCgroups K x w1) as [e2 w2]. cbn [snd] in H2.
  destruct (failed e2); cbn [snd].
  { eapply heap_keeps_trans; [exact H1|].
    eapply heap_keeps_trans; [exact H2|apply frame_FreeResources]. }
  assert (H12 : heap_keeps_off y π (Heap w) (Heap w2)) by (by eapply heap_keeps_trans).
  destruct (root_volume K x) as [e3|]; [|done].
  destruct (failed e3); cbn [snd].
  - eapply heap_keeps_trans; [exact H12|apply frame_FreeResources].
  - eapply heap_keeps_trans; [exact H12|]. by repeat frame_step.
Qed.

Lemma frame_Start_task w :
  heap_keeps_off y π (Heap w) (Heap (Start_task K x w).2).
Proof using Hframe.
  unfold Start_task. destruct (failed (prepare_task K x)); [apply heap_keeps_refl|].
  destruct (task_start K x) as [e [[wpid pid] vpid]].
  destruct (failed e); [destruct (oom_received K x)|]; cbn [snd]; by repeat frame_step.
Qed.

(** [Start] after the defaults of virt_mode=os. *)
Lemma frame_Start_rest cl w :
  is_Some (Heap w !! x) → failed (start_checks K x) = false →
  heap_keeps_off y π (Heap (upd x os_defaults w)) (Heap (Start_self K cl x w).2).
Proof using Hframe.
  intros [c Hx] Hchecks.
  unfold Start_self, Start_error, PrepareNetwork, UpdateSoftLimit, Save.
  rewrite Hx, Hchecks.
  set (w' := upd x os_defaults w).
  destruct (failed (caps_checks K x)); [apply heap_keeps_refl|].
  match goal with |- context [PrepareResources K x ?W] => set (w0 := W) end.
  assert (H0 : heap_keeps_off y π (Heap w') (Heap w0)).
  { unfold w0. destruct (Parent (os_defaults c) ≫= fun p => Heap w' !! p) as [pc|];
      [destruct (_ && _)|]; by repeat frame_step. }
  clearbody w0.
  pose proof (frame_PrepareResources w0) as H1.
  destruct (PrepareResources K x w0) as [e1 w1]. cbn [snd] in H1.
  assert (H01 : heap_keeps_off y π (Heap w') (Heap w1)) by (by eapply heap_keeps_trans).
  destruct (failed e1); [done|].
  destruct (failed (parse_net_config K x)); [done|].
  cbn [fst snd].
  set (w2 := upd x (set_Net (prepare_network K x).2) w1).
  assert (H02 : heap_keeps_off y π (Heap w') (Heap w2)).
  { eapply heap_keeps_trans; [exact H01|]. unfold w2. by repeat frame_step. }
  clearbody w2.
  destruct (failed (prepare_network K x).1); cbn [snd].
  { eapply heap_keeps_trans; [exact H02|apply frame_FreeResources]. }
  match goal with |- context [let (_, _) := ?r in _] => set (r3 := r) end.
  assert (H03 : heap_keeps_off y π (Heap w') (Heap r3.2)).
  { unfold r3. destruct (IsRoot (os_defaults c)); [done|].
    eapply heap_keeps_trans; [exact H02|apply frame_ApplyDynamicProperties]. }
  clearbody r3. destruct r3 as [e3 w3]. cbn [snd] in H03.
  destruct (failed e3); [done|].
  destruct (_ && net_caps K x); cbn [snd].
  { eapply heap_keeps_trans; [exact H03|apply frame_FreeResources]. }
  destruct (_ && bool_decide (VirtMode (os_defaults c) = VIRT_MODE_OS)); cbn [snd].
  { eapply heap_keeps_trans; [exact H03|apply frame_FreeResources]. }
  match goal with |- context [let (_, _) := ?r in _] => set (r4 := r) end.
  assert (H04 : heap_keeps_off y π (Heap w') (Heap r4.2)).
  { unfold r4. destruct (negb (IsMeta (os_defaults c)) || Isolate (os_defaults c)); [|done].
    eapply heap_keeps_trans; [exact H03|apply frame_Start_task]. }
  clearbody r4. destruct r4 as [e4 w4]. cbn [snd] in H04.
  destruct (failed e4); cbn [snd].
  { eapply heap_keeps_trans; [exact H04|apply frame_FreeResources]. }
  cbn [emit Heap]. eapply heap_keeps_trans; [exact H04|].
  destruct (IsMeta (os_defaults c)); by apply frame_SetState.
Qed.

(** The whole of [Start] once the parent runs, for a view that does not
    read the command of [x]. *)
Lemma frame_Start_self cl w :
  (y = Some x ∨ ∀ c, π (os_defaults c) = π c) →
  heap_keeps_off y π (Heap w) (Heap (Start_self K cl x w).2).
Proof using Hframe.
  intros Hos. destruct (Heap w !! x) as [c|] eqn:Hx.
  2:{ unfold Start_self. rewrite Hx. apply heap_keeps_refl. }
  destruct (failed (start_checks K x)) eqn:Hchecks.
  { unfold Start_self. rewrite Hx, Hchecks. apply heap_keeps_refl. }
  eapply heap_keeps_trans; [|by apply frame_Start_rest].
  unfold upd, with_Heap. cbn [Heap].
  destruct Hos as [->|Hos]; [apply heap_keeps_alter_at|by apply heap_keeps_alter].
Qed.

End Frames.

Section StartProofs.
Context {cfg : TConfig}.
Variable K : TKernel.


Lemma static_frame_ok (x : addr) : frame_ok None static_fields x.
Proof. split; [by intros v []|]. by right. Qed.

Lemma start_frame_ok (x : addr) : frame_ok None start_fields x.
Proof.
  split; [by intros v []|]. right. intros c c' H. unfold static_fields in H.
  unfold start_fields. congruence.
Qed.

Lemma start_fields_os_defaults (c : TContainer) :
  start_fields (os_defaults c) = start_fields c.
Proof. unfold os_defaults. by destruct (_ && _). Qed.

(** The climb of [Start] to the stopped ancestors keeps the static
    fields of every container, the command apart. *)
Lemma frame_Start_climb (fuel : nat) (cl : TClient) (x : addr) (w : TWorld) :
  heap_keeps start_fields (Heap w) (Heap (Start_climb K fuel cl x w).2).
Proof.
  revert x w. induction fuel as [|fuel IH]; intros x w; [apply heap_keeps_refl|].
  cbn [Start_climb]. destruct (Heap w !! x) as [c|]; [|apply heap_keeps_refl].
  destruct (negb (bool_decide (State c = Stopped))); [apply heap_keeps_refl|].
  match goal with |- context [let (_, _) := ?r in _] => set (r1 := r) end.
  assert (H1 : heap_keeps start_fields (Heap w) (Heap r1.2)).
  { unfold r1. destruct (Parent c ≫= _) as [[p pc]|]; [|apply heap_keeps_refl].
    destruct (bool_decide (State pc = Stopped)); [apply IH|apply heap_keeps_refl]. }
  clearbody r1. destruct r1 as [e1 w1]. cbn [snd] in H1.
  destruct (failed e1); [done|].
  assert (H2 : heap_keeps start_fields (Heap w) (Heap (Start_self K cl x w1).2)).
  { eapply heap_keeps_trans; [exact H1|].
    apply frame_Start_self; [apply start_frame_ok|]. right. apply start_fields_os_defaults. }
  destruct (Parent c ≫= _) as [[p pc]|]; [|done].
  destruct (bool_decide (State pc = Paused)); [done|].
  destruct (_ && _); [done|]. by destruct (cg_frozen K p).
Qed.


End StartProofs.


(** ["a"] of [demo_booted] in virt_mode=os, no command set. *)
Definition demo_os : TWorld := upd demo_a (set_VirtMode VIRT_MODE_OS) demo_booted.

(** Started, it runs ["/sbin/init"]. *)
Example Start_os_default :
  let r := Start quiet_kernel SystemClient demo_a demo_os in
  (Command <$> Heap demo_os !! demo_a) = Some ""%string
  ∧ r.1 = TSuccess
  ∧ (Command <$> Heap r.2 !! demo_a) = Some "/sbin/init"%string
  ∧ (State <$> Heap r.2 !! demo_a) = Some Running
  ∧ (TaskPid <$> Heap r.2 !! demo_a) = Some 4001%Z.
Proof. vm_compute. repeat split; reflexivity. Qed.

Section RespawnProofs.
Context {cfg : TConfig}.
Variable K : TKernel.

Lemma frame_StopOne {A} (y : option addr) (π : TContainer → A) (x : addr) deadline w :
  frame_ok y π x →
  heap_keeps_off y π (Heap w) (Heap (StopOne K deadline x w).2).
Proof.
  intros Hframe. unfold StopOne, Save.
  destruct (Heap w !! x) as [c|]; [|apply heap_keeps_refl].
  destruct (bool_decide (State c = Stopped)); [apply heap_keeps_refl|].
  match goal with |- context [let (_, _) := ?r in _] => set (r1 := r) end.
  assert (H1 : Heap r1.2 = Heap w).
  { unfold r1. destruct (IsRoot c); [done|]. apply Terminate_heap. }
  clearbody r1. destruct r1 as [e1 w1]. cbn [snd] in H1.
  destruct (failed e1); cbn [snd]; [rewrite H1; apply heap_keeps_refl|].
  cbn [emit Heap]. rewrite <- H1.
  eapply heap_keeps_trans; [|by apply frame_FreeResources].
  eapply heap_keeps_trans; [|by apply frame_SetState].
  by repeat frame_step.
Qed.

Lemma Stop_static (timeout : Z) (x : addr) (w : TWorld) :
  heap_keeps static_fields (Heap w) (Heap (Stop K timeout x w).2).
Proof.
  unfold Stop. destruct (Heap w !! x) as [c|]; [|apply heap_keeps_refl].
  match goal with |- context [let (_, _) := ?r in _] => set (r1 := r) end.
  assert (H1 : Heap r1.2 = Heap w).
  { unfold r1. destruct (negb (has_controller _ _)); [by destruct (negb _)|].
    destruct (cg_frozen K x); [|done]. destruct (cg_parent_freezing K x); [done|].
    apply (first_error_inv (fun w' => Heap w' = Heap w)); [done|].
    intros z w' Hw'. by rewrite (proj1 (Stop_thaw_heap K z w')). }
  clearbody r1. destruct r1 as [e1 w1]. cbn [snd] in H1.
  destruct (failed e1); cbn [snd]; [rewrite H1; apply heap_keeps_refl|].
  assert (H2 : heap_keeps static_fields (Heap w)
                 (Heap (first_error (StopOne K (if (timeout =? 0)%Z then 0%Z
                                               else (now K + timeout)%Z))
                          (Subtree (Heap w1) x) w1).2)).
  { apply (first_error_inv (fun w' => heap_keeps static_fields (Heap w) (Heap w'))).
    - rewrite H1. apply heap_keeps_refl.
    - intros z w' Hw'. eapply heap_keeps_trans; [exact Hw'|].
      apply frame_StopOne, static_frame_ok. }
  destruct (first_error _ _ w1) as [e2 w2]. cbn [snd] in H2.
  by destruct (failed e2).
Qed.

(** X21: the respawn count.  [Respawn] adds one to [RespawnCount] when
    the stop it begins with succeeds, whether the start that follows
    succeeds or not, and leaves the count as it was when the stop
    fails. *)
Theorem Respawn_count (kill_timeout_ms : Z) (x : addr) (c : TContainer) (w : TWorld) :
  Heap w !! x = Some c →
  ∃ c', Heap (Respawn K kill_timeout_ms x w).2 !! x = Some c'
    ∧ RespawnCount c'
      = if failed (Stop K kill_timeout_ms x w).1 then RespawnCount c
        else (RespawnCount c + 1)%Z.
Proof.
  intros Hx. unfold Respawn.
  assert (Hcount : frame_ok None RespawnCount x).
  { split; [by intros v []|]. right. intros a b Hab. unfold static_fields in Hab.
    congruence. }
  assert (Hstatic : ∀ a b : TContainer, static_fields a = static_fields b →
                      RespawnCount a = RespawnCount b).
  { intros a b Hab. unfold static_fields in Hab. congruence. }
  assert (Hstart : ∀ a b : TContainer, start_fields a = start_fields b →
                     RespawnCount a = RespawnCount b).
  { intros a b Hab. unfold start_fields in Hab. congruence. }
  pose proof (Stop_static kill_timeout_ms x w x ltac:(done)) as H1.
  destruct (Stop K kill_timeout_ms x w) as [e1 w1]. cbn [fst snd] in *.
  rewrite Hx in H1. destruct (Heap w1 !! x) as [c1|] eqn:Hx1; [|done].
  cbn [fmap option_fmap option_map] in H1. apply (inj Some), Hstatic in H1.
  destruct (failed e1); cbn [snd]; [exists c1; by rewrite Hx1|].
  assert (H2 : heap_keeps start_fields (Heap w1) (Heap (Start K SystemClient x w1).2)).
  { unfold Start. rewrite Hx1. apply frame_Start_climb. }
  specialize (H2 x ltac:(done)).
  destruct (Start K SystemClient x w1) as [e2 w2]. cbn [snd] in *.
  rewrite Hx1 in H2. destruct (Heap w2 !! x) as [c2|] eqn:Hx2; [|done].
  cbn [fmap option_fmap option_map] in H2. apply (inj Some), Hstart in H2.
  unfold Save. cbn [snd emit Heap]. unfold upd, with_Heap. cbn [Heap].
  rewrite list_lookup_alter_eq, Hx2. cbn. eexists. split; [reflexivity|].
  destruct c2. cbn in *. congruence.
Qed.

End RespawnProofs.

Lemma Respawn_count_witness :
  ∃ c', Heap (Respawn quiet_kernel 1000 demo_a demo_booted).2 !! demo_a = Some c'
    ∧ RespawnCount c' = 1%Z.
Proof.
  destruct (Heap demo_booted !! demo_a) as [c|] eqn:Hc; [|vm_compute in Hc; discriminate].
  destruct (Respawn_count quiet_kernel 1000 demo_a c demo_booted Hc) as (c' & Hc' & Hn).
  exists c'. split; [exact Hc'|]. rewrite Hn.
  assert (Hr : (RespawnCount <$> Heap demo_booted !! demo_a) = Some 0%Z)
    by (vm_compute; reflexivity).
  rewrite Hc in Hr. injection Hr as ->.
  assert (Hs : failed (Stop quiet_kernel 1000 demo_a demo_booted).1 = false)
    by (vm_compute; reflexivity).
  by rewrite Hs.
Defined.

(** ** Applying the dynamic properties *)

Section DynamicProofs.
Variable K : TKernel.

Lemma set_PropDirty_set (d d' : gset EProperty) (c : TContainer) :
  set_PropDirty d (set_PropDirty d' c) = set_PropDirty d c.
Proof. by destruct c. Qed.

Lemma PropDirty_set (d : gset EProperty) (c : TContainer) :
  PropDirty (set_PropDirty d c) = d.
Proof. by destruct c. Qed.

Lemma TestClearPropDirty_group (g : list EProperty) (c : TContainer) :
  fold_left (fun c p => (TestClearPropDirty p c).2) g c
  = set_PropDirty (PropDirty c ∖ list_to_set g) c.
Proof.
  revert c. induction g as [|p g IH]; intros c.
  - cbn [fold_left list_to_set]. rewrite <- (set_PropDirty_same c) at 1. f_equal. set_solver.
  - cbn [fold_left list_to_set]. rewrite IH. unfold TestClearPropDirty. cbn [snd].
    rewrite PropDirty_set, set_PropDirty_set. f_equal. set_solver.
Qed.

Lemma ApplyDynamic_group_failed (x : addr) (gs : list (list EProperty))
    (r : TError * TContainer) :
  failed r.1 = true → fold_left (ApplyDynamic_group K x) gs r = r.
Proof.
  intros Hr. induction gs as [|g gs IH]; [done|]. cbn [fold_left].
  unfold ApplyDynamic_group at 2. by rewrite Hr.
Qed.

Lemma ApplyDynamic_groups_clean (x : addr) (gs : list (list EProperty)) (c : TContainer) :
  failed (fold_left (ApplyDynamic_group K x) gs (TSuccess, c)).1 = false →
  (fold_left (ApplyDynamic_group K x) gs (TSuccess, c)).2
  = set_PropDirty (PropDirty c ∖ list_to_set (concat gs)) c.
Proof.
  revert c. induction gs as [|g gs IH]; intros c.
  - intros _. cbn [fold_left concat list_to_set snd].
    rewrite <- (set_PropDirty_same c) at 1. f_equal. set_solver.
  - cbn [fold_left concat].
    assert (Hstep : ApplyDynamic_group K x (TSuccess, c) g
                    = (TSuccess, set_PropDirty (PropDirty c ∖ list_to_set g) c)
                    ∨ failed (ApplyDynamic_group K x (TSuccess, c) g).1 = true).
    { unfold ApplyDynamic_group. cbn [fst snd].
      replace (failed TSuccess) with false by reflexivity.
      rewrite TestClearPropDirty_group. destruct g as [|key g']; [by left|].
      destruct (existsb _ _ && failed (cg_write K x key)) eqn:Hw; [|by left].
      right. apply andb_true_iff in Hw as [_ Hw]. cbn [fst]. unfold dynamic_error.
      destruct (bool_decide (key = P_MEM_LIMIT) && (Errno (cg_write K x key) =? EBUSY)%Z);
        done. }
    destruct Hstep as [->|Hfail].
    + intros Hok. rewrite (IH _ Hok), PropDirty_set, set_PropDirty_set. f_equal.
      rewrite list_to_set_app_L. set_solver.
    + rewrite (ApplyDynamic_group_failed x gs _ Hfail). by rewrite Hfail.
Qed.

(** X22: a successful [ApplyDynamicProperties] leaves no dynamic property
    dirty.  When it returns no error, the dirty bits of all the
    properties it applies are cleared, and nothing else in the container,
    the other dirty bits included, has changed. *)
Theorem ApplyDynamicProperties_clean (x : addr) (c : TContainer) (w : TWorld) :
  Heap w !! x = Some c →
  failed (ApplyDynamicProperties K x w).1 = false →
  Heap (ApplyDynamicProperties K x w).2 !! x
  = Some (set_PropDirty (PropDirty c ∖ list_to_set (concat dynamic_groups)) c).
Proof.
  intros Hx. pose proof (ApplyDynamic_groups_clean x dynamic_groups c) as Hclean.
  unfold ApplyDynamicProperties. rewrite Hx.
  destruct (fold_left (ApplyDynamic_group K x) dynamic_groups (TSuccess, c)) as [e c'].
  cbn [fst snd] in *. intros Hok. rewrite <- (Hclean Hok).
  unfold upd, with_Heap. cbn [Heap]. by rewrite list_lookup_alter_eq, Hx.
Qed.

End DynamicProofs.

Lemma ApplyDynamicProperties_clean_witness :
  ∃ c, Heap demo_limited !! demo_a = Some c
    ∧ Heap (ApplyDynamicProperties quiet_kernel demo_a demo_limited).2 !! demo_a
      = Some (set_PropDirty (PropDirty c ∖ list_to_set (concat dynamic_groups)) c).
Proof.
  destruct (Heap demo_limited !! demo_a) as [c|] eqn:Hc; [|vm_compute in Hc; discriminate].
  exists c. split; [reflexivity|].
  apply (ApplyDynamicProperties_clean quiet_kernel demo_a c demo_limited Hc).
  vm_compute. reflexivity.
Defined.

(** ** The invariants [Create] keeps *)

Lemma wf_heap_intro (h : list TContainer) :
  (∀ x c p, h !! x = Some c → Parent c = Some p →
     ∃ pc, h !! p = Some pc ∧ Level c = S (Level pc)) →
  wf_heap h.
Proof.
  intros H. unfold wf_heap. apply forallb_forall. intros c Hin.
  apply list_elem_of_In, list_elem_of_lookup in Hin as [x Hx].
  unfold wf_at. destruct (Parent c) as [p|] eqn:Hp; [|done].
  destruct (H x c p Hx Hp) as (pc & -> & ->). apply Nat.eqb_refl.
Qed.

Section TreeInvariants.
Context {cfg : TConfig}.
Variable K : TKernel.

Lemma ValidName_loop_result (steps : nat) (name : string) (first i : nat) :
  ValidName_loop steps name first i = TSuccess
  ∨ ValidName_loop steps name first i = Err InvalidValue.
Proof.
  revert first i. induction steps as [|steps IH]; intros first i; [by left|].
  cbn [ValidName_loop]. destruct (name_sep (char_at name i)).
  - destruct (i =? first)%nat; [by right|].
    destruct (CONTAINER_NAME_MAX <? i - first)%nat; [by right|].
    destruct (String.eqb _ SELF_CONTAINER); [by right|].
    destruct (String.eqb _ DOT_CONTAINER); [by right|]. apply IH.
  - destruct (name_char (char_at name i)); [apply IH|by right].
Qed.

Lemma ValidName_result (name : string) :
  ValidName name = TSuccess ∨ ValidName name = Err InvalidValue.
Proof.
  unfold ValidName. destruct (String.length name =? 0)%nat; [by right|].
  destruct (CONTAINER_PATH_MAX <? String.length name)%nat; [by right|].
  destruct (Ascii.eqb (char_at name 0) "/").
  - destruct (String.eqb name ROOT_CONTAINER); [by left|by right].
  - apply ValidName_loop_result.
Qed.

(** The registry leads to the container of that name. *)
Definition registry_ok (w : TWorld) : Prop :=
  ∀ n a, Containers w !! n = Some a → ∃ c, Heap w !! a = Some c ∧ Name c = n.

Definition names_valid (h : list TContainer) : Prop :=
  ∀ x c, h !! x = Some c → ValidName (Name c) = TSuccess.

Definition tree_ok (w : TWorld) : Prop :=
  wf_heap (Heap w) ∧ children_ok (Heap w) ∧ names_ok (Heap w)
  ∧ names_valid (Heap w) ∧ registry_ok w.

(** The container a successful [Create] registers. *)
Lemma Create_new (cl : TClient) (name : string) (w w' : TWorld) :
  Create K cl name w = (TSuccess, w') →
  ∃ ct, w' = Register ct w ∧ Name ct = name ∧ Children ct = []
    ∧ ValidName name = TSuccess
    ∧ match Find (ParentName name) w ≫= fun p => (fun pc => (p, pc)) <$> Heap w !! p with
      | Some (p, pc) => Parent ct = Some p ∧ Level ct = S (Level pc)
      | None => Parent ct = None ∧ name = ROOT_CONTAINER
      end.
Proof.
  unfold Create.
  destruct (ValidName_result name) as [Hvalid|Hvalid]; rewrite Hvalid; [|done].
  replace (failed TSuccess) with false by reflexivity.
  destruct (bool_decide _); [done|].
  destruct (_ <=? _)%nat; [done|].
  set (parent := Find (ParentName name) w ≫= fun p => (fun pc => (p, pc)) <$> Heap w !! p).
  match goal with |- context [failed ?pre] => destruct (failed pre) eqn:E2 end.
  { intros [= He _]. exfalso.
    assert (Hf : failed TSuccess = true) by (rewrite <- He; exact E2). done. }
  destruct (failed (id_get K)) eqn:E3.
  { intros [= He _]. exfalso.
    assert (Hf : failed TSuccess = true) by (rewrite <- He; exact E3). done. }
  match goal with |- context [failed (load_groups K ?c)] =>
    destruct (failed (load_groups K c)) eqn:E4 end.
  { intros [= He _]. exfalso.
    assert (Hf : failed TSuccess = true) by (rewrite <- He; exact E4). done. }
  destruct (failed (save K _)) eqn:E5.
  { intros [= He _]. exfalso.
    assert (Hf : failed TSuccess = true) by (rewrite <- He; exact E5). done. }
  intros [= <-]. eexists. split; [reflexivity|].
  split; [reflexivity|]. split; [reflexivity|]. split; [done|].
  destruct parent as [[p pc]|] eqn:Hparent.
  - split; [reflexivity|]. cbn. lia.
  - split; [reflexivity|]. destruct (String.eqb_spec name ROOT_CONTAINER); [done|].
    cbn in E2. done.
Qed.

End TreeInvariants.

Section RegisterProofs.
Context {cfg : TConfig}.

(** The heap after [Register]. *)
Lemma Register_lookup (ct : TContainer) (w : TWorld) (z : addr) :
  (∀ p, Parent ct = Some p → p < length (Heap w)) →
  Heap (Register ct w) !! z
  = if decide (z = length (Heap w)) then Some ct
    else if decide (Parent ct = Some z)
         then (fun pc => set_Children (Children pc ++ [length (Heap w)]) pc) <$> Heap w !! z
         else Heap w !! z.
Proof.
  intros Hp. unfold Register.
  assert (Happ : (Heap w ++ [ct]) !! z
                 = if decide (z = length (Heap w)) then Some ct else Heap w !! z).
  { destruct (decide (z = length (Heap w))) as [->|Hne].
    - by rewrite lookup_app_r, Nat.sub_diag by lia.
    - destruct (decide (z < length (Heap w))) as [Hlt|Hge].
      + by rewrite lookup_app_l.
      + rewrite lookup_ge_None_2; [|rewrite length_app; cbn; lia].
        symmetry. apply lookup_ge_None_2. lia. }
  destruct (Parent ct) as [p|] eqn:Hpar.
  - specialize (Hp p eq_refl). unfold upd, with_Heap. cbn [Heap].
    destruct (decide (z = p)) as [->|Hne].
    + rewrite list_lookup_alter_eq, Happ.
      destruct (decide (p = length (Heap w))); [lia|]. by rewrite decide_True.
    + rewrite list_lookup_alter_ne, Happ by done.
      destruct (decide (z = length (Heap w))); [done|].
      rewrite decide_False; [done|]. by intros [= ->].
  - cbn [Heap]. rewrite Happ. destruct (decide (z = length (Heap w))); [done|].
    by rewrite decide_False.
Qed.

Lemma Register_Containers (ct : TContainer) (w : TWorld) :
  Containers (Register ct w) = <[Name ct := length (Heap w)]> (Containers w).
Proof. unfold Register. by destruct (Parent ct). Qed.

Lemma Register_newest (ct : TContainer) (w : TWorld) :
  (∀ p, Parent ct = Some p → p < length (Heap w)) →
  Heap (Register ct w) !! length (Heap w) = Some ct.
Proof. intros Hp. rewrite Register_lookup by done. by rewrite decide_True. Qed.

(** A container that was there keeps its name, parent and level, and
    gains the new container as its last child if it is the parent. *)
Lemma Register_old (ct : TContainer) (w : TWorld) (z : addr) (c : TContainer) :
  (∀ p, Parent ct = Some p → p < length (Heap w)) →
  Heap w !! z = Some c →
  ∃ c', Heap (Register ct w) !! z = Some c' ∧ Name c' = Name c
        ∧ Parent c' = Parent c ∧ Level c' = Level c
        ∧ Children c'
          = Children c ++ (if decide (Parent ct = Some z) then [length (Heap w)] else []).
Proof.
  intros Hp Hz. rewrite Register_lookup by done.
  apply lookup_lt_Some in Hz as Hlt. rewrite decide_False by lia.
  destruct (decide (Parent ct = Some z)).
  - rewrite Hz. eexists. split; [reflexivity|]. done.
  - exists c. by rewrite app_nil_r.
Qed.

Lemma Register_inv (ct : TContainer) (w : TWorld) (z : addr) (c' : TContainer) :
  (∀ p, Parent ct = Some p → p < length (Heap w)) →
  Heap (Register ct w) !! z = Some c' →
  (z = length (Heap w) ∧ c' = ct)
  ∨ ∃ c, Heap w !! z = Some c ∧ Name c' = Name c
         ∧ Parent c' = Parent c ∧ Level c' = Level c
         ∧ Children c'
           = Children c ++ (if decide (Parent ct = Some z) then [length (Heap w)] else []).
Proof.
  intros Hp Hz. destruct (decide (z = length (Heap w))) as [->|Hne].
  - left. rewrite Register_newest in Hz by done. by injection Hz as <-.
  - right. destruct (Heap w !! z) as [c|] eqn:Hc.
    + exists c. destruct (Register_old ct w z c Hp Hc) as (c'' & H'' & ?).
      rewrite Hz in H''. by injection H'' as <-.
    + rewrite Register_lookup in Hz by done. rewrite decide_False in Hz by done.
      rewrite Hc in Hz. by destruct (decide _).
Qed.

(** No character of a scanned name is ['%']. *)
Lemma scan_percent_free (rest cur : string) :
  scan cur rest = true → percent_free rest.
Proof.
  unfold percent_free. revert cur. induction rest as [|c r IH]; intros cur; [done|].
  cbn [scan all_chars]. destruct (Ascii.eqb_spec c "%") as [->|Hc]; [done|].
  cbn [negb andb]. destruct (name_sep c).
  - intros [_ H]%andb_true_iff. by apply IH in H.
  - destruct (name_char c); [apply IH|done].
Qed.

Lemma ValidName_percent_free (name : string) :
  ValidName name = TSuccess → percent_free name.
Proof.
  intros [->|H]%ValidName_scan; [done|]. by apply scan_percent_free in H.
Qed.

Lemma ValidName_nonempty : ValidName "" ≠ TSuccess.
Proof. done. Qed.

Section RegisterInvariants.
Variable ct : TContainer.
Variable w : TWorld.
Hypothesis Hwf : wf_heap (Heap w).
Hypothesis Hpar : ∀ p, Parent ct = Some p →
  ∃ pc, Heap w !! p = Some pc ∧ Level ct = S (Level pc) ∧ Name pc = ParentName (Name ct).

Lemma Register_parent_lt (p : addr) : Parent ct = Some p → p < length (Heap w).
Proof using Hpar. intros (pc & Hpc & _)%Hpar. by apply lookup_lt_Some in Hpc. Qed.

Lemma Register_wf : wf_heap (Heap (Register ct w)).
Proof using Hwf Hpar.
  apply wf_heap_intro. intros x c p Hx Hp.
  apply Register_inv in Hx as [[-> ->]|(c0 & Hc0 & _ & HP & HL & _)];
    [| |apply Register_parent_lt].
  - destruct (Hpar p Hp) as (pc & Hpc & Hlev & _).
    destruct (Register_old ct w p pc Register_parent_lt Hpc) as (pc' & Hpc' & _ & _ & HL' & _).
    exists pc'. split; [done|]. congruence.
  - rewrite HP in Hp. destruct (wf_heap_parent _ _ _ _ Hwf Hc0 Hp) as (pc & Hpc & Hlev).
    destruct (Register_old ct w p pc Register_parent_lt Hpc) as (pc' & Hpc' & _ & _ & HL' & _).
    exists pc'. split; [done|]. congruence.
Qed.

Lemma Register_children :
  children_ok (Heap w) → Children ct = [] → children_ok (Heap (Register ct w)).
Proof using Hwf Hpar.
  intros Hch Hnil p pc' Hp.
  apply Register_inv in Hp as [[-> ->]|(pc & Hpc & _ & _ & _ & Hkids)];
    [| |apply Register_parent_lt].
  - rewrite Hnil. split; [constructor|]. intros d. split; [by intros ?%elem_of_nil|].
    intros (dc & Hd & Hdp). exfalso.
    apply Register_inv in Hd as [[-> ->]|(dc0 & Hdc0 & _ & HP & _)];
      [| |apply Register_parent_lt].
    + apply Register_parent_lt in Hdp. lia.
    + rewrite HP in Hdp. destruct (wf_heap_parent _ _ _ _ Hwf Hdc0 Hdp) as (? & Hl & _).
      apply lookup_lt_Some in Hl. lia.
  - destruct (Hch p pc Hpc) as [Hnd Hmem]. rewrite Hkids.
    assert (Hfresh : length (Heap w) ∉ Children pc).
    { intros (dc & Hdc & _)%Hmem. apply lookup_lt_Some in Hdc. lia. }
    split.
    + apply NoDup_app. split; [done|]. split.
      * intros d Hd Hin. destruct (decide (Parent ct = Some p)); [|by apply elem_of_nil in Hin].
        apply list_elem_of_singleton in Hin as ->. done.
      * destruct (decide (Parent ct = Some p)); [apply NoDup_singleton|constructor].
    + intros d. rewrite elem_of_app, Hmem. split.
      * intros [(dc & Hdc & Hdp)|Hin].
        -- destruct (Register_old ct w d dc Register_parent_lt Hdc) as (dc' & Hdc' & _ & HP & _).
           exists dc'. split; [done|]. congruence.
        -- destruct (decide (Parent ct = Some p)) as [Hcp|]; [|by apply elem_of_nil in Hin].
           apply list_elem_of_singleton in Hin as ->. exists ct.
           split; [|done]. apply Register_newest, Register_parent_lt.
      * intros (dc' & Hd & Hdp).
        apply Register_inv in Hd as [[-> ->]|(dc & Hdc & _ & HP & _)];
          [| |apply Register_parent_lt].
        -- right. rewrite decide_True by done. by apply list_elem_of_singleton.
        -- left. exists dc. split; [done|]. congruence.
Qed.

Lemma Register_valid :
  names_valid (Heap w) → ValidName (Name ct) = TSuccess →
  names_valid (Heap (Register ct w)).
Proof using Hpar.
  intros Hval Hct x c Hx.
  apply Register_inv in Hx as [[-> ->]|(c0 & Hc0 & HN & _)]; [done| |apply Register_parent_lt].
  rewrite HN. by apply (Hval x).
Qed.

Lemma Register_registry : registry_ok w → registry_ok (Register ct w).
Proof using Hpar.
  intros Hreg n a. rewrite Register_Containers.
  destruct (decide (n = Name ct)) as [->|Hne].
  - rewrite lookup_insert_eq. intros [= <-]. exists ct. split; [|done].
    apply Register_newest, Register_parent_lt.
  - rewrite lookup_insert_ne by done. intros (c & Hc & Hn)%Hreg.
    destruct (Register_old ct w a c Register_parent_lt Hc) as (c' & Hc' & HN & _).
    exists c'. split; [done|]. congruence.
Qed.

Lemma Register_names :
  names_ok (Heap w) → names_valid (Heap w) → ValidName (Name ct) = TSuccess →
  (Parent ct = None → Name ct = ROOT_CONTAINER) →
  names_ok (Heap (Register ct w)).
Proof using Hpar.
  intros Hnm Hval Hct Hroot x c Hx.
  apply Register_inv in Hx as [[-> ->]|(c0 & Hc0 & HN & HP & _)];
    [| |apply Register_parent_lt].
  - split; [by apply ValidName_percent_free|].
    assert (Hcases : Parent ct = None ∨ ∃ p, Parent ct = Some p)
      by (clear; destruct (Parent ct); eauto).
    destruct Hcases as [Hp|[p Hp]]; rewrite Hp; [by apply Hroot|].
    destruct (Hpar p Hp) as (pc & Hpc & _ & Hpn).
    destruct (Register_old ct w p pc Register_parent_lt Hpc) as (pc' & Hpc' & HN' & _).
    assert (Hpv : ValidName (Name pc) = TSuccess) by by apply (Hval p).
    assert (Hne : Name ct ≠ ROOT_CONTAINER).
    { intros Heq. rewrite Heq in Hpn. rewrite Hpn in Hpv. done. }
    destruct (ValidName_scan _ Hct) as [?|Hscan]; [done|].
    destruct (ParentName_split (Name ct)) as [[_ Hpr]|(f & _ & Hsplit)].
    + exists pc', (Name ct). split; [done|]. split; [done|]. split.
      { intros Heq. rewrite Heq in Hct. done. }
      unfold IsRoot. rewrite HN', Hpn, Hpr. done.
    + exists pc', f. split; [done|]. split; [done|]. rewrite <- Hpn in Hsplit. split.
      { intros ->. rewrite Hsplit in Hscan. by apply scan_after_slash in Hscan. }
      unfold IsRoot. rewrite HN'.
      destruct (String.eqb_spec (Name pc) ROOT_CONTAINER) as [Heq|_]; [|done].
      exfalso. rewrite Heq in Hsplit. apply scan_plain in Hscan as (_ & _ & _ & Hslash).
      rewrite Hsplit in Hslash. done.
  - rewrite HN, HP. destruct (Hnm x c0 Hc0) as [Hfree Hshape]. split; [done|].
    destruct (Parent c0) as [p|]; [|done].
    destruct Hshape as (pc & f & Hpc & Hne & Hf & Hname).
    destruct (Register_old ct w p pc Register_parent_lt Hpc) as (pc' & Hpc' & HN' & _).
    exists pc', f. unfold IsRoot in *. rewrite HN'. done.
Qed.

End RegisterInvariants.

(** X23: [Create] keeps the tree well formed.  When [Create] returns no
    error in a world where every parent is in the heap one level up, the
    [Children] lists are without repetition and hold exactly the containers
    whose [Parent] is their owner, every name is one [ValidName] accepts,
    made of the parent's name, a ['/'] and a name of its own (the root is
    ["/"]), and every entry of the registry leads to the container of that
    name, then the same holds of the world it leaves. *)
Theorem Create_tree_ok (K : TKernel) (cl : TClient) (name : string) (w w' : TWorld) :
  tree_ok w → Create K cl name w = (TSuccess, w') → tree_ok w'.
Proof.
  intros (Hwf & Hch & Hnm & Hval & Hreg) HC.
  destruct (Create_new K cl name w w' HC) as (ct & -> & Hname & Hkids & Hvalid & Hparent).
  assert (Hpar : ∀ p, Parent ct = Some p →
    ∃ pc, Heap w !! p = Some pc ∧ Level ct = S (Level pc) ∧ Name pc = ParentName (Name ct)).
  { intros p Hp. rewrite Hname. unfold Find in Hparent.
    destruct (Containers w !! ParentName name) as [q|] eqn:Hq; cbn in Hparent;
      [|destruct Hparent; congruence].
    destruct (Hreg _ _ Hq) as (pc & Hpc & Hpn). rewrite Hpc in Hparent. cbn in Hparent.
    destruct Hparent as [Hp' Hlev]. exists pc. split; [congruence|]. done. }
  assert (Hroot : Parent ct = None → Name ct = ROOT_CONTAINER).
  { intros Hp. rewrite Hname.
    destruct (Find (ParentName name) w ≫= _) as [[p pc]|]; destruct Hparent; congruence. }
  rewrite <- Hname in Hvalid.
  split; [by apply Register_wf|]. split; [by apply Register_children|].
  split; [by apply Register_names|]. split; [by apply Register_valid|].
  by apply Register_registry.
Qed.

End RegisterProofs.

Lemma tree_ok_empty {cfg : TConfig} : tree_ok empty_world.
Proof.
  split; [done|]. split; [by intros ? ? ?|].
  split; [by intros ? ? ?|]. split; [by intros ? ? ?|].
  intros n a H. cbn in H. by rewrite lookup_empty in H.
Qed.

Lemma Create_tree_ok_witness :
  tree_ok (cfg := stock_config)
    (Create (cfg := stock_config) quiet_kernel SystemClient "a"
       (Create (cfg := stock_config) quiet_kernel SystemClient "/" empty_world).2).2.
Proof.
  eapply (Create_tree_ok (cfg := stock_config) quiet_kernel SystemClient "a").
  - eapply (Create_tree_ok (cfg := stock_config) quiet_kernel SystemClient "/" empty_world).
    + apply tree_ok_empty.
    + vm_compute. reflexivity.
  - vm_compute. reflexivity.
Defined.

(** ** [Destroy] of a stopped subtree *)

Lemma ancestor_of_shape (h h' : list TContainer) (a y : addr) :
  shape h' = shape h → ancestor_of h a y → ancestor_of h' a y.
Proof.
  intros Hs. induction 1 as [y d p Hy Hp|y d p b Hy Hp Hanc IH].
  - destruct (shape_lookup h h' y Hs) as [HP _]. rewrite Hy in HP.
    destruct (h' !! y) as [d'|] eqn:Hy'; [|done]. cbn in HP. injection HP as HP.
    apply (ancestor_parent h' y d' p); [exact Hy'|congruence].
  - destruct (shape_lookup h h' y Hs) as [HP _]. rewrite Hy in HP.
    destruct (h' !! y) as [d'|] eqn:Hy'; [|done]. cbn in HP. injection HP as HP.
    apply (ancestor_step h' y d' p b); [exact Hy'|congruence|exact IH].
Qed.

Lemma subtree_of_shape (h h' : list TContainer) (x : addr) :
  shape h' = shape h → subtree_of h' x = subtree_of h x.
Proof.
  intros Hs. unfold subtree_of. rewrite (shape_length h h' Hs).
  apply list_filter_iff. intros y. by rewrite (shape_ancestors h h' y Hs).
Qed.

Section TreeFacts.
Variable h : list TContainer.
Hypothesis Hwf : wf_heap h.

Lemma subtree_of_self (x : addr) : is_Some (h !! x) → x ∈ subtree_of h x.
Proof using Hwf. intros Hx. apply (elem_of_subtree_of h Hwf). split; [done|by left]. Qed.

(** The parent chain of a container holds one container of each level. *)
Lemma below_level_inj (a b y : addr) :
  is_Some (h !! y) →
  (y = a ∨ ancestor_of h a y) → (y = b ∨ ancestor_of h b y) → lev h a = lev h b → a = b.
Proof using Hwf.
  intros [c Hy]. revert a b. revert y c Hy.
  apply (parent_chain_ind h (fun y _ => ∀ a b,
    (y = a ∨ ancestor_of h a y) → (y = b ∨ ancestor_of h b y) → lev h a = lev h b → a = b));
    [done|..].
  - intros y c Hy Hp a b Ha Hb _.
    assert (Hno : ∀ a', ancestor_of h a' y → False).
    { intros a' Ha'. inversion Ha'; simplify_eq. }
    destruct Ha as [<-|Ha]; [|by apply Hno in Ha].
    destruct Hb as [<-|Hb]; [done|by apply Hno in Hb].
  - intros y c p pc Hy Hp Hpc Hlev IH a b Ha Hb Hl.
    destruct Ha as [<-|Ha], Hb as [<-|Hb]; [done|..].
    + apply (ancestor_of_lev h Hwf) in Hb. lia.
    + apply (ancestor_of_lev h Hwf) in Ha. lia.
    + apply IH; [| |done].
      * destruct (ancestor_of_inv h a y p c Hy Hp Ha); auto.
      * destruct (ancestor_of_inv h b y p c Hy Hp Hb); auto.
Qed.

Lemma subtree_of_child (x d y : addr) (dc : TContainer) :
  h !! d = Some dc → Parent dc = Some x → y ∈ subtree_of h d →
  y ∈ subtree_of h x ∧ y ≠ x.
Proof using Hwf.
  intros Hd Hp Hin. apply (elem_of_subtree_of h Hwf) in Hin as [Hy Hb].
  assert (Hxd : ancestor_of h x d) by by eapply ancestor_parent.
  assert (Hxy : ancestor_of h x y).
  { destruct Hb as [->|Hb]; [done|]. by eapply ancestor_of_trans. }
  split.
  - apply (elem_of_subtree_of h Hwf). split; [done|by right].
  - intros ->. apply (ancestor_of_lev h Hwf) in Hxy. lia.
Qed.

Lemma ancestor_of_first (x y : addr) :
  ancestor_of h x y →
  ∃ d dc, h !! d = Some dc ∧ Parent dc = Some x ∧ (y = d ∨ ancestor_of h d y).
Proof.
  induction 1 as [y c p Hy Hp|y c p a Hy Hp Hanc IH].
  - exists y, c. eauto.
  - destruct IH as (d & dc & Hd & Hdp & Hb). exists d, dc. split; [done|]. split; [done|].
    right. destruct Hb as [->|Hb]; [by eapply ancestor_parent|by eapply ancestor_step].
Qed.

Lemma subtree_of_split (x y : addr) :
  y ∈ subtree_of h x → y ≠ x →
  ∃ d dc, h !! d = Some dc ∧ Parent dc = Some x ∧ y ∈ subtree_of h d.
Proof using Hwf.
  intros Hin Hne. apply (elem_of_subtree_of h Hwf) in Hin as [Hy [->|Hb]]; [done|].
  destruct (ancestor_of_first x y Hb) as (d & dc & Hd & Hp & Hb').
  exists d, dc. split; [done|]. split; [done|].
  by apply (elem_of_subtree_of h Hwf).
Qed.

Lemma subtree_of_siblings (x d d' y : addr) (dc dc' : TContainer) :
  h !! d = Some dc → h !! d' = Some dc' → Parent dc = Some x → Parent dc' = Some x →
  y ∈ subtree_of h d → y ∈ subtree_of h d' → d = d'.
Proof using Hwf.
  intros Hd Hd' Hp Hp' Hin Hin'.
  apply (elem_of_subtree_of h Hwf) in Hin as [Hy Hb].
  apply (elem_of_subtree_of h Hwf) in Hin' as [_ Hb'].
  apply (below_level_inj d d' y Hy Hb Hb').
  unfold lev. rewrite Hd, Hd'.
  destruct (wf_heap_parent h d dc x Hwf Hd Hp) as (pc & Hpc & ->).
  destruct (wf_heap_parent h d' dc' x Hwf Hd' Hp') as (pc' & Hpc' & ->). congruence.
Qed.

Lemma subtree_of_parent (x p : addr) (c : TContainer) :
  h !! x = Some c → Parent c = Some p → p ∉ subtree_of h x.
Proof using Hwf.
  intros Hx Hp Hin. apply (elem_of_subtree_of h Hwf) in Hin as [_ Hb].
  assert (Hpx : ancestor_of h p x) by by eapply ancestor_parent.
  apply (ancestor_of_lev h Hwf) in Hpx.
  destruct Hb as [->|Hb]; [lia|]. apply (ancestor_of_lev h Hwf) in Hb. lia.
Qed.

Lemma length_subtree_of_child (x d : addr) (dc : TContainer) :
  h !! d = Some dc → Parent dc = Some x →
  length (subtree_of h d) < length (subtree_of h x).
Proof using Hwf.
  intros Hd Hp.
  destruct (wf_heap_parent h d dc x Hwf Hd Hp) as (c & Hx & _).
  assert (Hsub : x :: subtree_of h d ⊆+ subtree_of h x).
  { apply NoDup_submseteq.
    - apply NoDup_cons. split; [|apply NoDup_subtree_of].
      intros Hin. by apply (subtree_of_child x d x dc) in Hin as [_ ?].
    - intros y [->|Hin]%elem_of_cons; [by apply subtree_of_self|].
      by apply (subtree_of_child x d y dc). }
  apply submseteq_length in Hsub. cbn in Hsub. lia.
Qed.

Lemma length_children (x : addr) (c : TContainer) (l : list addr) :
  h !! x = Some c → NoDup l →
  (∀ d, d ∈ l → ∃ dc, h !! d = Some dc ∧ Parent dc = Some x) →
  length l < length (subtree_of h x).
Proof using Hwf.
  intros Hx Hnd Hl.
  assert (Hsub : x :: l ⊆+ subtree_of h x).
  { apply NoDup_submseteq.
    - apply NoDup_cons. split; [|done]. intros (dc & Hd & Hp)%Hl.
      destruct (wf_heap_parent h x dc x Hwf Hd Hp) as (pc & Hpc & Hlev).
      assert (pc = dc) by congruence. subst. lia.
    - intros y [->|Hin]%elem_of_cons; [by apply subtree_of_self|].
      destruct (Hl y Hin) as (dc & Hd & Hp).
      apply (subtree_of_child x y y dc Hd Hp). by apply subtree_of_self. }
  apply submseteq_length in Hsub. cbn in Hsub. lia.
Qed.

End TreeFacts.

(** What no method but the constructor writes. *)
Definition fixed (c : TContainer) : option addr * nat * string :=
  (Parent c, Level c, Name c).

Lemma fixed_shape (h h' : list TContainer) :
  (∀ y, fixed <$> h' !! y = fixed <$> h !! y) → shape h' = shape h.
Proof.
  intros H. unfold shape. apply list_eq. intros y. rewrite !list_lookup_fmap.
  specialize (H y). destruct (h' !! y), (h !! y); cbn in *; try done.
  unfold fixed in H. injection H as H1 H2 H3. by rewrite H1, H2.
Qed.

Lemma fixed_lookup (h h' : list TContainer) (y : addr) (c : TContainer) :
  (∀ y, fixed <$> h' !! y = fixed <$> h !! y) → h !! y = Some c →
  ∃ c', h' !! y = Some c' ∧ Parent c' = Parent c ∧ Level c' = Level c ∧ Name c' = Name c.
Proof.
  intros H Hy. specialize (H y). rewrite Hy in H. destruct (h' !! y) as [c'|]; [|done].
  cbn in H. unfold fixed in H. injection H as H1 H2 H3. by exists c'.
Qed.

Lemma fixed_lookup_inv (h h' : list TContainer) (y : addr) (c' : TContainer) :
  (∀ y, fixed <$> h' !! y = fixed <$> h !! y) → h' !! y = Some c' →
  ∃ c, h !! y = Some c ∧ Parent c' = Parent c ∧ Level c' = Level c ∧ Name c' = Name c.
Proof.
  intros H Hy. specialize (H y). rewrite Hy in H. destruct (h !! y) as [c|]; [|done].
  cbn in H. unfold fixed in H. injection H as H1 H2 H3. by exists c.
Qed.

Lemma child_ne_parent (h : list TContainer) (d x : addr) (dc : TContainer) :
  wf_heap h → h !! d = Some dc → Parent dc = Some x → d ≠ x.
Proof.
  intros Hwf Hd Hp ->. destruct (wf_heap_parent h x dc x Hwf Hd Hp) as (pc & Hpc & Hlev).
  assert (pc = dc) by congruence. subst. lia.
Qed.

Lemma set_Children_id (c : TContainer) (l : list addr) :
  Children c = l → set_Children l c = c.
Proof. intros <-. by destruct c. Qed.

Lemma filter_head_out (d : addr) (l : list addr) :
  NoDup (d :: l) → List.filter (fun y => negb (y =? d)%nat) (d :: l) = l.
Proof.
  intros [Hd _]%NoDup_cons. cbn [List.filter]. rewrite Nat.eqb_refl. cbn [negb].
  induction l as [|a l IH]; [done|]. cbn [List.filter].
  apply not_elem_of_cons in Hd as [Hne Hd].
  destruct (Nat.eqb_spec a d) as [->|_]; [done|]. cbn [negb]. by rewrite IH.
Qed.

Section DestroyProofs.
Variable K : TKernel.

(** The loop [while (!Children.empty())] of [Destroy], as [Destroy_fuel]
    has it, with the call on the child passed in. *)
Definition Destroy_children (D : addr → TWorld → option (TError * TWorld)) (x : addr) :
    nat → TWorld → option TWorld :=
  fix children_loop (rounds : nat) (w : TWorld) : option TWorld :=
    match rounds with
    | O => None
    | S rounds' =>
        match Heap w !! x ≫= fun c => head (Children c) with
        | Some child => r ← D child w; children_loop rounds' r.2
        | None => Some w
        end
    end.

(** The passes of the loop [while (!Volumes.empty())] of [Destroy]. *)
Definition Destroy_volumes (x : addr) (volumes : list nat) (w : TWorld) : TWorld :=
  fold_left (fun w volume =>
               let w := emit (AUnlinkVolume volume x) w in
               if negb (failed (volume_unlink K volume x)) && volume_dying K volume
               then emit (ADestroyVolume volume) w else w)
    volumes w.

(** What [Parent->Children.remove] leaves of the parent. *)
Definition unlink (x : addr) (pc : TContainer) : TContainer :=
  set_Children (List.filter (fun y => negb (y =? x)%nat) (Children pc)) pc.

(** The statements of [Destroy] after the loops. *)
Definition Destroy_self (x : addr) (c : TContainer) (w : TWorld) : TWorld :=
  let w := upd x (set_Net None) w in
  let w := emit (APutId x) w in
  let w := with_Containers (delete (Name c) (Containers w)) w in
  let w := match Parent c with
           | Some p => upd p (unlink x) w
           | None => w
           end in
  let w := upd x (set_State Destroyed) w in
  emit (AUnlinkKV x) w.

Lemma Destroy_fuel_stopped (fuel : nat) (x : addr) (c : TContainer) (w : TWorld) :
  Heap w !! x = Some c → State c = Stopped →
  Destroy_fuel K (S fuel) x w
  = w' ← Destroy_children (Destroy_fuel K fuel) x fuel w;
    volumes ← linked_volumes K x;
    Some (TSuccess, Destroy_self x c (Destroy_volumes x volumes w')).
Proof.
  intros Hx Hs. cbn [Destroy_fuel]. rewrite Hx. rewrite bool_decide_eq_true_2 by done.
  reflexivity.
Qed.

Lemma Destroy_self_heap (x : addr) (c : TContainer) (w : TWorld) (y : addr) :
  Parent c ≠ Some x →
  Heap (Destroy_self x c w) !! y
  = (if decide (y = x) then fun cy => set_State Destroyed (set_Net None cy)
     else if decide (Parent c = Some y) then unlink x else fun cy => cy) <$> Heap w !! y.
Proof.
  intros Hne. unfold Destroy_self, upd, with_Heap, with_Containers, emit. cbn [Heap].
  destruct (Parent c) as [p|] eqn:Hp; cbn [Heap].
  - assert (p ≠ x) by congruence.
    destruct (decide (y = x)) as [->|Hyx].
    + rewrite list_lookup_alter_eq, list_lookup_alter_ne, list_lookup_alter_eq by done.
      by destruct (Heap w !! x).
    + rewrite list_lookup_alter_ne by done.
      destruct (decide (Some p = Some y)) as [[= ->]|Hpy].
      * by rewrite list_lookup_alter_eq, list_lookup_alter_ne by done.
      * rewrite !list_lookup_alter_ne by congruence. by destruct (Heap w !! y).
  - destruct (decide (y = x)) as [->|Hyx].
    + rewrite !list_lookup_alter_eq. by destruct (Heap w !! x).
    + rewrite !list_lookup_alter_ne by done. destruct (decide (None = Some y)); [done|].
      by destruct (Heap w !! y).
Qed.

Lemma Destroy_self_Containers (x : addr) (c : TContainer) (w : TWorld) :
  Containers (Destroy_self x c w) = delete (Name c) (Containers w).
Proof. unfold Destroy_self. by destruct (Parent c). Qed.

(** The subtree of [x] is stopped, no volume is linked to its containers
    and its [Children] lists hold the containers below. *)
Definition ready (h : list TContainer) (x : addr) : Prop :=
  ∀ y cy, y ∈ subtree_of h x → h !! y = Some cy →
    State cy = Stopped ∧ linked_volumes K y = Some [] ∧ NoDup (Children cy)
    ∧ ∀ d, d ∈ Children cy ↔ ∃ dc, h !! d = Some dc ∧ Parent dc = Some y.

(** A container [Destroy] is through with. *)
Definition destroyed (c : TContainer) : TContainer :=
  set_State Destroyed (set_Net None (set_Children [] c)).

(** What [Destroy] has done to the registry when the containers [S] are
    destroyed. *)
Definition unregistered (S : addr → Prop) (w w' : TWorld) : Prop :=
  (∀ n, Containers w' !! n = None ∨ Containers w' !! n = Containers w !! n)
  ∧ (∀ y cy, S y → Heap w !! y = Some cy → Containers w' !! Name cy = None)
  ∧ (∀ n, (∀ y cy, S y → Heap w !! y = Some cy → Name cy ≠ n) →
       Containers w' !! n = Containers w !! n).

Definition Destroy_post (x : addr) (c : TContainer) (w w' : TWorld) : Prop :=
  (∀ y, fixed <$> Heap w' !! y = fixed <$> Heap w !! y)
  ∧ (∀ y cy, y ∈ subtree_of (Heap w) x → Heap w !! y = Some cy →
       Heap w' !! y = Some (destroyed cy))
  ∧ (∀ p pc, Parent c = Some p → Heap w !! p = Some pc →
       Heap w' !! p = Some (unlink x pc))
  ∧ (∀ y, y ∉ subtree_of (Heap w) x → Parent c ≠ Some y → Heap w' !! y = Heap w !! y)
  ∧ unregistered (fun y => y ∈ subtree_of (Heap w) x) w w'.

Definition loop_post (x : addr) (c : TContainer) (l : list addr) (w w' : TWorld) : Prop :=
  (∀ y, fixed <$> Heap w' !! y = fixed <$> Heap w !! y)
  ∧ Heap w' !! x = Some (set_Children [] c)
  ∧ (∀ y cy, (∃ d, d ∈ l ∧ y ∈ subtree_of (Heap w) d) → Heap w !! y = Some cy →
       Heap w' !! y = Some (destroyed cy))
  ∧ (∀ y, y ≠ x → (∀ d, d ∈ l → y ∉ subtree_of (Heap w) d) → Heap w' !! y = Heap w !! y)
  ∧ unregistered (fun y => ∃ d, d ∈ l ∧ y ∈ subtree_of (Heap w) d) w w'.

Lemma ready_fixed (h h' : list TContainer) (d : addr) :
  wf_heap h →
  (∀ y, fixed <$> h' !! y = fixed <$> h !! y) →
  (∀ y, y ∈ subtree_of h d → h' !! y = h !! y) →
  ready h d → ready h' d.
Proof.
  intros Hwf Hfix Hsame Hready y cy Hy Hcy.
  rewrite (subtree_of_shape h h' d (fixed_shape h h' Hfix)) in Hy.
  rewrite (Hsame y Hy) in Hcy. destruct (Hready y cy Hy Hcy) as (Hs & Hvol & Hnd & Hiff).
  split; [done|]. split; [done|]. split; [done|]. intros d'. rewrite Hiff. split.
  - intros (dc & Hd & Hp). destruct (fixed_lookup h h' d' dc Hfix Hd) as (dc' & Hd' & HP & _).
    exists dc'. split; [done|]. congruence.
  - intros (dc' & Hd' & Hp).
    destruct (fixed_lookup_inv h h' d' dc' Hfix Hd') as (dc & Hd & HP & _).
    exists dc. split; [done|]. congruence.
Qed.

Section ChildrenLoop.
Variable f : nat.
Hypothesis IH : ∀ x c w,
  wf_heap (Heap w) → Heap w !! x = Some c → ready (Heap w) x →
  length (subtree_of (Heap w) x) ≤ f →
  ∃ w', Destroy_fuel K (S f) x w = Some (TSuccess, w') ∧ Destroy_post x c w w'.

Lemma Destroy_children_spec (x : addr) (l : list addr) :
  ∀ (rounds : nat) (w : TWorld) (c : TContainer),
  wf_heap (Heap w) → Heap w !! x = Some c → Children c = l → NoDup l →
  length l < rounds →
  (∀ d, d ∈ l → ∃ dc, Heap w !! d = Some dc ∧ Parent dc = Some x ∧ ready (Heap w) d
                       ∧ length (subtree_of (Heap w) d) ≤ f) →
  ∃ w', Destroy_children (Destroy_fuel K (S f)) x rounds w = Some w'
        ∧ loop_post x c l w w'.
Proof using IH.
  induction l as [|d l IHl]; intros rounds w c Hwf Hx Hl Hnd Hr Hkids.
  - destruct rounds as [|r]; [cbn in Hr; lia|]. cbn [Destroy_children].
    rewrite Hx. cbn -[Destroy_fuel]. rewrite Hl. cbn -[Destroy_fuel].
    exists w. split; [done|].
    split; [done|]. split; [by rewrite set_Children_id|].
    split; [by intros y cy (d & ?%elem_of_nil & _)|]. split; [done|].
    split; [by right|]. split; [by intros y cy (d & ?%elem_of_nil & _)|done].
  - destruct rounds as [|r]; [cbn in Hr; lia|]. cbn [Destroy_children].
    rewrite Hx. cbn -[Destroy_fuel]. rewrite Hl. cbn -[Destroy_fuel].
    destruct (Hkids d) as (dc & Hd & Hdp & Hready & Hlen); [by left|].
    destruct (IH d dc w Hwf Hd Hready Hlen)
      as (w1 & HD & Hfix1 & Hsub1 & Hpar1 & Hout1 & Hdel1 & Hgone1 & Hkept1).
    rewrite HD. cbn -[Destroy_fuel].
    pose proof (fixed_shape _ _ Hfix1) as Hshape1.
    assert (Hx1 : Heap w1 !! x = Some (set_Children l c)).
    { rewrite (Hpar1 x c Hdp Hx). unfold unlink. by rewrite Hl, filter_head_out. }
    apply NoDup_cons in Hnd as Hnd'. destruct Hnd' as [Hdl Hndl].
    assert (Hsib : ∀ d' y, d' ∈ l → y ∈ subtree_of (Heap w) d' →
                     (y ∉ subtree_of (Heap w) d) ∧ y ≠ x ∧ Heap w1 !! y = Heap w !! y).
    { intros d' y Hd' Hy.
      destruct (Hkids d') as (dc' & Hdc' & Hdp' & _); [by right|].
      assert (Hyd : y ∉ subtree_of (Heap w) d).
      { intros Hyd.
        assert (d = d') by by eapply (subtree_of_siblings (Heap w) Hwf x d d' y).
        by subst. }
      assert (Hyx : y ≠ x) by by eapply (subtree_of_child (Heap w) Hwf x d' y).
      split; [done|]. split; [done|]. apply Hout1; [done|]. congruence. }
    destruct (IHl r w1 (set_Children l c)) as (w' & Hloop & Hfix2 & Hx2 & Hsub2 & Hout2
                                                & Hdel2 & Hgone2 & Hkept2).
    { by eapply shape_wf. }
    { done. }
    { done. }
    { done. }
    { cbn in Hr. lia. }
    { intros d' Hd'. destruct (Hkids d') as (dc' & Hdc' & Hdp' & Hready' & Hlen'); [by right|].
      exists dc'. split.
      { destruct (Hsib d' d' Hd') as (_ & _ & ->); [|done].
        apply (subtree_of_self (Heap w) Hwf). by exists dc'. }
      split; [done|]. split.
      - apply (ready_fixed (Heap w)); [done..| |done].
        intros y Hy. by destruct (Hsib d' y Hd' Hy) as (_ & _ & ?).
      - by rewrite (subtree_of_shape _ _ d' Hshape1). }
    exists w'. split; [done|].
    assert (Hsubs : ∀ y, (∃ d', d' ∈ l ∧ y ∈ subtree_of (Heap w1) d')
                         ↔ (∃ d', d' ∈ l ∧ y ∈ subtree_of (Heap w) d')).
    { intros y. split; intros (d' & Hd' & Hy); exists d'; (split; [done|]).
      - by rewrite <- (subtree_of_shape _ _ d' Hshape1).
      - by rewrite (subtree_of_shape _ _ d' Hshape1). }
    split; [intros y; by rewrite Hfix2|].
    split; [by rewrite Hx2|].
    split.
    { intros y cy (d' & [->|Hd']%elem_of_cons & Hy) Hcy.
      - rewrite Hout2.
        + by apply Hsub1.
        + by eapply (subtree_of_child (Heap w) Hwf x d y).
        + intros d' Hd'. rewrite (subtree_of_shape _ _ d' Hshape1). intros Hy'.
          by destruct (Hsib d' y Hd' Hy') as (? & _).
      - destruct (Hsib d' y Hd' Hy) as (_ & _ & Hsame).
        apply Hsub2; [|by rewrite Hsame]. apply Hsubs. by exists d'. }
    split.
    { intros y Hyx Hy. rewrite Hout2.
      - apply Hout1; [apply Hy; by left|]. congruence.
      - done.
      - intros d' Hd'. rewrite (subtree_of_shape _ _ d' Hshape1). apply Hy. by right. }
    split.
    { intros n. destruct (Hdel2 n) as [?| ->]; [by left|apply Hdel1]. }
    split.
    { intros y cy (d' & [->|Hd']%elem_of_cons & Hy) Hcy.
      - destruct (Hdel2 (Name cy)) as [?| ->]; [done|]. by apply (Hgone1 y).
      - destruct (Hsib d' y Hd' Hy) as (_ & _ & Hsame).
        apply (Hgone2 y); [|by rewrite Hsame]. apply Hsubs. by exists d'. }
    intros n Hn. rewrite Hkept2.
    + apply Hkept1. intros y cy Hy. apply Hn. exists d. split; [by left|done].
    + intros y cy1 (d' & Hd' & Hy)%Hsubs Hcy1.
      destruct (Hsib d' y Hd' Hy) as (_ & _ & Hsame). rewrite Hsame in Hcy1.
      apply (Hn y cy1); [|done]. exists d'. split; [by right|done].
Qed.

End ChildrenLoop.

Lemma ready_child (h : list TContainer) (x d : addr) (dc : TContainer) :
  wf_heap h → h !! d = Some dc → Parent dc = Some x → ready h x → ready h d.
Proof.
  intros Hwf Hd Hp Hready y cy Hy. apply Hready.
  by apply (subtree_of_child h Hwf x d y dc).
Qed.

(** [Destroy] on a stopped subtree, with fuel for the containers of the
    subtree. *)
Lemma Destroy_fuel_spec (f : nat) :
  ∀ x c w,
  wf_heap (Heap w) → Heap w !! x = Some c → ready (Heap w) x →
  length (subtree_of (Heap w) x) ≤ f →
  ∃ w', Destroy_fuel K (S f) x w = Some (TSuccess, w') ∧ Destroy_post x c w w'.
Proof.
  induction f as [|f IHf]; intros x c w Hwf Hx Hready Hlen.
  { exfalso. assert (Hin : x ∈ subtree_of (Heap w) x)
      by (apply (subtree_of_self (Heap w) Hwf); by exists c).
    destruct (subtree_of (Heap w) x); [by apply elem_of_nil in Hin|cbn in Hlen; lia]. }
  assert (Hself : x ∈ subtree_of (Heap w) x)
    by (apply (subtree_of_self (Heap w) Hwf); by exists c).
  destruct (Hready x c Hself Hx) as (Hstate & Hvol & Hnd & Hkids).
  rewrite (Destroy_fuel_stopped (S f) x c w Hx Hstate).
  destruct (Destroy_children_spec f IHf x (Children c) (S f) w c Hwf Hx eq_refl Hnd)
    as (w2 & Hloop & Hfix2 & Hx2 & Hsub2 & Hout2 & Hdel2 & Hgone2 & Hkept2).
  { pose proof (length_children (Heap w) Hwf x c (Children c) Hx Hnd) as Hlt.
    assert (length (Children c) < length (subtree_of (Heap w) x)); [|lia].
    apply Hlt. intros d Hd. by apply Hkids. }
  { intros d (dc & Hd & Hp)%Hkids. exists dc. split; [done|]. split; [done|]. split.
    - by apply (ready_child (Heap w) x d dc).
    - pose proof (length_subtree_of_child (Heap w) Hwf x d dc Hd Hp). lia. }
  rewrite Hloop. cbn -[Destroy_self]. rewrite Hvol. cbn -[Destroy_self].
  unfold Destroy_volumes. cbn [fold_left]. eexists. split; [reflexivity|].
  assert (Hpx : Parent c ≠ Some x).
  { intros Hp. by apply (child_ne_parent (Heap w) x x c Hwf Hx Hp). }
  assert (Hchild : ∀ y, y ∈ subtree_of (Heap w) x → y ≠ x →
                     ∃ d, d ∈ Children c ∧ y ∈ subtree_of (Heap w) d).
  { intros y Hy Hyx.
    destruct (subtree_of_split (Heap w) Hwf x y Hy Hyx) as (d & dc & Hd & Hp & Hyd).
    exists d. split; [|done]. apply Hkids. by exists dc. }
  assert (Hin : ∀ y d, d ∈ Children c → y ∈ subtree_of (Heap w) d →
                  y ∈ subtree_of (Heap w) x ∧ y ≠ x).
  { intros y d (dc & Hd & Hp)%Hkids Hy. by apply (subtree_of_child (Heap w) Hwf x d y dc). }
  assert (Hpar : ∀ p, Parent c = Some p → p ≠ x ∧ p ∉ subtree_of (Heap w) x).
  { intros p Hp. split; [congruence|]. by apply (subtree_of_parent (Heap w) Hwf x p c). }
  split.
  { intros y. rewrite Destroy_self_heap by done. rewrite <- Hfix2.
    destruct (Heap w2 !! y) as [cy|]; [|done]. cbn.
    destruct (decide (y = x)); [done|]. by destruct (decide (Parent c = Some y)). }
  split.
  { intros y cy Hy Hcy. rewrite Destroy_self_heap by done.
    destruct (decide (y = x)) as [->|Hyx].
    - rewrite Hx2. assert (cy = c) by congruence. by subst.
    - destruct (Hchild y Hy Hyx) as (d & Hd & Hyd).
      rewrite (Hsub2 y cy); [|by exists d|done].
      destruct (decide (Parent c = Some y)) as [Hp|_]; [|done].
      by destruct (Hpar y Hp). }
  split.
  { intros p pc Hp Hpc. destruct (Hpar p Hp) as [Hne Hout].
    rewrite Destroy_self_heap by done. rewrite decide_False, decide_True by done.
    rewrite Hout2; [by rewrite Hpc|done|].
    intros d Hd Hpd. by destruct (Hin p d Hd Hpd). }
  split.
  { intros y Hy Hp. rewrite Destroy_self_heap by done.
    assert (Hyx : y ≠ x) by (by intros ->).
    rewrite !decide_False by done. rewrite Hout2; [by destruct (Heap w !! y)|done|].
    intros d Hd Hyd. by destruct (Hin y d Hd Hyd). }
  split.
  { intros n. rewrite Destroy_self_Containers.
    destruct (decide (n = Name c)) as [->|Hn]; [left; apply lookup_delete_eq|].
    rewrite lookup_delete_ne by done. apply Hdel2. }
  split.
  { intros y cy Hy Hcy. rewrite Destroy_self_Containers.
    destruct (decide (Name cy = Name c)) as [->|Hn]; [apply lookup_delete_eq|].
    rewrite lookup_delete_ne by done.
    destruct (decide (y = x)) as [->|Hyx]; [congruence|].
    destruct (Hchild y Hy Hyx) as (d & Hd & Hyd). apply (Hgone2 y); [by exists d|done]. }
  intros n Hn. rewrite Destroy_self_Containers.
  rewrite lookup_delete_ne by (intros <-; by apply (Hn x c)).
  apply Hkept2. intros y cy (d & Hd & Hyd). apply Hn. by destruct (Hin y d Hd Hyd).
Qed.

(** X24: [Destroy] of a stopped subtree.  In a well-formed tree whose
    [Children] lists agree with the [Parent] pointers, when the container
    and every container [Subtree] lists below it are [Stopped] and have no
    volume linked ([Volumes] is empty), [Destroy] comes to an end and
    returns no error.  Each container of the subtree is then [Destroyed],
    without children and without network, and its name is gone from the
    registry; the parent has lost the container from its [Children]; no
    other container and no other name of the registry has changed. *)
Theorem Destroy_stopped_subtree (x : addr) (c : TContainer) (w : TWorld) :
  wf_heap (Heap w) → children_ok (Heap w) → Heap w !! x = Some c →
  (∀ y cy, y ∈ Subtree (Heap w) x → Heap w !! y = Some cy → State cy = Stopped) →
  (∀ y, y ∈ Subtree (Heap w) x → linked_volumes K y = Some []) →
  ∃ w', Destroy K x w = Some (TSuccess, w')
    ∧ (∀ y cy, y ∈ Subtree (Heap w) x → Heap w !! y = Some cy →
         Heap w' !! y = Some (set_State Destroyed (set_Net None (set_Children [] cy)))
         ∧ Containers w' !! Name cy = None)
    ∧ (∀ p pc, Parent c = Some p → Heap w !! p = Some pc →
         Heap w' !! p
         = Some (set_Children
                   (List.filter (fun y => negb (y =? x)%nat) (Children pc)) pc))
    ∧ (∀ y, y ∉ Subtree (Heap w) x → Parent c ≠ Some y → Heap w' !! y = Heap w !! y)
    ∧ (∀ n, (∀ y cy, y ∈ Subtree (Heap w) x → Heap w !! y = Some cy → Name cy ≠ n) →
         Containers w' !! n = Containers w !! n).
Proof.
  intros Hwf Hkids Hx Hstopped Hvolumes.
  assert (Hsame : ∀ y, y ∈ Subtree (Heap w) x ↔ y ∈ subtree_of (Heap w) x).
  { intros y. rewrite (Subtree_subtree_of (Heap w) Hwf Hkids x); [done|by exists c]. }
  assert (Hready : ready (Heap w) x).
  { intros y cy Hy Hcy. split; [apply (Hstopped y cy); [by apply Hsame|done]|].
    split; [apply Hvolumes; by apply Hsame|]. apply (Hkids y cy Hcy). }
  destruct (Destroy_fuel_spec (length (Heap w)) x c w Hwf Hx Hready)
    as (w' & HD & _ & Hsub & Hpar & Hout & _ & Hgone & Hkept).
  { apply length_subtree_of. }
  exists w'. split; [exact HD|]. split.
  { intros y cy Hy%Hsame Hcy. split; [by apply Hsub|by apply (Hgone y)]. }
  split; [exact Hpar|]. split.
  { intros y Hy Hp. apply Hout; [|done]. by rewrite <- Hsame. }
  intros n Hn. apply Hkept. intros y cy Hy%Hsame. by apply Hn.
Qed.

End DestroyProofs.

Lemma Destroy_stopped_subtree_witness :
  ∃ w', Destroy quiet_kernel demo_a demo_world = Some (TSuccess, w')
    ∧ (State <$> Heap w' !! demo_ab) = Some Destroyed
    ∧ Containers w' !! "a/b"%string = None.
Proof.
  destruct (Heap demo_world !! demo_a) as [c|] eqn:Hc; [|vm_compute in Hc; discriminate].
  destruct (Heap demo_world !! demo_ab) as [cz|] eqn:Hz; [|vm_compute in Hz; discriminate].
  assert (HS : Subtree (Heap demo_world) demo_a = [demo_ab; demo_a])
    by (vm_compute; reflexivity).
  destruct (Destroy_stopped_subtree quiet_kernel demo_a c demo_world)
    as (w' & HD & Hsub & _).
  - vm_compute. reflexivity.
  - apply children_okb_spec. vm_compute. reflexivity.
  - exact Hc.
  - intros y cy Hy Hcy. rewrite HS in Hy.
    assert (Hstate : (State <$> Heap demo_world !! y) = Some Stopped).
    { apply elem_of_cons in Hy as [->|Hy]; [vm_compute; reflexivity|].
      apply list_elem_of_singleton in Hy as ->. vm_compute. reflexivity. }
    rewrite Hcy in Hstate. by injection Hstate.
  - reflexivity.
  - exists w'. split; [exact HD|].
    destruct (Hsub demo_ab cz) as [Hd Hn]; [rewrite HS; by left|exact Hz|].
    split; [by rewrite Hd|].
    assert (Hname : (Name <$> Heap demo_world !! demo_ab) = Some "a/b"%string)
      by (vm_compute; reflexivity).
    rewrite Hz in Hname. injection Hname as Hname. by rewrite <- Hname.
Defined.
